(* ===== verification/_CoqProject ===== *)
-Q . S2P
Prelude.v
GoUnicode.v
GoStrings.v
Trie.v
TrieHeap.v
Rules.v
Store.v
GoPath.v
Watcher.v
GoBytes.v
Dedup.v
GoNet.v
DnsParse.v
FakeResolver.v
GoFloat.v
Ipset.v
Source.v
Metrics.v
BpfEvent.v
Loader.v
Pipeline.v
PipelineRun.v
HandleProg.v
Workers.v
KernelSpec.v
EndToEnd.v
Daemon.v
Reloaders.v
Main.v
