(* ===== verification/Prelude.v ===== *)
(** * A verification of dns2ipset

    dns2ipset is a Linux daemon that watches the DNS responses of a host and
    writes the addresses of configured domains into kernel ipsets. This library
    models its program as executable definitions, one file per part, and proves
    the properties that make it correct. Names follow the Go code, so that a
    definition can be read next to the function it translates.

    ** The program

    A BPF program (internal/bpf/c) copies DNS datagrams into a ring buffer; the
    loader (internal/bpf/loader.go) decodes them into events; the pipeline
    (internal/pipeline) passes each event, on one of several worker goroutines,
    through the dedup cache (internal/dedup), the DNS parser (internal/dnsparse),
    the suffix trie of the current rules (internal/rules) and the ipset client
    (internal/ipset). main.go loads the rules, builds the parts and reloads the
    rules on SIGHUP and on changes of the file.

    ** The files

    Foundations, which model the Go language and standard library (no source
    lines of the repository):
    - [Prelude]: results, lists, permutations, measures on transition systems;
    - [GoUnicode], [GoStrings], [GoPath]: UTF-8, lower case, [strings],
      [strconv.Quote], [filepath];
    - [GoBytes], [GoNet], [GoFloat]: little-endian integers, durations, [net.IP],
      the [float64] arithmetic of [Duration.Seconds].

    Components:
    - [Trie] (rules/trie.go): the trie as a value; [TrieHeap]: the same trie with
      its nodes behind pointers in a heap, mutated in place, refining [Trie];
    - [Rules] (rules/loader.go): loading, validating and normalising rules;
    - [Store] (rules/store.go): the atomic snapshot of rules and trie;
    - [Watcher] (rules/watcher.go): target resolution and the event loop;
    - [Dedup] (dedup/dedup.go): against the interface [LRU] with laws [LRULaws],
      instantiated by a list; also the two halves of [Seen] interleaved;
    - [DnsParse] (dnsparse/parser.go): the two passes of [Parse];
    - [Ipset] (ipset/client.go): the interface [Client], [ClampTTL] and the
      netlink client, an instance of [Client];
    - [Source] (source/source.go, source/fake/fake.go): events, the interface
      [Source] of a source as a labelled step relation, the laws [SourceLaws],
      and the replay source;
    - [BpfEvent] (bpf/c/dns2ipset.bpf.c and [decode] of bpf/loader.go): both
      sides of the ring buffer over the byte image of [struct event];
    - [Loader] (bpf/loader.go): acquiring and releasing resources, and the read
      loop, an instance of [Source] and [SourceLaws];
    - [Metrics] (metrics/metrics.go): the collectors; the calls on them are a
      trace, from which counters and gauges are read;
    - [Pipeline] (pipeline/pipeline.go, [handle]): handling one event, over any
      [Client], [LRU] and DNS codec;
    - [PipelineRun] (pipeline/pipeline.go, [Run]): the goroutines and channels as
      a step relation, over any [Source] and any handler, which is one step;
    - [HandleProg] (pipeline/pipeline.go, [handle]): [handle] again, as a program
      over the atomic operations the workers share, equal to [Pipeline.handle]
      when it runs alone, with a weakest-precondition logic over its answers;
    - [Workers]: a pool of such programs, interleaved with each other and with
      reloads;
    - [KernelSpec] (the contract of ipset/client.go): the kernel's sets with
      expiry times as an abstract machine, which the client and the whole pool
      refine, given the laws [KernelLaws] of one addition;
    - [EndToEnd]: hook, decoder, [handle], client and kernel put in a row;
    - [Daemon] (cmd/dns2ipset/main.go): [reload] alone and interleaved, and the
      pipeline assembled from [Loader], [handle] and reloads;
    - [Reloaders] (main.go and rules/watcher.go): the one-slot SIGHUP channel, the
      watcher's loop and the file, with the two goroutines that call [reload];
    - [Main] (cmd/dns2ipset/main.go, [main], [newLogger]): start-up and shutdown,
      with the trace of everything [main] does;
    - [FakeResolver] (stress/fake-resolver/main.go): the rotating test resolver.

    ** State and errors

    A Go function returning an error returns a [result]; a panic is [None] of an
    [option]. Where only the text of an error matters the error is its text.
    Shared objects are explicit state, effects on libraries (metrics, registry,
    fsnotify, BPF resources) are traces of calls. The clock is an argument: every
    reading of it is arbitrary unless a theorem asks for monotonic readings.

    ** What the theorems show

    - The purpose: [answer_reaches_kernel], the addresses a response gives for a
      configured domain are in the domain's ipset, for the minimum TTL at least;
      [Netlink_refines_ipset] and [workers_allow] carry this to any schedule of
      the workers, and say that no other element of the sets changes.
    - Assembly: [daemon_shutdown], [Run_safe], [Run_returns], [Run_terminates]:
      no event sent is lost or handled twice, no goroutine waits for ever once
      the context is done, no send on a closed channel.
    - Overlap: [handle_prog_alone] ties the program of operations to the function;
      [workers_effects] says which operations a pool performs for its events,
      [workers_first_copy] that of the copies of a payload the first is handled,
      [workers_independent] that events with payloads of distinct keys cause the
      writes each causes alone, whatever the schedule.
    - One event: [handle_effects] and [handle_writes] say which writes an event
      makes, once each and in which order, and that errors stop nothing;
      [handle_metrics] gives every counter label by label, [reason_label] the
      reasons of failed writes.
    - Rules: [Lookup_shortest_suffix] and its companions characterise lookups;
      [heap_trie_refines] carries them to the pointer structure;
      [loadFromBytes_spec], [loaded_rules_wf], [BuildTrie_last_wins],
      [Store_coherent], [reload_keeps_last], [reload_interleaved] follow the
      rules from the file to the workers; [reload_settles] says that the
      goroutines that reload come to rest with the rules of the file in place;
      [NewWatcher_target] follows the watcher from the path to the calls its loop
      makes.
    - Start and end: [main_outcome], [main_effects].
    - Boundaries: [handle_decode] (C and Go agree on every event),
      [decode_accepts], [Run_sends], [Parse_records] and the other theorems on
      [Parse], [Add_timeout], [Add_errors], [miss_log_rate], [Seen_trace],
      [Seen_interleaved].

    ** Bounds and fuel

    Machine integers are [Z] with their wrap-around written out where it can
    happen; the ranges assumed of inputs are hypotheses ([hook_ok], [event_ok]).
    Fuel appears only in the UTF-8 decoder, which is given the length of its input
    and consumes at least a byte per unit. [Run_terminates] bounds the steps by
    [run_cost], a measure every step decreases; a source has finitely many
    deliveries ahead of it ([SourceLaws]), which is the assumption under which the
    code's own wait for the source ends. [Add_timeout] holds below [2 ^ 23]
    seconds (97 days; the default maximum is 7 days); above it the floating-point
    sum can round up by a second, as [Seconds_rounds_up] shows. The kernel keeps
    timeouts of at most [max_timeout] seconds (its documented limit); [ttl_bounds]
    asks of a configuration that its minimum is at least a second and its maximum
    within that limit, which the defaults meet. [reload_settles] needs the file
    and the context to be left alone, and bounds the steps to rest by [cost].

    ** Not modelled

    Third-party code is a parameter with the laws the program relies on: the YAML
    decoder, the DNS codec, the LRU cache, netlink and the kernel, fsnotify,
    Prometheus, the eBPF library. Of the standard library, [flag.Parse] and what
    is behind [net/http] and [pprof] are not modelled: [main] starts from parsed
    flags, and the metrics server is its routes and the result of serving. Log
    lines are their messages without the fields. That Prometheus panics on a
    label value that is not UTF-8 is not modelled. The errors the watcher receives
    are ignored, by the code and by the model. [Main] shows the calls [main] makes
    itself: the reader is also closed by the loader's goroutine once the context is
    done, which is in [Loader] as the read that finds it closed. Programs other than the daemon that change the ipsets are not part
    of [KernelSpec]. A shared operation (a cache method, the store's load, a call
    of the client) is one atomic step of [Workers]; inside a client call, only
    the log table is shared, under its mutex. generate.go is a build directive,
    and packaging, deployment and stress scripts are no Go. *)

From Stdlib Require Export ZArith Lia Ascii.
From stdpp Require Export base gmap strings list fin_maps relations numbers pretty.

(** Let [simpl] and [cbn] compute an append whose first string is known. *)
#[global] Arguments String.append !_ _ / : simpl nomatch.

(** ** Results: Go's [(value, error)] pairs *)

(** A Go function that returns [(T, error)] either returns a value with a nil
    error or an error with a value nobody reads. *)
Inductive result (E A : Type) : Type :=
| Ok (a : A)
| Err (e : E).
Arguments Ok {E A} a.
Arguments Err {E A} e.

#[global] Instance result_ret {E} : MRet (result E) := λ A a, Ok a.
#[global] Instance result_bind {E} : MBind (result E) := λ A B f r,
  match r with
  | Ok a => f a
  | Err e => Err e
  end.
#[global] Instance result_fmap {E} : FMap (result E) := λ A B f r,
  match r with
  | Ok a => Ok (f a)
  | Err e => Err e
  end.

Definition is_ok {E A : Type} (r : result E A) : bool :=
  match r with Ok _ => true | Err _ => false end.

Create HintDb dns discriminated.
Create Rewrite HintDb dns.

Section result_lemmas.
Context {E A B : Type}.

Lemma result_bind_Ok (r : result E A) (f : A → result E B) (b : B) :
  r ≫= f = Ok b ↔ ∃ a, r = Ok a ∧ f a = Ok b.
Proof. destruct r; cbn; naive_solver. Qed.

Lemma result_bind_Err (r : result E A) (f : A → result E B) (e : E) :
  r ≫= f = Err e ↔ r = Err e ∨ ∃ a, r = Ok a ∧ f a = Err e.
Proof. destruct r; cbn; naive_solver. Qed.

End result_lemmas.

#[global] Instance result_eq_dec {E A} `{EqDecision E, EqDecision A} : EqDecision (result E A).
Proof. solve_decision. Defined.

(** ** Tactics *)

(** Split every boolean conjunction, disjunction and comparison of the context
    into its propositional form. *)
Ltac bool_to_prop :=
  repeat match goal with
  | H : _ && _ = true |- _ => apply andb_prop in H as [? ?]
  | H : _ && _ = false |- _ => apply andb_false_iff in H as [H|H]
  | H : _ || _ = true |- _ => apply orb_prop in H as [H|H]
  | H : _ || _ = false |- _ => apply orb_false_iff in H as [? ?]
  | H : negb _ = true |- _ => apply negb_true_iff in H
  | H : negb _ = false |- _ => apply negb_false_iff in H
  | H : (_ =? _)%Z = true |- _ => apply Z.eqb_eq in H
  | H : (_ =? _)%Z = false |- _ => apply Z.eqb_neq in H
  | H : (_ <? _)%Z = true |- _ => apply Z.ltb_lt in H
  | H : (_ <? _)%Z = false |- _ => apply Z.ltb_ge in H
  | H : (_ <=? _)%Z = true |- _ => apply Z.leb_le in H
  | H : (_ <=? _)%Z = false |- _ => apply Z.leb_gt in H
  | H : (_ =? _)%nat = true |- _ => apply Nat.eqb_eq in H
  | H : (_ =? _)%nat = false |- _ => apply Nat.eqb_neq in H
  | H : bool_decide _ = true |- _ => apply bool_decide_eq_true in H
  | H : bool_decide _ = false |- _ => apply bool_decide_eq_false in H
  end.

(** Case analysis on the comparisons of the goal, then linear arithmetic. *)
Ltac solve_cmp :=
  repeat case_match; bool_to_prop; simplify_eq/=; try lia; try done.

(** Permutations of appended lists, from permutation hypotheses: both sides have
    every element as often. *)
Ltac solve_perm :=
  repeat match goal with
  | H : _ ≡ₚ _ |- _ => rewrite (Permutation_count_occ (λ x y, decide (x = y))) in H
  end;
  rewrite (Permutation_count_occ (λ x y, decide (x = y)));
  let x := fresh "x" in intros x;
  repeat match goal with
  | H : ∀ y, count_occ _ _ y = _ |- _ => specialize (H x); rewrite ?count_occ_app in H
  end;
  rewrite ?count_occ_app; lia.

(** ** Lists *)

Section list_lemmas.
Context {A T : Type}.

(** A fold preserves an invariant that every one of its steps preserves. *)
Lemma foldl_inv (P : T → Prop) (f : T → A → T) (l : list A) (s : T) :
  P s → (∀ s a, a ∈ l → P s → P (f s a)) → P (foldl f s l).
Proof.
  revert s; induction l as [|a l IH]; intros s Hs Hstep; [done|]; simpl.
  apply IH; [apply Hstep; [left|done] | intros; apply Hstep; [by right|done]].
Qed.

Lemma foldl_ext_in (f g : T → A → T) (l : list A) (s : T) :
  (∀ s a, a ∈ l → f s a = g s a) → foldl f s l = foldl g s l.
Proof.
  revert s; induction l as [|a l IH]; intros s Hfg; [done|]; simpl.
  rewrite Hfg by left. apply IH; intros; apply Hfg; by right.
Qed.

Lemma foldl_snoc (f : T → A → T) (l : list A) (a : A) (s : T) :
  foldl f s (l ++ [a]) = f (foldl f s l) a.
Proof. by rewrite foldl_app. Qed.

Lemma foldl_concat (f : T → A → T) (ls : list (list A)) (s : T) :
  foldl (foldl f) s ls = foldl f s (concat ls).
Proof.
  revert s; induction ls as [|l ls IH]; intros s; [done|]; simpl.
  by rewrite foldl_app, IH.
Qed.

(** Reading a list downwards by index, the way Go's
    [for i := len(l) - 1; i >= 0; i--] does, is reading its reverse. *)
Lemma take_S_rev (l : list A) (i : nat) (a : A) :
  l !! i = Some a → rev (take (S i) l) = a :: rev (take i l).
Proof. intros Ha. by rewrite (take_S_r _ _ _ Ha), rev_app_distr. Qed.

End list_lemmas.

Lemma omap_fmap {A B C} (f : B → option C) (g : A → B) (l : list A) :
  omap f (g <$> l) = omap (λ a, f (g a)) l.
Proof. induction l as [|a l IH]; [done|]. cbn. by rewrite <-IH. Qed.

Lemma omap_none {A B} (l : list A) : omap (λ _, @None B) l = [].
Proof. by induction l. Qed.

Lemma fmap_omap {A B C} (f : B → C) (g : A → option B) (l : list A) :
  f <$> omap g l = omap (λ a, f <$> g a) l.
Proof. induction l as [|a l IH]; [done|]. cbn. rewrite <-IH. by destruct (g a). Qed.

Lemma omap_ext_in {A B} (f g : A → option B) (l : list A) :
  (∀ a, a ∈ l → f a = g a) → omap f l = omap g l.
Proof.
  intros H. apply list_omap_ext, Forall_Forall2_diag, Forall_forall. done.
Qed.

(** The first element with a property, when there is one. *)
Lemma list_exist_first {A} (P : A → Prop) (Hdec : ∀ a, Decision (P a)) (l : list A) :
  Exists P l → ∃ pre a post, l = pre ++ a :: post ∧ P a ∧ Forall (λ b, ¬ P b) pre.
Proof.
  intros Hex. induction l as [|a l IH]; [by apply Exists_nil in Hex|].
  destruct (decide (P a)) as [Ha|Ha]; [by exists [], a, l|].
  apply Exists_cons in Hex as [?|Hex]; [done|].
  destruct (IH Hex) as (pre & b & post & -> & Hb & Hpre).
  exists (a :: pre), b, post. split; [done|]. split; [done|]. by constructor.
Qed.

(** ** Transition systems *)

(** Rule induction for [rtc]: a property every step preserves is preserved by
    any number of steps. *)
Lemma rtc_preserves {T} (R : relation T) (P : T → Prop) (x y : T) :
  (∀ a b, P a → R a b → P b) → P x → rtc R x y → P y.
Proof. intros Hstep Hx Hr. induction Hr; eauto. Qed.

(** A measure that every step decreases bounds the length of every run. *)
Lemma nsteps_measure {T} (R : relation T) (P : T → Prop) (m : T → nat) n x y :
  (∀ a b, P a → R a b → P b ∧ (m b < m a)%nat) → P x → nsteps R n x y → (n + m y ≤ m x)%nat.
Proof.
  intros Hdec Hx Hn. induction Hn as [|n x y z Hxy Hyz IH]; [lia|].
  destruct (Hdec _ _ Hx Hxy) as [Hy ?]. specialize (IH Hy). lia.
Qed.

(** ... and lets every state reach one that cannot step. *)
Lemma measure_reaches_nf {T} (R : relation T) (P Q : T → Prop) (m : T → nat) x :
  (∀ a b, P a → R a b → P b ∧ (m b < m a)%nat) →
  (∀ a, P a → Q a ∨ ∃ b, R a b) →
  P x → ∃ y, rtc R x y ∧ Q y.
Proof.
  intros Hdec Hprog. remember (m x) as k eqn:Hk. revert x Hk.
  induction k as [k IH] using lt_wf_ind; intros x -> Hx.
  destruct (Hprog x Hx) as [HQ|[y Hxy]]; [by exists x|].
  destruct (Hdec _ _ Hx Hxy) as [Hy Hlt].
  destruct (IH _ Hlt y eq_refl Hy) as (z & Hyz & HQ).
  exists z; split; [by eapply rtc_l|done].
Qed.
