(* ===== verification/GoUnicode.v ===== *)
(** * Go's [unicode] and [unicode/utf8] packages, as far as the program uses them

    A Go string is a sequence of bytes; [strings.ToLower] and
    [strings.TrimSpace] read it as UTF-8. This file has the byte view of
    strings, the UTF-8 codec (with the replacement character for malformed
    bytes), [unicode.IsSpace] and the simple lower-case mapping
    [unicode.ToLower]. These are standard-library functions, so they have no
    source lines in the repository. *)

From S2P Require Import Prelude.
#[local] Open Scope Z_scope.

(** ** Bytes of a string *)

Definition byte_of (a : ascii) : Z := Z.of_N (N_of_ascii a).
Definition ascii_of (z : Z) : ascii := ascii_of_N (Z.to_N z).

(** The bytes of a Go string, each in [[0, 256)]. *)
Definition bytes_of (s : string) : list Z := byte_of <$> String.list_ascii_of_string s.
Definition string_of (l : list Z) : string := String.string_of_list_ascii (ascii_of <$> l).

(** ** UTF-8 *)

(** [utf8.RuneError] *)
Definition RuneError : Z := 0xFFFD.

Definition valid_rune (r : Z) : bool :=
  (0 <=? r) && (r <? 0xD800) || (0xE000 <=? r) && (r <=? 0x10FFFF).

Definition cont (lo hi b : Z) : bool := (lo <=? b) && (b <=? hi).

(** Lowest and highest second byte after the leading byte [b0] of a three-byte
    or four-byte sequence: Go's [acceptRanges] table. *)
Definition accept3 (b0 : Z) : Z * Z :=
  if b0 =? 0xE0 then (0xA0, 0xBF) else if b0 =? 0xED then (0x80, 0x9F) else (0x80, 0xBF).
Definition accept4 (b0 : Z) : Z * Z :=
  if b0 =? 0xF0 then (0x90, 0xBF) else if b0 =? 0xF4 then (0x80, 0x8F) else (0x80, 0xBF).

(** [utf8.DecodeRune]: the first rune of the bytes and the bytes it takes; a
    malformed byte is [RuneError] of width one. *)
Definition DecodeRune (l : list Z) : Z * nat :=
  match l with
  | [] => (RuneError, 0%nat)
  | b0 :: t =>
    if b0 <? 0x80 then (b0, 1%nat)
    else if cont 0xC2 0xDF b0 then
      match t with
      | b1 :: _ =>
        if cont 0x80 0xBF b1 then ((b0 - 0xC0) * 64 + (b1 - 0x80), 2%nat) else (RuneError, 1%nat)
      | _ => (RuneError, 1%nat)
      end
    else if cont 0xE0 0xEF b0 then
      match t with
      | b1 :: b2 :: _ =>
        if cont (accept3 b0).1 (accept3 b0).2 b1 && cont 0x80 0xBF b2
        then ((b0 - 0xE0) * 4096 + (b1 - 0x80) * 64 + (b2 - 0x80), 3%nat) else (RuneError, 1%nat)
      | _ => (RuneError, 1%nat)
      end
    else if cont 0xF0 0xF4 b0 then
      match t with
      | b1 :: b2 :: b3 :: _ =>
        if cont (accept4 b0).1 (accept4 b0).2 b1 && cont 0x80 0xBF b2 && cont 0x80 0xBF b3
        then ((b0 - 0xF0) * 262144 + (b1 - 0x80) * 4096 + (b2 - 0x80) * 64 + (b3 - 0x80), 4%nat)
        else (RuneError, 1%nat)
      | _ => (RuneError, 1%nat)
      end
    else (RuneError, 1%nat)
  end.

(** [utf8.AppendRune] on an empty buffer. *)
Definition EncodeRune (r : Z) : list Z :=
  let r := if valid_rune r then r else RuneError in
  if r <? 0x80 then [r]
  else if r <? 0x800 then [0xC0 + r / 64; 0x80 + r mod 64]
  else if r <? 0x10000 then [0xE0 + r / 4096; 0x80 + (r / 64) mod 64; 0x80 + r mod 64]
  else [0xF0 + r / 262144; 0x80 + (r / 4096) mod 64; 0x80 + (r / 64) mod 64; 0x80 + r mod 64].

(** [for _, r := range s]: the runes of a string, each with the bytes it was
    read from. Every step takes at least one byte, so the length is fuel enough. *)
Fixpoint chunks_go (fuel : nat) (l : list Z) : list (Z * list Z) :=
  match fuel with
  | O => []
  | S fuel =>
    match l with
    | [] => []
    | _ => let '(r, w) := DecodeRune l in (r, take w l) :: chunks_go fuel (drop w l)
    end
  end.
Definition chunks (l : list Z) : list (Z * list Z) := chunks_go (length l) l.
Definition runes (l : list Z) : list Z := (chunks l).*1.

(** ** Character classes *)

(** [unicode.IsSpace] *)
Definition IsSpace (r : Z) : bool :=
  cont 0x09 0x0D r || (r =? 0x20) || (r =? 0x85) || (r =? 0xA0) || (r =? 0x1680)
  || cont 0x2000 0x200A r || (r =? 0x2028) || (r =? 0x2029) || (r =? 0x202F)
  || (r =? 0x205F) || (r =? 0x3000).

(** The simple lower-case mapping of Unicode 15.0, the version of Go 1.21 to
    1.25: rows [(lo, hi, stride, delta)], a rune [lo + k * stride <= hi] maps to
    itself plus [delta], every other rune to itself. *)
Definition lower_table : list (Z * Z * Z * Z) :=
  [ (65, 90, 1, 32); (192, 214, 1, 32); (216, 222, 1, 32); (256, 302, 2, 1);
    (304, 304, 1, (-199)); (306, 310, 2, 1); (313, 327, 2, 1); (330, 374, 2, 1);
    (376, 376, 1, (-121)); (377, 381, 2, 1); (385, 385, 1, 210); (386, 388, 2, 1);
    (390, 390, 1, 206); (391, 391, 1, 1); (393, 394, 1, 205); (395, 395, 1, 1);
    (398, 398, 1, 79); (399, 399, 1, 202); (400, 400, 1, 203); (401, 401, 1, 1);
    (403, 403, 1, 205); (404, 404, 1, 207); (406, 406, 1, 211); (407, 407, 1, 209);
    (408, 408, 1, 1); (412, 412, 1, 211); (413, 413, 1, 213); (415, 415, 1, 214);
    (416, 420, 2, 1); (422, 422, 1, 218); (423, 423, 1, 1); (425, 425, 1, 218); (428, 428, 1, 1);
    (430, 430, 1, 218); (431, 431, 1, 1); (433, 434, 1, 217); (435, 437, 2, 1);
    (439, 439, 1, 219); (440, 440, 1, 1); (444, 444, 1, 1); (452, 452, 1, 2); (453, 453, 1, 1);
    (455, 455, 1, 2); (456, 456, 1, 1); (458, 458, 1, 2); (459, 475, 2, 1); (478, 494, 2, 1);
    (497, 497, 1, 2); (498, 500, 2, 1); (502, 502, 1, (-97)); (503, 503, 1, (-56));
    (504, 542, 2, 1); (544, 544, 1, (-130)); (546, 562, 2, 1); (570, 570, 1, 10795);
    (571, 571, 1, 1); (573, 573, 1, (-163)); (574, 574, 1, 10792); (577, 577, 1, 1);
    (579, 579, 1, (-195)); (580, 580, 1, 69); (581, 581, 1, 71); (582, 590, 2, 1);
    (880, 882, 2, 1); (886, 886, 1, 1); (895, 895, 1, 116); (902, 902, 1, 38); (904, 906, 1, 37);
    (908, 908, 1, 64); (910, 911, 1, 63); (913, 929, 1, 32); (931, 939, 1, 32); (975, 975, 1, 8);
    (984, 1006, 2, 1); (1012, 1012, 1, (-60)); (1015, 1015, 1, 1); (1017, 1017, 1, (-7));
    (1018, 1018, 1, 1); (1021, 1023, 1, (-130)); (1024, 1039, 1, 80); (1040, 1071, 1, 32);
    (1120, 1152, 2, 1); (1162, 1214, 2, 1); (1216, 1216, 1, 15); (1217, 1229, 2, 1);
    (1232, 1326, 2, 1); (1329, 1366, 1, 48); (4256, 4293, 1, 7264); (4295, 4295, 1, 7264);
    (4301, 4301, 1, 7264); (5024, 5103, 1, 38864); (5104, 5109, 1, 8); (7312, 7354, 1, (-3008));
    (7357, 7359, 1, (-3008)); (7680, 7828, 2, 1); (7838, 7838, 1, (-7615)); (7840, 7934, 2, 1);
    (7944, 7951, 1, (-8)); (7960, 7965, 1, (-8)); (7976, 7983, 1, (-8)); (7992, 7999, 1, (-8));
    (8008, 8013, 1, (-8)); (8025, 8031, 2, (-8)); (8040, 8047, 1, (-8)); (8072, 8079, 1, (-8));
    (8088, 8095, 1, (-8)); (8104, 8111, 1, (-8)); (8120, 8121, 1, (-8)); (8122, 8123, 1, (-74));
    (8124, 8124, 1, (-9)); (8136, 8139, 1, (-86)); (8140, 8140, 1, (-9)); (8152, 8153, 1, (-8));
    (8154, 8155, 1, (-100)); (8168, 8169, 1, (-8)); (8170, 8171, 1, (-112));
    (8172, 8172, 1, (-7)); (8184, 8185, 1, (-128)); (8186, 8187, 1, (-126));
    (8188, 8188, 1, (-9)); (8486, 8486, 1, (-7517)); (8490, 8490, 1, (-8383));
    (8491, 8491, 1, (-8262)); (8498, 8498, 1, 28); (8544, 8559, 1, 16); (8579, 8579, 1, 1);
    (9398, 9423, 1, 26); (11264, 11311, 1, 48); (11360, 11360, 1, 1);
    (11362, 11362, 1, (-10743)); (11363, 11363, 1, (-3814)); (11364, 11364, 1, (-10727));
    (11367, 11371, 2, 1); (11373, 11373, 1, (-10780)); (11374, 11374, 1, (-10749));
    (11375, 11375, 1, (-10783)); (11376, 11376, 1, (-10782)); (11378, 11378, 1, 1);
    (11381, 11381, 1, 1); (11390, 11391, 1, (-10815)); (11392, 11490, 2, 1);
    (11499, 11501, 2, 1); (11506, 11506, 1, 1); (42560, 42604, 2, 1); (42624, 42650, 2, 1);
    (42786, 42798, 2, 1); (42802, 42862, 2, 1); (42873, 42875, 2, 1);
    (42877, 42877, 1, (-35332)); (42878, 42886, 2, 1); (42891, 42891, 1, 1);
    (42893, 42893, 1, (-42280)); (42896, 42898, 2, 1); (42902, 42920, 2, 1);
    (42922, 42922, 1, (-42308)); (42923, 42923, 1, (-42319)); (42924, 42924, 1, (-42315));
    (42925, 42925, 1, (-42305)); (42926, 42926, 1, (-42308)); (42928, 42928, 1, (-42258));
    (42929, 42929, 1, (-42282)); (42930, 42930, 1, (-42261)); (42931, 42931, 1, 928);
    (42932, 42946, 2, 1); (42948, 42948, 1, (-48)); (42949, 42949, 1, (-42307));
    (42950, 42950, 1, (-35384)); (42951, 42953, 2, 1); (42960, 42960, 1, 1);
    (42966, 42968, 2, 1); (42997, 42997, 1, 1); (65313, 65338, 1, 32); (66560, 66599, 1, 40);
    (66736, 66771, 1, 40); (66928, 66938, 1, 39); (66940, 66954, 1, 39); (66956, 66962, 1, 39);
    (66964, 66965, 1, 39); (68736, 68786, 1, 64); (71840, 71871, 1, 32); (93760, 93791, 1, 32);
    (125184, 125217, 1, 34) ].

Definition in_row (r : Z) (row : Z * Z * Z * Z) : bool :=
  let '(lo, hi, stride, _) := row in (lo <=? r) && (r <=? hi) && ((r - lo) mod stride =? 0).

(** [unicode.ToLower] *)
Definition unicode_ToLower (r : Z) : Z :=
  match List.find (in_row r) lower_table with
  | Some (_, _, _, delta) => r + delta
  | None => r
  end.

(** ** The byte view *)

Lemma ascii_of_byte_of a : ascii_of (byte_of a) = a.
Proof. unfold ascii_of, byte_of. by rewrite N2Z.id, ascii_N_embedding. Qed.

Lemma byte_of_range a : 0 ≤ byte_of a < 256.
Proof. unfold byte_of. pose proof (N_ascii_bounded a). lia. Qed.

Lemma byte_of_ascii_of z : 0 ≤ z < 256 → byte_of (ascii_of z) = z.
Proof. intros ?. unfold ascii_of, byte_of. rewrite N_ascii_embedding; lia. Qed.

Lemma string_of_bytes_of s : string_of (bytes_of s) = s.
Proof.
  unfold string_of, bytes_of. rewrite <-list_fmap_compose.
  rewrite (list_fmap_ext _ id), list_fmap_id; [apply String.string_of_list_ascii_of_string|].
  intros ? ? _. apply ascii_of_byte_of.
Qed.

Lemma bytes_of_string_of l : Forall (λ z, 0 ≤ z < 256) l → bytes_of (string_of l) = l.
Proof.
  intros Hl. unfold string_of, bytes_of.
  rewrite String.list_ascii_of_string_of_list_ascii, <-list_fmap_compose.
  induction Hl as [|z l Hz Hl IH]; [done|]; simpl. f_equal; [by apply byte_of_ascii_of|done].
Qed.

Lemma bytes_of_range s : Forall (λ z, 0 ≤ z < 256) (bytes_of s).
Proof. apply Forall_fmap, Forall_true. intros a. apply byte_of_range. Qed.

Lemma list_ascii_app s1 s2 :
  String.list_ascii_of_string (s1 +:+ s2)
  = String.list_ascii_of_string s1 ++ String.list_ascii_of_string s2.
Proof. induction s1 as [|a s1 IH]; [done|]. by cbn; rewrite <-IH. Qed.

Lemma bytes_of_app s1 s2 : bytes_of (s1 +:+ s2) = bytes_of s1 ++ bytes_of s2.
Proof. unfold bytes_of. by rewrite list_ascii_app, fmap_app. Qed.

Lemma string_of_app l1 l2 : string_of (l1 ++ l2) = string_of l1 +:+ string_of l2.
Proof.
  unfold string_of. rewrite fmap_app. induction (ascii_of <$> l1) as [|a l IH]; [done|].
  cbn in *. by rewrite IH.
Qed.

Lemma bytes_of_cons a s : bytes_of (String a s) = byte_of a :: bytes_of s.
Proof. done. Qed.

Lemma bytes_of_inj s1 s2 : bytes_of s1 = bytes_of s2 → s1 = s2.
Proof. intros H. by rewrite <-(string_of_bytes_of s1), H, string_of_bytes_of. Qed.

(** ** The codec *)

(** Expose the comparisons of a decoding or encoding step. *)
Ltac codec :=
  simpl in *; unfold cont, accept3, accept4 in *; solve_cmp; unfold RuneError in *; try lia.

Lemma DecodeRune_width l : l ≠ [] → (1 ≤ (DecodeRune l).2 ≤ length l)%nat.
Proof. destruct l as [|b0 [|b1 [|b2 [|b3 l]]]]; intros ?; codec. Qed.

Lemma DecodeRune_ascii b l : 0 ≤ b < 0x80 → DecodeRune (b :: l) = (b, 1%nat).
Proof. intros ?. simpl. rewrite (proj2 (Z.ltb_lt b 0x80)) by lia. done. Qed.

Lemma DecodeRune_valid l : Forall (λ z, 0 ≤ z < 256) l → valid_rune (DecodeRune l).1 = true.
Proof.
  intros Hl. unfold valid_rune. apply orb_true_iff.
  destruct l as [|b0 [|b1 [|b2 [|b3 l]]]]; repeat (apply Forall_cons in Hl as [? Hl]);
    rewrite ?andb_true_iff, ?Z.leb_le, ?Z.ltb_lt; codec.
Qed.

(** An ASCII byte after the first never becomes part of the first rune. *)
Lemma DecodeRune_app_ascii l b k :
  l ≠ [] → 0 ≤ b < 0x80 → DecodeRune (l ++ b :: k) = DecodeRune l.
Proof.
  intros Hl Hb. destruct l as [|b0 [|b1 [|b2 [|b3 l]]]]; [done|..]; codec.
Qed.

Lemma div_mod_split n m : 0 < m → n = m * (n / m) + n mod m ∧ 0 ≤ n mod m < m.
Proof. intros. split; [apply Z.div_mod; lia | by apply Z.mod_pos_bound]. Qed.

Lemma DecodeRune_EncodeRune r l :
  valid_rune r = true → DecodeRune (EncodeRune r ++ l) = (r, length (EncodeRune r)).
Proof.
  intros Hv. unfold EncodeRune. rewrite Hv. unfold valid_rune in Hv.
  apply orb_true_iff in Hv.
  pose proof (div_mod_split r 64 ltac:(lia)).
  pose proof (div_mod_split (r / 64) 64 ltac:(lia)).
  pose proof (div_mod_split (r / 64 / 64) 64 ltac:(lia)).
  replace (r / 4096) with (r / 64 / 64) by (by rewrite Z.div_div by lia).
  replace (r / 262144) with (r / 64 / 64 / 64) by (by rewrite !Z.div_div by lia).
  rewrite !andb_true_iff, !Z.leb_le, !Z.ltb_lt in Hv.
  generalize dependent (r / 64 / 64 / 64). generalize dependent ((r / 64 / 64) mod 64).
  generalize dependent (r / 64 / 64). generalize dependent ((r / 64) mod 64).
  generalize dependent (r / 64). generalize dependent (r mod 64). intros.
  destruct (r <? 0x80) eqn:E1; [codec|]. destruct (r <? 0x800) eqn:E2; [codec; f_equal; lia|].
  destruct (r <? 0x10000) eqn:E3; codec; f_equal; lia.
Qed.

Lemma EncodeRune_range r : Forall (λ z, 0 ≤ z < 256) (EncodeRune r).
Proof.
  unfold EncodeRune. destruct (valid_rune r) eqn:Hv; cycle 1.
  { repeat constructor; vm_compute; done. }
  unfold valid_rune in Hv. apply orb_true_iff in Hv.
  rewrite !andb_true_iff, !Z.leb_le, !Z.ltb_lt in Hv.
  pose proof (Z.mod_pos_bound r 64 ltac:(lia)).
  pose proof (Z.mod_pos_bound (r / 64) 64 ltac:(lia)).
  pose proof (Z.mod_pos_bound (r / 4096) 64 ltac:(lia)).
  repeat case_match; bool_to_prop; repeat constructor; try lia;
    first [apply Z.div_pos; lia | apply Z.lt_add_lt_sub_l, Z.div_lt_upper_bound; lia
          | assert (0 ≤ r / 64) by (apply Z.div_pos; lia);
            assert (0 ≤ r / 4096) by (apply Z.div_pos; lia);
            assert (0 ≤ r / 262144) by (apply Z.div_pos; lia); lia ].
Qed.

Lemma EncodeRune_nonempty r : EncodeRune r ≠ [].
Proof. unfold EncodeRune. repeat case_match; done. Qed.

(** ** Runes of a string *)

Lemma chunks_go_cons fuel b l :
  chunks_go (S fuel) (b :: l)
  = ((DecodeRune (b :: l)).1, take (DecodeRune (b :: l)).2 (b :: l))
      :: chunks_go fuel (drop (DecodeRune (b :: l)).2 (b :: l)).
Proof. cbn [chunks_go]. by destruct (DecodeRune (b :: l)). Qed.

Lemma chunks_go_fuel n m l : (length l ≤ n)%nat → (length l ≤ m)%nat → chunks_go n l = chunks_go m l.
Proof.
  revert m l. induction n as [|n IH]; intros [|m] [|b l]; cbn [length]; try lia; [done..|].
  intros ? ?. rewrite !chunks_go_cons. f_equal.
  pose proof (DecodeRune_width (b :: l) ltac:(done)) as Hw. cbn [length] in Hw.
  apply IH; rewrite length_drop; cbn [length]; lia.
Qed.

Lemma chunks_cons b l :
  chunks (b :: l)
  = ((DecodeRune (b :: l)).1, take (DecodeRune (b :: l)).2 (b :: l))
      :: chunks (drop (DecodeRune (b :: l)).2 (b :: l)).
Proof.
  unfold chunks. cbn [length]. rewrite chunks_go_cons. f_equal.
  pose proof (DecodeRune_width (b :: l) ltac:(done)) as Hw. cbn [length] in Hw.
  apply chunks_go_fuel; rewrite length_drop; cbn [length]; lia.
Qed.

(** Induction over the runes of a string. *)
Lemma rune_ind (P : list Z → Prop) :
  P [] → (∀ b l, P (drop (DecodeRune (b :: l)).2 (b :: l)) → P (b :: l)) → ∀ l, P l.
Proof.
  intros Hnil Hcons l. remember (length l) as n eqn:Hn. revert l Hn.
  induction n as [n IH] using lt_wf_ind; intros [|b l] ->; [done|]. apply Hcons.
  pose proof (DecodeRune_width (b :: l) ltac:(done)).
  eapply IH; [|done]. rewrite length_drop. simpl in *; lia.
Qed.

(** The chunks cut the string without losing a byte. *)
Lemma chunks_concat l : concat (chunks l).*2 = l.
Proof.
  induction l as [|b l IH] using rune_ind; [done|].
  rewrite chunks_cons, fmap_cons. cbn [concat snd]. by rewrite IH, take_drop.
Qed.

Lemma chunks_app_ascii l b k :
  0 ≤ b < 0x80 → chunks (l ++ b :: k) = chunks l ++ (b, [b]) :: chunks k.
Proof.
  intros Hb. induction l as [|c l IH] using rune_ind.
  { rewrite app_nil_l, chunks_cons, DecodeRune_ascii by done. done. }
  pose proof (DecodeRune_width (c :: l) ltac:(done)) as Hw.
  rewrite <-app_comm_cons, !chunks_cons.
  rewrite (app_comm_cons l (b :: k) c), DecodeRune_app_ascii by done.
  rewrite take_app_le, drop_app_le by lia. by rewrite IH.
Qed.

Lemma runes_app_ascii l b k : 0 ≤ b < 0x80 → runes (l ++ b :: k) = runes l ++ b :: runes k.
Proof. intros. unfold runes. by rewrite chunks_app_ascii, fmap_app. Qed.

Lemma runes_cons_ascii b k : 0 ≤ b < 0x80 → runes (b :: k) = b :: runes k.
Proof. apply (runes_app_ascii []). Qed.

Lemma runes_ascii l : Forall (λ b, 0 ≤ b < 0x80) l → runes l = l.
Proof. induction 1 as [|b l Hb Hl IH]; [done|]. by rewrite runes_cons_ascii, IH. Qed.

Lemma runes_valid l : Forall (λ z, 0 ≤ z < 256) l → Forall (λ r, valid_rune r = true) (runes l).
Proof.
  induction l as [|b l IH] using rune_ind; intros Hl; [constructor|].
  unfold runes. rewrite chunks_cons, fmap_cons. constructor; [by apply DecodeRune_valid|].
  by apply IH, Forall_drop.
Qed.

Lemma runes_EncodeRune rs :
  Forall (λ r, valid_rune r = true) rs → runes (concat (EncodeRune <$> rs)) = rs.
Proof.
  induction 1 as [|r rs Hr Hrs IH]; [done|]. rewrite fmap_cons. cbn [concat].
  pose proof (EncodeRune_nonempty r).
  destruct (EncodeRune r ++ concat (EncodeRune <$> rs)) as [|b l] eqn:E.
  { apply app_eq_nil in E as [? ?]; done. }
  unfold runes. rewrite chunks_cons, <-E, DecodeRune_EncodeRune, fmap_cons by done.
  cbn [fst snd]. rewrite drop_app_length. f_equal. apply IH.
Qed.

(** ** Lower case *)

(** The runes a row of the table maps. *)
Definition row_members (row : Z * Z * Z * Z) : list Z :=
  let '(lo, hi, stride, _) := row in
  (λ k, lo + stride * k) <$> seqZ 0 ((hi - lo) / stride + 1).

Lemma in_row_member r row :
  0 < row.1.2 → in_row r row = true → r ∈ row_members row.
Proof.
  destruct row as [[[lo hi] stride] delta]; simpl. intros Hs Hr. bool_to_prop.
  pose proof (Z.div_mod (r - lo) stride ltac:(lia)).
  apply list_elem_of_fmap. exists ((r - lo) / stride). split; [lia|].
  apply elem_of_seqZ. split; [apply Z.div_pos; lia|].
  assert ((r - lo) / stride ≤ (hi - lo) / stride) by (apply Z.div_le_mono; lia). lia.
Qed.

(** What the proofs use of a mapped rune, decided on the whole table. *)
Definition lower_ok (r : Z) : bool :=
  let r' := unicode_ToLower r in
  valid_rune r' && (unicode_ToLower r' =? r') && negb (r' =? 0x2E) && negb (r =? 0x2E)
  && negb (IsSpace r').

Lemma lower_table_ok :
  forallb (λ row, (0 <? row.1.2) && forallb lower_ok (row_members row)) lower_table = true.
Proof. vm_compute. reflexivity. Qed.

Lemma unicode_ToLower_cases r : unicode_ToLower r = r ∨ lower_ok r = true.
Proof.
  unfold unicode_ToLower. destruct (find (in_row r) lower_table) as [row|] eqn:E; [|by left].
  right. apply find_some in E as [Hin Hr].
  pose proof lower_table_ok as Hok. rewrite forallb_forall in Hok.
  specialize (Hok _ Hin). bool_to_prop.
  eapply forallb_forall; [done|]. by apply list_elem_of_In, in_row_member.
Qed.

Lemma unicode_ToLower_idemp r : unicode_ToLower (unicode_ToLower r) = unicode_ToLower r.
Proof.
  destruct (unicode_ToLower_cases r) as [E|Hok]; [by rewrite E|].
  unfold lower_ok in Hok. bool_to_prop. done.
Qed.

Lemma unicode_ToLower_valid r : valid_rune r = true → valid_rune (unicode_ToLower r) = true.
Proof.
  intros Hr. destruct (unicode_ToLower_cases r) as [E|Hok]; [by rewrite E|].
  unfold lower_ok in Hok. by bool_to_prop.
Qed.

(** No letter lowers to a full stop, and the full stop has no lower case. *)
Lemma unicode_ToLower_dot r : unicode_ToLower r = 0x2E ↔ r = 0x2E.
Proof.
  split; [|by intros ->]. intros E. destruct (unicode_ToLower_cases r) as [E'|Hok]; [congruence|].
  unfold lower_ok in Hok. by bool_to_prop.
Qed.
