(* ===== verification/GoStrings.v ===== *)
(** * Go's [strings], [strconv] and [fmt] functions, as far as the program uses them

    [strings.ToLower], [TrimSpace], [TrimSuffix], [Split], [Contains], the
    quoting of the [%q] verb and the decimal rendering of [%d]. They are
    standard-library functions, so they have no source lines in the
    repository. The one table left as a parameter is [strconv.IsPrint] above
    Latin-1, which only decides how [%q] spells a character inside an error
    text. *)

From S2P Require Import Prelude GoUnicode.
#[local] Open Scope Z_scope.

(** ** Case and white space *)

Definition isASCII (s : string) : bool := forallb (λ b, b <? 0x80) (bytes_of s).

Definition lower_ascii (b : Z) : Z := if cont 0x41 0x5A b then b + 32 else b.

(** [strings.ToLower]: bytewise on ASCII, otherwise
    [strings.Map(unicode.ToLower, s)], which writes a malformed byte as the
    replacement character. *)
Definition ToLower (s : string) : string :=
  if isASCII s then string_of (lower_ascii <$> bytes_of s)
  else string_of (concat ((λ r, EncodeRune (unicode_ToLower r)) <$> runes (bytes_of s))).

Fixpoint drop_while {A} (f : A → bool) (l : list A) : list A :=
  match l with
  | [] => []
  | a :: l' => if f a then drop_while f l' else l
  end.

(** [strings.TrimSpace] *)
Definition TrimSpace (s : string) : string :=
  let space c := IsSpace c.1 in
  string_of (concat
    (rev (drop_while space (rev (drop_while space (chunks (bytes_of s)))))).*2).

(** ** Suffixes, separators, substrings *)

(** [strings.TrimSuffix]: [s] without one trailing [suffix], or [s]. *)
Fixpoint TrimSuffix (s suffix : string) : string :=
  if String.eqb s suffix then ""
  else match s with
       | "" => ""
       | String c s' => String c (TrimSuffix s' suffix)
       end.

(** [strings.Split] with a separator of one byte. *)
Fixpoint Split (s : string) (sep : ascii) : list string :=
  match s with
  | "" => [""]
  | String c s' =>
    if Ascii.eqb c sep then "" :: Split s' sep
    else match Split s' sep with
         | [] => [String c ""]
         | x :: xs => String c x :: xs
         end
  end.

(** [strings.Contains] *)
Fixpoint Contains (s substr : string) : bool :=
  String.prefix substr s ||
  match s with
  | "" => false
  | String _ s' => Contains s' substr
  end.

(** ** Formatting *)

Definition hex_digit (n : Z) : string :=
  default "" ((λ a, String a "") <$> (String.list_ascii_of_string "0123456789abcdef" !! Z.to_nat n)).
Fixpoint hex (digits : nat) (n : Z) : string :=
  match digits with
  | O => ""
  | S d => hex d (n / 16) +:+ hex_digit (n mod 16)
  end.

(** [strconv.IsPrint] above U+00FF: Go's tables of printable runes. *)
Class PrintTable := isPrint_table : Z → bool.

Definition IsPrint `{PrintTable} (r : Z) : bool :=
  if r <=? 0xFF then cont 0x20 0x7E r || (cont 0xA1 0xFF r && negb (r =? 0xAD))
  else isPrint_table r.

(** [strconv.appendEscapedRune], for the double quote. *)
Definition escape_rune `{PrintTable} (r : Z) : string :=
  if (r =? 0x22) || (r =? 0x5C) then "\" +:+ string_of [r]
  else if IsPrint r then string_of (EncodeRune r)
  else if r =? 0x07 then "\a" else if r =? 0x08 then "\b" else if r =? 0x0C then "\f"
  else if r =? 0x0A then "\n" else if r =? 0x0D then "\r" else if r =? 0x09 then "\t"
  else if r =? 0x0B then "\v"
  else if (r <? 0x20) || (r =? 0x7F) then "\x" +:+ hex 2 r
  else if r <? 0x10000 then "\u" +:+ hex 4 r
  else "\U" +:+ hex 8 r.

(** [strconv.Quote], the [%q] verb: a malformed byte becomes [\xNN]. *)
Definition quote_mark : string := string_of [0x22].
Definition Quote `{PrintTable} (s : string) : string :=
  let piece c :=
    match c with
    | (r, [b]) => if (r =? RuneError) && (0x80 <=? b) then "\x" +:+ hex 2 b else escape_rune r
    | (r, _) => escape_rune r
    end in
  quote_mark +:+ foldr String.append "" (piece <$> chunks (bytes_of s)) +:+ quote_mark.

(** The [%d] verb. *)
Definition fmt_d (n : Z) : string := pretty n.

(** ** Concrete readings *)

Example ToLower_ascii_ex : ToLower "WWW.Example.COM" = "www.example.com".
Proof. vm_compute. reflexivity. Qed.
Example ToLower_kelvin_ex : ToLower (string_of [0xE2; 0x84; 0xAA]) = "k".
Proof. vm_compute. reflexivity. Qed.
Example TrimSpace_ex : TrimSpace (string_of [0x20; 0xC2; 0xA0; 0x61; 0x20; 0x62; 0x0A]) = "a b".
Proof. vm_compute. reflexivity. Qed.
Example TrimSuffix_ex : (λ s, TrimSuffix s ".") <$> ["a.b."; "a.b"; "a.."; "."; ""]
  = ["a.b"; "a.b"; "a."; ""; ""].
Proof. vm_compute. reflexivity. Qed.
Example Split_ex : (λ s, Split s ".") <$> ["a.b"; "a..b"; ".a"; "a"]
  = [["a"; "b"]; ["a"; ""; "b"]; [""; "a"]; ["a"]].
Proof. vm_compute. reflexivity. Qed.
Example Quote_ex : @Quote (λ _, true) (string_of [0x61; 0x22; 0x0A; 0xFF; 0x01; 0xC2; 0x85])
  = quote_mark +:+ "a\" +:+ quote_mark +:+ "\n\xff\x01\u0085" +:+ quote_mark.
Proof. vm_compute. reflexivity. Qed.

(** ** Lower case *)

Lemma isASCII_bytes s : isASCII s = true ↔ Forall (λ b, 0 ≤ b < 0x80) (bytes_of s).
Proof.
  unfold isASCII. rewrite forallb_forall, Forall_forall. pose proof (bytes_of_range s) as Hr.
  rewrite Forall_forall in Hr. split; intros H b Hb.
  - specialize (H b ltac:(by apply list_elem_of_In)). specialize (Hr b Hb). bool_to_prop. lia.
  - apply Z.ltb_lt, H. by apply list_elem_of_In.
Qed.

(** On ASCII the byte loop and the rune loop agree: only ASCII capitals move. *)
Lemma lower_ascii_rune b : 0 ≤ b < 0x80 → EncodeRune (unicode_ToLower b) = [lower_ascii b].
Proof.
  intros Hb.
  assert (forallb (λ b, bool_decide (EncodeRune (unicode_ToLower b) = [lower_ascii b]))
                  (seqZ 0 0x80) = true) as Hall by (vm_compute; reflexivity).
  rewrite forallb_forall in Hall. specialize (Hall b).
  rewrite bool_decide_eq_true in Hall. apply Hall, list_elem_of_In, elem_of_seqZ. lia.
Qed.

(** One description of [ToLower] for every string. *)
Definition lower_bytes (l : list Z) : list Z := concat (EncodeRune <$> (unicode_ToLower <$> runes l)).

Lemma lower_bytes_range l : Forall (λ z, 0 ≤ z < 256) (lower_bytes l).
Proof. apply Forall_concat, Forall_fmap, Forall_true. intros r. apply EncodeRune_range. Qed.

Lemma ToLower_bytes s : bytes_of (ToLower s) = lower_bytes (bytes_of s).
Proof.
  rewrite <-(bytes_of_string_of _ (lower_bytes_range (bytes_of s))). f_equal.
  unfold ToLower, lower_bytes. rewrite <-list_fmap_compose.
  destruct (isASCII s) eqn:Ha; [|done]. f_equal. apply isASCII_bytes in Ha.
  rewrite runes_ascii by done. induction Ha as [|b l Hb Hl IH]; [done|].
  rewrite !fmap_cons. cbn [concat compose]. by rewrite lower_ascii_rune, <-IH.
Qed.

Lemma ToLower_idemp s : ToLower (ToLower s) = ToLower s.
Proof.
  apply bytes_of_inj. rewrite !ToLower_bytes. unfold lower_bytes at 1.
  pose proof (runes_valid _ (bytes_of_range s)) as Hv.
  unfold lower_bytes at 1. rewrite runes_EncodeRune.
  - unfold lower_bytes. rewrite <-(list_fmap_compose unicode_ToLower unicode_ToLower).
    do 2 f_equal. apply list_fmap_ext. intros i r _. apply unicode_ToLower_idemp.
  - apply Forall_fmap. eapply Forall_impl; [done|]. intros r. apply unicode_ToLower_valid.
Qed.

Lemma bytes_of_dot a b : bytes_of (a +:+ "." +:+ b) = bytes_of a ++ 0x2E :: bytes_of b.
Proof. by rewrite !bytes_of_app. Qed.

(** Lowering a name lowers its labels: the dot is where it was. *)
Lemma ToLower_app_dot a b : ToLower (a +:+ "." +:+ b) = ToLower a +:+ "." +:+ ToLower b.
Proof.
  apply bytes_of_inj. rewrite bytes_of_dot, !ToLower_bytes, bytes_of_dot. unfold lower_bytes.
  rewrite runes_app_ascii, !fmap_app, concat_app by lia. by rewrite !fmap_cons.
Qed.

Lemma ToLower_empty s : ToLower s = "" ↔ s = "".
Proof.
  split; [|by intros ->]. intros H. apply (f_equal bytes_of) in H. rewrite ToLower_bytes in H.
  apply bytes_of_inj. destruct (bytes_of s) as [|b l]; [done|].
  unfold lower_bytes, runes in H. rewrite chunks_cons, !fmap_cons in H. cbn [concat] in H.
  apply app_eq_nil in H as [H _]. by apply EncodeRune_nonempty in H.
Qed.

(** ** Suffixes and labels *)

Lemma string_app_nil_r s : s +:+ "" = s.
Proof. induction s as [|c s IH]; [done|]. cbn. by rewrite IH. Qed.

Lemma string_app_assoc a b c : (a +:+ b) +:+ c = a +:+ b +:+ c.
Proof. induction a as [|x a IH]; [done|]. cbn. by rewrite IH. Qed.

Lemma string_length_app a b : String.length (a +:+ b) = (String.length a + String.length b)%nat.
Proof. induction a as [|x a IH]; [done|]. cbn. by rewrite IH. Qed.

Lemma TrimSuffix_self s : TrimSuffix s s = "".
Proof. by destruct s as [|c s]; cbn; rewrite ?Ascii.eqb_refl, ?String.eqb_refl. Qed.

Lemma TrimSuffix_app s suffix : TrimSuffix (s +:+ suffix) suffix = s.
Proof.
  induction s as [|c s IH]; [apply TrimSuffix_self|]. cbn [String.append TrimSuffix].
  destruct (String.eqb_spec (String c (s +:+ suffix)) suffix) as [E|_]; [|by rewrite IH].
  apply (f_equal String.length) in E. cbn in E. rewrite string_length_app in E. lia.
Qed.

(** Either the suffix was there and is gone, or nothing changed. *)
Lemma TrimSuffix_cases s suffix :
  (∃ p, s = p +:+ suffix ∧ TrimSuffix s suffix = p)
  ∨ ((∀ p, s ≠ p +:+ suffix) ∧ TrimSuffix s suffix = s).
Proof.
  induction s as [|c s IH]; cbn [TrimSuffix].
  - destruct (String.eqb_spec "" suffix) as [<-|Hne]; [by left; exists ""|].
    right. split; [|done]. intros [|x p]; [by cbn; congruence|done].
  - destruct (String.eqb_spec (String c s) suffix) as [<-|Hne]; [by left; exists ""|].
    destruct IH as [(p & -> & Hp)|[Hno Hp]].
    + left. exists (String c p). by rewrite Hp.
    + right. split; [|by rewrite Hp]. intros [|x p]; [done|]. cbn. intros [= -> ->]. by eapply Hno.
Qed.

Lemma Split_nonempty s c : Split s c ≠ [].
Proof. destruct s as [|x s]; [done|]. cbn. by repeat case_match. Qed.

Lemma Split_app_sep a b c : Split (a +:+ String c b) c = Split a c ++ Split b c.
Proof.
  induction a as [|x a IH]; cbn [String.append Split].
  - by rewrite Ascii.eqb_refl.
  - rewrite IH. destruct (Ascii.eqb x c); [done|].
    pose proof (Split_nonempty a c). by destruct (Split a c).
Qed.

Lemma Split_no_sep s c : c ∉ String.list_ascii_of_string s → Split s c = [s].
Proof.
  induction s as [|x s IH]; cbn; [done|]. rewrite not_elem_of_cons. intros [Hx Hs].
  rewrite (proj2 (Ascii.eqb_neq x c)) by congruence. by rewrite IH.
Qed.

(** [strings.Join], only used to state what [Split] does. *)
Fixpoint Join (l : list string) (sep : ascii) : string :=
  match l with
  | [] => ""
  | [s] => s
  | s :: l' => s +:+ String sep (Join l' sep)
  end.

Lemma Join_Split s c : Join (Split s c) c = s.
Proof.
  induction s as [|x s IH]; [done|]. cbn [Split]. pose proof (Split_nonempty s c) as Hne.
  destruct (Ascii.eqb_spec x c) as [->|].
  - cbn [Join]. by destruct (Split s c); [done|]; rewrite IH.
  - rewrite <-IH at 2. by destruct (Split s c) as [|y [|z l]].
Qed.

Lemma Split_inj a b c : Split a c = Split b c → a = b.
Proof. intros H. by rewrite <-(Join_Split a c), H, Join_Split. Qed.

(** A label holds no separator. *)
Lemma Split_label s c l : l ∈ Split s c → c ∉ String.list_ascii_of_string l.
Proof.
  revert l. induction s as [|x s IH]; cbn [Split]; intros l.
  - rewrite list_elem_of_singleton. intros ->. apply not_elem_of_nil.
  - destruct (Ascii.eqb_spec x c) as [->|Hx].
    + intros [->|Hl]%elem_of_cons; [apply not_elem_of_nil|by apply IH].
    + pose proof (Split_nonempty s c). destruct (Split s c) as [|y ys]; [done|].
      intros [->|Hl]%elem_of_cons; [|apply IH; by right].
      cbn. rewrite not_elem_of_cons. split; [congruence|]. apply IH. by left.
Qed.

(** ** Substrings *)

Lemma sprefix_nil s : String.prefix "" s = true.
Proof. by destruct s. Qed.

Lemma sprefix_cons c sub d s :
  String.prefix (String c sub) (String d s) = Ascii.eqb c d && String.prefix sub s.
Proof.
  cbn. destruct (ascii_dec c d) as [->|Hne]; [by rewrite Ascii.eqb_refl|].
  by rewrite (proj2 (Ascii.eqb_neq c d)).
Qed.

Lemma sprefix_spec sub s : String.prefix sub s = true ↔ ∃ y, s = sub +:+ y.
Proof.
  revert s. induction sub as [|c sub IH]; intros s.
  - rewrite sprefix_nil. split; [intros _; by exists s|done].
  - destruct s as [|d s]; [cbn; naive_solver|].
    rewrite sprefix_cons, andb_true_iff, Ascii.eqb_eq, IH. cbn. naive_solver.
Qed.

Lemma Contains_spec s sub : Contains s sub = true ↔ ∃ x y, s = x +:+ sub +:+ y.
Proof.
  induction s as [|c s IH]; cbn [Contains]; rewrite orb_true_iff, sprefix_spec.
  - split; [|].
    + intros [[y Hy]|?]; [|done]. by exists "", y.
    + intros ([|a x] & y & H); [left; by exists y|done].
  - rewrite IH. split.
    + intros [[y Hy]|(x & y & ->)]; [by exists "", y|by exists (String c x), y].
    + intros ([|a x] & y & H); [left; by exists y|]. right.
      cbn in H. injection H as -> ->. by exists x, y.
Qed.

Lemma sprefix_app_sep sub a b c :
  c ∉ String.list_ascii_of_string sub →
  String.prefix sub (a +:+ String c b) = String.prefix sub a.
Proof.
  revert a. induction sub as [|d sub IH]; intros a; [by rewrite !sprefix_nil|].
  cbn [String.list_ascii_of_string]. rewrite not_elem_of_cons. intros [Hd Hs].
  destruct a as [|x a]; cbn [String.append]; rewrite !sprefix_cons.
  - by rewrite (proj2 (Ascii.eqb_neq d c)) by congruence.
  - by rewrite IH.
Qed.

(** A pattern without the separator does not straddle it. *)
Lemma Contains_app_sep a b sub c :
  c ∉ String.list_ascii_of_string sub → sub ≠ "" →
  Contains (a +:+ String c b) sub = Contains a sub || Contains b sub.
Proof.
  intros Hc Hne. induction a as [|x a IH].
  - cbn [String.append Contains].
    change (String c b) with ("" +:+ String c b). rewrite sprefix_app_sep by done.
    destruct sub; [done|]. by rewrite orb_false_r.
  - cbn [String.append Contains]. rewrite IH, orb_assoc. f_equal.
    change (String x (a +:+ String c b)) with (String x a +:+ String c b).
    by rewrite sprefix_app_sep.
Qed.
