(* ===== verification/Trie.v ===== *)
(** * The domain suffix trie ([internal/rules/trie.go])

    [node] and [Trie] are the Go structs with the pointers read as values;
    [TrieHeap] models the pointers themselves and refines this file. The trie
    is specified by a finite map from label lists to values: an insertion
    updates the map at the domain's labels, a lookup returns the value of the
    shortest non-empty suffix of the name's labels that the map holds. *)

From S2P Require Import Prelude GoUnicode GoStrings.

Section trie.
Context {V : Type}.

(** ** State and operations *)

(** [value] is an [any]: [None] is its zero value nil. *)
#[warnings="-register-all"] Inductive node : Type := Node {
  children : gmap string node;
  terminal : bool;
  value : option V;
}.

Record Trie : Type := mkTrie { root : node }.

Definition newNode : node := Node ∅ false None.
Definition NewTrie : Trie := mkTrie newNode.

Definition splitDomain (name : string) : list string :=
  let name := TrimSuffix (ToLower name) "." in
  if String.eqb name "" then [] else Split name ".".

(** The loop of [Insert] from the node [cur], given the labels it still has to
    visit: the last label of the domain first. *)
Fixpoint insert_walk (ls : list string) (v : option V) (cur : node) : node :=
  match ls with
  | [] => Node (children cur) true v
  | l :: ls =>
    let next := default newNode (children cur !! l) in
    Node (<[l := insert_walk ls v next]> (children cur)) (terminal cur) (value cur)
  end.

Definition Insert (domain : string) (v : option V) (t : Trie) : Trie :=
  let labels := splitDomain domain in
  if decide (length labels = 0) then t else mkTrie (insert_walk (rev labels) v (root t)).

(** The loop of [Lookup]. *)
Fixpoint lookup_walk (ls : list string) (cur : node) : option V * bool :=
  match ls with
  | [] => (None, false)
  | l :: ls =>
    match children cur !! l with
    | None => (None, false)
    | Some next => if terminal next then (value next, true) else lookup_walk ls next
    end
  end.

Definition Lookup (t : Trie) (name : string) : option V * bool :=
  let labels := splitDomain name in
  if decide (length labels = 0) then (None, false) else lookup_walk (rev labels) (root t).

(** ** Specification *)

(** A rule map: label lists, leftmost label first, to values. *)
Definition spec_insert (labels : list string) (v : option V)
    (m : gmap (list string) (option V)) : gmap (list string) (option V) :=
  if decide (labels = []) then m else <[labels := v]> m.

(** The last [k] labels. *)
Definition suffix (k : nat) (labels : list string) : list string := drop (length labels - k) labels.

(** The value of the shortest non-empty suffix in the map. *)
Definition spec_lookup (m : gmap (list string) (option V)) (labels : list string)
    : option V * bool :=
  match omap (λ k, m !! suffix k labels) (seq 1 (length labels)) with
  | [] => (None, false)
  | v :: _ => (v, true)
  end.

(** ** Entries along a path from a node *)

Fixpoint entry (p : list string) (n : node) : option (option V) :=
  match p with
  | [] => if terminal n then Some (value n) else None
  | l :: p => children n !! l ≫= entry p
  end.

(** The trie holds the map [m]. *)
Definition trie_repr (t : Trie) (m : gmap (list string) (option V)) : Prop :=
  ∀ labels, entry (rev labels) (root t) = m !! labels.

Lemma entry_newNode p : entry p newNode = None.
Proof. by destruct p. Qed.

Lemma entry_insert_walk ls v n p :
  entry p (insert_walk ls v n) = if decide (p = ls) then Some v else entry p n.
Proof.
  revert n p. induction ls as [|l ls IH]; intros n [|k p]; cbn [insert_walk entry children terminal value].
  - done.
  - by rewrite decide_False.
  - by rewrite decide_False.
  - destruct (decide (l = k)) as [->|Hne].
    + rewrite lookup_insert_eq. cbn. rewrite IH.
      destruct (decide (p = ls)) as [->|]; [by rewrite decide_True|].
      rewrite (decide_False (P := k :: p = k :: ls)) by congruence.
      destruct (children n !! k); [done|apply entry_newNode].
    + rewrite lookup_insert_ne, decide_False by congruence. done.
Qed.

Lemma trie_repr_New : trie_repr NewTrie ∅.
Proof. intros labels. by rewrite entry_newNode. Qed.

Lemma trie_repr_nil t m : trie_repr t m → m !! [] = None ↔ terminal (root t) = false.
Proof. intros H. specialize (H []). cbn in H. rewrite <-H. by destruct (terminal _). Qed.

Lemma rev_inj (l k : list string) : rev l = rev k ↔ l = k.
Proof. split; [|by intros ->]. intros H. by rewrite <-(rev_involutive l), H, rev_involutive. Qed.

Lemma trie_repr_Insert t m domain v :
  trie_repr t m → trie_repr (Insert domain v t) (spec_insert (splitDomain domain) v m).
Proof.
  intros H labels. unfold Insert, spec_insert.
  destruct (splitDomain domain) as [|d ds]; [apply H|].
  rewrite !decide_False by done. cbn [root]. rewrite entry_insert_walk, lookup_insert, <-H.
  apply decide_ext. rewrite rev_inj. split; congruence.
Qed.

(** The loop of [Lookup] returns the first entry on the way down. *)
Lemma lookup_walk_spec ls n :
  lookup_walk ls n =
  match omap (λ k, entry (take k ls) n) (seq 1 (length ls)) with
  | [] => (None, false)
  | v :: _ => (v, true)
  end.
Proof.
  revert n. induction ls as [|l ls IH]; intros n; [done|].
  cbn [lookup_walk length seq omap list_omap take entry].
  destruct (children n !! l) as [c|] eqn:Ec; cbn.
  - rewrite take_0. cbn [entry]. destruct (terminal c); [done|]. rewrite IH, <-(fmap_S_seq 1).
    rewrite omap_fmap. erewrite omap_ext_in; [done|]. intros k _. cbn. by rewrite Ec.
  - rewrite <-(fmap_S_seq 1), omap_fmap. cbn [take entry].
    rewrite Ec. by generalize (seq 1 (length ls)); intros ks; induction ks.
Qed.

Lemma suffix_rev_take k labels : (k ≤ length labels)%nat → rev (suffix k labels) = take k (rev labels).
Proof.
  intros Hk. unfold suffix. rewrite <-(take_drop (length labels - k) labels) at 3.
  rewrite rev_app_distr, take_app_length'; [done|].
  rewrite length_rev, length_drop. lia.
Qed.

Lemma Lookup_spec t m name :
  trie_repr t m → Lookup t name = spec_lookup m (splitDomain name).
Proof.
  intros H. unfold Lookup, spec_lookup. destruct (splitDomain name) as [|d ds] eqn:E; [done|].
  rewrite decide_False by done. rewrite lookup_walk_spec, length_rev.
  set (labels := d :: ds).
  assert (omap (λ k, entry (take k (rev labels)) (root t)) (seq 1 (length labels))
          = omap (λ k, m !! suffix k labels) (seq 1 (length labels))) as ->; [|done].
  apply omap_ext_in. intros k Hk.
  apply elem_of_seq in Hk. rewrite <-H, suffix_rev_take by lia. done.
Qed.

(** What the specification's lookup means. *)
Lemma spec_lookup_found m labels v :
  spec_lookup m labels = (v, true) ↔
  ∃ k, (1 ≤ k ≤ length labels)%nat ∧ m !! suffix k labels = Some v ∧
       ∀ j, (1 ≤ j < k)%nat → m !! suffix j labels = None.
Proof.
  unfold spec_lookup. generalize (length labels) as n. intros n.
  set (f := λ k, m !! suffix k labels).
  assert (∀ s n, match omap f (seq s n) with [] => (None, false) | v :: _ => (v, true) end
                 = (v, true) ↔
    ∃ k, (s ≤ k < s + n)%nat ∧ f k = Some v ∧ ∀ j, (s ≤ j < k)%nat → f j = None) as Hgen.
  { clear n. intros s n. revert s. induction n as [|n IH]; intros s; cbn.
    - split; [done|]. intros (k & ? & _). lia.
    - destruct (f s) as [w|] eqn:Ef; cbn.
      + split; [intros [= ->]; exists s; repeat split; eauto with lia|].
        intros (k & Hk & Hv & Hj). destruct (decide (k = s)) as [->|]; [congruence|].
        rewrite (Hj s) in Ef by lia. done.
      + rewrite IH. split; intros (k & Hk & Hv & Hj); exists k.
        * repeat split; [lia..|done|]. intros j Hjk.
          destruct (decide (j = s)) as [->|]; [done|apply Hj; lia].
        * destruct (decide (k = s)) as [->|]; [congruence|].
          repeat split; [lia..|done|]. intros j Hjk. apply Hj. lia. }
  rewrite Hgen. split; intros (k & Hk & ?); exists k; (split; [lia|done]).
Qed.

Lemma spec_lookup_not_found m labels :
  (spec_lookup m labels).2 = false ↔
  ∀ k, (1 ≤ k ≤ length labels)%nat → m !! suffix k labels = None.
Proof.
  destruct (spec_lookup m labels) as [v []] eqn:E; cbn.
  - split; [done|]. apply spec_lookup_found in E as (k & Hk & Hv & _). intros H.
    by rewrite H in Hv.
  - split; [|done]. intros _ k Hk. destruct (m !! suffix k labels) as [w|] eqn:Ew; [|done].
    exfalso. unfold spec_lookup in E.
    assert (w ∈ omap (λ k, m !! suffix k labels) (seq 1 (length labels))) as Hin.
    { apply list_elem_of_omap. exists k. split; [apply elem_of_seq; lia|done]. }
    destruct (omap _ _); [by apply not_elem_of_nil in Hin|done].
Qed.

End trie.

Arguments node : clear implicits.
Arguments Trie : clear implicits.

(** ** Tries built by insertions *)

Section build.
Context {V : Type}.
Implicit Types (ds : list (string * option V)).

(** [NewTrie] followed by one [Insert] per pair, in order. *)
Definition build (ds : list (string * option V)) : Trie V :=
  foldl (λ t dv, Insert dv.1 dv.2 t) NewTrie ds.

(** The value of the last insertion whose domain has the given labels. *)
Definition inserted ds (labels : list string) : option (option V) :=
  last (omap (λ dv, if decide (splitDomain dv.1 = labels) then Some dv.2 else None) ds).

Lemma build_repr ds :
  trie_repr (build ds) (foldl (λ m dv, spec_insert (splitDomain dv.1) dv.2 m) ∅ ds).
Proof.
  induction ds as [|dv ds IH] using rev_ind; [apply trie_repr_New|].
  unfold build. rewrite !foldl_snoc. by apply trie_repr_Insert.
Qed.

Lemma spec_map_inserted ds labels :
  labels ≠ [] →
  foldl (λ m dv, spec_insert (splitDomain dv.1) dv.2 m) ∅ ds !! labels = inserted ds labels.
Proof.
  intros Hne. induction ds as [|dv ds IH] using rev_ind; [done|].
  unfold inserted. rewrite foldl_snoc, omap_app. cbn. unfold spec_insert at 1.
  destruct (decide (splitDomain dv.1 = labels)) as [->|Hl].
  - by rewrite decide_False, lookup_insert_eq, last_snoc by done.
  - rewrite app_nil_r. case_decide; [done|]. by rewrite lookup_insert_ne.
Qed.

Lemma suffix_nonempty k (labels : list string) :
  (1 ≤ k ≤ length labels)%nat → suffix k labels ≠ [].
Proof. intros Hk E. apply (f_equal length) in E. unfold suffix in E. rewrite length_drop in E. simpl in E; lia. Qed.

Lemma suffix_app (pre labels : list string) : suffix (length labels) (pre ++ labels) = labels.
Proof.
  unfold suffix. rewrite length_app, Nat.add_sub. apply drop_app_length.
Qed.

(** A lookup in a built trie, in terms of the insertions. *)
Lemma build_found ds name v :
  Lookup (build ds) name = (v, true) ↔
  let labels := splitDomain name in
  ∃ k, (1 ≤ k ≤ length labels)%nat ∧ inserted ds (suffix k labels) = Some v ∧
       ∀ j, (1 ≤ j < k)%nat → inserted ds (suffix j labels) = None.
Proof.
  rewrite (Lookup_spec _ _ _ (build_repr ds)), spec_lookup_found. cbv zeta.
  split; intros (k & Hk & Hv & Hj); exists k; (split; [done|]).
  - rewrite spec_map_inserted in Hv by by apply suffix_nonempty. split; [done|].
    intros j ?. rewrite <-spec_map_inserted by (apply suffix_nonempty; lia). by apply Hj.
  - rewrite spec_map_inserted by by apply suffix_nonempty. split; [done|].
    intros j ?. rewrite spec_map_inserted by (apply suffix_nonempty; lia). by apply Hj.
Qed.

Lemma build_not_found ds name :
  (Lookup (build ds) name).2 = false ↔
  let labels := splitDomain name in
  ∀ k, (1 ≤ k ≤ length labels)%nat → inserted ds (suffix k labels) = None.
Proof.
  rewrite (Lookup_spec _ _ _ (build_repr ds)), spec_lookup_not_found. cbv zeta.
  split; intros H k Hk; specialize (H k Hk);
    by rewrite spec_map_inserted in * by by apply suffix_nonempty.
Qed.

Lemma inserted_is_Some ds labels :
  is_Some (inserted ds labels) ↔ ∃ d v, (d, v) ∈ ds ∧ splitDomain d = labels.
Proof.
  unfold inserted. rewrite last_is_Some. split.
  - intros Hne. destruct (omap _ ds) as [|v l] eqn:E; [done|].
    assert (v ∈ v :: l) as Hv by left. rewrite <-E in Hv.
    apply list_elem_of_omap in Hv as ([d w] & Hin & Hd). exists d, w. by case_decide.
  - intros (d & v & Hin & Hd) E.
    assert (v ∈ omap (λ dv : string * option V,
      if decide (splitDomain dv.1 = labels) then Some dv.2 else None) ds) as Hv.
    { apply list_elem_of_omap. exists (d, v). by rewrite decide_True. }
    rewrite E in Hv. by apply not_elem_of_nil in Hv.
Qed.

(** ** Names *)

Lemma splitDomain_ToLower name : splitDomain (ToLower name) = splitDomain name.
Proof. unfold splitDomain. by rewrite ToLower_idemp. Qed.

Lemma ToLower_dot : ToLower "." = ".".
Proof. vm_compute. reflexivity. Qed.

Lemma splitDomain_trailing_dot name :
  (∀ p, ToLower name ≠ p +:+ ".") → splitDomain (name +:+ ".") = splitDomain name.
Proof.
  intros Hno. unfold splitDomain.
  assert (ToLower (name +:+ ".") = ToLower name +:+ ".") as ->.
  { pose proof (ToLower_app_dot name "") as H. by rewrite !string_app_nil_r in H. }
  rewrite TrimSuffix_app. destruct (TrimSuffix_cases (ToLower name) ".") as [(p & Hp & _)|[_ ->]];
    [by apply Hno in Hp|done].
Qed.

(** Prepending labels to a domain prepends them to its labels. *)
Lemma splitDomain_subdomain sub d :
  splitDomain d ≠ [] →
  splitDomain (sub +:+ "." +:+ d) = Split (ToLower sub) "." ++ splitDomain d.
Proof.
  unfold splitDomain. rewrite ToLower_app_dot. set (l := ToLower d). set (s := ToLower sub).
  destruct (TrimSuffix_cases l ".") as [(p & Hl & Hp)|[Hno Hp]]; rewrite Hp.
  - rewrite Hl. destruct (String.eqb_spec p "") as [->|Hne]; [done|]. intros _.
    replace (s +:+ "." +:+ p +:+ ".") with ((s +:+ "." +:+ p) +:+ ".")
      by by rewrite !string_app_assoc.
    rewrite TrimSuffix_app. destruct (String.eqb_spec (s +:+ "." +:+ p) "") as [E|_].
    { apply (f_equal String.length) in E. rewrite !string_length_app in E. cbn in E. lia. }
    apply Split_app_sep.
  - destruct (String.eqb_spec l "") as [->|Hne]; [done|]. intros _.
    destruct (TrimSuffix_cases (s +:+ "." +:+ l) ".") as [(q & Hq & _)|[_ ->]].
    + exfalso. assert (∃ p, l = p +:+ ".") as [p Hp']; [|by eapply Hno].
      revert Hq. clearbody s l. clear -Hne. revert q.
      assert (∀ s q : string, s +:+ l = q +:+ "." → ∃ p, l = p +:+ ".") as Hgen.
      { clear s. intros s. induction s as [|c s IH]; intros q Hq; [by exists q|].
        destruct q as [|d q]; cbn in Hq; [|injection Hq as -> Hq; by eapply IH].
        injection Hq as -> Hq. exfalso. apply (f_equal String.length) in Hq.
        rewrite string_length_app in Hq. by destruct l; cbn in Hq; [|lia]. }
      intros q Hq. apply (Hgen (s +:+ ".") q). by rewrite string_app_assoc.
    + destruct (String.eqb_spec (s +:+ "." +:+ l) "") as [E|_].
      { apply (f_equal String.length) in E. rewrite !string_length_app in E. cbn in E. lia. }
      apply Split_app_sep.
Qed.

End build.

(** ** Properties *)

Lemma suffix_is_suffix k (labels : list string) :
  (k ≤ length labels)%nat → ∃ pre, labels = pre ++ suffix k labels.
Proof. intros _. exists (take (length labels - k) labels). unfold suffix. by rewrite take_drop. Qed.

(** C8: [Lookup] on a trie built by any sequence of [Insert]s returns the value
    last inserted under the shortest non-empty suffix of the name's labels that
    was ever inserted, and reports a miss exactly when no suffix was. *)
Theorem Lookup_shortest_suffix {V} (ds : list (string * option V)) name :
  let labels := splitDomain name in
  (∀ v, Lookup (build ds) name = (v, true) ↔
     ∃ k, (1 ≤ k ≤ length labels)%nat ∧ inserted ds (suffix k labels) = Some v ∧
          ∀ j, (1 ≤ j < k)%nat → inserted ds (suffix j labels) = None)
  ∧ ((Lookup (build ds) name).2 = false ↔
     ∀ k, (1 ≤ k ≤ length labels)%nat → inserted ds (suffix k labels) = None).
Proof. split; [intros v; apply build_found | apply build_not_found]. Qed.

(** Matching is label-aligned: a trie that holds the one domain [d] matches
    a name exactly when the labels of [d] (there is at least one) are the last
    labels of the name. A name that merely ends in the text of [d] is no match. *)
Theorem Lookup_label_aligned {V} d (v : option V) name :
  (Lookup (build [(d, v)]) name).2 = true ↔
  splitDomain d ≠ [] ∧ ∃ pre, splitDomain name = pre ++ splitDomain d.
Proof.
  rewrite <-(not_false_iff_true (Lookup _ _).2), build_not_found. cbv zeta.
  assert (∀ ls, inserted [(d, v)] ls = None ↔ splitDomain d ≠ ls) as Hins.
  { intros ls. unfold inserted. cbn. by destruct (decide (splitDomain d = ls)). }
  setoid_rewrite Hins. split.
  - intros Hnot. destruct (decide (Exists (λ k, splitDomain d = suffix k (splitDomain name))
      (seq 1 (length (splitDomain name))))) as [Hex|Hno].
    + apply Exists_exists in Hex as (k & Hk & Hd). apply elem_of_seq in Hk.
      split; [rewrite Hd; apply suffix_nonempty; lia|].
      rewrite Hd. apply suffix_is_suffix. lia.
    + exfalso. apply Hnot. intros k Hk Hd. apply Hno, Exists_exists. exists k.
      split; [apply elem_of_seq; lia|done].
  - intros (Hne & pre & Hname) Hall. rewrite Hname in Hall.
    apply (Hall (length (splitDomain d))); [|by rewrite suffix_app].
    rewrite length_app. destruct (splitDomain d); [done|]. simpl; lia.
Qed.

(** Every inserted domain with at least one label is found under its own
    name and under every subdomain of it, whatever else was inserted before or
    after it. *)
Theorem Lookup_subdomains {V} (ds : list (string * option V)) d v sub :
  (d, v) ∈ ds → splitDomain d ≠ [] →
  (Lookup (build ds) d).2 = true ∧ (Lookup (build ds) (sub +:+ "." +:+ d)).2 = true.
Proof.
  intros Hin Hne.
  assert (∀ name pre, splitDomain name = pre ++ splitDomain d →
    (Lookup (build ds) name).2 = true) as Hfound.
  { intros name pre Hname. apply not_false_iff_true. rewrite build_not_found. cbv zeta.
    intros Hall. specialize (Hall (length (splitDomain d))).
    rewrite Hname, suffix_app, length_app in Hall.
    assert (is_Some (inserted ds (splitDomain d))) as [w Hw]
      by (apply inserted_is_Some; eauto).
    rewrite Hw in Hall. destruct (splitDomain d); [done|]. discriminate Hall. simpl; lia. }
  split; [by apply (Hfound _ [])|]. eapply Hfound, splitDomain_subdomain, Hne.
Qed.

Lemma Lookup_subdomains_witness :
  let ds := [("example.com", Some 1%nat); ("Example.ORG.", Some 2%nat)] in
  ("Example.ORG.", Some 2%nat) ∈ ds ∧ splitDomain "Example.ORG." ≠ [] ∧
  (Lookup (build ds) "Example.ORG.").2 = true ∧
  (Lookup (build ds) ("a.b" +:+ "." +:+ "Example.ORG.")).2 = true.
Proof.
  intros ds. assert (("Example.ORG.", Some 2%nat) ∈ ds) as Hin by (right; left).
  assert (splitDomain "Example.ORG." ≠ []) as Hne by (vm_compute; congruence).
  split; [exact Hin|]. split; [exact Hne|].
  exact (Lookup_subdomains ds "Example.ORG." (Some 2%nat) "a.b" Hin Hne).
Defined.

(** C28: a lookup does not see the case of the name nor one trailing dot: the
    lowered name, and a name that does not end in a dot with a dot appended,
    give the same answer in every trie. *)
Theorem Lookup_case_and_dot {V} (t : Trie V) name :
  Lookup t (ToLower name) = Lookup t name ∧
  ((∀ p, ToLower name ≠ p +:+ ".") → Lookup t (name +:+ ".") = Lookup t name).
Proof.
  unfold Lookup. split; [by rewrite splitDomain_ToLower|].
  intros Hno. by rewrite splitDomain_trailing_dot.
Qed.

Lemma Lookup_case_and_dot_witness :
  (∀ p, ToLower "WWW.Example.com" ≠ p +:+ ".") ∧
  Lookup (build [("example.com", Some 7%nat)]) ("WWW.Example.com" +:+ ".")
  = Lookup (build [("example.com", Some 7%nat)]) "WWW.Example.com".
Proof.
  assert (∀ p, ToLower "WWW.Example.com" ≠ p +:+ ".") as Hno.
  { intros p Hp.
    assert (TrimSuffix (ToLower "WWW.Example.com") "." = TrimSuffix (p +:+ ".") ".") as E
      by (by rewrite Hp).
    rewrite TrimSuffix_app in E. rewrite <-E in Hp. vm_compute in Hp. discriminate Hp. }
  split; [exact Hno|].
  exact (proj2 (Lookup_case_and_dot (build [("example.com", Some 7%nat)]) "WWW.Example.com") Hno).
Defined.

(** The cases of [trie_test.go]. *)
Example trie_test :
  let t := build [("example.org", Some "outer"); ("ads.example.org", Some "inner");
                  ("example.com", Some "example")] in
  Lookup t <$> ["a.b.EXAMPLE.com"; "www.example.com."; "notexample.com"; "example.com.evil.org";
                "com"; "foo.ads.example.org"; ""; "."]
  = [(Some "example", true); (Some "example", true); (None, false); (None, false);
     (None, false); (Some "outer", true); (None, false); (None, false)].
Proof. vm_compute. reflexivity. Qed.
