(* ===== verification/TrieHeap.v ===== *)
(** * The trie on the heap

    The Go trie is a graph of [*node] pointers that [Insert] mutates in place.
    Here a heap maps addresses to cells, [newNode] allocates, the two loops run
    over the index [i] from [len(labels) - 1] down to 0 as in the source, and
    [None] is a panic (a nil pointer or an index out of range). The heap
    operations refine the functional trie of [Trie]: they never panic on a
    well-formed heap, keep it well formed, and compute the same trie. *)

From S2P Require Import Prelude GoUnicode GoStrings Trie.

Section heap.
Context {V : Type}.

Abbreviation loc := positive.

Record cell := mkCell {
  c_children : gmap string loc;
  c_terminal : bool;
  c_value : option V;
}.
Abbreviation heap := (gmap loc cell).
Implicit Types (h : heap) (r l : loc) (p q : list string).

(** [newNode()]: a fresh address with an empty map of children. *)
Definition alloc_node (h : heap) : loc * heap :=
  let l := fresh (dom h) in (l, <[l := mkCell ∅ false None]> h).

(** [NewTrie()] on an empty heap. *)
Definition NewTrie_heap : loc * heap := alloc_node ∅.

(** The loop of [Insert]: [i] iterations are left, [cur] is the current node. *)
Fixpoint insert_loop (i : nat) (labels : list string) (cur : loc) (h : heap)
    : option (loc * heap) :=
  match i with
  | O => Some (cur, h)
  | S i =>
    l ← labels !! i;
    c ← h !! cur;
    match c_children c !! l with
    | Some next => insert_loop i labels next h
    | None =>
      let '(next, h) := alloc_node h in
      let c := mkCell (<[l := next]> (c_children c)) (c_terminal c) (c_value c) in
      insert_loop i labels next (<[cur := c]> h)
    end
  end.

Definition Insert_heap (domain : string) (v : option V) (root : loc) (h : heap) : option heap :=
  let labels := splitDomain domain in
  if decide (length labels = 0) then Some h
  else
    '(cur, h) ← insert_loop (length labels) labels root h;
    c ← h !! cur;
    Some (<[cur := mkCell (c_children c) true v]> h).

(** The loop of [Lookup]. *)
Fixpoint lookup_loop (i : nat) (labels : list string) (cur : loc) (h : heap)
    : option (option V * bool) :=
  match i with
  | O => Some (None, false)
  | S i =>
    l ← labels !! i;
    c ← h !! cur;
    match c_children c !! l with
    | None => Some (None, false)
    | Some next =>
      cn ← h !! next;
      if c_terminal cn then Some (c_value cn, true) else lookup_loop i labels next h
    end
  end.

Definition Lookup_heap (root : loc) (h : heap) (name : string) : option (option V * bool) :=
  let labels := splitDomain name in
  if decide (length labels = 0) then Some (None, false)
  else lookup_loop (length labels) labels root h.

(** ** Paths through the heap *)

Definition step h (o : option loc) (k : string) : option loc :=
  l ← o; c ← h !! l; c_children c !! k.

(** The address at the end of the path [p] from [r]. *)
Definition reach h r p : option loc := foldl (step h) (Some r) p.

(** What a node says about itself. *)
Definition info_heap h r p : option (bool * option V) :=
  l ← reach h r p; c ← h !! l; Some (c_terminal c, c_value c).

Fixpoint node_at (p : list string) (n : node V) : option (node V) :=
  match p with
  | [] => Some n
  | l :: p => children n !! l ≫= node_at p
  end.
Definition info p (n : node V) : option (bool * option V) :=
  n' ← node_at p n; Some (terminal n', value n').

(** A well-formed heap trie: no dangling pointer, and one path per node. *)
Record tree h r : Prop := {
  tree_live : ∀ p l, reach h r p = Some l → is_Some (h !! l);
  tree_inj : ∀ p q l, reach h r p = Some l → reach h r q = Some l → p = q;
}.

(** The heap trie at [r] is the functional trie rooted at [n]. *)
Definition heap_repr h r n : Prop := tree h r ∧ ∀ p, info_heap h r p = info p n.

Lemma reach_snoc h r p k : reach h r (p ++ [k]) = step h (reach h r p) k.
Proof. apply foldl_snoc. Qed.

Lemma reach_info h r p l c :
  reach h r p = Some l → h !! l = Some c → info_heap h r p = Some (c_terminal c, c_value c).
Proof. intros Hp Hc. unfold info_heap. rewrite Hp. cbn. by rewrite Hc. Qed.

Lemma reach_info_None h r p : tree h r → info_heap h r p = None ↔ reach h r p = None.
Proof.
  intros Ht. unfold info_heap. destruct (reach h r p) as [l|] eqn:Hp; [|done].
  destruct (tree_live _ _ Ht p l Hp) as [c Hc]. cbn. by rewrite Hc.
Qed.

(** ** The two mutations of [Insert] *)

(** Overwriting the flags of a node moves no pointer. *)
Section set_flags.
Context h r q l c (Ht : tree h r) (Hq : reach h r q = Some l) (Hc : h !! l = Some c) (v : option V).
Let h' := <[l := mkCell (c_children c) true v]> h.

Lemma set_flags_step o k : step h' o k = step h o k.
Proof.
  destruct o as [x|]; [|done]. unfold step, h'. cbn. rewrite lookup_insert.
  case_decide; [subst|done]. by rewrite Hc.
Qed.

Lemma set_flags_reach p : reach h' r p = reach h r p.
Proof. unfold reach. apply foldl_ext_in. intros o k _. apply set_flags_step. Qed.

Lemma set_flags_tree : tree h' r.
Proof.
  split.
  - intros p x. rewrite set_flags_reach. intros [d Hd]%(tree_live _ _ Ht).
    unfold h'. rewrite lookup_insert. case_decide; eauto.
  - intros p p' x. rewrite !set_flags_reach. apply (tree_inj _ _ Ht).
Qed.

Lemma set_flags_info p :
  info_heap h' r p = if decide (p = q) then Some (true, v) else info_heap h r p.
Proof.
  unfold info_heap. rewrite set_flags_reach. destruct (decide (p = q)) as [->|Hne].
  - rewrite Hq. cbn. unfold h'. by rewrite lookup_insert_eq.
  - destruct (reach h r p) as [x|] eqn:Hp; [|done]. cbn. unfold h'.
    rewrite lookup_insert_ne; [done|]. intros ->. by eapply Hne, tree_inj.
Qed.

End set_flags.

(** Linking a fresh node under [l] adds the one path [q ++ [k]]. *)
Section link_fresh.
Context h r q l c (k : string) (Ht : tree h r) (Hq : reach h r q = Some l) (Hc : h !! l = Some c).
Context (Hk : c_children c !! k = None).
Let next := fresh (dom h).
Let h' := <[l := mkCell (<[k := next]> (c_children c)) (c_terminal c) (c_value c)]>
            (<[next := mkCell ∅ false None]> h).

Lemma next_fresh : h !! next = None.
Proof. apply not_elem_of_dom, is_fresh. Qed.

Lemma next_ne : next ≠ l.
Proof. intros E. pose proof next_fresh as H. rewrite E, Hc in H. done. Qed.

Lemma link_cell x d :
  h !! x = Some d → x ≠ l → h' !! x = Some d.
Proof.
  intros Hx Hne. unfold h'. rewrite !lookup_insert_ne; [done| |congruence].
  intros E. pose proof next_fresh as H. rewrite E, Hx in H. done.
Qed.

Lemma link_reach p : reach h' r p = if decide (p = q ++ [k]) then Some next else reach h r p.
Proof.
  pose proof next_ne as Hnl.
  assert (reach h r (q ++ [k]) = None) as HNone.
  { rewrite reach_snoc, Hq. cbn. by rewrite Hc. }
  induction p as [|j p IH] using rev_ind.
  { rewrite decide_False; [done|]. by destruct q. }
  rewrite !reach_snoc, IH. destruct (decide (p = q ++ [k])) as [->|Hp].
  - rewrite decide_False.
    + rewrite HNone. cbn. unfold h'. by rewrite lookup_insert_ne, lookup_insert_eq.
    + intros E. apply (f_equal length) in E. rewrite !length_app in E. simpl in E; lia.
  - destruct (reach h r p) as [x|] eqn:Hx; cbn.
    + destruct (tree_live _ _ Ht _ _ Hx) as [d Hd]. destruct (decide (x = l)) as [->|Hxl].
      * assert (p = q) as -> by (by eapply tree_inj).
        unfold h'. rewrite lookup_insert_eq, Hc. cbn. rewrite lookup_insert.
        destruct (decide (k = j)) as [->|]; [by rewrite decide_True|].
        rewrite decide_False; [done|]. intros [_ [= ->]]%app_inj_2; done.
      * rewrite (link_cell x d) by done. rewrite Hd. rewrite decide_False; [done|].
        intros [-> _]%app_inj_2; [|done]. congruence.
    + rewrite decide_False; [done|]. intros [-> _]%app_inj_2; [congruence|done].
Qed.

Lemma link_next_new p : reach h r p ≠ Some next.
Proof. intros H. destruct (tree_live _ _ Ht _ _ H) as [d Hd]. by rewrite next_fresh in Hd. Qed.

Lemma link_tree : tree h' r.
Proof.
  split.
  - intros p x. rewrite link_reach. case_decide.
    + intros [= <-]. unfold h'. rewrite lookup_insert_ne, lookup_insert_eq by (apply not_eq_sym, next_ne).
      eauto.
    + intros [d Hd]%(tree_live _ _ Ht). destruct (decide (x = l)) as [->|].
      * unfold h'. rewrite lookup_insert_eq. eauto.
      * rewrite (link_cell _ d); eauto.
  - intros p p' x. rewrite !link_reach. repeat case_decide; subst; try done.
    + intros [= <-] Hr'. by apply link_next_new in Hr'.
    + intros Hr' [= <-]. by apply link_next_new in Hr'.
    + apply (tree_inj _ _ Ht).
Qed.

Lemma link_info p :
  info_heap h' r p = if decide (p = q ++ [k]) then Some (false, None) else info_heap h r p.
Proof.
  unfold info_heap. rewrite link_reach. case_decide.
  - cbn. unfold h'. by rewrite lookup_insert_ne, lookup_insert_eq by (apply not_eq_sym, next_ne).
  - destruct (reach h r p) as [x|] eqn:Hx; [|done]. cbn.
    destruct (tree_live _ _ Ht _ _ Hx) as [d Hd]. destruct (decide (x = l)) as [->|].
    + unfold h'. by rewrite lookup_insert_eq, Hc.
    + by rewrite (link_cell x d), Hd.
Qed.

End link_fresh.

(** ** The loops *)

Lemma foldl_step_None h p : foldl (step h) None p = None.
Proof. by induction p. Qed.

Lemma reach_prefix h r p p' l : p `prefix_of` p' → reach h r p' = Some l → ∃ l', reach h r p = Some l'.
Proof.
  intros [s ->]. unfold reach. rewrite foldl_app.
  destruct (foldl (step h) (Some r) p) as [x|]; [eauto|]. by rewrite foldl_step_None.
Qed.

Lemma info_cons k p n : info (k :: p) n = children n !! k ≫= info p.
Proof. unfold info. cbn. by destruct (children n !! k). Qed.

Lemma info_newNode k p : info (k :: p) newNode = None.
Proof. by rewrite info_cons. Qed.

(** The nodes of a trie after [insert_walk]: those along the path exist, the
    last one is terminal with the new value. *)
Lemma info_insert_walk ls v n p :
  info p (insert_walk ls v n)
  = if decide (p = ls) then Some (true, v)
    else if decide (p `prefix_of` ls) then Some (default (false, None) (info p n)) else info p n.
Proof.
  revert n p. induction ls as [|l ls IH]; intros n [|k p]; cbn [insert_walk].
  - done.
  - rewrite !decide_False; [done| |done]. by intros ?%prefix_nil_inv.
  - rewrite decide_False, decide_True by (done || apply prefix_nil). done.
  - rewrite !info_cons. cbn [children]. rewrite lookup_insert.
    destruct (decide (l = k)) as [->|Hne]; cbn.
    + rewrite IH. destruct (decide (p = ls)) as [->|Hp]; [by rewrite decide_True|].
      rewrite (decide_False (P := k :: p = k :: ls)) by congruence.
      destruct (decide (p `prefix_of` ls)) as [Hpre|Hpre].
      * rewrite decide_True by by apply prefix_cons. f_equal.
        destruct (children n !! k); [done|]. cbn. by destruct p.
      * rewrite decide_False by by intros ?%prefix_cons_inv_2.
        destruct (children n !! k); [done|]. cbn. destruct p; [|apply info_newNode].
        by destruct Hpre; apply prefix_nil.
    + rewrite !decide_False; [done| |congruence]. by intros ?%prefix_cons_inv_1.
Qed.

Lemma insert_loop_spec i labels q cur h r :
  tree h r → reach h r q = Some cur → i ≤ length labels →
  let ls := rev (take i labels) in
  ∃ l' h', insert_loop i labels cur h = Some (l', h') ∧ tree h' r ∧
    reach h' r (q ++ ls) = Some l' ∧
    ∀ p, info_heap h' r p = if decide (p `prefix_of` (q ++ ls))
                            then Some (default (false, None) (info_heap h r p))
                            else info_heap h r p.
Proof.
  revert q cur h. induction i as [|i IH]; intros q cur h Ht Hq Hi; cbn [insert_loop].
  { exists cur, h. rewrite take_0, app_nil_r. repeat split; [apply Ht..|done|].
    intros p. case_decide as Hp; [|done]. destruct (info_heap h r p) eqn:E; [done|].
    apply reach_info_None in E; [|done]. by destruct (reach_prefix _ _ _ _ _ Hp Hq) as [x ?]; simplify_eq. }
  destruct (lookup_lt_is_Some_2 labels i) as [l Hl]; [lia|].
  destruct (tree_live _ _ Ht _ _ Hq) as [c Hc]. cbv zeta.
  rewrite (take_S_rev _ _ _ Hl), Hl, Hc. cbn [mbind option_bind].
  assert (∀ ls, q ++ l :: ls = (q ++ [l]) ++ ls) as Happ by (intros; by rewrite <-app_assoc).
  rewrite Happ. destruct (c_children c !! l) as [next|] eqn:Hn.
  - apply IH; [done| |lia]. rewrite reach_snoc, Hq. cbn. by rewrite Hc.
  - cbn [alloc_node]. edestruct (IH (q ++ [l]) (fresh (dom h))) as (l' & h' & -> & Ht' & Hl' & Hinfo);
      [by eapply link_tree| |lia|].
    { erewrite link_reach by done. by rewrite decide_True. }
    exists l', h'. do 3 (split; [done|]). intros p. rewrite Hinfo. erewrite link_info by done.
    destruct (decide (p = q ++ [l])) as [->|Hne]; [|done].
    rewrite decide_True by by apply prefix_app_r. rewrite decide_True by by apply prefix_app_r.
    replace (info_heap h r (q ++ [l])) with (@None (bool * option V)); [done|].
    symmetry. apply reach_info_None; [done|]. rewrite reach_snoc, Hq. cbn. by rewrite Hc.
Qed.

Lemma Insert_heap_spec domain v r h n :
  heap_repr h r n →
  ∃ h', Insert_heap domain v r h = Some h' ∧
        heap_repr h' r (root (Insert domain v (mkTrie n))).
Proof.
  intros [Ht Hinfo]. unfold Insert_heap, Insert. set (labels := splitDomain domain).
  case_decide as Hlen; [by exists h|].
  edestruct (insert_loop_spec (length labels) labels [] r h r) as (l & h1 & -> & Ht1 & Hl & Hi1);
    [done..|]. rewrite firstn_all in *. cbn [app] in *.
  destruct (tree_live _ _ Ht1 _ _ Hl) as [c Hc]. cbn [mbind option_bind]. rewrite Hc.
  eexists. split; [done|]. split; [by eapply set_flags_tree|].
  intros p. erewrite set_flags_info by done. cbn [root]. rewrite info_insert_walk.
  case_decide; [done|]. rewrite Hi1, Hinfo. done.
Qed.

Lemma lookup_loop_spec i labels q cur h r n :
  tree h r → reach h r q = Some cur → (∀ p, info_heap h r (q ++ p) = info p n) →
  i ≤ length labels →
  lookup_loop i labels cur h = Some (lookup_walk (rev (take i labels)) n).
Proof.
  revert q cur n. induction i as [|i IH]; intros q cur n Ht Hq Hinfo Hi; [done|].
  destruct (lookup_lt_is_Some_2 labels i) as [l Hl]; [lia|].
  destruct (tree_live _ _ Ht _ _ Hq) as [c Hc].
  rewrite (take_S_rev _ _ _ Hl). cbn [lookup_loop lookup_walk]. rewrite Hl, Hc.
  cbn [mbind option_bind].
  assert (reach h r (q ++ [l]) = c_children c !! l) as Hreach.
  { rewrite reach_snoc, Hq. cbn. by rewrite Hc. }
  pose proof (Hinfo [l]) as Hi1. rewrite info_cons in Hi1.
  destruct (c_children c !! l) as [next|] eqn:Hn.
  - destruct (tree_live _ _ Ht _ _ Hreach) as [cn Hcn]. rewrite Hcn.
    rewrite (reach_info _ _ _ _ _ Hreach Hcn) in Hi1. cbn [mbind option_bind].
    destruct (children n !! l) as [n'|] eqn:Hn'; [|done]. cbn in Hi1. injection Hi1 as -> ->.
    destruct (terminal n'); [done|]. apply (IH (q ++ [l])); [done|done| |lia].
    intros p. rewrite <-app_assoc. cbn [app]. rewrite Hinfo, info_cons, Hn'. done.
  - rewrite (proj2 (reach_info_None h r (q ++ [l]) Ht) Hreach) in Hi1.
    by destruct (children n !! l).
Qed.

Lemma Lookup_heap_spec r h n name :
  heap_repr h r n → Lookup_heap r h name = Some (Lookup (mkTrie n) name).
Proof.
  intros [Ht Hinfo]. unfold Lookup_heap, Lookup. case_decide as Hlen; [done|].
  rewrite (lookup_loop_spec _ _ [] r h r n) by done. by rewrite firstn_all.
Qed.

Lemma NewTrie_heap_spec : heap_repr NewTrie_heap.2 NewTrie_heap.1 (root NewTrie).
Proof.
  unfold NewTrie_heap, alloc_node. cbn [fst snd]. set (r := fresh _).
  set (h := <[r := mkCell ∅ false None]> ∅).
  assert (∀ p k, reach h r (p ++ [k]) = None) as HNone.
  { intros p k. rewrite reach_snoc. destruct (reach h r p) as [x|]; [|done]. cbn.
    unfold h. rewrite lookup_insert. case_decide; [done|]. by rewrite lookup_empty. }
  assert (∀ p l, reach h r p = Some l → p = [] ∧ l = r) as Hnil.
  { intros p l. destruct p as [|k p _] using rev_ind; [by intros [= <-]|]. by rewrite HNone. }
  split; [split|].
  - intros p l [-> ->]%Hnil. unfold h. rewrite lookup_insert_eq. eauto.
  - intros p q l [-> _]%Hnil [-> _]%Hnil. done.
  - intros p. destruct p as [|k p]; [cbn; unfold info_heap; cbn; unfold h; by rewrite lookup_insert_eq|].
    transitivity (@None (bool * option V)); [|by rewrite info_newNode].
    unfold info_heap. destruct (reach h r (k :: p)) eqn:E; [|done]. by apply Hnil in E as [? _].
Qed.

(** A run of insertions on the heap. *)
Definition build_heap (ds : list (string * option V)) : option (loc * heap) :=
  let '(r, h) := NewTrie_heap in
  h ← foldl (λ o dv, h ← o; Insert_heap dv.1 dv.2 r h) (Some h) ds;
  Some (r, h).

(** C13: the pointer trie refines the functional one: after any sequence of
    insertions into a fresh heap trie no operation has panicked (no nil pointer,
    no index out of range), the pointers form a tree, and every lookup on the
    heap returns, without a panic, what the functional trie returns. *)
Theorem heap_trie_refines (ds : list (string * option V)) :
  ∃ r h, build_heap ds = Some (r, h) ∧ tree h r ∧
         ∀ name, Lookup_heap r h name = Some (Lookup (build ds) name).
Proof.
  unfold build_heap. destruct NewTrie_heap as [r h0] eqn:E0.
  assert (heap_repr h0 r (root NewTrie)) as H0.
  { pose proof NewTrie_heap_spec as H. by rewrite E0 in H. }
  assert (∃ h, foldl (λ o dv, h ← o; Insert_heap dv.1 dv.2 r h) (Some h0) ds = Some h
               ∧ heap_repr h r (root (build ds))) as (h & -> & Hr).
  { induction ds as [|dv ds IH] using rev_ind; [by exists h0|].
    destruct IH as (h & Hh & Hr). unfold build. rewrite !foldl_snoc, Hh. cbn [mbind option_bind].
    destruct (Insert_heap_spec dv.1 dv.2 r h _ Hr) as (h' & -> & Hr').
    exists h'. split; [done|].
    by replace (mkTrie (root (build ds))) with (build ds) in Hr' by (by destruct (build ds)). }
  exists r, h. split; [done|]. split; [apply Hr|]. intros name.
  rewrite (Lookup_heap_spec _ _ _ _ Hr). by destruct (build ds).
Qed.

End heap.
