(* ===== verification/Rules.v ===== *)
(** * The rule loader ([internal/rules/loader.go])

    [loadFromBytes] parses, validates and normalises a rule file; [BuildTrie]
    turns the result into a suffix trie. The YAML decoder is third-party code
    and a parameter; a [*Rule] that may be nil is an [option Rule]. *)

From S2P Require Import Prelude GoUnicode GoStrings Trie.

(** ** Data *)

Record Rule := mkRule {
  Domain : string;
  IPSetV4 : string;
  IPSetV6 : string;
}.

Record RuleSet := mkRuleSet {
  Version : Z;
  Rules : list (option Rule);
  Warnings : list string;
}.

#[global] Instance Rule_eq_dec : EqDecision Rule.
Proof. solve_decision. Defined.
#[global] Instance RuleSet_eq_dec : EqDecision RuleSet.
Proof. solve_decision. Defined.

(** The errors of the loader; [error_string] is their text. *)
Inductive load_error :=
| ErrRead (cause : string)
| ErrParse (cause : string)
| ErrVersion (version : Z)
| ErrNilRule
| ErrDomainRequired (i : nat)
| ErrNoIPSet (i : nat) (domain : string).

#[global] Instance load_error_eq_dec : EqDecision load_error.
Proof. solve_decision. Defined.

(** [yaml.Unmarshal] into a zero [RuleSet]: third-party, a parameter. It fills
    [Version] and [Rules]; the field [Warnings] is tagged out. *)
Class YAML := yaml_Unmarshal : list Byte.byte → result string (Z * list (option Rule)).

Section loader.
Context {yaml : YAML} {print_table : PrintTable}.

Definition error_string (e : load_error) : string :=
  match e with
  | ErrRead cause => "read rules: " +:+ cause
  | ErrParse cause => "parse rules: " +:+ cause
  | ErrVersion v => "unsupported rules version " +:+ fmt_d v +:+ " (want 1)"
  | ErrNilRule => "nil rule entry"
  | ErrDomainRequired i => "rule " +:+ fmt_d (Z.of_nat i) +:+ ": domain is required"
  | ErrNoIPSet i d =>
    "rule " +:+ fmt_d (Z.of_nat i) +:+ " (" +:+ d +:+ "): must specify ipset_v4 and/or ipset_v6"
  end.

(** ** Operations *)

Definition normalize_domain (domain : string) : string :=
  TrimSuffix (ToLower (TrimSpace domain)) ".".

Definition duplicate_warning (domain : string) (i prev : nat) : string :=
  "duplicate domain " +:+ Quote domain +:+ " at rules[" +:+ fmt_d (Z.of_nat i)
  +:+ "] overrides rules[" +:+ fmt_d (Z.of_nat prev) +:+ "] (last wins)".

(** The loop of [loadFromBytes] from index [i] on: the rules still to check,
    the map [seen] and the warnings so far. It returns the rules with their
    domains rewritten in place. *)
Fixpoint load_loop (i : nat) (rules : list (option Rule)) (seen : gmap string nat)
    (warnings : list string) : result load_error (list (option Rule) * list string) :=
  match rules with
  | [] => Ok ([], warnings)
  | None :: _ => Err ErrNilRule
  | Some r :: rest =>
    let r := mkRule (normalize_domain (Domain r)) (IPSetV4 r) (IPSetV6 r) in
    if String.eqb (Domain r) "" then Err (ErrDomainRequired i)
    else if String.eqb (IPSetV4 r) "" && String.eqb (IPSetV6 r) "" then
      Err (ErrNoIPSet i (Domain r))
    else
      let warnings :=
        match seen !! Domain r with
        | Some prev => warnings ++ [duplicate_warning (Domain r) i prev]
        | None => warnings
        end in
      '(rs, ws) ← load_loop (S i) rest (<[Domain r := i]> seen) warnings;
      Ok (Some r :: rs, ws)
  end.

Definition loadFromBytes (b : list Byte.byte) : result load_error RuleSet :=
  match yaml_Unmarshal b with
  | Err cause => Err (ErrParse cause)
  | Ok (version, rules) =>
    if negb (version =? 1)%Z then Err (ErrVersion version)
    else
      '(rs, ws) ← load_loop 0 rules ∅ [];
      Ok (mkRuleSet version rs ws)
  end.

Definition LoadFromBytes (b : list Byte.byte) : result load_error RuleSet := loadFromBytes b.

(** [Load], given what [os.ReadFile] answers. *)
Definition Load (ReadFile : string → result string (list Byte.byte)) (path : string)
    : result load_error RuleSet :=
  match ReadFile path with
  | Err cause => Err (ErrRead cause)
  | Ok b => loadFromBytes b
  end.

(** [BuildTrie]; [None] is the nil dereference of a nil rule. *)
Definition BuildTrie (rs : RuleSet) : option (Trie Rule) :=
  foldl (λ ot r, t ← ot; r ← r; Some (Insert (Domain r) (Some r) t)) (Some NewTrie) (Rules rs).

(** ** Specification of the loader *)

Definition normalize_rule (r : Rule) : Rule :=
  mkRule (normalize_domain (Domain r)) (IPSetV4 r) (IPSetV6 r).

(** What is wrong with the rule at index [i] by itself. *)
Definition rule_error (i : nat) (r : option Rule) : option load_error :=
  match r with
  | None => Some ErrNilRule
  | Some r =>
    if decide (normalize_domain (Domain r) = "") then Some (ErrDomainRequired i)
    else if decide (IPSetV4 r = "" ∧ IPSetV6 r = "") then
      Some (ErrNoIPSet i (normalize_domain (Domain r)))
    else None
  end.

(** The last index before [i] at which the domain [d] stands. *)
Definition last_before (doms : list string) (i : nat) (d : string) : option nat :=
  last (omap (λ j, if decide (doms !! j = Some d) then Some j else None) (seq 0 i)).

(** One warning per rule whose domain already stood at an earlier index; it
    names the closest one. *)
Definition warning_at (doms : list string) (i : nat) : option string :=
  d ← doms !! i; j ← last_before doms i d; Some (duplicate_warning d i j).
Definition spec_warnings (doms : list string) : list string :=
  omap (warning_at doms) (seq 0 (length doms)).

(** The normalised domains, in order. *)
Definition domains (rules : list (option Rule)) : list string :=
  omap (fmap (M := option) (λ r, normalize_domain (Domain r))) rules.

(** The errors of the single rules, in order, the first one at index [i]. *)
Definition rule_errors (i : nat) (rules : list (option Rule)) : list load_error :=
  omap (M := list) id (imap (λ j, rule_error (i + j)) rules).

Definition spec_load (rules : list (option Rule)) : result load_error RuleSet :=
  match rule_errors 0 rules with
  | e :: _ => Err e
  | [] => Ok (mkRuleSet 1 (fmap (M := option) normalize_rule <$> rules)
                (spec_warnings (domains rules)))
  end.

(** ** The loop meets the specification *)

Definition seen_ok (doms : list string) (seen : gmap string nat) : Prop :=
  ∀ d, seen !! d = last_before doms (length doms) d.

Lemma last_before_app doms doms' d i :
  (i ≤ length doms)%nat → last_before (doms ++ doms') i d = last_before doms i d.
Proof.
  intros Hi. unfold last_before. f_equal. apply omap_ext_in. intros j Hj.
  apply elem_of_seq in Hj. by rewrite lookup_app_l by lia.
Qed.

Lemma seen_ok_insert doms seen d :
  seen_ok doms seen → seen_ok (doms ++ [d]) (<[d := length doms]> seen).
Proof.
  intros Hs d'. rewrite length_app. cbn [length].
  replace (length doms + 1) with (S (length doms)) by lia.
  unfold last_before. rewrite seq_S, omap_app. cbn.
  rewrite lookup_app_r, Nat.sub_diag by done. cbn. rewrite lookup_insert.
  destruct (decide (d = d')) as [->|Hne].
  - by rewrite decide_True, last_snoc.
  - rewrite decide_False by congruence. rewrite app_nil_r.
    rewrite Hs, <-(last_before_app doms [d]) by done. done.
Qed.

Lemma rule_errors_cons i r rest :
  rule_errors i (r :: rest) = option_list (rule_error i r) ++ rule_errors (S i) rest.
Proof.
  unfold rule_errors. rewrite imap_cons, Nat.add_0_r.
  rewrite (imap_ext ((λ j, rule_error (i + j)) ∘ S) (λ j, rule_error (S i + j)))
    by (intros j x _; cbn; by rewrite Nat.add_succ_r).
  by destruct (rule_error i r).
Qed.

(** An accepted rule takes one step of the loop. *)
Lemma load_loop_step i r rest seen ws :
  rule_error i (Some r) = None →
  load_loop i (Some r :: rest) seen ws =
    '(rs, ws) ← load_loop (S i) rest (<[normalize_domain (Domain r) := i]> seen)
       (ws ++ option_list
          (duplicate_warning (normalize_domain (Domain r)) i <$> seen !! normalize_domain (Domain r)));
    Ok (Some (normalize_rule r) :: rs, ws).
Proof.
  cbn [load_loop rule_error Domain IPSetV4 IPSetV6]. intros He.
  destruct (String.eqb_spec (normalize_domain (Domain r)) "") as [E|E];
    [by rewrite decide_True in He|]. rewrite decide_False in He by done.
  destruct (String.eqb (IPSetV4 r) "" && String.eqb (IPSetV6 r) "") eqn:E2.
  { apply andb_prop in E2 as [?%String.eqb_eq ?%String.eqb_eq]. by rewrite decide_True in He. }
  destruct (seen !! normalize_domain (Domain r)); cbn; by rewrite ?app_nil_r.
Qed.

Lemma load_loop_error i r rest seen ws e :
  rule_error i r = Some e → load_loop i (r :: rest) seen ws = Err e.
Proof.
  destruct r as [r|]; cbn [load_loop rule_error Domain IPSetV4 IPSetV6]; [|by intros [= ->]].
  intros He. destruct (String.eqb_spec (normalize_domain (Domain r)) "") as [E|E].
  { rewrite decide_True in He by done. by injection He as ->. }
  rewrite decide_False in He by done.
  destruct (String.eqb (IPSetV4 r) "" && String.eqb (IPSetV6 r) "") eqn:E2.
  - apply andb_prop in E2 as [?%String.eqb_eq ?%String.eqb_eq].
    rewrite decide_True in He by done. by injection He as ->.
  - rewrite decide_False in He; [done|]. intros [E4 E6]. by rewrite E4, E6 in E2.
Qed.

Lemma load_loop_spec rules doms seen ws :
  seen_ok doms seen →
  load_loop (length doms) rules seen ws =
  match rule_errors (length doms) rules with
  | e :: _ => Err e
  | [] => Ok (fmap (M := option) normalize_rule <$> rules,
              ws ++ omap (warning_at (doms ++ domains rules)) (seq (length doms) (length rules)))
  end.
Proof.
  revert doms seen ws. induction rules as [|r rest IH]; intros doms seen ws Hseen.
  { cbn. by rewrite app_nil_r. }
  rewrite rule_errors_cons. destruct (rule_error (length doms) r) as [e|] eqn:He.
  { by rewrite (load_loop_error _ _ _ _ _ _ He). }
  destruct r as [r|]; [|done]. rewrite load_loop_step by done.
  set (d := normalize_domain (Domain r)).
  pose proof (IH (doms ++ [d]) _ (ws ++ option_list (duplicate_warning d (length doms) <$> seen !! d))
    (seen_ok_insert _ _ d Hseen)) as IH'. clear IH.
  rewrite length_app in IH'. cbn [length] in IH'.
  replace (length doms + 1) with (S (length doms)) in IH' by lia. rewrite IH'. clear IH'.
  cbn [option_list app]. destruct (rule_errors _ rest) as [|e es]; [|done].
  cbn [mbind result_bind].
  cbn [domains omap list_omap]. cbn [length seq]. f_equal. f_equal.
  rewrite <-app_assoc. f_equal. cbn [app fmap option_fmap option_map].
  assert (warning_at (doms ++ d :: domains rest) (length doms)
          = duplicate_warning d (length doms) <$> seen !! d) as Hw.
  { unfold warning_at. rewrite lookup_app_r, Nat.sub_diag by done. cbn.
    rewrite last_before_app, <-Hseen by done. by destruct (seen !! d). }
  cbn. fold (domains rest). fold d. rewrite Hw. rewrite <-(app_assoc doms). cbn [app].
  by destruct (seen !! d).
Qed.

(** ** What a loaded rule set is *)

Definition valid_rule (r : Rule) : Prop :=
  normalize_domain (Domain r) ≠ "" ∧ (IPSetV4 r ≠ "" ∨ IPSetV6 r ≠ "").

Lemma rule_error_None i r : rule_error i r = None ↔ ∃ r', r = Some r' ∧ valid_rule r'.
Proof.
  destruct r as [r|]; cbn; [|naive_solver]. unfold valid_rule. repeat case_decide; split; try done.
  - naive_solver.
  - naive_solver.
  - intros _. exists r. split; [done|]. split; [done|].
    destruct (decide (IPSetV4 r = "")); [right|left]; naive_solver.
Qed.

Lemma rule_errors_nil i rules :
  rule_errors i rules = [] ↔ ∃ rl, rules = Some <$> rl ∧ Forall valid_rule rl.
Proof.
  revert i. induction rules as [|r rest IH]; intros i.
  { split; [by exists []|done]. }
  rewrite rule_errors_cons. split.
  - intros [He Hes]%app_eq_nil. apply IH in Hes as (rl & -> & Hrl).
    destruct (rule_error i r) eqn:E; [done|]. apply rule_error_None in E as (r' & -> & Hr').
    exists (r' :: rl). split; [done|by constructor].
  - intros ([|r' rl] & Heq & Hrl); [done|]. injection Heq as -> ->.
    apply Forall_cons in Hrl as [Hr' Hrl].
    rewrite (proj2 (rule_error_None i (Some r'))) by eauto. apply IH. eauto.
Qed.

Lemma domains_Some rl : domains (Some <$> rl) = (λ r, normalize_domain (Domain r)) <$> rl.
Proof. unfold domains. induction rl as [|r rl IH]; [done|]. cbn. f_equal. apply IH. Qed.

Lemma loadFromBytes_unfold b :
  loadFromBytes b =
  match yaml_Unmarshal b with
  | Err cause => Err (ErrParse cause)
  | Ok (version, rules) =>
    if decide (version = 1%Z) then spec_load rules else Err (ErrVersion version)
  end.
Proof.
  unfold loadFromBytes, spec_load. destruct (yaml_Unmarshal b) as [[version rules]|cause]; [|done].
  destruct (Z.eqb_spec version 1) as [->|Hne]; cbn [negb]; [|by rewrite decide_False].
  rewrite decide_True by done. rewrite (load_loop_spec rules []) by done.
  cbn [length app].
  destruct (rule_errors 0 rules) eqn:E; [|done]. apply rule_errors_nil in E as (rl & -> & _).
  cbn [mbind result_bind]. unfold spec_warnings. by rewrite length_fmap, domains_Some, length_fmap.
Qed.

(** What the rest of the program relies on of a rule. *)
Definition wf_rule (r : Rule) : Prop :=
  Domain r ≠ "" ∧ ToLower (Domain r) = Domain r ∧ (IPSetV4 r ≠ "" ∨ IPSetV6 r ≠ "").

Lemma ToLower_normalize_domain d : ToLower (normalize_domain d) = normalize_domain d.
Proof.
  unfold normalize_domain. destruct (TrimSuffix_cases (ToLower (TrimSpace d)) ".") as [(p & Hp & ->)|[_ ->]];
    [|apply ToLower_idemp].
  pose proof (ToLower_app_dot p "") as Hd. rewrite !string_app_nil_r in Hd.
  rewrite <-Hp, ToLower_idemp, Hp in Hd. symmetry.
  rewrite <-(TrimSuffix_app (ToLower p) "."), <-Hd. by rewrite TrimSuffix_app.
Qed.

Lemma loadFromBytes_Ok b rs :
  loadFromBytes b = Ok rs ↔
  ∃ rl, yaml_Unmarshal b = Ok (1%Z, Some <$> rl) ∧ Forall valid_rule rl ∧
        rs = mkRuleSet 1 (Some <$> (normalize_rule <$> rl))
               (spec_warnings (Domain <$> (normalize_rule <$> rl))).
Proof.
  assert (∀ rl, domains (Some <$> rl) = Domain <$> (normalize_rule <$> rl)) as Hdom.
  { intros rl. by rewrite domains_Some, <-list_fmap_compose. }
  assert (∀ rl : list Rule, fmap (M := option) normalize_rule <$> (Some <$> rl)
          = Some <$> (normalize_rule <$> rl)) as Hmap
    by (intros rl; by rewrite <-!list_fmap_compose).
  rewrite loadFromBytes_unfold. split.
  - destruct (yaml_Unmarshal b) as [[version rules]|cause]; [|done].
    case_decide as Hv; [|done]. subst. unfold spec_load.
    destruct (rule_errors 0 rules) eqn:E; [|done]. intros [= <-].
    apply rule_errors_nil in E as (rl & -> & Hrl). exists rl. by rewrite Hdom, Hmap.
  - intros (rl & -> & Hrl & ->). rewrite decide_True by done. unfold spec_load.
    rewrite (proj2 (rule_errors_nil 0 (Some <$> rl))) by eauto. by rewrite Hdom, Hmap.
Qed.

Lemma valid_rule_wf rl : Forall valid_rule rl → Forall wf_rule (normalize_rule <$> rl).
Proof.
  intros H. apply Forall_fmap. eapply Forall_impl; [exact H|]. intros r [Hd Hs].
  split; [done|]. split; [apply ToLower_normalize_domain|done].
Qed.

(** ** Tries of rule sets *)

Lemma BuildTrie_build rs rl :
  Rules rs = Some <$> rl → BuildTrie rs = Some (build ((λ r, (Domain r, Some r)) <$> rl)).
Proof.
  unfold BuildTrie. intros ->. induction rl as [|r rl IH] using rev_ind; [done|].
  unfold build. by rewrite !fmap_app, !foldl_app, IH.
Qed.

Lemma inserted_rules rl labels v :
  inserted ((λ r, (Domain r, Some r)) <$> rl) labels = Some v ↔
  ∃ i r, v = Some r ∧ rl !! i = Some r ∧ splitDomain (Domain r) = labels ∧
         ∀ j r', (i < j)%nat → rl !! j = Some r' → splitDomain (Domain r') ≠ labels.
Proof.
  unfold inserted. rewrite omap_fmap. cbn [fst snd].
  induction rl as [|r rl IH] using rev_ind; [naive_solver|].
  rewrite omap_app. cbn. case_decide as Hd.
  - rewrite last_snoc. split.
    + intros [= <-]. exists (length rl), r.
      rewrite lookup_app_r, Nat.sub_diag by done. repeat split; [done..|].
      intros j r' Hj Hr'. apply lookup_lt_Some in Hr'. rewrite length_app in Hr'. simpl in Hr'; lia.
    + intros (i & r' & -> & Hi & Hl & Hlast). do 2 f_equal.
      destruct (decide (i = length rl)) as [->|Hne].
      * rewrite lookup_app_r, Nat.sub_diag in Hi by done. by injection Hi.
      * exfalso. eapply (Hlast (length rl) r); [|by rewrite lookup_app_r, Nat.sub_diag|done].
        apply lookup_lt_Some in Hi. rewrite length_app in Hi. simpl in Hi; lia.
  - rewrite app_nil_r, IH. split; intros (i & r' & -> & Hi & Hl & Hlast); exists i, r'.
    + repeat split; [by apply lookup_app_l_Some|done|]. intros j r'' Hj Hr''.
      apply lookup_snoc_Some in Hr'' as [[? ?]|[? ?]]; subst; eauto.
    + apply lookup_snoc_Some in Hi as [[? Hi]|[? ?]]; [|by subst].
      repeat split; [done..|]. intros j r'' Hj Hr''. eapply Hlast; [done|].
      by apply lookup_app_l_Some.
Qed.

End loader.

(** ** Properties *)

Section properties.
Context {yaml : YAML} {print_table : PrintTable}.

(** C15: [loadFromBytes] is its specification: a decoder error and a version
    other than 1 are reported as such; otherwise the error of the first bad rule
    (nil entry, empty normalised domain, no set) is returned with its index, or,
    when every rule is good, the rules in order with normalised domains and one
    warning for each rule whose domain stood before, naming the closest earlier
    index. The map [seen] of the loop is gone from the specification. *)
Theorem loadFromBytes_spec b :
  loadFromBytes b =
  match yaml_Unmarshal b with
  | Err cause => Err (ErrParse cause)
  | Ok (version, rules) =>
    if decide (version = 1%Z) then spec_load rules else Err (ErrVersion version)
  end.
Proof. apply loadFromBytes_unfold. Qed.

(** C29: a rule set that loads has only non-nil rules, each with a non-empty,
    lower-case domain and at least one set; there is one per entry of the file,
    in the file's order, with the file's set names. *)
Theorem loaded_rules_wf b rs :
  loadFromBytes b = Ok rs →
  ∃ raw rl, yaml_Unmarshal b = Ok (1%Z, Some <$> raw) ∧ Rules rs = Some <$> rl ∧
    Forall wf_rule rl ∧ length rl = length raw ∧
    IPSetV4 <$> rl = IPSetV4 <$> raw ∧ IPSetV6 <$> rl = IPSetV6 <$> raw ∧
    Domain <$> rl = normalize_domain <$> (Domain <$> raw).
Proof.
  intros (raw & Hraw & Hvalid & ->)%loadFromBytes_Ok. exists raw, (normalize_rule <$> raw).
  rewrite <-!list_fmap_compose, length_fmap. repeat split; try done.
  by apply valid_rule_wf.
Qed.

(** The rule that stands last in the file among those whose labels are the
    shortest matching suffix of a name. *)
Definition governs (rl : list Rule) (name : string) (r : Rule) : Prop :=
  let labels := splitDomain name in
  ∃ k i, (1 ≤ k ≤ length labels)%nat ∧ rl !! i = Some r ∧
    splitDomain (Domain r) = suffix k labels ∧
    (∀ j r', (i < j)%nat → rl !! j = Some r' → splitDomain (Domain r') ≠ suffix k labels) ∧
    (∀ k' r', (1 ≤ k' < k)%nat → r' ∈ rl → splitDomain (Domain r') ≠ suffix k' labels).

Lemma Lookup_governs rl name v :
  Lookup (build ((λ r, (Domain r, Some r)) <$> rl)) name = (v, true) ↔
  ∃ r, v = Some r ∧ governs rl name r.
Proof.
  rewrite build_found. unfold governs. cbv zeta.
  assert (∀ labels, inserted ((λ r, (Domain r, Some r)) <$> rl) labels = None ↔
    ∀ r, r ∈ rl → splitDomain (Domain r) ≠ labels) as Hnone.
  { intros labels. rewrite eq_None_not_Some, inserted_is_Some. split.
    - intros Hno r Hr Hl. apply Hno. exists (Domain r), (Some r). split; [|done].
      apply list_elem_of_fmap. eauto.
    - intros Hno (d & w & (r & [= -> ->] & Hr)%list_elem_of_fmap & Hl). by eapply Hno. }
  setoid_rewrite inserted_rules. setoid_rewrite Hnone. split.
  - intros (k & Hk & (i & r & -> & Hi & Hl & Hlast) & Hshort). exists r. split; [done|]. exists k, i.
    do 4 (split; [done|]). intros k' r' Hk' Hr'. by apply Hshort.
  - intros (r & -> & k & i & Hk & Hi & Hl & Hlast & Hshort). exists k. split; [done|].
    split; [by exists i, r|]. intros k' Hk' r' Hr'. by eapply Hshort.
Qed.

(** C17: the trie of a loaded rule set: building it does not panic, and a name
    finds the rule that stands last in the file among those whose labels are the
    shortest matching suffix of the name. *)
Theorem BuildTrie_last_wins b rs :
  loadFromBytes b = Ok rs →
  ∃ t rl, BuildTrie rs = Some t ∧ Rules rs = Some <$> rl ∧
    ∀ name v, let labels := splitDomain name in
      Lookup t name = (v, true) ↔
      ∃ k i r, v = Some r ∧ (1 ≤ k ≤ length labels)%nat ∧ rl !! i = Some r ∧
        splitDomain (Domain r) = suffix k labels ∧
        (∀ j r', (i < j)%nat → rl !! j = Some r' → splitDomain (Domain r') ≠ suffix k labels) ∧
        (∀ k' r', (1 ≤ k' < k)%nat → r' ∈ rl → splitDomain (Domain r') ≠ suffix k' labels).
Proof.
  intros (raw & _ & _ & ->)%loadFromBytes_Ok. eexists _, (normalize_rule <$> raw).
  split; [by apply BuildTrie_build|]. split; [done|]. intros name v. cbv zeta.
  rewrite Lookup_governs. split.
  - intros (r & -> & k & i & H). by exists k, i, r.
  - intros (k & i & r & -> & H). exists r. split; [done|]. by exists k, i.
Qed.

(** C30: the loader strips one trailing dot and the trie strips another, so two
    spellings of one domain can load without a duplicate warning although the
    later one replaces the earlier one in the trie, and a rule for ".." loads
    although no name can match it. *)
Theorem double_dot_rules b v4 v4' v4'' :
  v4 ≠ "" → v4' ≠ "" → v4'' ≠ "" →
  yaml_Unmarshal b = Ok (1%Z, Some <$> [mkRule "example.com.." v4 ""; mkRule "example.com" v4' "";
                                        mkRule ".." v4'' ""]) →
  ∃ rs t, loadFromBytes b = Ok rs ∧ Warnings rs = [] ∧ length (Rules rs) = 3%nat ∧
    BuildTrie rs = Some t ∧
    (∀ name r, Lookup t name = (Some r, true) → r = mkRule "example.com" v4' "") ∧
    Lookup t "example.com" = (Some (mkRule "example.com" v4' ""), true).
Proof.
  intros H1 H2 H3 Hraw. set (raw := [_; _; _]) in Hraw.
  assert (Forall valid_rule raw) as Hvalid by (repeat constructor; (done || by left)).
  set (rl := [mkRule "example.com." v4 ""; mkRule "example.com" v4' ""; mkRule "." v4'' ""]).
  assert (normalize_rule <$> raw = rl) as Hnorm by done.
  eexists _, (build ((λ r, (Domain r, Some r)) <$> rl)).
  split; [apply loadFromBytes_Ok; exists raw; by rewrite Hnorm|].
  split; [by vm_compute|]. split; [done|]. split; [by apply BuildTrie_build|].
  assert (∀ name, Lookup (build ((λ r, (Domain r, Some r)) <$> rl)) name
    = Lookup (build [("example.com", Some (mkRule "example.com" v4' ""))]) name) as Heq.
  { intros name. by f_equal. }
  split; [|rewrite Heq; vm_compute; reflexivity].
  intros name r. rewrite Heq, build_found. cbv zeta. intros (k & Hk & Hin & _).
  unfold inserted in Hin. cbn in Hin. case_decide; by simplify_eq/=.
Qed.

End properties.

(** ** Witnesses *)

Definition sample_rules : list (option Rule) :=
  Some <$> [mkRule " Example.COM. " "v4" "v6"; mkRule "ads.example.org" "ads" "";
            mkRule "example.com" "second" ""].
Definition sample_yaml : YAML := λ _, Ok (1%Z, sample_rules).
Definition no_table : PrintTable := λ _, false.

Lemma loaded_rules_wf_witness :
  ∃ rs, @loadFromBytes sample_yaml no_table [] = Ok rs ∧ ∃ raw rl,
    @yaml_Unmarshal sample_yaml [] = Ok (1%Z, Some <$> raw) ∧ Rules rs = Some <$> rl ∧
    Forall wf_rule rl ∧ length rl = length raw ∧
    IPSetV4 <$> rl = IPSetV4 <$> raw ∧ IPSetV6 <$> rl = IPSetV6 <$> raw ∧
    Domain <$> rl = normalize_domain <$> (Domain <$> raw).
Proof.
  eexists. split; [vm_compute; reflexivity|].
  apply (@loaded_rules_wf sample_yaml no_table []). vm_compute. reflexivity.
Defined.

Lemma BuildTrie_last_wins_witness :
  ∃ rs, @loadFromBytes sample_yaml no_table [] = Ok rs ∧ ∃ t rl,
    BuildTrie rs = Some t ∧ Rules rs = Some <$> rl ∧
    ∀ name v, let labels := splitDomain name in
      Lookup t name = (v, true) ↔
      ∃ k i r, v = Some r ∧ (1 ≤ k ≤ length labels)%nat ∧ rl !! i = Some r ∧
        splitDomain (Domain r) = suffix k labels ∧
        (∀ j r', (i < j)%nat → rl !! j = Some r' → splitDomain (Domain r') ≠ suffix k labels) ∧
        (∀ k' r', (1 ≤ k' < k)%nat → r' ∈ rl → splitDomain (Domain r') ≠ suffix k' labels).
Proof.
  eexists. split; [vm_compute; reflexivity|].
  apply (@BuildTrie_last_wins sample_yaml no_table []). vm_compute. reflexivity.
Defined.

Definition double_dot_yaml : YAML := λ _,
  Ok (1%Z, Some <$> [mkRule "example.com.." "a" ""; mkRule "example.com" "b" ""; mkRule ".." "c" ""]).

Lemma double_dot_rules_witness :
  ∃ rs t, @loadFromBytes double_dot_yaml no_table [] = Ok rs ∧ Warnings rs = [] ∧
    length (Rules rs) = 3%nat ∧ BuildTrie rs = Some t ∧
    (∀ name r, Lookup t name = (Some r, true) → r = mkRule "example.com" "b" "") ∧
    Lookup t "example.com" = (Some (mkRule "example.com" "b" ""), true).
Proof. by apply (@double_dot_rules double_dot_yaml no_table [] "a" "b" "c"). Defined.

(** [TestLoad_DuplicateDomainLastWins], [TestLoad_RejectsRuleWithoutIPSet],
    [TestLoad_RejectsRuleWithoutDomain], [TestLoad_RejectsBadVersion]. *)
Example load_tests :
  let load v rules := @loadFromBytes (λ _, Ok (v, rules)) no_table [] in
  load 1%Z sample_rules
    = Ok (mkRuleSet 1 (Some <$> [mkRule "example.com" "v4" "v6"; mkRule "ads.example.org" "ads" "";
                                 mkRule "example.com" "second" ""])
         ["duplicate domain " +:+ quote_mark +:+ "example.com" +:+ quote_mark
          +:+ " at rules[2] overrides rules[0] (last wins)"])
  ∧ load 1%Z [Some (mkRule "example.com" "" "")] = Err (ErrNoIPSet 0 "example.com")
  ∧ load 1%Z [Some (mkRule "a" "x" ""); Some (mkRule "" "x" "")] = Err (ErrDomainRequired 1)
  ∧ load 1%Z [None] = Err ErrNilRule ∧ load 2%Z [] = Err (ErrVersion 2).
Proof. vm_compute. repeat split. Qed.
