(* ===== verification/Store.v ===== *)
(** * The rule store ([internal/rules/store.go])

    An [atomic.Value] holding one immutable snapshot: a rule set with the trie
    built from it. The store is [None] until the first [Replace]; every method
    is one atomic load or store of the pointer. *)

From S2P Require Import Prelude GoUnicode GoStrings Trie Rules.

Record snapshot := mkSnapshot {
  snap_rs : RuleSet;
  snap_trie : Trie Rule;
}.

Definition Store : Type := option snapshot.

Definition NewStore : Store := None.

Definition Get (s : Store) : option RuleSet := snap_rs <$> s.

Definition StoreTrie (s : Store) : option (Trie Rule) := snap_trie <$> s.

(** [Replace]: nil leaves the store alone; the outer [None] is the panic of
    [BuildTrie] on a nil rule. *)
Definition Replace (rs : option RuleSet) (s : Store) : option Store :=
  match rs with
  | None => Some s
  | Some rs => t ← BuildTrie rs; Some (Some (mkSnapshot rs t))
  end.

(** ** Invariant *)

(** The rule set and the trie of a store always belong together. *)
Definition coherent (s : Store) : Prop := StoreTrie s = rs ← Get s; BuildTrie rs.

Lemma Replace_coherent rs s s' : coherent s → Replace rs s = Some s' → coherent s'.
Proof.
  intros Hs. destruct rs as [rs|]; cbn; [|by intros [= <-]].
  destruct (BuildTrie rs) as [t|] eqn:Ht; [|done]. intros [= <-]. unfold coherent. cbn. by rewrite Ht.
Qed.

(** A rule set that went through the loader has no nil entry. *)
Definition loaded (rs : RuleSet) : Prop := Forall is_Some (Rules rs).

Lemma loaded_BuildTrie rs : loaded rs → is_Some (BuildTrie rs).
Proof.
  intros Hl. assert (∃ rl, Rules rs = Some <$> rl) as [rl Hrl].
  { unfold loaded in Hl. induction Hl as [|r rs' [x ->] _ [rl ->]]; [by exists []|].
    by exists (x :: rl). }
  rewrite (BuildTrie_build _ _ Hrl). eauto.
Qed.

Lemma loadFromBytes_loaded `{YAML, PrintTable} b rs : loadFromBytes b = Ok rs → loaded rs.
Proof.
  intros (rl & _ & _ & ->)%loadFromBytes_Ok. apply Forall_fmap, Forall_true. cbn. eauto.
Qed.

#[export] Hint Resolve loaded_BuildTrie loadFromBytes_loaded Replace_coherent : dns.

Lemma Replace_loaded rs s :
  loaded rs → ∃ t, BuildTrie rs = Some t ∧ Replace (Some rs) s = Some (Some (mkSnapshot rs t)).
Proof. intros [t Ht]%loaded_BuildTrie. exists t. cbn. by rewrite Ht. Qed.

(** A sequence of [Replace] calls. *)
Definition replace_all (l : list (option RuleSet)) (s : Store) : option Store :=
  foldl (λ o rs, s ← o; Replace rs s) (Some s) l.

(** C20: after any sequence of [Replace] calls with loaded rule sets (and nils),
    nothing has panicked, the store shows the last non-nil rule set, and its
    trie is the one built from exactly that rule set. *)
Theorem Store_coherent (l : list (option RuleSet)) :
  Forall (λ o, ∀ rs, o = Some rs → loaded rs) l →
  ∃ s, replace_all l NewStore = Some s ∧
       Get s = last (omap id l) ∧
       StoreTrie s = (rs ← last (omap id l); BuildTrie rs).
Proof.
  intros Hl.
  assert (∃ s, replace_all l NewStore = Some s ∧ coherent s ∧ Get s = last (omap id l))
    as (s & Hs & Hc & Hg); [|exists s; repeat split; [done..|]; by rewrite <-Hg].
  unfold replace_all. induction l as [|o l IH] using rev_ind; [by exists NewStore|].
  apply Forall_app in Hl as [Hl Ho]. apply Forall_cons in Ho as [Ho _].
  destruct (IH Hl) as (s & Hs & Hc & Hg). rewrite foldl_snoc, Hs, omap_app. cbn [mbind option_bind].
  destruct o as [rs|].
  - destruct (Replace_loaded rs s (Ho rs eq_refl)) as (t & Ht & Hr). rewrite Hr.
    eexists. split; [done|]. split; [by eapply Replace_coherent|]. cbn. by rewrite last_snoc.
  - exists s. cbn. by rewrite app_nil_r.
Qed.

Lemma Store_coherent_witness :
  let rs := mkRuleSet 1 [Some (mkRule "example.com" "v4" "")] [] in
  ∃ s, replace_all [Some rs; None] NewStore = Some s ∧
       Get s = last (omap id [Some rs; None]) ∧
       StoreTrie s = (rs ← last (omap id [Some rs; None]); BuildTrie rs).
Proof.
  intros rs. apply (Store_coherent [Some rs; None]).
  repeat constructor; intros ? [= <-]. repeat constructor. eauto.
Defined.
