(* ===== verification/GoPath.v ===== *)
(** * Go's [path/filepath] on Unix, as far as the program uses it

    [Clean], [Split], [Base] and [Abs] as the rewriting of path elements that
    their documentation describes. Standard library: no source lines. *)

From S2P Require Import Prelude GoUnicode GoStrings.

Definition slash : ascii := "/".

(** [filepath.IsAbs] *)
Definition IsAbs (path : string) : bool := String.prefix "/" path.

(** The elements of a cleaned path, [acc] in reverse. *)
Fixpoint clean_elems (rooted : bool) (elems acc : list string) : list string :=
  match elems with
  | [] => rev acc
  | e :: es =>
    if decide (e = "" ∨ e = ".") then clean_elems rooted es acc
    else if decide (e = "..") then
      match acc with
      | [] => clean_elems rooted es (if rooted then [] else [".."])
      | x :: xs => if decide (x = "..") then clean_elems rooted es (".." :: acc)
                   else clean_elems rooted es xs
      end
    else clean_elems rooted es (e :: acc)
  end.

(** [filepath.Clean] *)
Definition Clean (path : string) : string :=
  let rooted := IsAbs path in
  let elems := clean_elems rooted (Split path slash) [] in
  if rooted then "/" +:+ Join elems slash
  else if decide (elems = []) then "." else Join elems slash.

(** [filepath.Split]: everything up to the last slash, and the rest. *)
Fixpoint PathSplit (path : string) : string * string :=
  match path with
  | "" => ("", "")
  | String c p =>
    let '(dir, file) := PathSplit p in
    if String.eqb dir "" then
      if Ascii.eqb c slash then ("/", file) else ("", String c file)
    else (String c dir, file)
  end.

(** [filepath.Base] *)
Definition Base (path : string) : string :=
  if String.eqb path "" then "."
  else match filter (λ e, e ≠ "") (Split path slash) with
       | [] => "/"
       | es => default "" (last es)
       end.

(** [filepath.Abs], given the working directory. *)
Definition Abs (wd path : string) : string :=
  if IsAbs path then Clean path
  else Clean (if String.eqb path "" then wd else wd +:+ "/" +:+ path).

Example Clean_ex : (Clean <$> ["/a//b/../c/."; "a/.."; "../../x"; "/.."; ""])
  = ["/a/c"; "."; "../../x"; "/"; "."].
Proof. vm_compute. reflexivity. Qed.
Example PathSplit_ex : (PathSplit <$> ["/etc/dns2ipset/rules.yaml"; "rules.yaml"; "/x"; "/"])
  = [("/etc/dns2ipset/", "rules.yaml"); ("", "rules.yaml"); ("/", "x"); ("/", "")].
Proof. vm_compute. reflexivity. Qed.
Example Base_ex : (Base <$> ["/a/b"; "b"; "/a/b//"; "/"; ""]) = ["b"; "b"; "b"; "/"; "."].
Proof. vm_compute. reflexivity. Qed.

(** ** Facts *)

(** [Split] cuts a path into a directory part and a file name without slashes. *)
Lemma PathSplit_spec p :
  ((PathSplit p).1 +:+ (PathSplit p).2) = p ∧
  (slash ∉ String.list_ascii_of_string (PathSplit p).2) ∧
  ((PathSplit p).1 = "" ∨ ∃ d, (PathSplit p).1 = d +:+ "/").
Proof.
  induction p as [|c p IH]; cbn [PathSplit].
  { split; [done|]. split; [apply not_elem_of_nil|by left]. }
  destruct (PathSplit p) as [dir file]. cbn [fst snd] in *. destruct IH as (<- & Hf & Hd).
  destruct (String.eqb_spec dir "") as [->|Hne].
  - destruct (Ascii.eqb_spec c slash) as [->|Hc]; cbn.
    + split; [done|]. split; [done|]. right. by exists "".
    + split; [done|]. split; [|by left]. rewrite not_elem_of_cons. split; [congruence|done].
  - split; [done|]. split; [done|]. right. destruct Hd as [|[d ->]]; [done|]. by exists (String c d).
Qed.

(** The base name of a file in a directory is the file. *)
Lemma Base_in_dir dir file :
  file ≠ "" → slash ∉ String.list_ascii_of_string file → Base (dir +:+ "/" +:+ file) = file.
Proof.
  intros Hne Hs. unfold Base.
  destruct (String.eqb_spec (dir +:+ "/" +:+ file) "") as [E|_].
  { apply (f_equal String.length) in E. rewrite !string_length_app in E. cbn in E. lia. }
  change (dir +:+ "/" +:+ file) with (dir +:+ String slash file).
  rewrite Split_app_sep, (Split_no_sep file) by done.
  rewrite filter_app, filter_cons_True, filter_nil by done.
  destruct (filter _ (Split dir slash) ++ [file]) as [|e es] eqn:E.
  - by apply app_eq_nil in E as [_ ?].
  - by rewrite <-E, last_snoc.
Qed.

Lemma Split_Join es c :
  es ≠ [] → Forall (λ e, c ∉ String.list_ascii_of_string e) es → Split (Join es c) c = es.
Proof.
  intros Hne Hes. induction Hes as [|e es He Hes IH]; [done|].
  destruct es as [|e' es]; [by apply Split_no_sep|].
  cbn [Join]. rewrite Split_app_sep, Split_no_sep by done. cbn [app]. f_equal. by apply IH.
Qed.

(** An element of a cleaned absolute path: a name, without slashes. *)
Definition path_elem (e : string) : Prop :=
  (e ∉ [""; "."; ".."]) ∧ slash ∉ String.list_ascii_of_string e.

Lemma path_elem_no_slash es : Forall path_elem es → Forall (λ e, slash ∉ String.list_ascii_of_string e) es.
Proof. intros Hes. eapply Forall_impl; [exact Hes|]. by intros e [_ ?]. Qed.

Lemma clean_elems_ok elems acc :
  Forall (λ e, slash ∉ String.list_ascii_of_string e) elems → Forall path_elem acc →
  Forall path_elem (clean_elems true elems acc).
Proof.
  intros Hel. revert acc. induction Hel as [|e es He Hes IH]; intros acc Hacc; cbn [clean_elems].
  { by apply Forall_rev. }
  case_decide as H1; [by apply IH|]. case_decide as H2.
  - destruct Hacc as [|x xs [Hx ?] Hxs]; [by apply IH|].
    rewrite decide_False by (intros ->; apply Hx; set_solver). by apply IH.
  - apply IH. constructor; [|done]. split; [|done]. set_solver.
Qed.

Lemma clean_elems_id elems acc :
  Forall path_elem elems → clean_elems true (elems ++ [""]) acc = rev acc ++ elems.
Proof.
  intros Hel. revert acc. induction Hel as [|e es [He _] Hes IH]; intros acc; cbn [clean_elems app].
  { by rewrite decide_True, app_nil_r by auto. }
  rewrite !decide_False by set_solver. rewrite IH. cbn. by rewrite <-app_assoc.
Qed.

(** An absolute path is the root or the names on the way from it. *)
Lemma Clean_abs path :
  IsAbs path = true →
  ∃ es, Clean path = "/" +:+ Join es slash ∧ Forall path_elem es.
Proof.
  intros Habs. unfold Clean. rewrite Habs. eexists. split; [done|].
  apply clean_elems_ok; [|constructor]. apply Forall_forall. intros e He. by eapply Split_label.
Qed.

Lemma Abs_clean wd path :
  IsAbs wd = true → ∃ es, Abs wd path = "/" +:+ Join es slash ∧ Forall path_elem es.
Proof.
  intros Hwd. unfold Abs. destruct (IsAbs path) eqn:Hp; [by apply Clean_abs|].
  apply Clean_abs. destruct (String.eqb path ""); [done|].
  destruct wd as [|c wd]; [done|]. unfold IsAbs in *. cbn [String.append].
  rewrite sprefix_cons, sprefix_nil in *. done.
Qed.

Lemma Split_abs es : es ≠ [] → Forall path_elem es → Split ("/" +:+ Join es slash) slash = "" :: es.
Proof.
  intros Hne Hes. change ("/" +:+ Join es slash) with ("" +:+ String slash (Join es slash)).
  rewrite Split_app_sep, Split_Join; [done..|]. by apply path_elem_no_slash.
Qed.

(** Splitting off the last name leaves, cleaned, the path of its directory. *)
Lemma PathSplit_abs es e :
  Forall path_elem (es ++ [e]) →
  ∃ dir, PathSplit ("/" +:+ Join (es ++ [e]) slash) = (dir, e) ∧ Clean dir = "/" +:+ Join es slash.
Proof.
  intros Hes. set (p := "/" +:+ Join (es ++ [e]) slash) in *.
  assert (Split p slash = "" :: es ++ [e]) as Hsplit by (apply Split_abs; [by destruct es|done]).
  destruct (PathSplit_spec p) as (Hp & Hfile & Hdir).
  destruct (PathSplit p) as [dir file]. cbn [fst snd] in *.
  destruct Hdir as [->|[d ->]].
  { cbn in Hp. subst file. exfalso. apply Hfile. left. }
  change (d +:+ "/") with (d +:+ String slash "") in *.
  rewrite <-Hp, string_app_assoc in Hsplit. cbn [String.append] in Hsplit.
  rewrite Split_app_sep, (Split_no_sep file), app_comm_cons in Hsplit by done.
  apply app_inj_tail in Hsplit as [Hd ->].
  eexists. split; [done|]. unfold Clean.
  assert (IsAbs (d +:+ String slash "") = true) as Habs.
  { destruct d as [|c d]; [done|]. injection Hp as -> _. unfold IsAbs. cbn. try case_decide; by rewrite ?sprefix_nil. }
  rewrite Habs, Split_app_sep, Hd. change (Split "" slash) with [""]. cbn [app clean_elems].
  rewrite decide_True by auto. apply Forall_app in Hes as [Hes _]. by rewrite clean_elems_id.
Qed.
