(* ===== verification/Watcher.v ===== *)
(** * The rules watcher ([internal/rules/watcher.go])

    [NewWatcher] resolves the path and subscribes to its directory; [Run] is an
    event loop over two channels and a context. The fsnotify library is
    third-party: its answers are parameters, and what the loop receives is a
    list of messages in the order [select] picks them. *)

From S2P Require Import Prelude GoUnicode GoStrings GoPath.

(** ** Messages *)

(** The operations of an fsnotify event; [ev.Has(op)] is membership. *)
Inductive fs_op := Create | Write | Remove | Rename | Chmod.
#[global] Instance fs_op_eq_dec : EqDecision fs_op.
Proof. solve_decision. Defined.

Record fs_event := mkEvent {
  Name : string;
  Op : list fs_op;
}.

Definition Has (ev : fs_event) (op : fs_op) : bool := bool_decide (op ∈ Op ev).

(** One ready case of the [select] in [Run]. *)
Inductive select_case :=
| CtxDone
| EventRecv (ev : fs_event)
| EventsClosed
| ErrorRecv (err : string)
| ErrorsClosed.

(** ** State and operations *)

Record Watcher := mkWatcher {
  w_path : string;
  w_dir : string;
  w_target : string;
}.

(** Calls into fsnotify, in order. *)
Inductive fs_call := FsOpen | FsAdd (dir : string) | FsClose.

Section watcher.
Context {S : Type}.

(** [NewWatcher]: [abs] is the answer of [filepath.Abs], [open] that of
    [fsnotify.NewWatcher], [add] that of [fw.Add]; the result comes with the
    fsnotify calls made. *)
Definition NewWatcher (abs : result string string) (open : option string)
    (add : string → option string) : result string Watcher * list fs_call :=
  match abs with
  | Err e => (Err e, [])
  | Ok abs =>
    let '(dir, target) := PathSplit abs in
    let dir := Clean dir in
    match open with
    | Some e => (Err ("fsnotify: " +:+ e), [])
    | None =>
      match add dir with
      | Some e => (Err ("watch " +:+ dir +:+ ": " +:+ e), [FsOpen; FsAdd dir; FsClose])
      | None => (Ok (mkWatcher abs dir target), [FsOpen; FsAdd dir])
      end
    end
  end.

(** [Close] *)
Definition Close (w : Watcher) : list fs_call := [FsClose].

(** The body of the loop on an event: [onChange] acts on a state [S]. *)
Definition on_event (w : Watcher) (onChange : string → S → S) (ev : fs_event) (s : S) : S :=
  if negb (String.eqb (Base (Name ev)) (w_target w)) then s
  else if Has ev Write || Has ev Create then onChange (w_path w) s
  else s.

(** [Run]: the state after the messages and whether the loop has returned. *)
Fixpoint Run (w : Watcher) (onChange : string → S → S) (msgs : list select_case) (s : S)
    : S * bool :=
  match msgs with
  | [] => (s, false)
  | CtxDone :: _ => (s, true)
  | EventRecv ev :: msgs => Run w onChange msgs (on_event w onChange ev s)
  | EventsClosed :: _ => (s, true)
  | ErrorRecv _ :: msgs => Run w onChange msgs s
  | ErrorsClosed :: _ => (s, true)
  end.

(** ** Specification *)

Definition terminal_case (m : select_case) : bool :=
  match m with CtxDone | EventsClosed | ErrorsClosed => true | _ => false end.

(** The messages before the loop returns. *)
Fixpoint before_exit (msgs : list select_case) : list select_case :=
  match msgs with
  | [] => []
  | m :: msgs => if terminal_case m then [] else m :: before_exit msgs
  end.

(** A message that reloads: a write or a creation of the watched file. *)
Definition reloads (w : Watcher) (m : select_case) : bool :=
  match m with
  | EventRecv ev => String.eqb (Base (Name ev)) (w_target w) && (Has ev Write || Has ev Create)
  | _ => false
  end.

Lemma Run_spec w onChange msgs s :
  Run w onChange msgs s =
  (Nat.iter (length (filter (λ m, reloads w m = true) (before_exit msgs))) (onChange (w_path w)) s,
   existsb terminal_case msgs).
Proof.
  revert s. induction msgs as [|m msgs IH]; intros s; [done|].
  destruct m as [|ev| |e|]; cbn [Run before_exit terminal_case existsb orb]; try done.
  rewrite IH. unfold on_event. rewrite filter_cons. cbn [reloads].
    destruct (String.eqb (Base (Name ev)) (w_target w)); cbn [negb andb]; [|done].
  destruct (Has ev Write || Has ev Create); cbn [negb]; [|done].
  rewrite decide_True by done. cbn [length]. by rewrite Nat.iter_succ_r.
Qed.

(** The watcher loop calls [onChange], with the absolute path of the rules
    file, exactly once per message that writes or creates the watched file and
    is received before the first cancellation or closed channel; other files,
    other operations and watcher errors call nothing and do not end the loop,
    and it returns exactly when a cancellation or a closed channel arrives. *)
Theorem Run_counts w onChange msgs (s : S) :
  Run w onChange msgs s =
  (Nat.iter (length (filter (λ m, reloads w m = true) (before_exit msgs))) (onChange (w_path w)) s,
   existsb terminal_case msgs).
Proof. apply Run_spec. Qed.

End watcher.

(** What a loop of [Run] makes of the notifications of a directory: names of
    entries with the operations on them. *)
Lemma Run_entries {S} w (onChange : string → S → S) dir evs msgs s :
  Forall (λ ev : string * list fs_op, ev.1 ≠ "" ∧ slash ∉ String.list_ascii_of_string ev.1) evs →
  Run w onChange (((λ ev, EventRecv (mkEvent (dir +:+ "/" +:+ ev.1) ev.2)) <$> evs) ++ msgs) s =
  Run w onChange msgs
    (Nat.iter (length (filter (λ ev, ev.1 = w_target w ∧ (Write ∈ ev.2 ∨ Create ∈ ev.2)) evs))
       (onChange (w_path w)) s).
Proof.
  intros Hevs. revert s. induction Hevs as [|[file ops] evs [Hne Hs] Hevs IH]; intros s; [done|].
  rewrite fmap_cons. cbn [app Run]. rewrite IH, filter_cons. f_equal. unfold on_event, Has.
  cbn [Name Op fst snd] in *. rewrite Base_in_dir by done.
  destruct (String.eqb_spec file (w_target w)) as [->|Hf]; cbn [negb]; [|by rewrite decide_False by naive_solver].
  rewrite <-bool_decide_or. case_bool_decide as Hop.
  - rewrite decide_True by done. cbn [length]. by rewrite Nat.iter_succ_r.
  - by rewrite decide_False by naive_solver.
Qed.

(** C31: a watcher that is built for a path other than the root subscribes to
    the directory that holds the file, and nothing else: the absolute path is the
    directory's followed by a non-empty target. Of whatever notifications about
    entries of a directory its loop then receives, it calls [onChange], with the
    absolute path, once for each that names the target and includes a write or a
    creation (which an atomic rename onto the target is), and goes on with what
    comes next. A watcher that fails to subscribe has closed the fsnotify instance
    it opened, and one that fails before has opened none. *)
Theorem NewWatcher_target wd path open add :
  IsAbs wd = true →
  match NewWatcher (Ok (Abs wd path)) open add with
  | (Ok w, calls) =>
    calls = [FsOpen; FsAdd (w_dir w)] ∧ w_path w = Abs wd path ∧
    (Abs wd path ≠ "/" → ∃ names,
      w_dir w = "/" +:+ Join names slash ∧ Abs wd path = "/" +:+ Join (names ++ [w_target w]) slash ∧
      w_target w ≠ "" ∧ slash ∉ String.list_ascii_of_string (w_target w)) ∧
    ∀ (S : Type) (onChange : string → S → S) dir evs msgs s,
      Forall (λ ev : string * list fs_op, ev.1 ≠ "" ∧ slash ∉ String.list_ascii_of_string ev.1) evs →
      Run w onChange (((λ ev, EventRecv (mkEvent (dir +:+ "/" +:+ ev.1) ev.2)) <$> evs) ++ msgs) s =
      Run w onChange msgs
        (Nat.iter (length (filter (λ ev, ev.1 = w_target w ∧ (Write ∈ ev.2 ∨ Create ∈ ev.2)) evs))
           (onChange (Abs wd path)) s)
  | (Err _, calls) => calls = [] ∨ ∃ dir, calls = [FsOpen; FsAdd dir; FsClose]
  end.
Proof.
  intros Hwd. unfold NewWatcher. destruct (PathSplit (Abs wd path)) as [dir target] eqn:Hsplit.
  destruct open as [e|]; [by left|]. destruct (add (Clean dir)); [right; eauto|].
  split; [done|]. split; [done|]. split; [|by intros; apply Run_entries]. intros Hroot.
  destruct (Abs_clean wd path Hwd) as (es & Habs & Hes). rewrite Habs in *.
  destruct es as [|t names _] using rev_ind; [done|].
  destruct (PathSplit_abs _ _ Hes) as (dir' & Hsplit' & Hdir). rewrite Hsplit in Hsplit'.
  injection Hsplit' as -> ->. exists names. cbn [w_dir w_target]. split; [done|]. split; [done|].
  apply Forall_app in Hes as [_ [[Ht Hs] _]%Forall_cons]. split; [set_solver|done].
Qed.

(** A write through a temporary file, an attribute change and a write in place:
    two calls, then the loop is canceled. *)
Lemma NewWatcher_target_witness :
  IsAbs "/root" = true ∧
  let w := mkWatcher "/root/rules.yaml" "/root" "rules.yaml" in
  NewWatcher (Ok (Abs "/root" "conf/../rules.yaml")) None (λ _, None) = (Ok w, [FsOpen; FsAdd "/root"]) ∧
  Run w (λ path calls, calls ++ [path])
    (((λ ev, EventRecv (mkEvent ("/root" +:+ "/" +:+ ev.1) ev.2)) <$>
       [("rules.yaml.tmp", [Create; Write]); ("rules.yaml", [Create]); ("rules.yaml", [Chmod]);
        ("rules.yaml", [Chmod; Write])]) ++ [CtxDone]) []
  = (["/root/rules.yaml"; "/root/rules.yaml"], true).
Proof.
  split; [reflexivity|]. split; [reflexivity|].
  pose proof (NewWatcher_target "/root" "conf/../rules.yaml" None (λ _, None) eq_refl) as H.
  destruct H as (_ & _ & _ & H). refine (eq_trans (H _ _ "/root" _ [CtxDone] [] _) _).
  - repeat constructor; apply (bool_decide_unpack _); vm_compute; exact I.
  - vm_compute. reflexivity.
Defined.

Lemma Run_example :
  let w := mkWatcher "/etc/r/rules.yaml" "/etc/r" "rules.yaml" in
  Run w (λ _ n, S n)
    [EventRecv (mkEvent "/etc/r/rules.yaml.tmp" [Create]); EventRecv (mkEvent "/etc/r/rules.yaml" [Create]);
     ErrorRecv "overflow"; EventRecv (mkEvent "/etc/r/rules.yaml" [Chmod]);
     EventRecv (mkEvent "/etc/r/rules.yaml" [Write]); CtxDone;
     EventRecv (mkEvent "/etc/r/rules.yaml" [Write])] 0 = (2, true).
Proof. vm_compute. reflexivity. Qed.
