(* ===== verification/GoBytes.v ===== *)
(** * Bytes, machine integers and durations

    Bytes are [Byte.byte]; unsigned machine integers are [Z] with their
    wrap-around written out; a [time.Duration] and a monotonic [time.Time]
    reading are nanoseconds in [Z]. Little-endian memory accesses are the codec
    [le_encode]/[le_decode]. *)

From Stdlib Require Import Strings.Byte.
From S2P Require Import Prelude.
#[local] Open Scope Z_scope.

Abbreviation byte := Byte.byte.
#[global] Instance byte_eq_dec : EqDecision byte := Byte.byte_eq_dec.

Definition byte_val (b : byte) : Z := Z.of_N (Byte.to_N b).
Definition byte_of_Z (z : Z) : byte := default Byte.x00 (Byte.of_N (Z.to_N (z mod 256))).

Lemma byte_val_range b : 0 ≤ byte_val b < 256.
Proof. unfold byte_val. pose proof (Byte.to_N_bounded b). lia. Qed.

Lemma byte_of_Z_val b : byte_of_Z (byte_val b) = b.
Proof.
  unfold byte_of_Z. rewrite Z.mod_small by apply byte_val_range.
  unfold byte_val. by rewrite N2Z.id, Byte.of_to_N.
Qed.

Lemma byte_val_of_Z z : byte_val (byte_of_Z z) = z mod 256.
Proof.
  unfold byte_of_Z. pose proof (Z.mod_pos_bound z 256 ltac:(lia)).
  destruct (Byte.of_N (Z.to_N (z mod 256))) as [b|] eqn:E; cbn.
  - apply Byte.to_of_N in E. unfold byte_val. rewrite E. lia.
  - apply Byte.of_N_None_iff in E. lia.
Qed.

#[global] Instance byte_val_inj : Inj (=) (=) byte_val.
Proof. intros a b H. by rewrite <-(byte_of_Z_val a), H, byte_of_Z_val. Qed.

(** ** Little-endian integers *)

Fixpoint le_encode (n : nat) (z : Z) : list byte :=
  match n with
  | O => []
  | S n => byte_of_Z z :: le_encode n (z / 256)
  end.

Fixpoint le_decode (l : list byte) : Z :=
  match l with
  | [] => 0
  | b :: l => byte_val b + 256 * le_decode l
  end.

Lemma length_le_encode n z : length (le_encode n z) = n.
Proof. revert z. induction n; intros z; cbn; by f_equal. Qed.

Lemma le_decode_encode n z : le_decode (le_encode n z) = z mod 2 ^ (8 * Z.of_nat n).
Proof.
  revert z. induction n as [|n IH]; intros z; cbn [le_encode le_decode].
  { by rewrite Z.mod_1_r. }
  rewrite IH, byte_val_of_Z.
  replace (2 ^ (8 * Z.of_nat (S n))) with (256 * 2 ^ (8 * Z.of_nat n))
    by (change 256 with (2 ^ 8); rewrite <-Z.pow_add_r by lia; f_equal; lia).
  rewrite Z.rem_mul_r by lia. done.
Qed.

Lemma le_decode_encode_id n z :
  0 ≤ z < 2 ^ (8 * Z.of_nat n) → le_decode (le_encode n z) = z.
Proof. intros. by rewrite le_decode_encode, Z.mod_small. Qed.

Lemma le_decode_range l : 0 ≤ le_decode l < 2 ^ (8 * Z.of_nat (length l)).
Proof.
  induction l as [|b l IH]; cbn [le_decode length]; [lia|].
  replace (2 ^ (8 * Z.of_nat (S (length l)))) with (256 * 2 ^ (8 * Z.of_nat (length l)))
    by (change 256 with (2 ^ 8); rewrite <-Z.pow_add_r by lia; f_equal; lia).
  pose proof (byte_val_range b). lia.
Qed.

#[export] Hint Resolve byte_val_range le_decode_range : dns.
#[export] Hint Rewrite length_le_encode byte_of_Z_val : dns.

(** ** Conversions *)

Definition u8 (z : Z) : Z := z mod 2 ^ 8.
Definition u16 (z : Z) : Z := z mod 2 ^ 16.
Definition u64 (z : Z) : Z := z mod 2 ^ 64.

(** ** Durations *)

Definition Nanosecond : Z := 1.
Definition Millisecond : Z := 1000000.
Definition Second : Z := 1000000000.
Definition Minute : Z := 60 * Second.
Definition Hour : Z := 60 * Minute.

Definition maxDuration : Z := 2 ^ 63 - 1.
Definition minDuration : Z := - 2 ^ 63.

(** [t.Sub(u)] on monotonic readings saturates at the ends of [int64]. *)
Definition Sub (t u : Z) : Z := Z.max minDuration (Z.min maxDuration (t - u)).

Lemma Sub_lt t u d : minDuration < d ≤ maxDuration → Sub t u < d ↔ t - u < d.
Proof. unfold Sub. lia. Qed.
