(* ===== verification/Dedup.v ===== *)
(** * The deduplicator ([internal/dedup/dedup.go])

    [Seen] hashes a payload with FNV-1a, asks an LRU cache when that key was
    last seen, and records the present time. The cache library is third-party:
    it is an interface whose laws state the documented behaviour of an LRU
    cache of fixed capacity. *)

From Stdlib Require Import Strings.Byte.
From S2P Require Import Prelude GoBytes.
#[local] Open Scope Z_scope.

(** ** FNV-1a, 64 bits ([hash/fnv]) *)

Definition fnv_offset64 : Z := 14695981039346656037.
Definition fnv_prime64 : Z := 1099511628211.

(** [fnv.New64a]; [Write(payload)]; [Sum64] *)
Definition Sum64a (payload : list byte) : Z :=
  foldl (λ h b, u64 (Z.lxor h (byte_val b) * fnv_prime64)) fnv_offset64 payload.

(** The published test vectors of FNV-1a. *)
Example Sum64a_vectors :
  Sum64a [] = 0xcbf29ce484222325 ∧ Sum64a ["a"%byte] = 0xaf63dc4c8601ec8c
  ∧ Sum64a ["f"; "o"; "o"; "b"; "a"; "r"]%byte = 0x85944171f73967e8.
Proof. vm_compute. repeat split. Qed.

(** ** The cache interface *)

(** [lru.New], [Get] and [Add] of a [Cache[uint64, time.Time]]. *)
Class LRU (C : Type) := {
  lru_New : Z → result string C;
  lru_Get : Z → C → option Z * C;
  lru_Add : Z → Z → C → C;
}.

(** The value of a key in a list of entries. *)
Definition assoc (k : Z) (l : list (Z * Z)) : option Z :=
  (λ p, p.2) <$> List.find (λ p, p.1 =? k) l.
Definition remove_key (k : Z) (l : list (Z * Z)) : list (Z * Z) := filter (λ p, p.1 ≠ k) l.
Definition promote (k : Z) (l : list (Z * Z)) : list (Z * Z) :=
  match assoc k l with
  | Some v => (k, v) :: remove_key k l
  | None => l
  end.

(** The documented behaviour, on the entries from most to least recently used:
    a hit moves the entry to the front, an addition puts it there and evicts
    past the capacity. *)
Class LRULaws (C : Type) `{LRU C} := {
  lru_view : C → list (Z * Z);
  lru_cap : C → nat;
  lru_New_ok size : 0 < size →
    ∃ c, lru_New size = Ok c ∧ lru_view c = [] ∧ lru_cap c = Z.to_nat size;
  lru_New_err size : size ≤ 0 → ∃ e, lru_New size = Err e;
  lru_Get_val k c : (lru_Get k c).1 = assoc k (lru_view c);
  lru_Get_view k c : lru_view (lru_Get k c).2 = promote k (lru_view c);
  lru_Get_cap k c : lru_cap (lru_Get k c).2 = lru_cap c;
  lru_Add_view k v c :
    lru_view (lru_Add k v c) = take (lru_cap c) ((k, v) :: remove_key k (lru_view c));
  lru_Add_cap k v c : lru_cap (lru_Add k v c) = lru_cap c;
}.

(** ** State and operations *)

(** [now] is always [time.Now]: its reading is an argument of [Seen]. *)
Record Dedup (C : Type) := mkDedup {
  cache : C;
  ttl : Z;
}.
Arguments mkDedup {C} cache ttl.
Arguments cache {C} d.
Arguments ttl {C} d.

Section dedup.
Context {C : Type} `{LRU C}.

Definition New (size : Z) (ttl : Z) : result string (Dedup C) :=
  match lru_New size with
  | Err e => Err e
  | Ok c => Ok (mkDedup c ttl)
  end.

Definition Seen (payload : list byte) (now : Z) (d : Dedup C) : bool * Dedup C :=
  let k := Sum64a payload in
  let '(hit, c) := lru_Get k (cache d) in
  match hit with
  | Some t =>
    if Sub now t <? ttl d then (true, mkDedup (lru_Add k now c) (ttl d))
    else (false, mkDedup (lru_Add k now c) (ttl d))
  | None => (false, mkDedup (lru_Add k now c) (ttl d))
  end.

(** A sequence of calls. *)
Definition Seen_all (calls : list (list byte * Z)) (d : Dedup C) : Dedup C :=
  foldl (λ d call, (Seen call.1 call.2 d).2) d calls.

End dedup.

(** ** Specification: what a history of calls makes seen *)

(** The time of the last call with key [k], when fewer than [cap] other keys
    were seen since; [history] is most recent first, [others] the keys passed. *)
Fixpoint last_seen (cap : nat) (k : Z) (others : gset Z) (history : list (Z * Z)) : option Z :=
  match history with
  | [] => None
  | (k', t) :: history =>
    if decide (k' = k) then if decide (size others < cap)%nat then Some t else None
    else last_seen cap k ({[k']} ∪ others) history
  end.

(** The keys of a history from most to least recent, each with its last time. *)
Fixpoint recents (history : list (Z * Z)) : list (Z * Z) :=
  match history with
  | [] => []
  | (k, t) :: history => (k, t) :: remove_key k (recents history)
  end.

(** ** Lemmas on entry lists *)

Lemma assoc_nil k : assoc k [] = None.
Proof. done. Qed.

Lemma assoc_cons k p l : assoc k (p :: l) = if decide (p.1 = k) then Some p.2 else assoc k l.
Proof.
  unfold assoc. cbn. destruct (Z.eqb_spec p.1 k) as [->|Hne].
  - by rewrite decide_True.
  - by rewrite decide_False.
Qed.

Lemma assoc_None k l : assoc k l = None ↔ k ∉ l.*1.
Proof.
  induction l as [|p l IH]; [split; [intros _; apply not_elem_of_nil|done]|].
  rewrite assoc_cons, fmap_cons, not_elem_of_cons, <-IH. case_decide; naive_solver.
Qed.

Lemma filter_all (P : Z * Z → Prop) `{∀ p, Decision (P p)} l : Forall P l → filter P l = l.
Proof. induction 1 as [|p l Hp Hl IH]; [done|]. by rewrite filter_cons_True, IH. Qed.

Lemma remove_key_fresh k l : k ∉ l.*1 → remove_key k l = l.
Proof.
  intros Hk. apply filter_all, Forall_forall. intros p Hp E. apply Hk. subst.
  by apply list_elem_of_fmap_2.
Qed.

Lemma remove_key_promote k l : remove_key k (promote k l) = remove_key k l.
Proof.
  unfold promote. destruct (assoc k l); [|done]. unfold remove_key.
  rewrite filter_cons_False by (cbn; naive_solver). by rewrite list_filter_filter_l.
Qed.

Lemma remove_key_keys k l x : x ∈ (remove_key k l).*1 ↔ x ∈ l.*1 ∧ x ≠ k.
Proof.
  unfold remove_key. rewrite !list_elem_of_fmap. split.
  - intros (p & -> & [Hp ?]%list_elem_of_filter). eauto.
  - intros [(p & -> & ?) ?]. exists p. split; [done|]. by apply list_elem_of_filter.
Qed.

Lemma recents_NoDup history : NoDup (recents history).*1.
Proof.
  induction history as [|[k t] history IH]; [constructor|]. cbn. constructor.
  - rewrite remove_key_keys. naive_solver.
  - unfold remove_key. revert IH. generalize (recents history). intros l Hl.
    induction l as [|p l IHl]; [constructor|]. apply NoDup_cons in Hl as [Hp Hl].
    rewrite filter_cons. case_decide; [|by apply IHl]. cbn. constructor; [|by apply IHl].
    intros Hin. apply Hp. by apply (remove_key_keys k l p.1).
Qed.

Lemma take_remove_key n k l :
  NoDup l.*1 → take n (remove_key k (take (S n) l)) = take n (remove_key k l).
Proof.
  revert n. induction l as [|p l IH]; intros n Hl; [by rewrite take_nil|].
  rewrite fmap_cons in Hl. apply NoDup_cons in Hl as [Hp Hl]. cbn [take].
  unfold remove_key. rewrite !filter_cons. case_decide as Hk.
  - destruct n as [|n]; [done|]. cbn [take]. f_equal. by apply IH.
  - fold (remove_key k (take n l)). fold (remove_key k l). subst k.
    rewrite (remove_key_fresh _ l) by done.
    rewrite remove_key_fresh; [by rewrite take_take, Nat.min_id|].
    intros Hin. apply Hp. rewrite fmap_take in Hin. by apply (subseteq_take n) in Hin.
Qed.

Lemma filter_remove_key k (others : gset Z) l :
  k ∈ others → filter (λ p, p.1 ∉ others) (remove_key k l) = filter (λ p, p.1 ∉ others) l.
Proof. intros Hk. unfold remove_key. apply list_filter_filter_l. intros p Hp E. by subst. Qed.

Lemma filter_add_key k (others : gset Z) l :
  filter (λ p, p.1 ∉ others) (remove_key k l) = filter (λ p, p.1 ∉ {[k]} ∪ others) l.
Proof.
  unfold remove_key. rewrite list_filter_filter. apply list_filter_iff. set_solver.
Qed.

Lemma last_seen_full cap k others h : (cap ≤ size others)%nat → last_seen cap k others h = None.
Proof.
  revert others. induction h as [|[k' t] h IH]; intros others Hs; [done|]. cbn.
  case_decide; [by rewrite decide_False by lia|]. apply IH.
  etrans; [done|]. apply subseteq_size. set_solver.
Qed.

Lemma assoc_take_recents cap k others h :
  k ∉ others →
  assoc k (take (cap - size others) (filter (λ p, p.1 ∉ others) (recents h)))
  = last_seen cap k others h.
Proof.
  revert others. induction h as [|[k' t] h IH]; intros others Hk; [by cbn; rewrite take_nil|].
  cbn [recents last_seen]. destruct (decide (k' = k)) as [->|Hne].
  - rewrite filter_cons_True by done. case_decide.
    + destruct (cap - size others)%nat as [|n] eqn:E; [lia|]. cbn [take].
      by rewrite assoc_cons, decide_True.
    + by replace (cap - size others)%nat with 0%nat by lia.
  - rewrite filter_cons. cbn [fst]. case_decide as Hin.
    + destruct (cap - size others)%nat as [|n] eqn:E; cbn [take].
      { rewrite last_seen_full; [done|]. rewrite size_union, size_singleton by set_solver. lia. }
      rewrite assoc_cons, decide_False by done. rewrite filter_add_key.
      rewrite <-IH by set_solver. rewrite size_union, size_singleton by set_solver.
      by replace (cap - (1 + size others))%nat with n by lia.
    + rewrite filter_remove_key by done.
      replace ({[k']} ∪ others) with others by set_solver. by apply IH.
Qed.

(** ** Refinement *)

Section refinement.
Context {C : Type} `{LRULaws C}.

(** A call as the history records it. *)
Definition event_of (call : list byte * Z) : Z * Z := (Sum64a call.1, call.2).

Lemma Seen_cache payload now (d : Dedup C) :
  (Seen payload now d).2
  = mkDedup (lru_Add (Sum64a payload) now (lru_Get (Sum64a payload) (cache d)).2) (ttl d).
Proof. unfold Seen. destruct (lru_Get _ _) as [[t|] c]; [|done]. by destruct (Sub now t <? ttl d). Qed.

Lemma Seen_result payload now (d : Dedup C) :
  (Seen payload now d).1
  = match assoc (Sum64a payload) (lru_view (cache d)) with
    | Some t => Sub now t <? ttl d
    | None => false
    end.
Proof.
  unfold Seen. rewrite <-lru_Get_val. destruct (lru_Get _ _) as [[t|] c]; [|done]. cbn.
  by destruct (Sub now t <? ttl d).
Qed.

(** The cache holds the most recent keys of the history, up to its capacity. *)
Definition holds (history : list (Z * Z)) (cap : nat) (d : Dedup C) : Prop :=
  lru_cap (cache d) = cap ∧ lru_view (cache d) = take cap (recents history).

Lemma holds_Seen history cap d payload now :
  holds history cap d → holds ((Sum64a payload, now) :: history) cap (Seen payload now d).2.
Proof.
  intros [Hcap Hview]. rewrite Seen_cache. split; cbn [cache].
  - by rewrite lru_Add_cap, lru_Get_cap.
  - rewrite lru_Add_view, lru_Get_cap, lru_Get_view, Hcap, Hview, remove_key_promote.
    destruct cap as [|n]; [done|]. cbn [recents take]. f_equal.
    apply take_remove_key, recents_NoDup.
Qed.

Lemma Seen_all_ttl calls (d : Dedup C) : ttl (Seen_all calls d) = ttl d.
Proof.
  unfold Seen_all. induction calls as [|call calls IH] using rev_ind; [done|].
  by rewrite foldl_snoc, Seen_cache.
Qed.

Lemma holds_Seen_all calls history cap d :
  holds history cap d → holds (reverse (event_of <$> calls) ++ history) cap (Seen_all calls d).
Proof.
  intros Hd. unfold Seen_all. induction calls as [|call calls IH] using rev_ind; [done|].
  rewrite foldl_snoc, fmap_app, reverse_app. by apply (holds_Seen _ _ _ call.1 call.2).
Qed.

Lemma holds_result history cap d payload now :
  holds history cap d →
  (Seen payload now d).1
  = match last_seen cap (Sum64a payload) ∅ history with
    | Some t => Sub now t <? ttl d
    | None => false
    end.
Proof.
  intros [_ Hview]. rewrite Seen_result, Hview, <-assoc_take_recents by set_solver.
  rewrite size_empty, Nat.sub_0_r. rewrite filter_all; [done|]. apply Forall_true. set_solver.
Qed.

End refinement.

(** ** Overlapping calls

    [Seen] is two atomic cache operations, so the workers' calls interleave.
    A call [i] is its key and its clock reading; [HGet i] is its lookup, with
    which its answer is fixed, and [HAdd i] its insertion. *)

Inductive half := HGet (i : nat) | HAdd (i : nat).
#[global] Instance half_eq_dec : EqDecision half.
Proof. solve_decision. Defined.

Section interleaving.
Context {C : Type} `{LRULaws C}.
Context (calls : list (Z * Z)).
Implicit Types (st : Dedup C * gmap nat bool).

(** The cache and the answers given so far. *)
Definition exec_half (st : Dedup C * gmap nat bool) (x : half) : Dedup C * gmap nat bool :=
  let '(d, answers) := st in
  match x with
  | HGet i =>
    match calls !! i with
    | Some (k, now) =>
      let '(hit, c) := lru_Get k (cache d) in
      let seen := match hit with Some t => Sub now t <? ttl d | None => false end in
      (mkDedup c (ttl d), <[i := seen]> answers)
    | None => st
    end
  | HAdd i =>
    match calls !! i with
    | Some (k, now) => (mkDedup (lru_Add k now (cache d)) (ttl d), answers)
    | None => st
    end
  end.

Definition exec_halves (sched : list half) (st : Dedup C * gmap nat bool) := foldl exec_half st sched.

(** A schedule of the calls: no half happens twice, lookups come first. *)
Definition valid_schedule (sched : list half) : Prop :=
  NoDup sched ∧ ∀ pre post i, sched = pre ++ HAdd i :: post → HGet i ∈ pre.

(** The two halves in a row are a call of [Seen]. *)
Lemma halves_Seen payload now i d answers :
  calls !! i = Some (Sum64a payload, now) →
  exec_halves [HGet i; HAdd i] (d, answers)
  = ((Seen payload now d).2, <[i := (Seen payload now d).1]> answers).
Proof.
  intros Hi. unfold exec_halves, Seen. cbn [foldl exec_half]. rewrite Hi.
  destruct (lru_Get _ _) as [[t|] c]; cbn; rewrite Hi; [|done]. by destruct (Sub now t <? ttl d).
Qed.

(** Halves that do not insert [k] do not make it resident. *)
Lemma fresh_exec k x d answers :
  k ∉ (lru_view (cache d)).*1 →
  (∀ i now, x = HAdd i → calls !! i ≠ Some (k, now)) →
  k ∉ (lru_view (cache (exec_half (d, answers) x).1)).*1.
Proof.
  intros Hk Hx. destruct x as [i|i]; cbn; destruct (calls !! i) as [[k' now]|] eqn:Hi; try done.
  - pose proof (lru_Get_view k' (cache d)) as Hv. destruct (lru_Get k' (cache d)) as [hit c].
    cbn in *. rewrite Hv. unfold promote. destruct (assoc k' _) as [v|] eqn:Ha; [|done].
    cbn. rewrite not_elem_of_cons, remove_key_keys. split; [|naive_solver].
    intros ->. apply assoc_None in Hk. congruence.
  - cbn [fst cache]. rewrite lru_Add_view. intros Hin. rewrite fmap_take in Hin. apply subseteq_take in Hin.
    cbn in Hin. apply elem_of_cons in Hin as [->|[Hin _]%remove_key_keys]; [|done].
    by eapply Hx.
Qed.

Lemma exec_half_answer j x st :
  x ≠ HGet j → (exec_half st x).2 !! j = st.2 !! j.
Proof.
  intros Hx. destruct st as [d answers], x as [i|i]; cbn; destruct (calls !! i) as [[k now]|]; try done.
  destruct (lru_Get k (cache d)). cbn. apply lookup_insert_ne. congruence.
Qed.

Lemma exec_halves_answer j sched st :
  HGet j ∉ sched → (exec_halves sched st).2 !! j = st.2 !! j.
Proof.
  intros Hj. unfold exec_halves. revert st. induction sched as [|x sched IH]; intros st; [done|].
  apply not_elem_of_cons in Hj as [? Hj]. cbn. rewrite IH by done. apply exec_half_answer. congruence.
Qed.

(** The first lookup of a key that is not resident answers "not seen". *)
Lemma first_Get_not_seen k pre i now post d answers :
  k ∉ (lru_view (cache d)).*1 → valid_schedule (pre ++ HGet i :: post) →
  calls !! i = Some (k, now) → (∀ j now, HGet j ∈ pre → calls !! j ≠ Some (k, now)) →
  (exec_halves (pre ++ HGet i :: post) (d, answers)).2 !! i = Some false.
Proof.
  intros Hk [Hnd Hval] Hi Hpre. unfold exec_halves. rewrite foldl_app. cbn [foldl].
  apply NoDup_app in Hnd as (_ & _ & Hpost). apply NoDup_cons in Hpost as [Hpost _].
  fold (exec_halves post (exec_half (foldl exec_half (d, answers) pre) (HGet i))).
  rewrite exec_halves_answer by done.
  assert (k ∉ (lru_view (cache (foldl exec_half (d, answers) pre).1)).*1) as Hk'.
  { apply (foldl_inv (λ st, k ∉ (lru_view (cache st.1)).*1)); [done|].
    intros [d' ans'] x Hx Hd'. apply fresh_exec; [done|]. intros j now' -> Hj.
    apply list_elem_of_split in Hx as (l1 & l2 & ->).
    eapply (Hpre j now'); [|done]. apply elem_of_app. left.
    apply (Hval l1 (l2 ++ HGet i :: post)). by rewrite <-app_assoc. }
  destruct (foldl exec_half (d, answers) pre) as [d' ans']. cbn. rewrite Hi.
  apply assoc_None in Hk'. pose proof (lru_Get_val k (cache d')) as Hv. cbn in Hk'. rewrite Hk' in Hv.
  destruct (lru_Get k (cache d')) as [hit c]. cbn in *. subst. apply lookup_insert_eq.
Qed.

End interleaving.

(** ** A concrete cache *)

(** A list of entries, most recent first, cut at the capacity. *)
Record list_lru := mkListLRU { ll_cap : nat; ll_entries : list (Z * Z) }.

#[global] Instance list_lru_ops : LRU list_lru := {
  lru_New size := if decide (0 < size) then Ok (mkListLRU (Z.to_nat size) [])
                  else Err "must provide a positive size";
  lru_Get k c := (assoc k (ll_entries c), mkListLRU (ll_cap c) (promote k (ll_entries c)));
  lru_Add k v c :=
    mkListLRU (ll_cap c) (take (ll_cap c) ((k, v) :: remove_key k (ll_entries c)));
}.

#[global] Program Instance list_lru_laws : LRULaws list_lru := {
  lru_view := ll_entries;
  lru_cap := ll_cap;
}.
Next Obligation. intros size Hs. cbn. rewrite decide_True by done. eauto. Qed.
Next Obligation. intros size Hs. cbn. rewrite decide_False by lia. eauto. Qed.
Next Obligation. done. Qed.
Next Obligation. done. Qed.
Next Obligation. done. Qed.
Next Obligation. done. Qed.
Next Obligation. done. Qed.

(** ** Properties *)

Section properties.
Context {C : Type} `{LRULaws C}.

(** C27: the deduplicator refines its history: whatever calls were made before,
    [Seen] answers true exactly when the last call with the same key was less
    than the window ago and fewer than [size] other keys were seen since; a
    cache of non-positive size is refused. *)
Theorem Seen_trace size window :
  (size ≤ 0 → ∃ e, New (C := C) size window = Err e) ∧
  (0 < size → ∃ d, New (C := C) size window = Ok d ∧
    ∀ calls payload now,
      (Seen payload now (Seen_all calls d)).1
      = match last_seen (Z.to_nat size) (Sum64a payload) ∅ (reverse (event_of <$> calls)) with
        | Some t => Sub now t <? window
        | None => false
        end).
Proof.
  unfold New. split; intros Hs.
  - destruct (lru_New_err size Hs) as [e ->]. eauto.
  - destruct (lru_New_ok size Hs) as (c & -> & Hv & Hc). eexists. split; [done|].
    intros calls payload now. erewrite holds_result.
    + by rewrite Seen_all_ttl.
    + rewrite <-(app_nil_r (reverse _)). apply holds_Seen_all. split; cbn [cache recents]; [done|]. by rewrite Hv, take_nil.
Qed.

(** A duplicate renews the entry ("either way it records a fresh entry"):
    a payload that keeps coming back within the window is suppressed every time
    after the first, for as long as it does. *)
Theorem Seen_renews payload (d : Dedup C) t0 ts :
  (0 < lru_cap (cache d))%nat →
  (∀ i t t', (t0 :: ts) !! i = Some t → (t0 :: ts) !! S i = Some t' → Sub t' t < ttl d) →
  ∀ i t, ts !! i = Some t →
    (Seen payload t (Seen_all ((λ t, (payload, t)) <$> t0 :: take i ts) d)).1 = true.
Proof.
  intros Hcap Hgap i t Ht.
  assert (∀ calls d', lru_cap (cache d') = lru_cap (cache d) → ttl d' = ttl d →
    lru_cap (cache (Seen_all calls d')) = lru_cap (cache d) ∧ ttl (Seen_all calls d') = ttl d) as Hinv.
  { intros calls. unfold Seen_all. induction calls as [|call calls IH]; intros d' Hc Hw; [done|].
    cbn. apply IH; rewrite Seen_cache; cbn; [|done]. by rewrite lru_Add_cap, lru_Get_cap. }
  assert (∃ prev, (t0 :: ts) !! i = Some prev ∧ t0 :: take i ts = take i (t0 :: ts) ++ [prev])
    as (prev & Hprev & ->).
  { destruct (lookup_lt_is_Some_2 (t0 :: ts) i) as [prev Hprev].
    { apply lookup_lt_Some in Ht. simpl; lia. }
    exists prev. split; [done|]. by rewrite <-(take_S_r _ _ _ Hprev). }
  rewrite fmap_app. unfold Seen_all. rewrite foldl_app. cbn [fmap list_fmap foldl fst snd].
  fold (Seen_all ((λ t, (payload, t)) <$> take i (t0 :: ts)) d).
  destruct (Hinv ((λ t, (payload, t)) <$> take i (t0 :: ts)) d eq_refl eq_refl) as [Hc Hw].
  set (d' := Seen_all _ d) in *. rewrite Seen_result, !Seen_cache. cbn [cache ttl].
  rewrite lru_Add_view, lru_Get_cap, Hc. destruct (lru_cap (cache d)) as [|n]; [lia|].
  cbn [take]. rewrite assoc_cons, decide_True by done. rewrite Hw. apply Z.ltb_lt.
  by apply (Hgap i).
Qed.

(** Two different payloads with one FNV-1a sum. *)
Definition collision_a : list byte :=
  String.list_byte_of_string "8yn0iYCKYHlIj4-BwPqk".
Definition collision_b : list byte :=
  String.list_byte_of_string "GReLUrM4wMqfg9yzV3KQ".

(** The cache knows payloads by their hash alone: there are different
    payloads such that the second is reported as seen right after the first,
    although it never was inserted. *)
Theorem Seen_collision :
  ∃ p q, p ≠ q ∧ ∀ (d : Dedup C) now,
    (0 < lru_cap (cache d))%nat → 0 < ttl d →
    (Seen q now (Seen p now d).2).1 = true.
Proof.
  exists collision_a, collision_b. split; [by vm_compute|]. intros d now Hcap Httl.
  assert (Sum64a collision_b = Sum64a collision_a) as Hsum by (vm_compute; reflexivity).
  rewrite Seen_result, Seen_cache, Hsum. cbn [cache ttl].
  rewrite lru_Add_view, lru_Get_cap. destruct (lru_cap (cache d)) as [|n]; [lia|].
  cbn [take]. rewrite assoc_cons, decide_True by done. apply Z.ltb_lt.
  cbn. unfold Sub, minDuration, maxDuration. lia.
Qed.

(** C40: workers overlap: [Seen] is a lookup followed by an insertion. In every
    schedule of these halves, if a key that is not resident is looked up at all,
    some call with that key answers "not seen" (its payload is processed), so an
    event is never lost to deduplication; but with two such calls there is a
    schedule in which both answer "not seen" (both copies are processed). *)
Theorem Seen_interleaved (d : Dedup C) calls k :
  k ∉ (lru_view (cache d)).*1 →
  (∀ sched i now, valid_schedule sched → HGet i ∈ sched → calls !! i = Some (k, now) →
     ∃ j now', calls !! j = Some (k, now') ∧
               (exec_halves calls sched (d, ∅)).2 !! j = Some false) ∧
  (∀ i j ti tj, i ≠ j → calls !! i = Some (k, ti) → calls !! j = Some (k, tj) →
     ∃ sched, valid_schedule sched ∧ HAdd i ∈ sched ∧ HAdd j ∈ sched ∧
       (exec_halves calls sched (d, ∅)).2 !! i = Some false ∧
       (exec_halves calls sched (d, ∅)).2 !! j = Some false).
Proof.
  intros Hk. split.
  - intros sched i now Hval Hin Hi.
    set (P x := ∃ j now, x = HGet j ∧ calls !! j = Some (k, now)).
    assert (∀ x, Decision (P x)) as Hdec.
    { intros [j|j]; [|right; by intros (? & ? & ? & _)].
      destruct (calls !! j) as [[k' now']|] eqn:Hj; cycle 1.
      { right. intros (? & ? & [= <-] & ?). congruence. }
      destruct (decide (k' = k)) as [->|]; [left; by exists j, now'|].
      right. intros (? & ? & [= <-] & ?). congruence. }
    assert (Exists P sched) as Hex.
    { apply Exists_exists. exists (HGet i). split; [done|]. unfold P. eauto. }
    clear Hin Hi. apply (list_exist_first P Hdec) in Hex as (pre & x & post & -> & (j & now' & -> & Hj) & Hpre).
    exists j, now'. split; [done|]. eapply first_Get_not_seen; try done.
    intros j' now'' Hj' Hc. rewrite Forall_forall in Hpre. eapply Hpre; [exact Hj'|]. unfold P; eauto.
  - intros i j ti tj Hne Hi Hj. exists [HGet i; HGet j; HAdd i; HAdd j].
    assert (valid_schedule [HGet i; HGet j; HAdd i; HAdd j]) as Hval.
    { split.
      { rewrite !NoDup_cons, !not_elem_of_cons.
        repeat split; try congruence; try apply not_elem_of_nil; constructor. }
      intros pre post x Hpre.
      destruct pre as [|? [|? [|? [|? pre]]]]; simplify_eq/=;
        [by left|by right; left|by destruct pre]. }
    split; [done|]. split; [by right; right; left|].
    split; [by right; right; right; left|]. cbn. rewrite Hi.
    apply assoc_None in Hk. pose proof (lru_Get_val k (cache d)) as Hv. rewrite Hk in Hv.
    pose proof (lru_Get_view k (cache d)) as Hw. unfold promote in Hw. rewrite Hk in Hw.
    destruct (lru_Get k (cache d)) as [h1 c1]. cbn in *. subst h1.
    pose proof (lru_Get_val k c1) as Hv1. rewrite Hw, Hk in Hv1.
    rewrite Hj. cbn. destruct (lru_Get k c1) as [h2 c2]. cbn in *. subst h2.
    rewrite Hi. cbn. rewrite Hj. cbn. by rewrite lookup_insert_ne, !lookup_insert_eq.
Qed.

End properties.

(** ** Witnesses *)

Definition sample_dedup : Dedup list_lru := mkDedup (mkListLRU 4096 []) (200 * Millisecond).

Lemma Seen_trace_witness :
  (0 < 4096) ∧ ∃ d, New (C := list_lru) 4096 (200 * Millisecond) = Ok d ∧
    ∀ calls payload now,
      (Seen payload now (Seen_all calls d)).1
      = match last_seen (Z.to_nat 4096) (Sum64a payload) ∅ (reverse (event_of <$> calls)) with
        | Some t => Sub now t <? 200 * Millisecond
        | None => false
        end.
Proof. split; [done|]. by apply (proj2 (Seen_trace (C := list_lru) 4096 (200 * Millisecond))). Defined.

Lemma Seen_renews_witness :
  let ts := [150 * Millisecond; 300 * Millisecond] in
  (0 < lru_cap (cache sample_dedup))%nat ∧
  (Seen [Byte.x01] (300 * Millisecond)
     (Seen_all ((λ t, ([Byte.x01], t)) <$> 0 :: take 1 ts) sample_dedup)).1 = true.
Proof.
  intros ts. assert (0 < lru_cap (cache sample_dedup))%nat as Hcap by (cbn; lia). split; [exact Hcap|].
  apply (Seen_renews [Byte.x01] sample_dedup 0 ts Hcap); [|reflexivity].
  intros [|[|[|i]]] t t'; cbn; intros [= <-]; intros [= <-]; reflexivity.
Defined.

Lemma Seen_collision_witness :
  ∃ p q, p ≠ q ∧ ((0 < lru_cap (cache sample_dedup))%nat → 0 < ttl sample_dedup →
    (Seen q 0 (Seen p 0 sample_dedup).2).1 = true).
Proof.
  destruct (Seen_collision (C := list_lru)) as (p & q & Hne & Hpq).
  exists p, q. split; [exact Hne|]. apply (Hpq sample_dedup 0).
Defined.

Lemma Seen_interleaved_witness :
  (7 ∉ (lru_view (cache sample_dedup)).*1) ∧
  ∃ sched, valid_schedule sched ∧ HAdd 0 ∈ sched ∧ HAdd 1 ∈ sched ∧
    (exec_halves [(7, 0); (7, 5)] sched (sample_dedup, ∅)).2 !! 0%nat = Some false ∧
    (exec_halves [(7, 0); (7, 5)] sched (sample_dedup, ∅)).2 !! 1%nat = Some false.
Proof.
  assert (7 ∉ (lru_view (cache sample_dedup)).*1) as Hk by (apply not_elem_of_nil).
  split; [exact Hk|].
  destruct (Seen_interleaved sample_dedup [(7, 0); (7, 5)] 7 Hk) as [_ Hrace].
  by apply (Hrace 0%nat 1%nat 0 5).
Defined.

(** The cases of [dedup_test.go]. *)
Example dedup_tests :
  let d := mkDedup (mkListLRU 128 []) (200 * Millisecond) in
  let a := [Byte.x61] in let b := [Byte.x62] in
  ((Seen a 0 d).1, (Seen a 1 (Seen_all [(a, 0)] d)).1, (Seen b 1 (Seen_all [(a, 0)] d)).1,
   (Seen a 3 (Seen_all [(a, 0); (b, 1)] d)).1,
   (Seen a (200 * Millisecond) (Seen_all [(a, 0)] d)).1)
  = (false, true, false, true, false).
Proof. vm_compute. reflexivity. Qed.
