(* ===== verification/GoNet.v ===== *)
(** * Go's [net.IP], as far as the program uses it

    An [IP] is a byte slice that may be nil. [To4] and [To16] convert between
    the two lengths, [IP_String] is the text the [%s] verb prints. Standard
    library: no source lines. *)

From Stdlib Require Import Strings.Byte.
From S2P Require Import Prelude GoBytes GoUnicode GoStrings.

Abbreviation IP := (option (list byte)).

Definition v4InV6Prefix : list byte := repeat Byte.x00 10 ++ [Byte.xff; Byte.xff].

(** [ip.To4()] *)
Definition To4 (ip : IP) : IP :=
  b ← ip;
  if decide (length b = 4) then Some b
  else if decide (length b = 16 ∧ take 12 b = v4InV6Prefix) then Some (drop 12 b)
  else None.

(** [ip.To16()] *)
Definition To16 (ip : IP) : IP :=
  b ← ip;
  if decide (length b = 4) then Some (v4InV6Prefix ++ b)
  else if decide (length b = 16) then Some b
  else None.

(** [net.IPv4(a, b, c, d)] *)
Definition IPv4 (a b c d : Z) : IP :=
  Some (v4InV6Prefix ++ (byte_of_Z <$> [a; b; c; d])).

(** ** Text *)

Definition string_v4 (b : list byte) : string :=
  Join ((λ x, fmt_d (byte_val x)) <$> b) ".".

(** Hexadecimal without leading zeros, as [appendHex] writes a group. *)
Definition hex_group (n : Z) : string :=
  if (n <? 16)%Z then hex 1 n else if (n <? 256)%Z then hex 2 n
  else if (n <? 4096)%Z then hex 3 n else hex 4 n.

Definition groups (b : list byte) : list Z :=
  (λ i, (256 * byte_val (nth (2 * i) b Byte.x00) + byte_val (nth (2 * i + 1) b Byte.x00))%Z)
    <$> seq 0 8.

Fixpoint zero_run (gs : list Z) : nat :=
  match gs with
  | g :: gs => if (g =? 0)%Z then S (zero_run gs) else 0
  | [] => 0
  end.

(** The first longest run of at least two zero groups: its start and length. *)
Definition longest_run (gs : list Z) : option (nat * nat) :=
  foldl (λ best i,
    let l := zero_run (drop i gs) in
    if decide (2 ≤ l ∧ default 0 (snd <$> best) < l) then Some (i, l) else best)
    None (seq 0 8).

Definition string_v6 (b : list byte) : string :=
  let gs := groups b in
  let text l := Join (hex_group <$> l) ":" in
  match longest_run gs with
  | None => text gs
  | Some (i, l) => text (take i gs) +:+ "::" +:+ text (drop (i + l) gs)
  end.

Definition hex_string (b : list byte) : string :=
  foldr String.append "" ((λ x, hex 2 (byte_val x)) <$> b).

(** [ip.String()] *)
Definition IP_String (ip : IP) : string :=
  match ip with
  | None | Some [] => "<nil>"
  | Some b =>
    match To4 ip with
    | Some b4 => string_v4 b4
    | None => if decide (length b = 16) then string_v6 b else "?" +:+ hex_string b
    end
  end.

Example IP_String_ex :
  (IP_String <$> [IPv4 203 0 113 7;
    Some (byte_of_Z <$> [0x20; 0x01; 0x0d; 0xb8; 0; 0; 0; 0; 0; 0; 0; 0; 0; 0; 0; 1]%Z);
    Some (byte_of_Z <$> [0x20; 0x01; 0; 0; 0; 1; 0; 0; 0; 0; 0; 1; 0; 1; 0; 1]%Z);
    Some (repeat Byte.x00 16); None; Some [Byte.x0f]])
  = ["203.0.113.7"; "2001:db8::1"; "2001:0:1::1:1:1"; "::"; "<nil>"; "?0f"].
Proof. vm_compute. reflexivity. Qed.

(** ** Lengths *)

Lemma To4_length ip b : To4 ip = Some b → length b = 4.
Proof.
  unfold To4. destruct ip as [c|]; [|done]. cbn. repeat case_decide; intros [= <-]; [done|].
  rewrite length_drop. lia.
Qed.

Lemma To16_length ip b : To16 ip = Some b → length b = 16.
Proof.
  unfold To16. destruct ip as [c|]; [|done]. cbn. repeat case_decide; intros [= <-]; [|done].
  cbn. lia.
Qed.

Lemma To4_4 b : length b = 4 → To4 (Some b) = Some b.
Proof. intros Hb. cbn. by rewrite decide_True. Qed.

Lemma To16_16 b : length b = 16 → To16 (Some b) = Some b.
Proof. intros Hb. cbn. rewrite decide_False by lia. by rewrite decide_True. Qed.

Lemma To4_IPv4 a b c d : To4 (IPv4 a b c d) = Some (byte_of_Z <$> [a; b; c; d]).
Proof. done. Qed.
