(* ===== verification/DnsParse.v ===== *)
(** * The DNS parser ([internal/dnsparse/parser.go])

    [Parse] unpacks a payload with the third-party codec (a parameter), keeps
    the A and AAAA records of the answer section and mirrors them under the
    CNAME owners that point at them. The mirroring ranges over a Go map, whose
    order is not specified: it is an argument [order] of [Parse], of which only
    [range_order] is known. *)

From S2P Require Import Prelude GoBytes GoUnicode GoStrings GoNet.
#[local] Open Scope Z_scope.

(** ** Messages, as the codec returns them

    The fields of [dns.Msg] and its records that the parser reads. *)

Inductive rr_body :=
| RR_A (a : IP)
| RR_AAAA (aaaa : IP)
| RR_CNAME (target : string)
| RR_other.

Record RR := mkRR {
  hdr_Name : string;
  hdr_Ttl : Z;
  body : rr_body;
}.

Record Msg := mkMsg {
  m_Id : Z;
  m_Response : bool;
  m_Rcode : Z;
  m_Question : list (string * Z);
  m_Answer : list RR;
}.

(** [dns.RcodeSuccess] *)
Definition RcodeSuccess : Z := 0.

(** [m.Unpack(b)] *)
Class DNS := dns_Unpack : list byte → result string Msg.

(** ** Data *)

Record Record_ := mkRecord {
  rec_Name : string;
  rec_Family : Z;
  rec_IP : IP;
  rec_TTL : Z;
}.

Record Response := mkResponse {
  TxID : Z;
  QName : string;
  QType : Z;
  Records : list Record_;
}.

#[global] Instance Record_eq_dec : EqDecision Record_.
Proof. solve_decision. Defined.
#[global] Instance Response_eq_dec : EqDecision Response.
Proof. solve_decision. Defined.

Inductive parse_error :=
| ErrUnpack (cause : string)
| ErrNotResponse
| ErrBadRcode
| ErrNoUsable.

#[global] Instance parse_error_eq_dec : EqDecision parse_error.
Proof. solve_decision. Defined.

Definition parse_error_string (e : parse_error) : string :=
  match e with
  | ErrUnpack cause => cause
  | ErrNotResponse => "not a DNS response"
  | ErrBadRcode => "non-NOERROR rcode"
  | ErrNoUsable => "no usable A/AAAA records"
  end.

(** ** Operations *)

Definition normalize (name : string) : string := TrimSuffix (ToLower name) ".".

(** One iteration of the first pass, on the pair [(cnames, addrs)]. *)
Definition first_pass_step (s : gmap string string * list Record_) (rr : RR)
    : gmap string string * list Record_ :=
  let '(cnames, addrs) := s in
  let owner := normalize (hdr_Name rr) in
  match body rr with
  | RR_A a => (cnames, addrs ++ [mkRecord owner 4 (To4 a) (hdr_Ttl rr)])
  | RR_AAAA aaaa => (cnames, addrs ++ [mkRecord owner 6 (To16 aaaa) (hdr_Ttl rr)])
  | RR_CNAME target => (<[owner := normalize target]> cnames, addrs)
  | RR_other => s
  end.

Definition first_pass (answer : list RR) : gmap string string * list Record_ :=
  foldl first_pass_step (∅, []) answer.

(** The second pass: the records mirrored under the entries, in order. *)
Definition mirror (addrs : list Record_) (entries : list (string * string)) : list Record_ :=
  foldl (λ out e,
    foldl (λ out rec,
      if String.eqb (rec_Name rec) e.2
      then out ++ [mkRecord e.1 (rec_Family rec) (rec_IP rec) (rec_TTL rec)] else out)
      out addrs) [] entries.

(** What is known of the order in which [range] visits a map. *)
Definition range_order (order : gmap string string → list (string * string)) : Prop :=
  ∀ m, order m ≡ₚ map_to_list m.

Section parse.
Context {dns : DNS}.

Definition Parse (order : gmap string string → list (string * string)) (b : list byte)
    : result parse_error Response :=
  match dns_Unpack b with
  | Err cause => Err (ErrUnpack cause)
  | Ok m =>
    if negb (m_Response m) then Err ErrNotResponse
    else if negb (m_Rcode m =? RcodeSuccess) then Err ErrBadRcode
    else if decide (length (m_Answer m) = 0%nat) then Err ErrNoUsable
    else
      let '(qname, qtype) :=
        match m_Question m with
        | [] => ("", 0)
        | (name, qtype) :: _ => (normalize name, qtype)
        end in
      let '(cnames, addrs) := first_pass (m_Answer m) in
      let records := addrs ++ mirror addrs (order cnames) in
      if decide (length records = 0%nat) then Err ErrNoUsable
      else Ok (mkResponse (m_Id m) qname qtype records)
  end.

End parse.

(** ** Specification *)

(** The record an answer stands for, when it is an address. *)
Definition address_of (rr : RR) : option Record_ :=
  match body rr with
  | RR_A a => Some (mkRecord (normalize (hdr_Name rr)) 4 (To4 a) (hdr_Ttl rr))
  | RR_AAAA aaaa => Some (mkRecord (normalize (hdr_Name rr)) 6 (To16 aaaa) (hdr_Ttl rr))
  | _ => None
  end.

(** The CNAME mapping an answer stands for. *)
Definition cname_of (rr : RR) : option (string * string) :=
  match body rr with
  | RR_CNAME target => Some (normalize (hdr_Name rr), normalize target)
  | _ => None
  end.

(** The addresses of an answer section, in order. *)
Definition addresses (answer : list RR) : list Record_ := omap address_of answer.

(** The target of the last CNAME of an owner. *)
Definition cname_target (answer : list RR) (owner : string) : option string :=
  last (omap (λ rr, e ← cname_of rr; if decide (e.1 = owner) then Some e.2 else None) answer).

(** The addresses of a name, under another name. *)
Definition rename (owner : string) (rec : Record_) : Record_ :=
  mkRecord owner (rec_Family rec) (rec_IP rec) (rec_TTL rec).

(** ** The two passes meet the specification *)

Lemma first_pass_spec answer :
  (first_pass answer).2 = addresses answer ∧
  ∀ owner, (first_pass answer).1 !! owner = cname_target answer owner.
Proof.
  unfold first_pass, addresses, cname_target.
  induction answer as [|rr answer [IHa IHc]] using rev_ind; [done|].
  rewrite foldl_snoc, omap_app.
  destruct (foldl first_pass_step (∅, []) answer) as [cnames addrs]. cbn [fst snd] in *.
  unfold first_pass_step. destruct rr as [name ttl rrb].
  split.
  - subst. destruct rrb; cbn; by rewrite ?app_nil_r.
  - intros owner. specialize (IHc owner). rewrite omap_app.
    destruct rrb as [a|a|target|]; cbn; rewrite ?app_nil_r; [done..| |done].
    rewrite lookup_insert. case_decide; [by rewrite last_snoc|by rewrite app_nil_r].
Qed.

Lemma mirror_step addrs e out :
  foldl (λ out rec,
      if String.eqb (rec_Name rec) e.2
      then out ++ [mkRecord e.1 (rec_Family rec) (rec_IP rec) (rec_TTL rec)] else out) out addrs
  = out ++ (rename e.1 <$> filter (λ rec, rec_Name rec = e.2) addrs).
Proof.
  revert out. induction addrs as [|rec addrs IH]; intros out; [by cbn; rewrite app_nil_r|].
  cbn [foldl]. rewrite IH, filter_cons. destruct (String.eqb_spec (rec_Name rec) e.2) as [->|Hne].
  - rewrite decide_True by done. by rewrite <-app_assoc.
  - by rewrite decide_False.
Qed.

Lemma mirror_spec addrs entries :
  mirror addrs entries
  = concat ((λ e, rename e.1 <$> filter (λ rec, rec_Name rec = e.2) addrs) <$> entries).
Proof.
  unfold mirror. assert (∀ out, foldl (λ out e, foldl (λ out rec,
      if String.eqb (rec_Name rec) e.2
      then out ++ [mkRecord e.1 (rec_Family rec) (rec_IP rec) (rec_TTL rec)] else out) out addrs)
      out entries
    = out ++ concat ((λ e, rename e.1 <$> filter (λ rec, rec_Name rec = e.2) addrs) <$> entries))
    as Hgen; [|apply (Hgen [])].
  induction entries as [|e entries IH]; intros out; [by cbn; rewrite app_nil_r|].
  cbn [foldl]. rewrite mirror_step, IH, <-app_assoc. done.
Qed.

#[global] Instance concat_Permutation {A} : Proper ((≡ₚ) ==> (≡ₚ)) (@concat A).
Proof.
  induction 1 as [|x l k _ IH|x y l|l k m _ IH1 _ IH2]; cbn; [done|by rewrite IH| |by etrans].
  by rewrite !app_assoc, (Permutation_app_comm y x).
Qed.

(** The order of the map only permutes the mirrored records. *)
#[global] Instance mirror_Permutation addrs : Proper ((≡ₚ) ==> (≡ₚ)) (mirror addrs).
Proof. intros e1 e2 He. rewrite !mirror_spec. by rewrite He. Qed.

Lemma elem_of_mirror addrs entries rec :
  rec ∈ mirror addrs entries ↔
  ∃ owner target a, (owner, target) ∈ entries ∧ a ∈ addrs ∧ rec_Name a = target ∧ rec = rename owner a.
Proof.
  rewrite mirror_spec, list_elem_of_In, in_concat. setoid_rewrite <-list_elem_of_In. split.
  - intros (l & ([owner target] & -> & He)%list_elem_of_fmap & (a & -> & [Ha Hin]%list_elem_of_filter)%list_elem_of_fmap).
    by exists owner, target, a.
  - intros (owner & target & a & He & Ha & <- & ->).
    exists (rename owner <$> filter (λ r, rec_Name r = rec_Name a) addrs). split.
    + apply list_elem_of_fmap. by exists (owner, rec_Name a).
    + apply list_elem_of_fmap_2, list_elem_of_filter. done.
Qed.

Lemma mirror_nil entries : mirror [] entries = [].
Proof. rewrite mirror_spec. by induction entries. Qed.

Section parse_lemmas.
Context {dns : DNS}.
Implicit Types (order : gmap string string → list (string * string)).

(** The name and type of the first question. *)
Definition question (m : Msg) : string * Z :=
  match m_Question m with
  | [] => ("", 0)
  | (name, qtype) :: _ => (normalize name, qtype)
  end.

Lemma Parse_unfold order b :
  Parse order b =
  match dns_Unpack b with
  | Err cause => Err (ErrUnpack cause)
  | Ok m =>
    if negb (m_Response m) then Err ErrNotResponse
    else if negb (m_Rcode m =? RcodeSuccess) then Err ErrBadRcode
    else if decide (addresses (m_Answer m) = []) then Err ErrNoUsable
    else Ok (mkResponse (m_Id m) (question m).1 (question m).2
      (addresses (m_Answer m)
       ++ mirror (addresses (m_Answer m)) (order (first_pass (m_Answer m)).1)))
  end.
Proof.
  unfold Parse, question. destruct (dns_Unpack b) as [m|]; [|done].
  destruct (m_Response m); [|done]. destruct (m_Rcode m =? RcodeSuccess); [|done]. cbn [negb].
  destruct (first_pass_spec (m_Answer m)) as [Ha _]. rewrite <-Ha.
  case_decide as Hlen; [by destruct (m_Answer m)|].
  destruct (first_pass (m_Answer m)) as [cnames addrs]. cbn [fst snd].
  assert (∀ q : string * Z, (let '(qname, qtype) := q in
      if decide (length (addrs ++ mirror addrs (order cnames)) = 0%nat) then Err ErrNoUsable
      else Ok (mkResponse (m_Id m) qname qtype (addrs ++ mirror addrs (order cnames))))
    = if decide (addrs = []) then Err ErrNoUsable
      else Ok (mkResponse (m_Id m) q.1 q.2 (addrs ++ mirror addrs (order cnames)))) as Hq.
  { intros [qname qtype]. destruct addrs as [|a addrs]; [by rewrite mirror_nil|done]. }
  apply Hq.
Qed.

(** A response comes from a message of the codec. *)
Lemma Parse_Ok order b r :
  Parse order b = Ok r ↔
  ∃ m, dns_Unpack b = Ok m ∧ m_Response m = true ∧ m_Rcode m = RcodeSuccess ∧
    addresses (m_Answer m) ≠ [] ∧
    r = mkResponse (m_Id m) (question m).1 (question m).2
      (addresses (m_Answer m)
       ++ mirror (addresses (m_Answer m)) (order (first_pass (m_Answer m)).1)).
Proof.
  rewrite Parse_unfold. destruct (dns_Unpack b) as [m|]; [|by split; [|intros (? & ? & _)]].
  destruct (m_Response m) eqn:Hr; cbn [negb].
  2:{ split; [done|]. intros (? & [= <-] & ? & _). congruence. }
  destruct (Z.eqb_spec (m_Rcode m) RcodeSuccess) as [Hc|Hc]; cbn [negb].
  2:{ split; [done|]. intros (? & [= <-] & _ & ? & _). congruence. }
  case_decide as Ha.
  - split; [done|]. intros (? & [= <-] & _ & _ & ? & _). congruence.
  - split; [intros [= <-]; eauto 10|]. by intros (m' & [= <-] & _ & _ & _ & ->).
Qed.

Lemma elem_of_Records order b r m rec :
  range_order order → dns_Unpack b = Ok m → Parse order b = Ok r →
  rec ∈ Records r ↔
  rec ∈ addresses (m_Answer m) ∨
  ∃ owner a, a ∈ addresses (m_Answer m) ∧ cname_target (m_Answer m) owner = Some (rec_Name a) ∧
             rec = rename owner a.
Proof.
  intros Ho Hm (m' & Hm' & _ & _ & _ & ->)%Parse_Ok. rewrite Hm in Hm'. injection Hm' as <-.
  cbn [Records]. rewrite elem_of_app, elem_of_mirror.
  destruct (first_pass_spec (m_Answer m)) as [_ Hc]. setoid_rewrite <-Hc.
  setoid_rewrite (Ho _). setoid_rewrite elem_of_map_to_list.
  split; (intros [?|(owner & H)]; [by left|right]); exists owner; naive_solver.
Qed.

End parse_lemmas.

(** ** Properties *)

Section properties.
Context {dns : DNS}.
Implicit Types (order : gmap string string → list (string * string)).

(** The outcome of [Parse] on every branch: the codec's error, a message
    that is no response, a response code other than NOERROR and an answer
    section without a usable address are refused in this order, each with its
    error; everything else parses, with the identifier of the message and the
    normalised first question (or an empty one). *)
Theorem Parse_outcome order b :
  match dns_Unpack b with
  | Err cause => Parse order b = Err (ErrUnpack cause)
  | Ok m =>
    (m_Response m = false → Parse order b = Err ErrNotResponse) ∧
    (m_Response m = true → m_Rcode m ≠ RcodeSuccess → Parse order b = Err ErrBadRcode) ∧
    (m_Response m = true → m_Rcode m = RcodeSuccess →
      (Parse order b = Err ErrNoUsable ↔ addresses (m_Answer m) = []) ∧
      (addresses (m_Answer m) ≠ [] →
        ∃ r, Parse order b = Ok r ∧ TxID r = m_Id m ∧ (QName r, QType r) = question m))
  end.
Proof.
  rewrite Parse_unfold. destruct (dns_Unpack b) as [m|]; [|done].
  split; [by intros ->|]. split; [intros -> Hc; by rewrite (proj2 (Z.eqb_neq _ _) Hc)|].
  intros Hr Hc. rewrite Hr, Hc, Z.eqb_refl. cbn [negb]. case_decide as Ha.
  - by split; [|intros []].
  - split; [by split; [|intros ?; destruct Ha]|]. intros _. eexists. split; [done|].
    split; [done|]. by destruct (question m).
Qed.

(** C21: the records of a response are exactly the A and AAAA answers and, for
    every owner whose last CNAME target owns addresses in the same answer, those
    addresses under the owner's name: all of them, and one CNAME hop only. *)
Theorem Parse_records order b r m rec :
  range_order order → dns_Unpack b = Ok m → Parse order b = Ok r →
  rec ∈ Records r ↔
  rec ∈ addresses (m_Answer m) ∨
  ∃ owner a, a ∈ addresses (m_Answer m) ∧ cname_target (m_Answer m) owner = Some (rec_Name a) ∧
             rec = rename owner a.
Proof. apply elem_of_Records. Qed.


(** What the pipeline relies on of a record. *)
Definition wf_record (rec : Record_) : Prop :=
  ToLower (rec_Name rec) = rec_Name rec ∧
  ((rec_Family rec = 4 ∧ ∀ b, rec_IP rec = Some b → length b = 4%nat) ∨
   (rec_Family rec = 6 ∧ ∀ b, rec_IP rec = Some b → length b = 16%nat)).

Lemma ToLower_normalize name : ToLower (normalize name) = normalize name.
Proof.
  unfold normalize. destruct (TrimSuffix_cases (ToLower name) ".") as [(p & Hp & ->)|[_ ->]];
    [|apply ToLower_idemp].
  pose proof (ToLower_app_dot p "") as Hd. rewrite !string_app_nil_r in Hd.
  rewrite <-Hp, ToLower_idemp, Hp in Hd.
  rewrite <-(TrimSuffix_app (ToLower p) "."), <-Hd. by rewrite TrimSuffix_app.
Qed.

Lemma address_of_wf rr rec : address_of rr = Some rec → wf_record rec.
Proof.
  destruct rr as [name ttl [a|a| |]]; cbn; intros [= <-]; (split; [apply ToLower_normalize|]); cbn.
  - left. split; [done|]. apply To4_length.
  - right. split; [done|]. apply To16_length.
Qed.

Lemma cname_target_lower answer owner target :
  cname_target answer owner = Some target → ToLower owner = owner.
Proof.
  unfold cname_target. intros Ht%last_Some_elem_of.
  apply list_elem_of_omap in Ht as (rr & _ & Hrr).
  destruct (cname_of rr) as [[o t]|] eqn:Hc; [|done]. cbn in Hrr. case_decide as Ho; [|done].
  unfold cname_of in Hc. destruct (body rr); try done. injection Hc as <- _. subst.
  apply ToLower_normalize.
Qed.

(** C37: every record of a response, mirrored or not, has a lower-case name, is
    of family 4 or 6, and carries a nil address or one of the family's length. *)
Theorem Parse_records_wf order b r :
  range_order order → Parse order b = Ok r → Forall wf_record (Records r).
Proof.
  intros Ho Hr. pose proof Hr as (m & Hm & _)%Parse_Ok. apply Forall_forall. intros rec.
  rewrite (elem_of_Records _ _ _ _ _ Ho Hm Hr).
  assert (∀ a, a ∈ addresses (m_Answer m) → wf_record a) as Haddr.
  { intros a (rr & _ & Ha)%list_elem_of_omap. by eapply address_of_wf. }
  intros [Hrec|(owner & a & Ha & Hc & ->)]; [by apply Haddr|].
  destruct (Haddr a Ha) as [_ Hfam]. split; [|done]. cbn. by eapply cname_target_lower.
Qed.

(** Only one CNAME hop is mirrored: in a chain x -> y -> z with an address
    at z, the response has records for z and y but none for x. *)
Lemma Parse_one_hop order b m x y z ttl ip r :
  range_order order → dns_Unpack b = Ok m →
  m_Answer m = [mkRR x ttl (RR_CNAME y); mkRR y ttl (RR_CNAME z); mkRR z ttl (RR_A ip)] →
  NoDup (normalize <$> [x; y; z]) → Parse order b = Ok r →
  list_to_set (rec_Name <$> Records r) =@{gset string} {[normalize z; normalize y]}.
Proof.
  intros Ho Hm Hans Hnd Hr. apply set_eq. intros n.
  rewrite elem_of_list_to_set, list_elem_of_fmap.
  setoid_rewrite (elem_of_Records _ _ _ _ _ Ho Hm Hr). rewrite Hans.
  cbn in Hnd. rewrite !NoDup_cons, !not_elem_of_cons in Hnd. destruct Hnd as ((Hxy & Hxz & _) & (Hyz & _) & _).
  unfold cname_target, addresses. cbn.
  assert (∀ a, a ∈ [mkRecord (normalize z) 4 (To4 ip) ttl] ↔ a = mkRecord (normalize z) 4 (To4 ip) ttl)
    as Ha by (intros; apply list_elem_of_singleton).
  setoid_rewrite Ha. rewrite elem_of_union, !elem_of_singleton. split.
  - intros (rec & -> & [-> | (owner & a & -> & Hc & ->)]); [by left|right]. cbn in *.
    repeat case_decide; simplify_eq/=; done.
  - intros [-> | ->]; [by eexists; split; [|by left]|].
    eexists (rename (normalize y) _). split; [done|]. right. eexists _, _. split; [done|]. split; [|done].
    cbn. rewrite (decide_False (P := normalize x = normalize y)) by done. by rewrite decide_True.
Qed.

End properties.

(** ** Instances of the properties *)

Definition sample_ip : IP := IPv4 192 0 2 1.

(** A response with a two-hop CNAME chain. *)
Definition sample_msg : Msg :=
  mkMsg 7 true RcodeSuccess [("X.example.", 1)]
    [mkRR "X.example." 60 (RR_CNAME "y.example."); mkRR "y.example." 60 (RR_CNAME "z.example.");
     mkRR "z.example." 60 (RR_A sample_ip)].

Definition sample_dns : DNS := λ _, Ok sample_msg.

Definition sample_order (m : gmap string string) : list (string * string) := map_to_list m.

Lemma sample_order_range : range_order sample_order.
Proof. intros m. reflexivity. Qed.

Definition sample_record (name : string) : Record_ :=
  mkRecord name 4 (Some (byte_of_Z <$> [192; 0; 2; 1])) 60.

Definition sample_response : Response :=
  mkResponse 7 "x.example" 1 [sample_record "z.example"; sample_record "y.example"].

Lemma sample_Parse : Parse (dns := sample_dns) sample_order [] = Ok sample_response.
Proof. vm_compute. reflexivity. Qed.

Lemma Parse_records_witness :
  sample_record "y.example" ∈ Records sample_response ∧
  (sample_record "y.example" ∈ addresses (m_Answer sample_msg) ∨
   ∃ owner a, a ∈ addresses (m_Answer sample_msg) ∧
     cname_target (m_Answer sample_msg) owner = Some (rec_Name a) ∧
     sample_record "y.example" = rename owner a).
Proof.
  assert (sample_record "y.example" ∈ Records sample_response) as Hin by (right; left).
  split; [exact Hin|].
  apply (Parse_records (dns := sample_dns) sample_order [] sample_response sample_msg
    (sample_record "y.example")); [exact sample_order_range|reflexivity|exact sample_Parse|exact Hin].
Defined.


Lemma Parse_records_wf_witness : Forall wf_record (Records sample_response).
Proof.
  exact (Parse_records_wf (dns := sample_dns) sample_order [] sample_response
    sample_order_range sample_Parse).
Defined.

(** The two-hop chain of the sample: no record for the first name. *)
Example Parse_one_hop_ex :
  rec_Name <$> Records sample_response = ["z.example"; "y.example"].
Proof. reflexivity. Qed.
