(* ===== verification/FakeResolver.v ===== *)
(** * The stress resolver ([stress/fake-resolver/main.go])

    A deterministic DNS server: A queries are answered from a rotating pool of
    addresses, AAAA queries with one fixed address. The model is the handler's
    loop over the questions, on the shared counter, and [main] around it; [None]
    is a panic. The codec and the UDP server are the library's: what the server
    returns is an argument. The flags are those [flag.Parse] leaves. *)

From S2P Require Import Prelude GoBytes GoUnicode GoStrings GoNet DnsParse.
#[local] Open Scope Z_scope.

(** [dns.TypeA], [dns.TypeAAAA] *)
Definition TypeA : Z := 1.
Definition TypeAAAA : Z := 28.

(** The pool; [make] panics on a negative size. *)
Definition make_pool (poolSize : Z) : option (list IP) :=
  if poolSize <? 0 then None
  else Some ((λ i, IPv4 203 0 113 (Z.land i 0xff)) <$> seqZ 0 poolSize).

(** [net.ParseIP("2001:db8::1")] *)
Definition v6 : IP :=
  Some (byte_of_Z <$> [0x20; 0x01; 0x0d; 0xb8; 0; 0; 0; 0; 0; 0; 0; 0; 0; 0; 0; 1]).

(** One question: the answer it adds, if any, and the counter; the modulo by an
    empty pool panics. *)
Definition answer (pool : list IP) (ttl : Z) (q : string * Z) (counter : Z)
    : option (option RR * Z) :=
  if q.2 =? TypeA then
    let counter := u64 (counter + 1) in
    if decide (length pool = 0%nat) then None
    else
      ip ← pool !! Z.to_nat (counter mod Z.of_nat (length pool));
      Some (Some (mkRR q.1 (ttl mod 2 ^ 32) (RR_A ip)), counter)
  else if q.2 =? TypeAAAA then Some (Some (mkRR q.1 (ttl mod 2 ^ 32) (RR_AAAA v6)), counter)
  else Some (None, counter).

(** The loop of the handler: the answer section and the counter. *)
Fixpoint handler (pool : list IP) (ttl : Z) (questions : list (string * Z)) (counter : Z)
    : option (list RR * Z) :=
  match questions with
  | [] => Some ([], counter)
  | q :: questions =>
    '(rr, counter) ← answer pool ttl q counter;
    '(rrs, counter) ← handler pool ttl questions counter;
    Some (option_list rr ++ rrs, counter)
  end.

(** The flags and their defaults. *)
Record flags := mkFlags { addr : string; poolSize : Z; flag_ttl : Z }.
Definition default_flags : flags := mkFlags "127.0.0.1:53" 256 60.

(** [main] up to its end: it makes the pool, or panics, and serves; a server that
    fails ends in [log.Fatalf]. With it the handler that served, from a counter
    of zero. *)
Inductive ending := Panicked | Fatal (err : string) | Ended.

Definition main (f : flags) (ListenAndServe : option string)
    : ending * option (list (string * Z) → Z → option (list RR * Z)) :=
  match make_pool (poolSize f) with
  | None => (Panicked, None)
  | Some pool =>
    (match ListenAndServe with Some e => Fatal ("fake-resolver: " +:+ e) | None => Ended end,
     Some (handler pool (flag_ttl f)))
  end.

(** ** Lemmas *)

Lemma make_pool_lookup n pool i :
  make_pool n = Some pool → 0 ≤ i < n →
  pool !! Z.to_nat i = Some (IPv4 203 0 113 (Z.land i 0xff)) ∧ length pool = Z.to_nat n.
Proof.
  unfold make_pool. case_match eqn:Hn; [done|]. intros [= <-] Hi. bool_to_prop.
  rewrite length_fmap, length_seqZ, list_lookup_fmap, lookup_seqZ_lt by lia. cbn. split; [|done].
  do 3 f_equal. lia.
Qed.

(** The address of the [k]-th A answer from now on. *)
Definition pool_ip (n counter k : Z) : IP :=
  IPv4 203 0 113 (Z.land (u64 (counter + k) mod n) 0xff).

Definition A_questions (questions : list (string * Z)) : list (string * Z) :=
  filter (λ q, q.2 = TypeA) questions.

Lemma answer_A n pool ttl name counter :
  make_pool n = Some pool → 0 < n →
  answer pool ttl (name, TypeA) counter
  = Some (Some (mkRR name (ttl mod 2 ^ 32) (RR_A (pool_ip n counter 1))), u64 (counter + 1)).
Proof.
  intros Hp Hn. unfold answer. cbn [snd fst Z.eqb TypeA Pos.eqb].
  pose proof (Z.mod_pos_bound (u64 (counter + 1)) n Hn) as Hr.
  destruct (make_pool_lookup n pool _ Hp Hr) as [Hl Hlen].
  rewrite decide_False by lia. rewrite Hlen, Z2Nat.id by lia. by rewrite Hl.
Qed.

Lemma u64_add a b : u64 (u64 a + b) = u64 (a + b).
Proof. unfold u64. by rewrite Zplus_mod_idemp_l. Qed.

Lemma pool_ip_shift n counter j k : pool_ip n (u64 (counter + j)) k = pool_ip n counter (j + k).
Proof. unfold pool_ip. rewrite u64_add. do 3 f_equal. f_equal. lia. Qed.

(** What the parser makes of an answer section. *)
Definition answered_ips (rrs : list RR) : list IP :=
  omap (λ rr, match body rr with RR_A ip => Some ip | _ => None end) rrs.

Lemma handler_run n pool ttl questions counter :
  make_pool n = Some pool → 0 < n →
  let k := length (A_questions questions) in
  ∃ rrs, handler pool ttl questions counter
           = Some (rrs, if decide (k = 0%nat) then counter else u64 (counter + Z.of_nat k)) ∧
    answered_ips rrs = (λ j, pool_ip n counter j) <$> seqZ 1 (Z.of_nat k) ∧
    hdr_Name <$> rrs = fst <$> filter (λ q, q.2 = TypeA ∨ q.2 = TypeAAAA) questions ∧
    Forall (λ rr, hdr_Ttl rr = ttl mod 2 ^ 32) rrs.
Proof.
  intros Hp Hn. revert counter. induction questions as [|[name qt] questions IH]; intros counter.
  { exists []. by repeat split. }
  unfold A_questions in *. cbn [handler]. rewrite !filter_cons. cbn [snd].
  destruct (decide (qt = TypeA)) as [->|Ha].
  - rewrite (answer_A n) by done. cbn [mbind option_bind].
    destruct (IH (u64 (counter + 1))) as (rrs & -> & Hips & Hnames & Httl). cbn.
    set (k := length (filter (λ q, q.2 = TypeA) questions)) in *.
    exists (mkRR name (ttl mod 2 ^ 32) (RR_A (pool_ip n counter 1)) :: rrs).
    split; [|split; [|split; [|by constructor]]].
    + do 2 f_equal. destruct (decide (k = 0%nat)) as [->|]; [done|]. rewrite u64_add. f_equal. lia.
    + change (answered_ips (_ :: rrs)) with (pool_ip n counter 1 :: answered_ips rrs).
      rewrite Hips, (seqZ_cons 1 (Z.of_nat (S k))) by lia. cbn. f_equal.
      replace (Z.pred (Z.of_nat (S k))) with (Z.of_nat k) by lia.
      rewrite <-(fmap_add_seqZ 1 1), <-list_fmap_compose. apply list_fmap_ext. intros i j _.
      cbn. by rewrite pool_ip_shift.
    + rewrite decide_True by (by left). cbn. by rewrite Hnames.
  - assert ((qt =? TypeA) = false) as E by (by apply Z.eqb_neq).
    unfold answer. cbn [snd fst]. rewrite E.
    destruct (Z.eqb_spec qt TypeAAAA) as [->|H4]; cbn [mbind option_bind];
      destruct (IH counter) as (rrs & -> & Hips & Hnames & Httl); cbn; eexists;
      (split; [done|]).
    + split; [done|]. rewrite decide_True by (by right). cbn. rewrite Hnames. split; [done|]. by constructor.
    + split; [done|]. rewrite decide_False by (by intros [?|?]). done.
Qed.

(** ** Property *)

(** The resolver rotates: with a non-empty pool it answers every A and AAAA
    question under the name asked and with the TTL given, never panics, and the
    addresses of consecutive A answers follow the counter around the pool; for a
    pool of at most 256 the answers to as many A questions as the pool is large,
    in any number of messages, are pairwise distinct addresses, unless the
    64-bit counter wraps in between. *)
Theorem rotation n pool ttl questions counter :
  make_pool n = Some pool → 0 < n →
  let k := length (A_questions questions) in
  ∃ rrs counter', handler pool ttl questions counter = Some (rrs, counter') ∧
    answered_ips rrs = (λ j, pool_ip n counter j) <$> seqZ 1 (Z.of_nat k) ∧
    hdr_Name <$> rrs = fst <$> filter (λ q, q.2 = TypeA ∨ q.2 = TypeAAAA) questions ∧
    Forall (λ rr, hdr_Ttl rr = ttl mod 2 ^ 32) rrs ∧
    (n ≤ 256 → Z.of_nat k ≤ n → 0 ≤ counter → counter + n < 2 ^ 64 → NoDup (answered_ips rrs)).
Proof.
  intros Hp Hn k. destruct (handler_run n pool ttl questions counter Hp Hn) as (rrs & Hh & Hips & Hnames & Httl).
  eexists rrs, _. split; [exact Hh|]. split; [done|]. split; [done|]. split; [done|].
  intros Hn256 Hk Hc Hwrap. rewrite Hips. apply NoDup_fmap_2_strong; [|apply NoDup_seqZ].
  intros i j Hi%elem_of_seqZ Hj%elem_of_seqZ Heq. fold k in Hi, Hj.
  unfold pool_ip, u64 in Heq. rewrite (Z.mod_small (counter + i)), (Z.mod_small (counter + j)) in Heq by lia.
  pose proof (Z.mod_pos_bound (counter + i) n Hn). pose proof (Z.mod_pos_bound (counter + j) n Hn).
  assert ((counter + i) mod n = (counter + j) mod n) as Hmod.
  { apply (f_equal (λ ip, byte_val <$> (ip ≫= last))) in Heq. unfold IPv4 in Heq. cbn in Heq.
    injection Heq as Heq. change 255 with (Z.ones 8) in Heq. rewrite !Z.land_ones, !byte_val_of_Z in Heq by lia.
    change (2 ^ 8) with 256 in Heq. rewrite !Z.mod_mod in Heq by lia.
    by rewrite !(Z.mod_small (_ mod n) 256) in Heq by lia. }
  assert ((i - j) mod n = 0) as Hz.
  { replace (i - j) with ((counter + i) - (counter + j)) by lia.
    by rewrite Zminus_mod, Hmod, Z.sub_diag, Zmod_0_l. }
  apply Z.mod_divide in Hz as [q Hq]; [|lia]. destruct (decide (q = 0)) as [->|]; [lia|]. nia.
Qed.

Lemma rotation_witness :
  ∃ pool rrs counter', make_pool 3 = Some pool ∧
    handler pool 60 [("a.test.", TypeA); ("a.test.", TypeAAAA); ("b.test.", TypeA)] 0
      = Some (rrs, counter') ∧ NoDup (answered_ips rrs).
Proof.
  destruct (make_pool 3) as [pool|] eqn:Hp; [|discriminate].
  destruct (rotation 3 pool 60 [("a.test.", TypeA); ("a.test.", TypeAAAA); ("b.test.", TypeA)] 0 Hp)
    as (rrs & c & Hh & _ & _ & _ & Hnd); [reflexivity|].
  exists pool, rrs, c. split; [reflexivity|]. split; [exact Hh|].
  apply Hnd; [lia|vm_compute; discriminate|lia|lia].
Defined.

(** An empty pool panics on the first A question; the flag is not checked. *)
Example empty_pool : ∃ pool, make_pool 0 = Some pool ∧ handler pool 60 [("a.test.", TypeA)] 0 = None.
Proof. eexists. by split. Qed.
