(* ===== verification/GoFloat.v ===== *)
(** * Go's [float64], as far as [Duration.Seconds] uses it

    A finite [float64] is an integer [mant] times [2 ^ expo]. The operations are
    the exact rational result rounded to 53 significant bits, to nearest and to
    even on a tie, as IEEE 754 defines them. The exponent is unbounded: the
    values of [Seconds] lie between [1e-9] and [2 ^ 34] in magnitude, where
    neither overflow nor a subnormal can occur. Converting a float outside the
    target's range to an integer is implementation-specific in Go: a parameter.
    Standard library and language: no source lines. *)

From Stdlib Require Import Floats.SpecFloat.
From S2P Require Import Prelude GoBytes.
#[local] Open Scope Z_scope.

Record f64 := mkF64 { mant : Z; expo : Z }.

(** [n / d / 2 ^ e] as one fraction. *)
Definition scale_num (n e : Z) : Z := n * 2 ^ Z.max 0 (- e).
Definition scale_den (d e : Z) : Z := d * 2 ^ Z.max 0 e.

(** The integer nearest to [n / d], the even one on a tie. *)
Definition nearest_even (n d : Z) : Z :=
  let q := n / d in
  let r := n mod d in
  if 2 * r <? d then q else if d <? 2 * r then q + 1 else if Z.even q then q else q + 1.

(** The [l] with [2 ^ l <= n / d < 2 ^ (l + 1)]. *)
Definition log2_quot (n d : Z) : Z :=
  let l := Z.log2 n - Z.log2 d in
  if scale_den d l <=? scale_num n l then l else l - 1.

(** The float nearest to [n / d], for [0 < d]. *)
Definition round (n d : Z) : f64 :=
  if n =? 0 then mkF64 0 0
  else
    let e := log2_quot (Z.abs n) d - 52 in
    mkF64 (Z.sgn n * nearest_even (scale_num (Z.abs n) e) (scale_den d e)) e.

(** [float64(n)] *)
Definition f64_of_Z (n : Z) : f64 := round n 1.

(** [x / y], for a positive [y]. *)
Definition f64_div (x y : f64) : f64 :=
  round (scale_num (mant x) (expo y - expo x)) (scale_den (mant y) (expo y - expo x)).

(** [x + y] *)
Definition f64_add (x y : f64) : f64 :=
  let e := Z.min (expo x) (expo y) in
  round (scale_num (mant x * 2 ^ (expo x - e) + mant y * 2 ^ (expo y - e)) (- e)) (scale_den 1 (- e)).

(** A float without its fraction. *)
Definition f64_trunc (x : f64) : Z := Z.quot (scale_num (mant x) (- expo x)) (scale_den 1 (- expo x)).

(** [d.Seconds()]: [float64(d / Second) + float64(d % Second) / 1e9]. *)
Definition Seconds (d : Z) : f64 :=
  f64_add (f64_of_Z (Z.quot d Second)) (f64_div (f64_of_Z (Z.rem d Second)) (f64_of_Z 1000000000)).

(** What the platform makes of [uint32(x)] when [x] does not fit. *)
Class Uint32Overflow := uint32_overflow : Z → Z.

(** [uint32(x)] *)
Definition f64_uint32 {o : Uint32Overflow} (x : f64) : Z :=
  let n := f64_trunc x in
  if (0 <=? n) && (n <? 2 ^ 32) then n else uint32_overflow n mod 2 ^ 32.

(** ** The operations against the Standard Library's IEEE 754 floats *)

Definition spec_float_of (x : f64) : spec_float := binary_normalize 53 1024 (mant x) (expo x) false.
Definition spec_Seconds (d : Z) : spec_float :=
  let of_Z n := binary_normalize 53 1024 n 0 false in
  SFadd 53 1024 (of_Z (Z.quot d Second)) (SFdiv 53 1024 (of_Z (Z.rem d Second)) (of_Z 1000000000)).

Definition sample_durations : list Z :=
  [0; 1; 2; 3; 999999999; Second; Second + 1; 3 * Second `div` 2; 86400 * Second - 1; 604800 * Second;
   2 ^ 23 * Second - 1; 2 ^ 24 * Second - 1; 123456789 * Second + 987654321; 2 ^ 62 + 12345; maxDuration;
   -1; - (5 * Second) - 7].

Example Seconds_is_ieee : Forall (λ d, spec_float_of (Seconds d) = spec_Seconds d) sample_durations.
Proof. unfold sample_durations. repeat constructor; vm_compute; reflexivity. Qed.

(** ** Rounding and integers *)

Lemma nearest_even_range n d k : 0 < d →
  (k * d ≤ n → k ≤ nearest_even n d) ∧ (n ≤ k * d → nearest_even n d ≤ k).
Proof.
  intros Hd. unfold nearest_even.
  pose proof (Z.div_mod n d ltac:(lia)) as Hq. pose proof (Z.mod_pos_bound n d Hd) as Hr.
  set (q := n / d) in *. set (r := n mod d) in *. clearbody q r.
  assert (k * d ≤ n → k ≤ q) by (intros; destruct (Z.le_gt_cases k q); [done|nia]).
  assert (n ≤ k * d → q ≤ k) by (intros; destruct (Z.le_gt_cases q k); [done|nia]).
  assert (n ≤ k * d → 0 < r → q + 1 ≤ k) by (intros; destruct (Z.le_gt_cases (q + 1) k); [done|];
    assert (d * k ≤ d * q) by (apply Z.mul_le_mono_nonneg_l; lia); lia).
  clear Hq. repeat case_match; bool_to_prop; lia.
Qed.

Lemma scale_den_pos d e : 0 < d → 0 < scale_den d e.
Proof. intros. unfold scale_den. pose proof (Z.pow_pos_nonneg 2 (Z.max 0 e)). lia. Qed.

(** Comparing [n / d] with [k * 2 ^ l], before and after scaling by [e]. *)
Lemma scale_cmp n d k e l : e ≤ l →
  (scale_num n e < k * 2 ^ (l - e) * scale_den d e ↔ scale_num n l < k * scale_den d l) ∧
  (scale_num n e ≤ k * 2 ^ (l - e) * scale_den d e ↔ scale_num n l ≤ k * scale_den d l) ∧
  (k * 2 ^ (l - e) * scale_den d e ≤ scale_num n e ↔ k * scale_den d l ≤ scale_num n l).
Proof.
  intros Hel.
  assert (∃ c c', 0 < c ∧ 0 < c' ∧ scale_num n e * c = scale_num n l * c' ∧
    k * 2 ^ (l - e) * scale_den d e * c = k * scale_den d l * c') as (c & c' & Hc & Hc' & Hn & Hm).
  { exists (2 ^ Z.max 0 (- l)), (2 ^ Z.max 0 (- e)).
    split; [apply Z.pow_pos_nonneg; lia|]. split; [apply Z.pow_pos_nonneg; lia|].
    unfold scale_num, scale_den. split; [ring|].
    assert (2 ^ (l - e) * 2 ^ Z.max 0 e * 2 ^ Z.max 0 (- l) = 2 ^ Z.max 0 l * 2 ^ Z.max 0 (- e)) as Hp
      by (rewrite <-!Z.pow_add_r by lia; f_equal; lia).
    transitivity (k * d * (2 ^ (l - e) * 2 ^ Z.max 0 e * 2 ^ Z.max 0 (- l))); [ring|].
    rewrite Hp. ring. }
  set (a := scale_num n e) in *. set (b := k * 2 ^ (l - e) * scale_den d e) in *.
  set (a' := scale_num n l) in *. set (b' := k * scale_den d l) in *. clearbody a b a' b'.
  rewrite (Z.mul_lt_mono_pos_r c a b), (Z.mul_le_mono_pos_r b a c), (Z.mul_le_mono_pos_r a b c), Hn, Hm
    by done.
  by rewrite <-Z.mul_lt_mono_pos_r, <-!Z.mul_le_mono_pos_r.
Qed.

Lemma log2_scale n d : 0 < n → 0 < d →
  (∀ l, l ≤ Z.log2 n - Z.log2 d - 1 → scale_den d l ≤ scale_num n l) ∧
  (∀ l, Z.log2 n - Z.log2 d + 1 ≤ l → scale_num n l < scale_den d l).
Proof.
  intros Hn Hd. unfold scale_num, scale_den.
  pose proof (Z.log2_spec n Hn) as [Hn1 Hn2]. pose proof (Z.log2_spec d Hd) as [Hd1 Hd2].
  pose proof (Z.log2_nonneg n). pose proof (Z.log2_nonneg d).
  split; intros l Hl.
  - assert (2 ^ (Z.succ (Z.log2 d)) * 2 ^ Z.max 0 l ≤ 2 ^ Z.log2 n * 2 ^ Z.max 0 (- l)) as Hp
      by (rewrite <-!Z.pow_add_r by lia; apply Z.pow_le_mono_r; lia).
    pose proof (Z.pow_pos_nonneg 2 (Z.max 0 l)). pose proof (Z.pow_pos_nonneg 2 (Z.max 0 (- l))). nia.
  - assert (2 ^ (Z.succ (Z.log2 n)) * 2 ^ Z.max 0 (- l) ≤ 2 ^ Z.log2 d * 2 ^ Z.max 0 l) as Hp
      by (rewrite <-!Z.pow_add_r by lia; apply Z.pow_le_mono_r; lia).
    pose proof (Z.pow_pos_nonneg 2 (Z.max 0 l)). pose proof (Z.pow_pos_nonneg 2 (Z.max 0 (- l))). nia.
Qed.

(** The scaled mantissa has 53 bits. *)
Lemma log2_quot_spec n d (e := log2_quot n d - 52) : 0 < n → 0 < d →
  2 ^ 52 * scale_den d e ≤ scale_num n e < 2 ^ 53 * scale_den d e.
Proof.
  intros Hn Hd.
  assert (scale_den d (log2_quot n d) ≤ scale_num n (log2_quot n d) ∧
          scale_num n (log2_quot n d + 1) < scale_den d (log2_quot n d + 1)) as [H1 H2].
  { pose proof (log2_scale n d Hn Hd) as [Hlo Hhi]. unfold log2_quot. case_match eqn:E; bool_to_prop.
    - split; [done|]. apply Hhi. lia.
    - split; [apply Hlo; lia|]. by rewrite Z.sub_add. }
  split.
  - rewrite <-(Z.mul_1_l (scale_den _ _)) in H1. apply (scale_cmp n d 1 e (log2_quot n d)) in H1; [|lia].
    by replace (log2_quot n d - e) with 52 in H1 by lia.
  - rewrite <-(Z.mul_1_l (scale_den _ _)) in H2. apply (scale_cmp n d 1 e (log2_quot n d + 1)) in H2; [|lia].
    by replace (log2_quot n d + 1 - e) with 53 in H2 by lia.
Qed.

Lemma round_pos n d (e := log2_quot n d - 52) : 0 < n →
  round n d = mkF64 (nearest_even (scale_num n e) (scale_den d e)) e.
Proof.
  intros Hn. unfold round. rewrite (proj2 (Z.eqb_neq n 0)) by lia.
  rewrite Z.sgn_pos, Z.abs_eq by lia. by rewrite Z.mul_1_l.
Qed.

(** Rounding does not cross a number [k * 2 ^ f] of at most 53 bits. *)
Lemma round_le n d k f : 0 < n → 0 < d → k < 2 ^ 53 →
  scale_num n f ≤ k * scale_den d f →
  expo (round n d) ≤ f ∧ mant (round n d) ≤ k * 2 ^ (f - expo (round n d)).
Proof.
  intros Hn Hd Hk Hle. rewrite round_pos by done. cbn.
  pose proof (log2_quot_spec n d Hn Hd) as [Hlo _]. set (e := log2_quot n d - 52) in *. clearbody e.
  assert (e ≤ f) as Hef.
  { destruct (Z.le_gt_cases e f) as [|Hfe]; [done|].
    apply (scale_cmp n d (2 ^ 52) f e) in Hlo; [|lia].
    pose proof (Z.pow_le_mono_r 2 1 (e - f) ltac:(lia) ltac:(lia)).
    assert (2 ^ 52 * 2 ^ (e - f) ≤ k)
      by (apply (Z.mul_le_mono_pos_r _ _ (scale_den d f)); [by apply scale_den_pos|lia]).
    lia. }
  split; [done|]. apply nearest_even_range; [by apply scale_den_pos|]. by apply scale_cmp.
Qed.

Lemma round_ge n d k f : 0 < n → 0 < d → k * scale_den d f ≤ scale_num n f →
  expo (round n d) ≤ f → k * 2 ^ (f - expo (round n d)) ≤ mant (round n d).
Proof.
  intros Hn Hd Hle. rewrite round_pos by done. cbn. intros Hef.
  apply nearest_even_range; [by apply scale_den_pos|]. by apply scale_cmp.
Qed.

(** Small integers are exact. *)
Lemma f64_of_Z_exact n : 0 ≤ n < 2 ^ 53 →
  expo (f64_of_Z n) ≤ 0 ∧ mant (f64_of_Z n) = n * 2 ^ (- expo (f64_of_Z n)).
Proof.
  intros Hn. destruct (decide (n = 0)) as [->|]; [done|].
  destruct (round_le n 1 n 0) as [He Hle]; [lia|lia|lia|change (n * 1 ≤ n * (1 * 1)); lia|].
  pose proof (round_ge n 1 n 0 ltac:(lia) ltac:(lia)) as Hge.
  specialize (Hge ltac:(change (n * (1 * 1) ≤ n * 1); lia) He).
  fold (f64_of_Z n) in *. rewrite Z.sub_0_l in *. lia.
Qed.

(** The truncation of a float between an integer and the next one. *)
Lemma f64_trunc_between x s : 0 ≤ s → expo x ≤ 0 →
  s * 2 ^ (- expo x) ≤ mant x < (s + 1) * 2 ^ (- expo x) → f64_trunc x = s.
Proof.
  intros Hs He Hx. unfold f64_trunc, scale_num, scale_den.
  rewrite Z.opp_involutive, (Z.max_l 0 (expo x)), (Z.max_r 0 (- expo x)), Z.pow_0_r, Z.mul_1_r, Z.mul_1_l by done || lia.
  pose proof (Z.pow_pos_nonneg 2 (- expo x) ltac:(lia) ltac:(lia)).
  rewrite Z.quot_div_nonneg by nia. symmetry. apply (Z.div_unique _ _ _ (mant x - s * 2 ^ (- expo x))); lia.
Qed.

(** ** Whole seconds and small durations *)

(** [float64(x) + y], for a [y] that is 0 or has more fraction bits than 30. *)
Lemma f64_add_bounds s y lo hi f : 0 ≤ lo → 0 ≤ s < 2 ^ 53 → hi < 2 ^ 53 → f ≤ 0 →
  expo y ≤ 0 → 0 ≤ mant y → 0 < s ∨ 0 < mant y →
  lo * 2 ^ (- expo y) ≤ s * 2 ^ (- expo y) + mant y →
  s * 2 ^ (- f) * 2 ^ (- expo y) + mant y * 2 ^ (- f) ≤ hi * 2 ^ (- expo y) →
  let x := f64_add (f64_of_Z s) y in
  expo x ≤ f ∧ lo * 2 ^ (- expo x) ≤ mant x ≤ hi * 2 ^ (f - expo x).
Proof.
  intros Hlo Hs Hhi Hf He Hy Hpos Hge Hle x. destruct (f64_of_Z_exact s Hs) as [Ha Hm].
  set (a := expo (f64_of_Z s)) in *. set (e := Z.min a (expo y)).
  assert (x = round (s * 2 ^ (- e) + mant y * 2 ^ (expo y - e)) (2 ^ (- e))) as ->.
  { unfold x, f64_add, scale_num, scale_den. fold a. fold e.
    rewrite Z.opp_involutive, (Z.max_l 0 e), (Z.max_r 0 (- e)) by lia.
    rewrite Z.pow_0_r, Z.mul_1_r, Z.mul_1_l, Hm, <-Z.mul_assoc, <-Z.pow_add_r by lia.
    by replace (- a + (a - e)) with (- e) by lia. }
  assert (2 ^ (- e) = 2 ^ (- expo y) * 2 ^ (expo y - e)) as Hsplit
    by (rewrite <-Z.pow_add_r by lia; f_equal; lia).
  pose proof (Z.pow_pos_nonneg 2 (- e) ltac:(lia) ltac:(lia)) as Hd.
  pose proof (Z.pow_pos_nonneg 2 (expo y - e) ltac:(lia) ltac:(lia)) as Hk.
  set (n := s * 2 ^ (- e) + mant y * 2 ^ (expo y - e)).
  assert (0 < n) as Hn by (unfold n; nia).
  destruct (round_le n (2 ^ (- e)) hi f Hn Hd Hhi) as [Hex Hup].
  { unfold scale_num, scale_den, n. rewrite Z.max_r, (Z.max_l 0 f), Z.pow_0_r by lia.
    rewrite Z.mul_1_r, Hsplit.
    pose proof (Z.mul_le_mono_nonneg_r _ _ (2 ^ (expo y - e)) ltac:(lia) Hle). lia. }
  split; [done|]. split; [|done].
  rewrite <-(Z.sub_0_l (expo _)). apply round_ge; [done|done| |lia].
  unfold scale_num, scale_den, n. cbn [Z.max Z.opp Z.compare]. rewrite Z.pow_0_r, !Z.mul_1_r, Hsplit.
  pose proof (Z.mul_le_mono_nonneg_r _ _ (2 ^ (expo y - e)) ltac:(lia) Hge). lia.
Qed.

(** The fraction of a second is below the next second by more than rounding. *)
Lemma fraction_bounds ns : 0 < ns < Second →
  let y := f64_div (f64_of_Z ns) (f64_of_Z 1000000000) in
  expo y ≤ -30 ∧ 0 < mant y ≤ (2 ^ 30 - 1) * 2 ^ (- 30 - expo y).
Proof.
  intros Hns y. unfold Second in Hns. destruct (f64_of_Z_exact ns ltac:(lia)) as [He Hm].
  set (a := expo (f64_of_Z ns)) in *.
  assert (a ≤ -23) as Ha.
  { unfold a, f64_of_Z. rewrite round_pos by lia. cbn. unfold log2_quot.
    pose proof (Z.log2_le_mono ns 999999999 ltac:(lia)) as Hlog. change (Z.log2 999999999) with 29 in Hlog.
    change (Z.log2 1) with 0. case_match; lia. }
  assert (y = round (ns * 2 ^ (- a)) (1000000000 * 2 ^ (- a))) as ->.
  { unfold y, f64_div. change (f64_of_Z 1000000000) with (mkF64 (1000000000 * 2 ^ 23) (-23)). cbn [mant expo].
    fold a. unfold scale_num, scale_den.
    rewrite (Z.max_l 0 (- (-23 - a))), (Z.max_r 0 (-23 - a)), Z.pow_0_r, Z.mul_1_r, Hm by lia.
    rewrite <-Z.mul_assoc, <-Z.pow_add_r by lia. do 3 f_equal. lia. }
  pose proof (Z.pow_pos_nonneg 2 (- a) ltac:(lia) ltac:(lia)) as Hd.
  destruct (round_le (ns * 2 ^ (- a)) (1000000000 * 2 ^ (- a)) (2 ^ 30 - 1) (-30)) as [Hex Hup]; [lia..| |].
  { unfold scale_num, scale_den. change (2 ^ Z.max 0 (- -30)) with (2 ^ 30). change (2 ^ Z.max 0 (-30)) with 1. nia. }
  split; [done|]. split; [|done].
  pose proof (round_ge (ns * 2 ^ (- a)) (1000000000 * 2 ^ (- a)) 1 (-30) ltac:(lia) ltac:(lia)) as Hlow.
  rewrite !Z.mul_1_l in Hlow. eapply Z.lt_le_trans; [|apply Hlow; [|done]].
  - apply Z.pow_pos_nonneg; lia.
  - unfold scale_num, scale_den. change (2 ^ Z.max 0 (- -30)) with (2 ^ 30).
    change (2 ^ Z.max 0 (-30)) with 1. nia.
Qed.

Lemma Seconds_split s ns : 0 ≤ s → 0 ≤ ns < Second →
  Seconds (s * Second + ns) = f64_add (f64_of_Z s) (f64_div (f64_of_Z ns) (f64_of_Z 1000000000)).
Proof.
  intros Hs Hns. unfold Seconds, Second in *.
  rewrite Z.quot_div_nonneg, Z.rem_mod_nonneg by lia.
  rewrite Z.div_add_l, Z.div_small, Z.add_0_r by lia.
  by rewrite Z.add_comm, Z.mod_add, Z.mod_small by lia.
Qed.

(** Whole seconds are exact at any size a [uint32] can hold, and beyond. *)
Lemma Seconds_whole s : 0 ≤ s < 2 ^ 53 → f64_trunc (Seconds (s * Second)) = s.
Proof.
  intros Hs. rewrite <-(Z.add_0_r (s * Second)), Seconds_split by (unfold Second; lia).
  change (f64_div (f64_of_Z 0) (f64_of_Z 1000000000)) with (mkF64 0 0).
  destruct (decide (s = 0)) as [->|]; [done|].
  destruct (f64_add_bounds s (mkF64 0 0) s s 0) as [He Hb]; cbn [mant expo]; [lia..|].
  set (x := f64_add _ _) in *. change (0 - expo x) with (- expo x) in Hb.
  pose proof (Z.pow_pos_nonneg 2 (- expo x) ltac:(lia) ltac:(lia)).
  apply f64_trunc_between; lia.
Qed.

(** Below [2 ^ 23] seconds (97 days) the fraction is cut, never rounded up. *)
Lemma Seconds_floor d : 0 ≤ d < 2 ^ 23 * Second → f64_trunc (Seconds d) = d / Second.
Proof.
  intros Hd. pose proof (Z.div_mod d Second ltac:(done)) as Hdm.
  pose proof (Z.mod_pos_bound d Second ltac:(done)) as Hns.
  assert (0 ≤ d / Second < 2 ^ 23) as Hs.
  { split; [apply Z.div_pos; unfold Second in *; lia|]. apply Z.div_lt_upper_bound; unfold Second in *; lia. }
  destruct (decide (d mod Second = 0)) as [Hz|Hz].
  { rewrite Hz, Z.add_0_r, Z.mul_comm in Hdm. rewrite Hdm at 1. apply Seconds_whole. lia. }
  rewrite Hdm at 1. rewrite Z.mul_comm, Seconds_split by lia.
  set (s := d / Second) in *. set (ns := d mod Second) in *.
  destruct (fraction_bounds ns ltac:(lia)) as (Hy & Hm0 & Hm1).
  set (y := f64_div _ _) in *.
  assert (2 ^ (- expo y) = 2 ^ 30 * 2 ^ (-30 - expo y)) as Hp by (rewrite <-Z.pow_add_r by lia; f_equal; lia).
  pose proof (Z.pow_pos_nonneg 2 (-30 - expo y) ltac:(lia) ltac:(lia)) as Hpos.
  destruct (f64_add_bounds s y s ((s + 1) * 2 ^ 30 - 1) (-30)) as [He Hb]; [lia..| |].
  { rewrite Hp. change (- -30) with 30. nia. }
  set (x := f64_add (f64_of_Z s) y) in *.
  assert (2 ^ (- expo x) = 2 ^ 30 * 2 ^ (-30 - expo x)) as Hpx by (rewrite <-Z.pow_add_r by lia; f_equal; lia).
  pose proof (Z.pow_pos_nonneg 2 (-30 - expo x) ltac:(lia) ltac:(lia)) as Hposx.
  apply f64_trunc_between; [lia..|]. nia.
Qed.

(** Far above that bound (388 days) the fraction can round up to the next second. *)
Example Seconds_rounds_up : f64_trunc (Seconds (2 ^ 25 * Second - 1)) = 2 ^ 25.
Proof. vm_compute. reflexivity. Qed.
