(* ===== verification/Ipset.v ===== *)
(** * The ipset client ([internal/ipset/client.go])

    The interface [Client] the pipeline writes through, the clamp of a TTL, and
    [Netlink], the implementation that talks to the kernel. The kernel call and
    the clock are a parameter ([Kernel]). An error value is used only through
    its text, so it is modelled by it; nil is [None]. *)

From Stdlib Require Import Sorted.
From stdpp Require Import sorting.
From S2P Require Import Prelude GoBytes GoFloat GoUnicode GoStrings GoNet.
#[local] Open Scope Z_scope.

(** ** The interface *)

Class Client (C : Type) := {
  client_Add : string → IP → Z → C → option string * C;
  client_Close : C → option string * C;
}.

(** ** Clamping *)

Definition ClampTTL (ttl min max : Z) : Z :=
  if ttl <=? 0 then min
  else if ttl <? min then min
  else if max <? ttl then max
  else ttl.

(** ** The netlink client *)

(** [netlink.IPSetEntry], the fields the client sets. *)
Record IPSetEntry := mkEntry {
  entry_IP : IP;
  entry_Timeout : Z;
  entry_Replace : bool;
}.

(** [netlink.IpsetAdd] and the monotonic clock, on the state [W] of the world
    outside the program. *)
Class Kernel (W : Type) := {
  IpsetAdd : string → IPSetEntry → W → option string * W;
  Now : W → Z * W;
}.

(** The mutex is not a field: it makes [rateLimitedMissLog] one atomic step. *)
Record Netlink (W : Type) := mkNetlink {
  missLog : gmap string Z;
  logMissFn : option (string → W → W);
}.
Arguments mkNetlink {W} _ _.
Arguments missLog {W} _.
Arguments logMissFn {W} _.

Definition NewNetlink {W} (logMissing : option (string → W → W)) : Netlink W :=
  mkNetlink ∅ logMissing.

Definition isMissingSet (err : option string) : bool :=
  match err with
  | None => false
  | Some s => Contains s "does not exist" || Contains s "no such"
  end.

Inductive add_error :=
| EmptySetOrNilIP
| SetMissing (set cause : string)
| AddFailed (set : string) (ip : IP) (cause : string).

#[global] Instance add_error_eq_dec : EqDecision add_error.
Proof. solve_decision. Defined.

Definition add_error_string {print : PrintTable} (e : add_error) : string :=
  match e with
  | EmptySetOrNilIP => "empty set or nil ip"
  | SetMissing set cause => "ipset " +:+ Quote set +:+ " missing: " +:+ cause
  | AddFailed set ip cause => "ipset add " +:+ set +:+ " " +:+ IP_String ip +:+ ": " +:+ cause
  end.

Section netlink.
Context {W : Type} {kernel : Kernel W} {overflow : Uint32Overflow}.

(** The body under the mutex; [now] is the reading of the clock it takes. *)
Definition miss_log_at (set : string) (now : Z) (f : string → W → W)
    (s : Netlink W * W) : Netlink W * W :=
  let '(n, w) := s in
  let log := (mkNetlink (<[set := now]> (missLog n)) (logMissFn n), f set w) in
  match missLog n !! set with
  | Some last => if Sub now last <? Minute then (n, w) else log
  | None => log
  end.

Definition rateLimitedMissLog (set : string) (s : Netlink W * W) : Netlink W * W :=
  let '(n, w) := s in
  match logMissFn n with
  | None => (n, w)
  | Some f => let '(now, w) := Now w in miss_log_at set now f (n, w)
  end.

Definition Add (set : string) (ip : IP) (ttl : Z) (s : Netlink W * W)
    : option add_error * (Netlink W * W) :=
  let '(n, w) := s in
  if bool_decide (set = "") || bool_decide (ip = None) then (Some EmptySetOrNilIP, s)
  else
    let timeout := f64_uint32 (Seconds ttl) in
    let entry := mkEntry ip timeout true in
    match IpsetAdd set entry w with
    | (Some err, w) =>
      if isMissingSet (Some err)
      then (Some (SetMissing set err), rateLimitedMissLog set (n, w))
      else (Some (AddFailed set ip err), (n, w))
    | (None, w) => (None, (n, w))
    end.

Definition Close (s : Netlink W * W) : option string * (Netlink W * W) := (None, s).

(** [Netlink] implements [Client]; an error is seen through its text. *)
#[global] Instance Netlink_Client {print : PrintTable} : Client (Netlink W * W) := {
  client_Add set ip ttl s := let '(err, s) := Add set ip ttl s in (add_error_string <$> err, s);
  client_Close := Close;
}.

End netlink.

(** ** Lemmas *)

Lemma ClampTTL_clamp ttl min max : 0 ≤ min ≤ max → ClampTTL ttl min max = Z.max min (Z.min max ttl).
Proof. unfold ClampTTL. intros. solve_cmp. Qed.

Section timeout.
Context {overflow : Uint32Overflow}.

(** The seconds the kernel is told. *)
Lemma timeout_floor ttl : 0 ≤ ttl < 2 ^ 23 * Second → f64_uint32 (Seconds ttl) = ttl / Second.
Proof.
  intros Ht. unfold f64_uint32. rewrite Seconds_floor by done.
  assert (0 ≤ ttl / Second < 2 ^ 23).
  { split; [apply Z.div_pos; unfold Second in *; lia|].
    apply Z.div_lt_upper_bound; unfold Second in *; lia. }
  solve_cmp.
Qed.

Lemma timeout_whole s : 0 ≤ s < 2 ^ 32 → f64_uint32 (Seconds (s * Second)) = s.
Proof. intros Hs. unfold f64_uint32. rewrite Seconds_whole by lia. solve_cmp. Qed.

End timeout.

(** ** The log of missing sets *)

(** The times of a set in a trace of [(set, time)] pairs. *)
Definition times_of (set : string) (l : list (string * Z)) : list Z :=
  omap (λ e, if decide (e.1 = set) then Some e.2 else None) l.

Lemma times_of_cons set e l :
  times_of set (e :: l) = if decide (e.1 = set) then e.2 :: times_of set l else times_of set l.
Proof. unfold times_of. cbn. by case_decide. Qed.

Lemma elem_of_times_of set t l : t ∈ times_of set l ↔ (set, t) ∈ l.
Proof.
  unfold times_of. rewrite list_elem_of_omap. split.
  - intros ([s u] & Hin & Heq). case_decide; simplify_eq/=. done.
  - intros Hin. exists (set, t). split; [done|]. by rewrite decide_True.
Qed.

#[local] Arguments times_of : simpl never.

Section miss_log.
Context {W : Type}.
Implicit Types (n : Netlink W) (w : W).

(** The calls of [rateLimitedMissLog], in the order the mutex lets them in,
    each with its reading of the clock. *)
Definition miss_log_all (f : string → W → W) (calls : list (string * Z))
    (s : Netlink W * W) : Netlink W * W :=
  foldl (λ s c, miss_log_at c.1 c.2 f s) s calls.

(** [log], newest first, is what has been logged after [calls]. *)
Record logged (f : string → W → W) (w0 : W) (calls log : list (string * Z))
    (s : Netlink W * W) : Prop := {
  logged_world : s.2 = foldr (λ e w, f e.1 w) w0 log;
  logged_last : ∀ set, missLog s.1 !! set = head (times_of set log);
  logged_from : log `sublist_of` reverse calls;
  logged_spaced : ∀ set, Sorted (λ t2 t1, t1 + Minute ≤ t2) (times_of set log);
  logged_covers : ∀ set t, (set, t) ∈ calls → ∃ t0, (set, t0) ∈ log ∧ t0 ≤ t < t0 + Minute;
}.

Lemma logged_skip f w0 calls log s set now last :
  logged f w0 calls log s → head (times_of set log) = Some last → last ≤ now < last + Minute →
  logged f w0 (calls ++ [(set, now)]) log s.
Proof.
  intros [Hw Hlast Hfrom Hsp Hcov] Hhd Hnow. split; [done|done| |done|].
  - rewrite reverse_snoc. by apply sublist_cons.
  - intros set' t [?|[= -> ->]%list_elem_of_singleton]%elem_of_app; [by apply Hcov|].
    exists last. split; [|lia]. apply elem_of_times_of. by apply head_Some_elem_of.
Qed.

Lemma logged_add f w0 calls log n w set now :
  logged f w0 calls log (n, w) →
  (∀ last, head (times_of set log) = Some last → last + Minute ≤ now) →
  logged f w0 (calls ++ [(set, now)]) ((set, now) :: log)
    (mkNetlink (<[set := now]> (missLog n)) (logMissFn n), f set w).
Proof.
  intros [Hw Hlast Hfrom Hsp Hcov] Hhd. cbn in *. split; cbn.
  - by rewrite Hw.
  - intros set'. rewrite times_of_cons, lookup_insert. cbn. by case_decide.
  - rewrite reverse_snoc. by apply sublist_skip.
  - intros set'. rewrite times_of_cons. cbn. case_decide as Hs; [subst|done].
    constructor; [done|]. destruct (times_of set' log); constructor. by apply Hhd.
  - intros set' t [Hin|[= -> ->]%list_elem_of_singleton]%elem_of_app.
    + destruct (Hcov _ _ Hin) as (t0 & ? & ?). exists t0. split; [by right|done].
    + exists now. split; [by left|]. unfold Minute, Second. lia.
Qed.

Lemma logged_step f w0 calls log s set now :
  logged f w0 calls log s → (∀ t, t ∈ calls.*2 → t ≤ now) →
  ∃ log', logged f w0 (calls ++ [(set, now)]) log' (miss_log_at set now f s).
Proof.
  destruct s as [n w]. intros Hl Hnow. pose proof Hl as [_ Hlast Hfrom _ _]. cbn in *.
  rewrite Hlast. destruct (head (times_of set log)) as [last|] eqn:Hhd.
  - assert (last ≤ now) as Hbefore.
    { apply Hnow, list_elem_of_fmap. exists (set, last). split; [done|].
      apply elem_of_reverse. eapply elem_of_sublist; [|done].
      apply elem_of_times_of. by apply head_Some_elem_of. }
    destruct (Z.ltb_spec (Sub now last) Minute) as [Hlt|Hge].
    + apply Sub_lt in Hlt; [|done]. exists log. eapply logged_skip; [done..|lia].
    + eexists. apply logged_add; [done|]. intros l0 Hl0. rewrite Hhd in Hl0. injection Hl0 as <-.
      assert (¬ Sub now last < Minute) as Hn by lia. rewrite Sub_lt in Hn by done. lia.
  - eexists. apply logged_add; [done|]. congruence.
Qed.

Lemma logged_all f calls n w :
  missLog n = ∅ → Sorted Z.le calls.*2 →
  ∃ log, logged f w calls log (miss_log_all f calls (n, w)).
Proof.
  intros Hn. induction calls as [|[set now] calls IH] using rev_ind; intros Hs.
  { exists []. split; cbn; [done|intros set; by rewrite Hn|done|by constructor|].
    by intros set t ?%not_elem_of_nil. }
  rewrite fmap_app in Hs. apply Sorted_StronglySorted in Hs; [|intros ???; lia].
  apply StronglySorted_app in Hs as (Hbefore & Hs & _).
  destruct IH as [log Hlog]; [by apply StronglySorted_Sorted|].
  unfold miss_log_all. rewrite foldl_snoc. eapply logged_step; [done|].
  intros t Ht. apply Hbefore; [done|]. by left.
Qed.

End miss_log.

(** ** Properties *)

(** A clamped TTL lies between its bounds whenever the bounds are ordered
    and not negative, is the TTL itself when that is positive and between them,
    and moves with the TTL; with bounds out of order the lower one still wins
    below itself and the upper one above, so the result is always one of the
    three durations. *)
Theorem ClampTTL_spec ttl min max :
  (0 ≤ min ≤ max →
    min ≤ ClampTTL ttl min max ≤ max ∧
    (min ≤ ttl ≤ max → 0 < ttl → ClampTTL ttl min max = ttl) ∧
    ∀ ttl', ttl ≤ ttl' → ClampTTL ttl min max ≤ ClampTTL ttl' min max) ∧
  (max < min → ClampTTL ttl min max = if ttl <? Z.max 1 min then min else max) ∧
  ClampTTL ttl min max ∈ [ttl; min; max].
Proof.
  split; [|split].
  - intros Hb. rewrite ClampTTL_clamp by done. split; [lia|]. split; [lia|].
    intros ttl' Hle. rewrite ClampTTL_clamp by done. lia.
  - unfold ClampTTL. intros Hlt. solve_cmp.
  - unfold ClampTTL. rewrite !elem_of_cons. repeat case_match; auto.
Qed.

Section properties.
Context {W : Type} {kernel : Kernel W} {overflow : Uint32Overflow}.

(** C26: adding an address for a DNS TTL of [t] seconds, clamped between bounds
    below [2 ^ 23] seconds, makes one kernel call whose timeout is the clamped
    TTL in whole seconds and lies between the bounds' whole seconds; it is 0,
    the kernel's timeout of a permanent entry, exactly when the clamped TTL is
    below one second. The floating-point detour loses nothing. *)
Theorem Add_timeout set ip t min max (n : Netlink W) (w : W) :
  set ≠ "" → ip ≠ None → 0 ≤ t → 0 ≤ min ≤ max → max < 2 ^ 23 * Second →
  let ttl := ClampTTL (t * Second) min max in
  let timeout := ttl / Second in
  Add set ip ttl (n, w) =
    match IpsetAdd set (mkEntry ip timeout true) w with
    | (None, w) => (None, (n, w))
    | (Some err, w) =>
      if isMissingSet (Some err)
      then (Some (SetMissing set err), rateLimitedMissLog set (n, w))
      else (Some (AddFailed set ip err), (n, w))
    end ∧
  min / Second ≤ timeout ≤ max / Second ∧
  (timeout = 0 ↔ ttl < Second) ∧
  (0 < t → min ≤ t * Second ≤ max → timeout = t).
Proof.
  intros Hset Hip Ht Hb Hmax ttl timeout.
  assert (ttl = Z.max min (Z.min max (t * Second))) as Httl by (by apply ClampTTL_clamp).
  assert (0 < Second) as HS by done.
  split; [|split; [|split]].
  - unfold Add. rewrite !bool_decide_eq_false_2 by done. cbn [orb].
    by rewrite timeout_floor by lia.
  - split; apply Z.div_le_mono; lia.
  - unfold timeout. rewrite Z.div_small_iff by lia. lia.
  - intros Hpos Hin. unfold timeout. rewrite Httl, Z.min_r, Z.max_r by lia. by apply Z.div_mul.
Qed.

(** C38: no error is dropped or made up: [Add] succeeds exactly when the set and
    the address are given and the kernel call succeeds; an empty set name or a
    nil address is refused without a kernel call and without a log line; the
    kernel's own text ends every other error, and only an error that speaks of
    a missing set reaches the rate-limited log. *)
Theorem Add_errors {print : PrintTable} set ip ttl (n : Netlink W) (w : W) :
  let call := IpsetAdd set (mkEntry ip (f64_uint32 (Seconds ttl)) true) w in
  let res := client_Add set ip ttl (n, w) in
  (res.1 = None ↔ set ≠ "" ∧ ip ≠ None ∧ call.1 = None) ∧
  (set = "" ∨ ip = None → res = (Some "empty set or nil ip", (n, w))) ∧
  (set ≠ "" → ip ≠ None → ∀ cause, call.1 = Some cause →
    ∃ pre, res.1 = Some (pre +:+ cause) ∧
      (isMissingSet (Some cause) = true →
        pre = "ipset " +:+ Quote set +:+ " missing: " ∧ res.2 = rateLimitedMissLog set (n, call.2)) ∧
      (isMissingSet (Some cause) = false →
        pre = "ipset add " +:+ set +:+ " " +:+ IP_String ip +:+ ": " ∧ res.2 = (n, call.2))).
Proof.
  intros call res. unfold res, call. cbn [client_Add Netlink_Client]. unfold Add.
  destruct (decide (set = "")) as [->|Hset]; [by split; [naive_solver|]|].
  destruct (decide (ip = None)) as [->|Hip].
  { rewrite (bool_decide_eq_false_2 _ Hset). by split; [naive_solver|]. }
  rewrite (bool_decide_eq_false_2 _ Hset), (bool_decide_eq_false_2 _ Hip). cbn [orb].
  destruct (IpsetAdd set _ w) as [[err|] w']; cbn [fst snd].
  2:{ split; [done|]. split; [naive_solver|done]. }
  split; [destruct (isMissingSet _); naive_solver|]. split; [naive_solver|].
  intros _ _ cause [= <-]. destruct (isMissingSet (Some err)); cbn.
  - exists ("ipset " +:+ Quote set +:+ " missing: "). split; [|done].
    cbn. by rewrite !string_app_assoc.
  - exists ("ipset add " +:+ set +:+ " " +:+ IP_String ip +:+ ": "). split; [|done].
    cbn. rewrite !string_app_assoc. cbn. by rewrite string_app_assoc.
Qed.

(** C39: the log of missing sets, for any calls of it in the order the mutex
    admits them: the lines written are some of the calls, two lines of one set
    are at least a minute apart, and every call is covered by a line of its own
    set less than a minute old, so neither a set nor another set's errors can
    silence it for longer. *)
Theorem miss_log_rate f calls (w : W) :
  Sorted Z.le calls.*2 →
  ∃ log, log `sublist_of` reverse calls ∧
    (miss_log_all f calls (NewNetlink (Some f), w)).2 = foldr (λ e w, f e.1 w) w log ∧
    (∀ set, Sorted (λ t2 t1, t1 + Minute ≤ t2) (times_of set log)) ∧
    (∀ set t, (set, t) ∈ calls → ∃ t0, (set, t0) ∈ log ∧ t0 ≤ t < t0 + Minute).
Proof.
  intros Hs. destruct (logged_all f calls (NewNetlink (Some f)) w eq_refl Hs) as [log [Hw _ ? ? ?]].
  by exists log.
Qed.

End properties.

(** ** Instances of the properties *)

(** A kernel with one set, a clock that advances a second per reading, and a
    record of what it was asked. *)
Record sample_world := mkSampleWorld {
  sw_clock : Z;
  sw_entries : list (string * IPSetEntry);
  sw_lines : list string;
}.

#[local] Instance sample_kernel : Kernel sample_world := {
  IpsetAdd set entry w :=
    if decide (set = "allow")
    then (None, mkSampleWorld (sw_clock w) (sw_entries w ++ [(set, entry)]) (sw_lines w))
    else (Some "no such file or directory", w);
  Now w := (sw_clock w, mkSampleWorld (sw_clock w + Second) (sw_entries w) (sw_lines w));
}.

Definition sample_log (set : string) (w : sample_world) : sample_world :=
  mkSampleWorld (sw_clock w) (sw_entries w) (sw_lines w ++ [set]).

#[local] Instance sample_overflow : Uint32Overflow := λ _, 0.
#[local] Instance sample_print : PrintTable := λ _, false.

Definition sample_client : Netlink sample_world * sample_world :=
  (NewNetlink (Some sample_log), mkSampleWorld 0 [] []).

Example Add_ex :
  let '(e1, s) := client_Add "allow" (IPv4 192 0 2 1) (90 * Second) sample_client in
  let '(e2, s) := client_Add "gone" (IPv4 192 0 2 1) (90 * Second) s in
  let '(e3, s) := client_Add "gone" (IPv4 192 0 2 1) (90 * Second) s in
  (e1, sw_entries s.2, sw_lines s.2) = (None, [("allow", mkEntry (IPv4 192 0 2 1) 90 true)], ["gone"]) ∧
  e2 = Some ("ipset " +:+ quote_mark +:+ "gone" +:+ quote_mark
             +:+ " missing: no such file or directory") ∧ e3 = e2.
Proof. vm_compute. done. Qed.

Lemma Add_timeout_witness :
  let ttl := ClampTTL (300 * Second) (60 * Second) (604800 * Second) in
  Add "allow" (IPv4 192 0 2 1) ttl sample_client =
    match IpsetAdd "allow" (mkEntry (IPv4 192 0 2 1) (ttl / Second) true) (sample_client.2) with
    | (None, w) => (None, (sample_client.1, w))
    | (Some err, w) =>
      if isMissingSet (Some err)
      then (Some (SetMissing "allow" err), rateLimitedMissLog "allow" (sample_client.1, w))
      else (Some (AddFailed "allow" (IPv4 192 0 2 1) err), (sample_client.1, w))
    end ∧ ttl / Second = 300.
Proof.
  destruct (Add_timeout "allow" (IPv4 192 0 2 1) 300 (60 * Second) (604800 * Second)
    sample_client.1 sample_client.2) as (Hadd & _ & _ & Ht); [done|done|lia|done|done|].
  split; [exact Hadd|]. apply Ht; unfold Second; lia.
Defined.

Lemma miss_log_rate_witness :
  ∃ log, log `sublist_of` [("b", 70 * Second); ("a", 65 * Second); ("b", 9 * Second); ("a", 0)] ∧
    (miss_log_all sample_log
       [("a", 0); ("b", 9 * Second); ("a", 65 * Second); ("b", 70 * Second)]
       (NewNetlink (Some sample_log), sample_client.2)).2
    = foldr (λ e w, sample_log e.1 w) sample_client.2 log.
Proof.
  destruct (miss_log_rate sample_log
    [("a", 0); ("b", 9 * Second); ("a", 65 * Second); ("b", 70 * Second)] sample_client.2)
    as (log & Hsub & Hw & _).
  - repeat constructor; done.
  - exists log. split; [exact Hsub|exact Hw].
Defined.
