(* ===== verification/Source.v ===== *)
(** * Event sources ([internal/source/source.go], [internal/source/fake/fake.go])

    The event type, the interface of a source as a labelled step relation, the
    laws the pipeline's termination relies on, and the replay source of the
    tests, which satisfies them. *)

From S2P Require Import Prelude GoBytes.
#[local] Open Scope Z_scope.

(** ** Data *)

(** [Direction] is a [uint8]; the two constants are [iota]. *)
Definition Direction : Type := Z.
Definition DirSend : Direction := 0.
Definition DirRecv : Direction := 1.

Record Event := mkEvent {
  NanoTS : Z;
  ev_Direction : Direction;
  ev_Family : Z;
  SrcPort : Z;
  DstPort : Z;
  Payload : list byte;
}.

#[global] Instance Event_eq_dec : EqDecision Event.
Proof. solve_decision. Defined.

(** ** The interface

    What the goroutine in [Source.Run] can do next: work of its own, complete
    the send of an event on [out], or return. [ctx] tells whether the context
    is done. A send also needs the channel to take the event: that side is the
    pipeline's. *)

Inductive src_label :=
| SrcTau
| SrcSend (e : Event)
| SrcReturn (err : option string).

Class Source (S : Type) := src_step : bool → S → src_label → S → Prop.

(** A source with finitely much to deliver: each of its steps uses some of it
    up, and once the context is done it never needs the channel to go on. *)
Class SourceLaws (S : Type) `{Source S} := {
  src_returned : S → Prop;
  src_measure : S → nat;
  src_step_decreases ctx s l s' : src_step ctx s l s' → (src_measure s' < src_measure s)%nat;
  src_step_returned ctx s l s' : src_step ctx s l s' → src_returned s' ↔ ∃ err, l = SrcReturn err;
  src_returned_stops ctx s l s' : src_returned s → ¬ src_step ctx s l s';
  src_canceled_progress s : ¬ src_returned s → ∃ l s', src_step true s l s' ∧ ∀ e, l ≠ SrcSend e;
}.

(** ** Runs of a source *)

(** A run of a source with the labels it takes and the context at each. *)
Inductive src_run {S} `{Source S} : S → list (bool * src_label) → S → Prop :=
| run_nil s : src_run s [] s
| run_snoc s ls s' ctx l s'' :
  src_run s ls s' → src_step ctx s' l s'' → src_run s (ls ++ [(ctx, l)]) s''.

(** The events a run has sent. *)
Definition sent (ls : list (bool * src_label)) : list Event :=
  omap (λ l, match l.2 with SrcSend e => Some e | _ => None end) ls.

Lemma sent_snoc ls ctx l :
  sent (ls ++ [(ctx, l)]) = sent ls ++ match l with SrcSend e => [e] | _ => [] end.
Proof. unfold sent. rewrite omap_app. by destruct l. Qed.

(** ** The replay source *)

Module Fake.

(** The events still to send; [None] once [Run] has returned. *)
Definition Source_ : Type := option (list Event).

(** [Run]: a [select] with two ready cases takes either. *)
Inductive step : bool → Source_ → src_label → Source_ → Prop :=
| step_send ctx e es : step ctx (Some (e :: es)) (SrcSend e) (Some es)
| step_canceled e es : step true (Some (e :: es)) (SrcReturn None) None
| step_end : step true (Some []) (SrcReturn None) None.

Definition Close (s : Source_) : option string := None.

#[global] Instance Fake_Source : Source Source_ := step.

#[global, program] Instance Fake_SourceLaws : SourceLaws Source_ := {
  src_returned s := s = None;
  src_measure s := match s with Some es => S (length es) | None => 0%nat end;
}.
Next Obligation. intros ctx s l s'. inversion 1; cbn; lia. Qed.
Next Obligation. intros ctx s l s'. inversion 1; naive_solver. Qed.
Next Obligation. intros ctx s l s' ->. by inversion 1. Qed.
Next Obligation.
  intros [[|e es]|] Hs; [| |done]; eexists _, _; (split; [constructor|done]).
Qed.

End Fake.
