(* ===== verification/Metrics.v ===== *)
(** * Metrics ([internal/metrics/metrics.go])

    The Prometheus client is third-party code: what the program does to it is
    the sequence of calls it makes. [metric_op] has one constructor per call of
    the program, and the value a counter shows is the number of its increments
    in the sequence, a gauge the last value set. *)

From S2P Require Import Prelude.
#[local] Open Scope Z_scope.

(** ** The collectors, with their names and labels *)

Inductive collector :=
| EventsTotal | ParseErrors | DedupHits | Matches | IPSetWrites | IPSetErrors
| RingbufDrops | RulesReloadTotal | RulesActive.

#[global] Instance collector_eq_dec : EqDecision collector.
Proof. solve_decision. Defined.

Definition collectors : list collector :=
  [EventsTotal; ParseErrors; DedupHits; Matches; IPSetWrites; IPSetErrors; RingbufDrops;
   RulesReloadTotal; RulesActive].

Definition descriptor (c : collector) : string * list string :=
  match c with
  | EventsTotal => ("dns2ipset_events_total", ["direction"])
  | ParseErrors => ("dns2ipset_parse_errors_total", [])
  | DedupHits => ("dns2ipset_dedup_hits_total", [])
  | Matches => ("dns2ipset_matches_total", ["rule"])
  | IPSetWrites => ("dns2ipset_ipset_writes_total", ["set"; "family"])
  | IPSetErrors => ("dns2ipset_ipset_errors_total", ["reason"])
  | RingbufDrops => ("dns2ipset_ringbuf_drops_total", [])
  | RulesReloadTotal => ("dns2ipset_rules_reload_total", ["result"])
  | RulesActive => ("dns2ipset_rules_active", [])
  end.

(** [New] registers every collector once; [MustRegister] is the library's. *)
Definition New {R : Type} (MustRegister : string * list string → R → R) (registry : R) : R :=
  foldl (λ r c, MustRegister (descriptor c) r) registry collectors.

(** [Handler]: the library's handler ([promhttp.HandlerFor]) over the registry. *)
Definition Handler {R H : Type} (HandlerFor : R → H) (registry : R) : H := HandlerFor registry.

(** ** Calls on the collectors *)

Inductive metric_op :=
| Inc (c : collector) (labels : list string)
| Set_ (c : collector) (v : Z).

#[global] Instance metric_op_eq_dec : EqDecision metric_op.
Proof. solve_decision. Defined.

(** What a scrape shows after the calls of a trace. *)
Definition counter (c : collector) (labels : list string) (trace : list metric_op) : nat :=
  length (filter (λ op, op = Inc c labels) trace).
Definition gauge (c : collector) (trace : list metric_op) : option Z :=
  last (omap (λ op, match op with
                    | Set_ c' v => if decide (c' = c) then Some v else None
                    | _ => None
                    end) trace).

Lemma counter_app c labels t1 t2 :
  counter c labels (t1 ++ t2) = (counter c labels t1 + counter c labels t2)%nat.
Proof. unfold counter. by rewrite filter_app, length_app. Qed.

Lemma gauge_app c t1 t2 :
  gauge c (t1 ++ t2) = match gauge c t2 with Some v => Some v | None => gauge c t1 end.
Proof. unfold gauge. by rewrite omap_app, last_app. Qed.

Lemma counter_cons c labels op t :
  counter c labels (op :: t) = ((if decide (op = Inc c labels) then 1 else 0) + counter c labels t)%nat.
Proof. unfold counter. rewrite filter_cons. by case_decide. Qed.

(** A counter does not see the order of the calls. *)
#[global] Instance counter_Permutation c labels : Proper ((≡ₚ) ==> (=)) (counter c labels).
Proof. intros t1 t2 Ht. unfold counter. by rewrite Ht. Qed.

(** One call per element of a list: the counter counts the elements whose call
    is its own. *)
Lemma counter_fmap {A} (f : A → metric_op) (P : A → Prop) `{∀ a, Decision (P a)} c labels (l : list A) :
  (∀ a, f a = Inc c labels ↔ P a) → counter c labels (f <$> l) = length (filter P l).
Proof.
  intros Hf. induction l as [|a l IH]; [done|]. rewrite fmap_cons, counter_cons, filter_cons, IH.
  specialize (Hf a). repeat case_decide; tauto || done.
Qed.

Lemma counter_none c labels t : (∀ op, op ∈ t → op ≠ Inc c labels) → counter c labels t = 0%nat.
Proof.
  intros Ht. induction t as [|op t IH]; [done|]. rewrite counter_cons, decide_False by (apply Ht; left).
  apply IH. intros op' ?. apply Ht. by right.
Qed.

(** An increment carries as many labels as its collector declares, which is what
    [WithLabelValues] asks of their number. That label values are UTF-8, which it
    also asks, is the library's check and not modelled. *)
Definition well_labelled (op : metric_op) : Prop :=
  match op with
  | Inc c labels => length labels = length (descriptor c).2
  | Set_ c _ => (descriptor c).2 = []
  end.

(** No two collectors share a name, so the registration does not panic. *)
Lemma descriptors_distinct : NoDup (fst <$> (descriptor <$> collectors)).
Proof. apply (bool_decide_unpack _). vm_compute. exact I. Qed.
