(* ===== verification/BpfEvent.v ===== *)
(** * From the kernel hook to an event ([internal/bpf/c/dns2ipset.bpf.c] and
    [decode] of [internal/bpf/loader.go])

    The C side fills a [struct event] in per-CPU scratch memory and hands its
    bytes to the ring buffer; the Go side lays [rawEvent] over those bytes. Both
    are modelled over the byte image of the struct, so the theorems relate the
    two languages. What the kernel's helpers answer is the record [hook]. *)

From Stdlib Require Import Strings.Byte.
From S2P Require Import Prelude GoBytes Source.
#[local] Open Scope Z_scope.

(** ** The C side *)

Definition MAX_PAYLOAD : Z := 4096.
Definition DIR_SEND : Z := 0.
Definition DIR_RECV : Z := 1.
Definition AF_INET : Z := 2.
Definition AF_INET6 : Z := 10.

Record event := mkevent {
  ts_ns : Z;
  direction : Z;
  family : Z;
  src_port : Z;
  dst_port : Z;
  payload_len : Z;
  payload : list byte;
}.

(** The memory image of the struct on a little-endian machine: the fields are
    naturally aligned at offsets 0, 8, 9, 10, 12, 14 and 16, without padding. *)
Definition image (e : event) : list byte :=
  le_encode 8 (ts_ns e) ++ le_encode 1 (direction e) ++ le_encode 1 (family e) ++
  le_encode 2 (src_port e) ++ le_encode 2 (dst_port e) ++ le_encode 2 (payload_len e) ++ payload e.

Definition bpf_ntohs (z : Z) : Z := Z.lor (Z.shiftl (Z.land z 0xFF) 8) (Z.shiftr z 8).

Record sock := mkSock { inet_sport : Z; skc_dport : Z; skc_family : Z }.
Record iovec := mkIovec { iov_base : Z; iov_len : Z }.
Record iov_iter := mkIter { iter___iov : option iovec; iter_iov : option iovec }.

(** One firing of a hook: the arguments ([None] is NULL), and the answers of
    [bpf_core_read] ([None] is an error), [bpf_core_field_exists],
    [bpf_map_lookup_elem], [bpf_ktime_get_ns] and the two probe reads, which
    report success and the new contents of the buffer. *)
Record hook := mkHook {
  sk : option sock;
  msg : bool;
  msg_iter : option iov_iter;
  has___iov : bool;
  scratch_found : bool;
  ktime : Z;
  probe_read : Z → Z → list byte → bool * list byte;
  probe_read_kernel : Z → Z → list byte → bool * list byte;
}.

(** The end of [handle], from the first segment on: the scratch memory after it
    and what it outputs to the ring buffer, if anything. *)
Definition emit (h : hook) (iov : iovec) (e : event) : event * option (list byte) :=
  let len := if MAX_PAYLOAD <? iov_len iov then MAX_PAYLOAD else iov_len iov in
  if len =? 0 then (e, None)
  else
    let '(ok, buf) := probe_read h (iov_base iov) len (payload e) in
    let '(ok, buf) := if ok then (ok, buf) else probe_read_kernel h (iov_base iov) len buf in
    let filled plen :=
      mkevent (ts_ns e) (direction e) (family e) (src_port e) (dst_port e) plen buf in
    if negb ok then (filled (payload_len e), None)
    else (filled (u16 len), Some (image (filled (u16 len)))).

Definition handle (h : hook) (dir : Z) (e : event) : event * option (list byte) :=
  match sk h, msg h with
  | Some s, true =>
    let sport_h := bpf_ntohs (inet_sport s) in
    let dport_h := bpf_ntohs (skc_dport s) in
    if negb (sport_h =? 53) && negb (dport_h =? 53) then (e, None)
    else
      let fam_short :=
        if skc_family s =? AF_INET then 4 else if skc_family s =? AF_INET6 then 6 else 0 in
      if fam_short =? 0 then (e, None)
      else if negb (scratch_found h) then (e, None)
      else
        let e := mkevent (ktime h) dir fam_short sport_h dport_h 0 (payload e) in
        match msg_iter h with
        | None => (e, None)
        | Some iter =>
          match (if has___iov h then iter___iov iter else iter_iov iter) with
          | None => (e, None)
          | Some iov => emit h iov e
          end
        end
  | _, _ => (e, None)
  end.

(** The two programs. *)
Definition udp_sendmsg_entry (h : hook) (e : event) : event * option (list byte) :=
  handle h DIR_SEND e.
Definition udp_recvmsg_entry (h : hook) (e : event) : event * option (list byte) :=
  handle h DIR_RECV e.

(** ** The Go side *)

(** [unsafe.Sizeof(rawEvent{})] and the length of its [Payload] array. *)
Definition rawEvent_size : nat := 4112.
Definition rawEvent_Payload : Z := 4096.

(** [n] bytes of memory at offset [o]. *)
Definition read_at (mem : list byte) (o n : nat) : list byte := take n (drop o mem).

(** [decode]: the cast of [&b[0]] to [*rawEvent] also makes the memory that
    follows the slice readable: [beyond]. *)
Definition decode (beyond b : list byte) : option Event :=
  let headerSize := (rawEvent_size - 4096)%nat in
  if decide (length b < headerSize)%nat then None
  else
    let mem := b ++ beyond in
    let plen := le_decode (read_at mem 14 2) in
    if (plen <? 0) || (rawEvent_Payload <? plen) then None
    else Some (mkEvent (le_decode (read_at mem 0 8)) (le_decode (read_at mem 8 1))
                 (le_decode (read_at mem 9 1)) (le_decode (read_at mem 10 2))
                 (le_decode (read_at mem 12 2)) (read_at mem 16 (Z.to_nat plen))).

(** ** Lemmas *)

Lemma read_at_app_skip o n l1 l2 :
  (length l1 ≤ o)%nat → read_at (l1 ++ l2) o n = read_at l2 (o - length l1) n.
Proof. intros H. unfold read_at. by rewrite drop_app_ge. Qed.

Lemma read_at_app_here n l1 l2 : length l1 = n → read_at (l1 ++ l2) 0 n = l1.
Proof. intros <-. unfold read_at. by rewrite drop_0, take_app_length. Qed.

Lemma read_at_app_l o n l1 l2 : (o + n ≤ length l1)%nat → read_at (l1 ++ l2) o n = read_at l1 o n.
Proof. intros H. unfold read_at. rewrite drop_app_le, take_app_le; [done| |lia]. rewrite length_drop. lia. Qed.

(** A struct whose fields are in range. *)
Record event_ok (e : event) : Prop := {
  ok_ts : 0 ≤ ts_ns e < 2 ^ 64;
  ok_direction : 0 ≤ direction e < 2 ^ 8;
  ok_family : 0 ≤ family e < 2 ^ 8;
  ok_src : 0 ≤ src_port e < 2 ^ 16;
  ok_dst : 0 ≤ dst_port e < 2 ^ 16;
  ok_len : 0 ≤ payload_len e ≤ MAX_PAYLOAD;
  ok_payload : length (payload e) = Z.to_nat MAX_PAYLOAD;
}.

Lemma length_image e : event_ok e → length (image e) = rawEvent_size.
Proof.
  intros He. unfold image. rewrite !length_app, !length_le_encode, (ok_payload _ He). done.
Qed.

(** Each field is where the Go struct has it. *)
Ltac skip_field := rewrite read_at_app_skip by (rewrite length_le_encode; lia); rewrite length_le_encode.
Ltac read_field := unfold image; repeat skip_field; cbn [Nat.sub];
  rewrite ?read_at_app_here by apply length_le_encode.

Lemma image_fields e :
  read_at (image e) 0 8 = le_encode 8 (ts_ns e) ∧ read_at (image e) 8 1 = le_encode 1 (direction e) ∧
  read_at (image e) 9 1 = le_encode 1 (family e) ∧ read_at (image e) 10 2 = le_encode 2 (src_port e) ∧
  read_at (image e) 12 2 = le_encode 2 (dst_port e) ∧ read_at (image e) 14 2 = le_encode 2 (payload_len e) ∧
  ∀ n, read_at (image e) 16 n = take n (payload e).
Proof. repeat split; intros; by read_field. Qed.

(** Decoding the image of a struct gives its fields back and exactly the bytes
    its length announces, whatever follows in memory. *)
Lemma decode_image beyond e :
  event_ok e →
  decode beyond (image e)
  = Some (mkEvent (ts_ns e) (direction e) (family e) (src_port e) (dst_port e)
            (take (Z.to_nat (payload_len e)) (payload e))).
Proof.
  intros He. pose proof (length_image _ He) as Hlen. destruct He as [Hts Hd Hf Hs Hp Hl Hpl].
  unfold decode. rewrite decide_False by (rewrite Hlen; unfold rawEvent_size; lia).
  assert (∀ o n, (o + n ≤ rawEvent_size)%nat → read_at (image e ++ beyond) o n = read_at (image e) o n)
    as Hin by (intros; apply read_at_app_l; lia).
  destruct (image_fields e) as (F0 & F8 & F9 & F10 & F12 & F14 & F16).
  unfold MAX_PAYLOAD, rawEvent_size in *.
  rewrite !Hin, F0, F8, F9, F10, F12, F14, !le_decode_encode_id by (lia || done).
  rewrite (proj2 (Z.ltb_ge (payload_len e) 0)), (proj2 (Z.ltb_ge rawEvent_Payload _))
    by (unfold rawEvent_Payload; lia).
  cbn [orb]. by rewrite Hin, F16 by lia.
Qed.

(** ** What a hook observes *)

Lemma bpf_ntohs_swap z : 0 ≤ z < 2 ^ 16 → bpf_ntohs z = 256 * (z mod 256) + z / 256.
Proof.
  intros Hz.
  assert (forallb (λ hi, forallb (λ lo, bpf_ntohs (256 * hi + lo) =? 256 * lo + hi) (seqZ 0 256))
            (seqZ 0 256) = true) as Hall by (vm_compute; reflexivity).
  rewrite forallb_forall in Hall. pose proof (Z.div_mod z 256 ltac:(lia)) as Hdm.
  assert (0 ≤ z / 256 < 256) by (split; [apply Z.div_pos; lia|apply Z.div_lt_upper_bound; lia]).
  specialize (Hall (z / 256) ltac:(apply list_elem_of_In, elem_of_seqZ; lia)).
  rewrite forallb_forall in Hall. pose proof (Z.mod_pos_bound z 256 ltac:(lia)).
  specialize (Hall (z mod 256) ltac:(apply list_elem_of_In, elem_of_seqZ; lia)).
  apply Z.eqb_eq in Hall. by rewrite <-Hdm in Hall.
Qed.

Lemma bpf_ntohs_range z : 0 ≤ z < 2 ^ 16 → 0 ≤ bpf_ntohs z < 2 ^ 16.
Proof.
  intros Hz. rewrite bpf_ntohs_swap by done. pose proof (Z.mod_pos_bound z 256 ltac:(lia)).
  assert (0 ≤ z / 256 < 256); [|lia].
  split; [apply Z.div_pos; lia|apply Z.div_lt_upper_bound; lia].
Qed.

#[export] Hint Resolve bpf_ntohs_range : dns.

(** A port in network byte order is read back in host order. *)
Lemma bpf_ntohs_htons hi lo : 0 ≤ hi < 256 → 0 ≤ lo < 256 → bpf_ntohs (hi + 256 * lo) = 256 * hi + lo.
Proof.
  intros Hhi Hlo. rewrite bpf_ntohs_swap by lia.
  rewrite (Z.mul_comm 256 lo), Z.mod_add, Z.div_add by lia.
  by rewrite Z.mod_small, Z.div_small by lia.
Qed.

Lemma negb_53 a b : negb (a =? 53) && negb (b =? 53) = negb (bool_decide (a = 53 ∨ b = 53)).
Proof.
  case_bool_decide; destruct (Z.eqb_spec a 53), (Z.eqb_spec b 53); naive_solver.
Qed.

(** A probe read either fails or copies [len] bytes of memory to the front of
    the buffer; [bytes] is the memory it can read. *)
Definition probe_reads (r : Z → Z → list byte → bool * list byte)
    (bytes : Z → Z → option (list byte)) : Prop :=
  ∀ base len buf, 0 < len ≤ MAX_PAYLOAD → length buf = Z.to_nat MAX_PAYLOAD →
    length (r base len buf).2 = Z.to_nat MAX_PAYLOAD ∧
    match bytes base len with
    | Some d => (r base len buf).1 = true ∧ take (Z.to_nat len) (r base len buf).2 = d
    | None => (r base len buf).1 = false
    end.

(** The machine ranges of what the kernel answers, and its probe reads. *)
Record hook_ok (user kern : Z → Z → option (list byte)) (h : hook) : Prop := {
  hook_ktime : 0 ≤ ktime h < 2 ^ 64;
  hook_ports s : sk h = Some s → 0 ≤ inet_sport s < 2 ^ 16 ∧ 0 ≤ skc_dport s < 2 ^ 16;
  hook_len iter iov : msg_iter h = Some iter → iter___iov iter = Some iov ∨ iter_iov iter = Some iov →
    0 ≤ iov_len iov;
  hook_user : probe_reads (probe_read h) user;
  hook_kern : probe_reads (probe_read_kernel h) kern;
}.

Definition family_of (s : sock) : option Z :=
  if decide (skc_family s = AF_INET) then Some 4
  else if decide (skc_family s = AF_INET6) then Some 6 else None.

(** The datagram a hook sees, abstractly: DNS traffic over IPv4 or IPv6 with a
    readable, non-empty first segment, cut at 4096 bytes. *)
Definition observed (user kern : Z → Z → option (list byte)) (h : hook) (dir : Z) : option Event :=
  s ← sk h;
  guard (msg h = true ∧ scratch_found h = true);;
  guard (bpf_ntohs (inet_sport s) = 53 ∨ bpf_ntohs (skc_dport s) = 53);;
  fam ← family_of s;
  iter ← msg_iter h;
  iov ← (if has___iov h then iter___iov iter else iter_iov iter);
  guard (iov_len iov ≠ 0);;
  let len := Z.min (iov_len iov) MAX_PAYLOAD in
  data ← match user (iov_base iov) len with Some d => Some d | None => kern (iov_base iov) len end;
  Some (mkEvent (ktime h) dir fam (bpf_ntohs (inet_sport s)) (bpf_ntohs (skc_dport s)) data).

(** The two probe reads of [handle]. *)
Lemma probe_fallback user kern h base len buf :
  probe_reads (probe_read h) user → probe_reads (probe_read_kernel h) kern →
  0 < len ≤ MAX_PAYLOAD → length buf = Z.to_nat MAX_PAYLOAD →
  let '(ok, buf) := probe_read h base len buf in
  let '(ok, buf) := if ok then (ok, buf) else probe_read_kernel h base len buf in
  length buf = Z.to_nat MAX_PAYLOAD ∧
  match (match user base len with Some d => Some d | None => kern base len end) with
  | Some d => ok = true ∧ take (Z.to_nat len) buf = d
  | None => ok = false
  end.
Proof.
  intros Hu Hk Hlen Hbuf. destruct (Hu base len buf Hlen Hbuf) as [Hl Hr].
  destruct (probe_read h base len buf) as [ok buf']. cbn [fst snd] in *.
  destruct (user base len) as [d|]; [destruct Hr as [-> Hd]; done|]. subst ok.
  destruct (Hk base len buf' Hlen Hl) as [Hl' Hr'].
  by destruct (probe_read_kernel h base len buf') as [ok buf''].
Qed.

(** What a run of the hook must do for what was observed. *)
Definition agrees (beyond : list byte) (r : event * option (list byte)) (o : option Event) : Prop :=
  (b ← r.2; decode beyond b) = o ∧ (r.2 = None ↔ o = None) ∧
  length (payload r.1) = Z.to_nat MAX_PAYLOAD.

Lemma agrees_quiet beyond e : length (payload e) = Z.to_nat MAX_PAYLOAD → agrees beyond (e, None) None.
Proof. done. Qed.

Lemma emit_agrees user kern h iov e beyond :
  hook_ok user kern h → event_ok e → 0 ≤ iov_len iov →
  agrees beyond (emit h iov e)
    (guard (iov_len iov ≠ 0);;
     let len := Z.min (iov_len iov) MAX_PAYLOAD in
     data ← match user (iov_base iov) len with Some d => Some d | None => kern (iov_base iov) len end;
     Some (mkEvent (ts_ns e) (direction e) (family e) (src_port e) (dst_port e) data)).
Proof.
  intros [_ _ _ Hu Hk] [Hts Hd Hf Hs Hp _ Hpl] Hlen. unfold emit.
  assert ((if MAX_PAYLOAD <? iov_len iov then MAX_PAYLOAD else iov_len iov)
    = Z.min (iov_len iov) MAX_PAYLOAD) as -> by solve_cmp.
  case_guard as Hz; cbn [mbind option_bind].
  2:{ rewrite Hz. by apply agrees_quiet. }
  set (len := Z.min (iov_len iov) MAX_PAYLOAD).
  assert (0 < len ≤ MAX_PAYLOAD) as Hl by (unfold len, MAX_PAYLOAD; lia).
  rewrite (proj2 (Z.eqb_neq len 0)) by lia.
  pose proof (probe_fallback user kern h (iov_base iov) len (payload e) Hu Hk Hl Hpl) as Hread.
  destruct (probe_read h (iov_base iov) len (payload e)) as [ok0 buf0].
  destruct (if ok0 then (ok0, buf0) else _) as [ok buf].
  destruct Hread as [Hbuf Hdata].
  destruct (match user _ _ with Some _ => _ | None => _ end) as [d|]; cbn [mbind option_bind].
  2:{ subst ok. by apply agrees_quiet. }
  destruct Hdata as [-> <-]. cbn [negb].
  assert (u16 len = len) as -> by (apply Z.mod_small; unfold MAX_PAYLOAD in *; lia).
  split; [|done]. cbn [snd mbind option_bind]. rewrite decode_image; [done|].
  split; [done..|cbn; lia|done].
Qed.

(** The whole hook, for the property below and for what follows an event further. *)
Lemma handle_agrees user kern h dir e beyond :
  hook_ok user kern h → 0 ≤ dir < 2 ^ 8 → length (payload e) = Z.to_nat MAX_PAYLOAD →
  agrees beyond (handle h dir e) (observed user kern h dir).
Proof.
  intros Hok Hdir Hpl.
  pose proof Hok as [Hts Hports Hlen _ _].
  pose proof (agrees_quiet beyond) as Hquiet. unfold handle, observed, family_of.
  destruct (sk h) as [s|]; [|by apply Hquiet]. destruct (msg h); [|by apply Hquiet].
  destruct (Hports s eq_refl) as [Hsp Hdp]. cbn [mbind option_bind].
  rewrite negb_53. case_bool_decide as H53; cbn [negb].
  2:{ rewrite (option_guard_False (_ ∨ _)) by done. case_guard; by apply Hquiet. }
  rewrite (option_guard_True (_ ∨ _)) by done.
  set (fam := if skc_family s =? AF_INET then 4 else if skc_family s =? AF_INET6 then 6 else 0).
  assert ((if decide (skc_family s = AF_INET) then Some 4
    else if decide (skc_family s = AF_INET6) then Some 6 else None) = if fam =? 0 then None else Some fam)
    as ->.
  { unfold fam. repeat case_decide; solve_cmp. }
  assert (0 ≤ fam < 2 ^ 8) as Hfam by (unfold fam; solve_cmp).
  destruct (scratch_found h); cbn [negb].
  2:{ rewrite option_guard_False by naive_solver. case_match; by apply Hquiet. }
  rewrite option_guard_True by done. cbn [mbind option_bind].
  destruct (fam =? 0) eqn:Hf0; [by apply Hquiet|]. cbn [mbind option_bind].
  destruct (msg_iter h) as [iter|] eqn:Hiter; [|by apply Hquiet]. cbn [mbind option_bind].
  destruct (if has___iov h then _ else _) as [iov|] eqn:Hiov; [|by apply Hquiet]. cbn [mbind option_bind].
  refine (emit_agrees user kern h iov _ beyond Hok _ _).
  - split; cbn; [done..|auto with dns|auto with dns|unfold MAX_PAYLOAD; lia|done].
  - apply (Hlen iter iov eq_refl). destruct (has___iov h); auto.
Qed.

(** ** Properties *)

(** C16: the two languages agree on every event: what the C program outputs,
    decoded by the Go program, is exactly the datagram observed, with ports in
    host order, family 4 or 6 and the first 4096 bytes of the payload at most,
    and nothing is output when nothing is observed; neither the stale contents
    of the scratch memory nor the memory behind the sample shows. *)
Theorem handle_decode user kern h dir e beyond :
  hook_ok user kern h → 0 ≤ dir < 2 ^ 8 → length (payload e) = Z.to_nat MAX_PAYLOAD →
  (b ← (handle h dir e).2; decode beyond b) = observed user kern h dir ∧
  ((handle h dir e).2 = None ↔ observed user kern h dir = None) ∧
  length (payload (handle h dir e).1) = Z.to_nat MAX_PAYLOAD.
Proof. apply handle_agrees. Qed.

(** C34: [decode] drops exactly the samples shorter than the 16-byte header or
    announcing more than 4096 bytes. It never checks the announced length
    against the sample: the event is determined by the sample when the sample
    holds what it announces, and otherwise depends on the memory behind it. *)
Theorem decode_accepts b :
  let plen := le_decode (read_at b 14 2) in
  (∀ beyond, decode beyond b = None ↔ (length b < 16)%nat ∨ 4096 < plen) ∧
  ((16 + Z.to_nat plen ≤ length b)%nat → ∀ beyond beyond', decode beyond b = decode beyond' b) ∧
  ((16 ≤ length b < 16 + Z.to_nat plen)%nat → plen ≤ 4096 →
    ∃ beyond beyond', length beyond = length beyond' ∧ decode beyond b ≠ decode beyond' b).
Proof.
  intros plen.
  assert (∀ beyond, (16 ≤ length b)%nat → decode beyond b =
    if 4096 <? plen then None
    else Some (mkEvent (le_decode (read_at b 0 8)) (le_decode (read_at b 8 1))
      (le_decode (read_at b 9 1)) (le_decode (read_at b 10 2)) (le_decode (read_at b 12 2))
      (read_at (b ++ beyond) 16 (Z.to_nat plen)))) as Hdec.
  { intros beyond Hb. unfold decode, rawEvent_size. rewrite decide_False by lia.
    rewrite !(read_at_app_l _ _ b beyond) by lia. fold plen.
    pose proof (le_decode_range (read_at b 14 2)). by rewrite (proj2 (Z.ltb_ge plen 0)) by lia. }
  split; [|split].
  - intros beyond. destruct (decide (length b < 16)%nat) as [Hb|Hb].
    { unfold decode, rawEvent_size. rewrite decide_True by lia. by split; [left|]. }
    rewrite Hdec by lia. destruct (Z.ltb_spec 4096 plen) as [Hp|Hp]; [by split; [right|]|].
    split; [done|]. intros [?|?]; lia.
  - intros Hb beyond beyond'. rewrite !Hdec, !(read_at_app_l 16 _ b) by lia. done.
  - intros Hb Hp. set (n := Z.to_nat plen) in *.
    exists (repeat Byte.x00 n), (repeat Byte.x01 n). rewrite !repeat_length. split; [done|].
    rewrite !Hdec, (proj2 (Z.ltb_ge 4096 plen)) by lia. intros [= Heq]. unfold read_at in Heq.
    apply (f_equal (λ l, l !! (length b - 16)%nat)) in Heq.
    rewrite !lookup_take_lt, !lookup_drop, !lookup_app_r in Heq by lia.
    replace (16 + (length b - 16) - length b)%nat with 0%nat in Heq by lia.
    destruct n; [lia|done].
Qed.

(** ** Instances of the properties *)

Definition sample_bytes : list byte := byte_of_Z <$> [1; 2; 3].

Definition sample_probe (base len : Z) (buf : list byte) : bool * list byte :=
  if base =? 7 then (true, repeat Byte.x2a (Z.to_nat len) ++ drop (Z.to_nat len) buf) else (false, buf).

Definition sample_hook : hook :=
  mkHook (Some (mkSock (53 * 256) 0x3412 AF_INET)) true
    (Some (mkIter (Some (mkIovec 7 3)) None)) true true 99
    (λ base len buf, (false, buf)) sample_probe.

Definition sample_kern (base len : Z) : option (list byte) :=
  if base =? 7 then Some (repeat Byte.x2a (Z.to_nat len)) else None.

Lemma sample_hook_ok : hook_ok (λ _ _, None) sample_kern sample_hook.
Proof.
  split.
  - done.
  - by intros s [= <-].
  - cbn. intros iter iov [= <-] [[= <-]|?]; done.
  - done.
  - intros base len buf Hlen Hbuf. unfold sample_hook, sample_kern, sample_probe. cbn [probe_read_kernel].
    unfold MAX_PAYLOAD in *. destruct (base =? 7); cbn [fst snd]; [|done].
    rewrite length_app, repeat_length, length_drop, take_app_length' by (by rewrite repeat_length).
    split; [lia|done].
Qed.

Lemma handle_decode_witness :
  let e := mkevent 0 0 0 0 0 0 (repeat Byte.xff 4096) in
  (b ← (handle sample_hook DIR_SEND e).2; decode [] b)
  = Some (mkEvent 99 DirSend 4 53 0x1234 [Byte.x2a; Byte.x2a; Byte.x2a]).
Proof.
  intros e.
  destruct (handle_decode (λ _ _, None) sample_kern sample_hook DIR_SEND e [] sample_hook_ok)
    as [Heq _]; [done|reflexivity|].
  rewrite Heq. reflexivity.
Defined.

Lemma decode_accepts_witness :
  let b := repeat Byte.x00 14 ++ [Byte.x02; Byte.x00; Byte.x05] in
  ∃ beyond beyond', length beyond = length beyond' ∧ decode beyond b ≠ decode beyond' b.
Proof.
  intros b. apply (proj2 (proj2 (decode_accepts b))); [cbn; lia|]. vm_compute. discriminate.
Defined.
