(* ===== verification/Loader.v ===== *)
(** * The BPF loader ([internal/bpf/loader.go])

    [New] acquires kernel resources one after the other, [Run] is the source the
    daemon uses and [Close] releases everything. The eBPF library is third-party:
    its answers are the record [library], the calls that open or close a resource
    are recorded in a trace, and what [Read] delivers is a list. *)

From S2P Require Import Prelude GoBytes Source BpfEvent.

(** ** Acquiring and releasing *)

Inductive resource := BpfObjects | SendLink | RecvLink | Reader.
#[global] Instance resource_eq_dec : EqDecision resource.
Proof. solve_decision. Defined.

Inductive res_op := Opened (r : resource) | Closed (r : resource).
#[global] Instance res_op_eq_dec : EqDecision res_op.
Proof. solve_decision. Defined.

(** The errors of the library, [None] when a call succeeds. *)
Record library := mkLibrary {
  RemoveMemlock : option string;
  LoadBpfObjects : option string;
  AttachSend : option string;
  AttachRecv : option string;
  NewReader : option string;
}.

Record Loader (M : Type) := mkLoader {
  objs : resource;
  links : list resource;
  rd : option resource;
  metrics : option M;
}.
Arguments mkLoader {M} _ _ _ _.
Arguments objs {M} _.
Arguments links {M} _.
Arguments rd {M} _.

(** [New]: the result and the resources opened and closed, in order. *)
Definition New {M} (lib : library) (m : option M) : result string (Loader M) * list res_op :=
  match RemoveMemlock lib with
  | Some e => (Err ("rlimit: " +:+ e), [])
  | None =>
    match LoadBpfObjects lib with
    | Some e => (Err ("load BPF objects: " +:+ e), [])
    | None =>
      match AttachSend lib with
      | Some e => (Err ("attach udp_sendmsg: " +:+ e), [Opened BpfObjects; Closed BpfObjects])
      | None =>
        match AttachRecv lib with
        | Some e =>
          (Err ("attach udp_recvmsg: " +:+ e),
           [Opened BpfObjects; Opened SendLink; Closed SendLink; Closed BpfObjects])
        | None =>
          match NewReader lib with
          | Some e =>
            (Err ("ringbuf reader: " +:+ e),
             [Opened BpfObjects; Opened SendLink; Opened RecvLink;
              Closed SendLink; Closed RecvLink; Closed BpfObjects])
          | None =>
            (Ok (mkLoader BpfObjects [SendLink; RecvLink] (Some Reader) m),
             [Opened BpfObjects; Opened SendLink; Opened RecvLink; Opened Reader])
          end
        end
      end
    end
  end.

Definition Close {M} (l : Loader M) : list res_op :=
  match rd l with Some r => [Closed r] | None => [] end ++ (Closed <$> links l) ++ [Closed (objs l)].

(** The resources still open after a trace, oldest first. *)
Definition live (trace : list res_op) : list resource :=
  foldl (λ l op, match op with
                 | Opened r => l ++ [r]
                 | Closed r => filter (λ r', r' ≠ r) l
                 end) [] trace.

(** The calls of the library, in the order [New] makes them, with the text each
    failure is reported under. *)
Definition attempts (lib : library) : list (option string) :=
  [(λ e, "rlimit: " +:+ e) <$> RemoveMemlock lib;
   (λ e, "load BPF objects: " +:+ e) <$> LoadBpfObjects lib;
   (λ e, "attach udp_sendmsg: " +:+ e) <$> AttachSend lib;
   (λ e, "attach udp_recvmsg: " +:+ e) <$> AttachRecv lib;
   (λ e, "ringbuf reader: " +:+ e) <$> NewReader lib].

(** ** The read loop *)

(** What [rd.Read] delivers, before the reader is closed: a sample (with the
    memory behind it) or an error other than [ErrClosed]. *)
Inductive read_result :=
| Sample (beyond raw : list byte)
| ReadErr (err : string).

Inductive phase := Reading | Sending (ev : Event) | Returned.

(** The loop, with what is still to be read. *)
Definition loop : Type := list read_result * phase.

(** [Run]. Once the context is done the goroutine closes the reader, so [Read]
    can answer [ErrClosed] although samples are left. *)
Inductive Run_step : bool → loop → src_label → loop → Prop :=
| read_decoded ctx beyond raw ev rs :
  decode beyond raw = Some ev →
  Run_step ctx (Sample beyond raw :: rs, Reading) SrcTau (rs, Sending ev)
| read_dropped ctx beyond raw rs :
  decode beyond raw = None →
  Run_step ctx (Sample beyond raw :: rs, Reading) SrcTau (rs, Reading)
| read_failed ctx err rs :
  Run_step ctx (ReadErr err :: rs, Reading) (SrcReturn (Some err)) (rs, Returned)
| read_closed rs :
  Run_step true (rs, Reading) (SrcReturn None) (rs, Returned)
| send_done rs ev :
  Run_step true (rs, Sending ev) (SrcReturn None) (rs, Returned)
| send_event ctx rs ev :
  Run_step ctx (rs, Sending ev) (SrcSend ev) (rs, Reading).

#[global] Instance Loader_Source : Source loop := Run_step.

#[global, program] Instance Loader_SourceLaws : SourceLaws loop := {
  src_returned s := s.2 = Returned;
  src_measure s := match s.2 with
                   | Reading => 2 * length s.1 + 1
                   | Sending _ => 2 * length s.1 + 2
                   | Returned => 0
                   end;
}.
Next Obligation. intros ctx s l s'. inversion 1; cbn; lia. Qed.
Next Obligation. intros ctx s l s'. inversion 1; naive_solver. Qed.
Next Obligation. intros ctx [rs p] l s'. cbn. intros ->. by inversion 1. Qed.
Next Obligation.
  intros [rs [|ev|]] Hs; [| |done]; eexists _, _; (split; [by constructor|done]).
Qed.

(** ** Runs of the loop *)

(** The events of the samples before the first read error. *)
Fixpoint deliverable (rs : list read_result) : list Event :=
  match rs with
  | Sample beyond raw :: rs =>
    match decode beyond raw with Some ev => ev :: deliverable rs | None => deliverable rs end
  | _ => []
  end.

(** The first read error. *)
Fixpoint first_error (rs : list read_result) : option string :=
  match rs with
  | [] => None
  | Sample _ _ :: rs => first_error rs
  | ReadErr e :: _ => Some e
  end.

(** What the loop has still to send, while it runs. *)
Definition pending (s : loop) : list Event :=
  match s.2 with
  | Reading => deliverable s.1
  | Sending ev => ev :: deliverable s.1
  | Returned => []
  end.

Lemma run_invariant rs ls s :
  src_run (rs, Reading) ls s → s.2 ≠ Returned →
  sent ls ++ pending s = deliverable rs ∧ first_error s.1 = first_error rs.
Proof.
  remember (rs, Reading) as s0 eqn:Hs0. induction 1 as [s|s ls s' ctx l s'' _ IH Hstep]; intros Hret.
  { by subst. }
  rewrite sent_snoc. destruct Hstep as [ctx by_ raw ev rs' Hd|ctx by_ raw rs' Hd|ctx err rs'|rs'|rs' ev|ctx rs' ev];
    try done; (destruct IH as [IHs IHe]; [done|done|]);
    unfold pending in *; cbn in *; rewrite ?Hd in IHs; rewrite ?app_nil_r, <-?app_assoc; done.
Qed.

(** The last step of a run. *)
Lemma run_step rs ls ctx l s s' :
  src_run (rs, Reading) ls s → src_step ctx s l s' →
  sent (ls ++ [(ctx, l)]) `prefix_of` deliverable rs ∧
  (∀ e, l = SrcReturn (Some e) → first_error rs = Some e ∧ sent ls = deliverable rs) ∧
  (l = SrcReturn None → ctx = true).
Proof.
  intros Hrun Hstep.
  assert (s.2 ≠ Returned) as Hs by (by inversion Hstep).
  destruct (run_invariant _ _ _ Hrun Hs) as [Hsent Herr].
  rewrite sent_snoc, <-Hsent, <-Herr.
  destruct Hstep; cbn; rewrite ?app_nil_r; (split; [|split; [intros e' [=]|done]]); subst;
    rewrite ?app_nil_r; try done; try (by apply prefix_app_r); unfold pending; cbn.
  by apply prefix_app, prefix_cons, prefix_nil.
Qed.

Lemma run_sent rs ls s :
  src_run (rs, Reading) ls s →
  sent ls `prefix_of` deliverable rs ∧
  (∀ ls' c e, ls = ls' ++ [(c, SrcReturn (Some e))] → first_error rs = Some e ∧ sent ls = deliverable rs).
Proof.
  inversion 1 as [|? ls' s' c l s'' Hrun Hstep]; subst.
  { split; [apply prefix_nil|]. intros ls' c e Heq. by destruct ls'. }
  destruct (run_step _ _ _ _ _ _ Hrun Hstep) as (Hpre & Herr & _). split; [done|].
  intros ls'' c' e [-> [= -> ->]]%app_inj_tail. rewrite sent_snoc, app_nil_r. by apply Herr.
Qed.

(** ** Properties *)

(** Whatever fails, [New] leaks nothing: it reports the first failing call,
    and every resource opened on the way has been closed again; when nothing
    fails all four resources are open and [Close] releases every one of them. *)
Theorem New_no_leak {M} (lib : library) (m : option M) :
  match New lib m with
  | (Err e, trace) => head (omap id (attempts lib)) = Some e ∧ live trace = []
  | (Ok l, trace) =>
    omap id (attempts lib) = [] ∧ NoDup (live trace) ∧
    (∀ r, r ∈ live trace) ∧ live (trace ++ Close l) = []
  end.
Proof.
  unfold New, attempts.
  destruct (RemoveMemlock lib); [done|]. destruct (LoadBpfObjects lib); [done|].
  destruct (AttachSend lib); [done|]. destruct (AttachRecv lib); [done|].
  destruct (NewReader lib); [done|]. split; [done|]. split; [|split; [|done]].
  - apply (bool_decide_unpack _). vm_compute. exact I.
  - intros r. apply (bool_decide_unpack _). destruct r; vm_compute; exact I.
Qed.

(** C35: in every run of the read loop the events sent are, in order, a prefix of
    those the ring buffer's samples decode to; the loop stops with an error only
    on the first failing read, after every event before it has been sent, and
    without an error only when the context is done. *)
Theorem Run_sends rs ls ctx l s s' :
  src_run (rs, Reading) ls s → src_step ctx s l s' →
  sent (ls ++ [(ctx, l)]) `prefix_of` deliverable rs ∧
  (∀ e, l = SrcReturn (Some e) → first_error rs = Some e ∧ sent ls = deliverable rs) ∧
  (l = SrcReturn None → ctx = true).
Proof. apply run_step. Qed.

Lemma Run_sends_witness :
  let e := mkevent 5 0 4 53 9 1 (repeat Byte.x07 4096) in
  let ev := mkEvent 5 DirSend 4 53 9 [Byte.x07] in
  sent [(false, SrcTau); (false, SrcTau); (false, SrcSend ev); (false, SrcReturn (Some "read"))] = [ev] ∧
  first_error [Sample [] []; Sample [] (image e); ReadErr "read"] = Some "read".
Proof.
  intros e ev. set (rs := [Sample [] []; Sample [] (image e); ReadErr "read"]).
  destruct (Run_sends rs [(false, SrcTau); (false, SrcTau); (false, SrcSend ev)] false
    (SrcReturn (Some "read")) ([ReadErr "read"], Reading) ([], Returned)) as (_ & Herr & _).
  - apply (run_snoc _ [(false, SrcTau); (false, SrcTau)] ([ReadErr "read"], Sending ev));
      [|by constructor].
    apply (run_snoc _ [(false, SrcTau)] ([Sample [] (image e); ReadErr "read"], Reading));
      [|constructor; vm_compute; reflexivity].
    apply (run_snoc _ [] (rs, Reading)); [by constructor|by constructor].
  - by constructor.
  - split; [reflexivity|]. by apply (Herr "read").
Defined.
