(* ===== verification/Pipeline.v ===== *)
(** * Handling one event ([internal/pipeline/pipeline.go], [handle])

    An event goes through the dedup cache, the DNS parser, the suffix trie of
    the current rules and, for every address record of a matching response, to
    the ipset client. The client, the cache and the DNS codec are interfaces:
    the theorems hold for every implementation. [None] is a panic. The worker
    goroutines and the channel are in [PipelineRun]. *)

From S2P Require Import Prelude GoBytes GoFloat GoUnicode GoStrings GoNet Trie Rules Store Source Metrics.
From S2P Require Import Dedup DnsParse Ipset.
#[local] Open Scope Z_scope.

(** ** State *)

(** The fields of [Config] that do not change; a nil [Metrics] is [false]. *)
Record Config := mkConfig {
  Workers : Z;
  TTLMin : Z;
  TTLMax : Z;
  has_Metrics : bool;
}.

(** [New]: at least one worker. The default logger has no state here. *)
Definition New (cfg : Config) : Config :=
  if Workers cfg <=? 0 then mkConfig 1 (TTLMin cfg) (TTLMax cfg) (has_Metrics cfg) else cfg.

(** What [handle] reads and changes: the store, the client, the dedup cache, the
    calls on the metrics and the lines given to [Log.Debug]. *)
Record state (C D : Type) := mkState {
  st_store : Store;
  st_ipset : C;
  st_dedup : Dedup D;
  st_metrics : list metric_op;
  st_debug : list (string * IP * string);
}.
Arguments mkState {C D} _ _ _ _ _.
Arguments st_store {C D} _.
Arguments st_ipset {C D} _.
Arguments st_dedup {C D} _.
Arguments st_metrics {C D} _.
Arguments st_debug {C D} _.

(** ** Operations *)

Definition isMissingErr (err : option string) : bool :=
  match err with
  | None => false
  | Some s => Contains s "missing" || Contains s "does not exist"
  end.

(** [uniqueNames], with its map [seen] as a set. *)
Definition uniqueNames_step (s : gset string * list string) (rec : Record_)
    : gset string * list string :=
  let '(seen, out) := s in
  if decide (rec_Name rec ∈ seen) then s
  else ({[rec_Name rec]} ∪ seen, out ++ [rec_Name rec]).

Definition uniqueNames (r : Response) : list string :=
  (foldl uniqueNames_step ({[QName r]}, [QName r]) (Records r)).2.

Section handle.
Context {C D : Type} {client : Client C} {lru : LRU D} {dns : DNS}.
Context (cfg : Config).

(** [if m := p.m(); m != nil { ... }] *)
Definition observe (op : metric_op) (s : state C D) : state C D :=
  if has_Metrics cfg
  then mkState (st_store s) (st_ipset s) (st_dedup s) (st_metrics s ++ [op]) (st_debug s)
  else s.

(** The body of the innermost loop. *)
Definition handle_record (rule : Rule) (s : state C D) (rec : Record_) : state C D :=
  let '(set, fam) :=
    if rec_Family rec =? 4 then (IPSetV4 rule, "v4")
    else if rec_Family rec =? 6 then (IPSetV6 rule, "v6") else ("", "") in
  if String.eqb set "" then s
  else
    let ttl := ClampTTL (rec_TTL rec * Second) (TTLMin cfg) (TTLMax cfg) in
    let '(err, c) := client_Add set (rec_IP rec) ttl (st_ipset s) in
    let s := mkState (st_store s) c (st_dedup s) (st_metrics s) (st_debug s) in
    match err with
    | Some e =>
      let reason := if isMissingErr (Some e) then "missing" else "other" in
      let s := observe (Inc IPSetErrors [reason]) s in
      mkState (st_store s) (st_ipset s) (st_dedup s) (st_metrics s)
        (st_debug s ++ [(set, rec_IP rec, e)])
    | None => observe (Inc IPSetWrites [set; fam]) s
    end.

(** The body of the loop over the names; the type assertion of a nil value
    panics. *)
Definition handle_name (tr : Trie Rule) (resp : Response) (s : state C D) (name : string)
    : option (state C D) :=
  match Lookup tr name with
  | (_, false) => Some s
  | (None, true) => None
  | (Some rule, true) =>
    Some (foldl (handle_record rule) (observe (Inc Matches [Domain rule]) s) (Records resp))
  end.

(** [handle], at the clock reading [now] and with the map order [order]. *)
Definition handle (order : gmap string string → list (string * string)) (now : Z) (ev : Event)
    (s : state C D) : option (state C D) :=
  let s :=
    if ev_Direction ev =? DirSend then observe (Inc EventsTotal ["send"]) s
    else if ev_Direction ev =? DirRecv then observe (Inc EventsTotal ["recv"]) s
    else s in
  let '(seen, d) := Seen (Payload ev) now (st_dedup s) in
  let s := mkState (st_store s) (st_ipset s) d (st_metrics s) (st_debug s) in
  if seen then Some (observe (Inc DedupHits []) s)
  else
    match Parse order (Payload ev) with
    | Err _ => Some (observe (Inc ParseErrors []) s)
    | Ok resp =>
      match StoreTrie (st_store s) with
      | None => Some s
      | Some tr => foldl (λ o name, s ← o; handle_name tr resp s name) (Some s) (uniqueNames resp)
      end
    end.

End handle.

(** ** Specification *)

(** The set of a record's family, and the family's label. *)
Definition set_of (rule : Rule) (rec : Record_) : string :=
  if decide (rec_Family rec = 4) then IPSetV4 rule
  else if decide (rec_Family rec = 6) then IPSetV6 rule else "".
Definition family_label (rec : Record_) : string :=
  if decide (rec_Family rec = 4) then "v4" else if decide (rec_Family rec = 6) then "v6" else "".

Lemma record_set rule rec :
  (if rec_Family rec =? 4 then (IPSetV4 rule, "v4")
   else if rec_Family rec =? 6 then (IPSetV6 rule, "v6") else ("", ""))
  = (set_of rule rec, family_label rec).
Proof. unfold set_of, family_label. repeat case_decide; solve_cmp. Qed.

Record request := mkRequest {
  req_set : string;
  req_family : string;
  req_ip : IP;
  req_ttl : Z;
}.

(** The write a record asks for under a rule. *)
Definition request_of (cfg : Config) (rule : Rule) (rec : Record_) : option request :=
  if decide (set_of rule rec = "") then None
  else Some (mkRequest (set_of rule rec) (family_label rec) (rec_IP rec)
               (ClampTTL (rec_TTL rec * Second) (TTLMin cfg) (TTLMax cfg))).

(** The rules of the names of a response, in order. *)
Definition matched (tr : Trie Rule) (resp : Response) : list Rule :=
  omap (λ name, match Lookup tr name with (Some rule, true) => Some rule | _ => None end)
    (uniqueNames resp).

(** The writes of a response, in order. *)
Definition requests (cfg : Config) (tr : Trie Rule) (resp : Response) : list request :=
  rule ← matched tr resp; omap (request_of cfg rule) (Records resp).

Section spec.
Context {C : Type} {client : Client C}.

(** The client after a list of writes, and what each write answered. *)
Fixpoint run_requests (reqs : list request) (c : C) : list (request * option string) * C :=
  match reqs with
  | [] => ([], c)
  | r :: reqs =>
    let '(err, c) := client_Add (req_set r) (req_ip r) (req_ttl r) c in
    let '(answers, c) := run_requests reqs c in
    ((r, err) :: answers, c)
  end.

(** The metric and the debug line of an answered write. *)
Definition answer_op (a : request * option string) : metric_op :=
  match a with
  | (r, None) => Inc IPSetWrites [req_set r; req_family r]
  | (r, err) => Inc IPSetErrors [if isMissingErr err then "missing" else "other"]
  end.
Definition answer_line (a : request * option string) : option (string * IP * string) :=
  (λ e, (req_set a.1, req_ip a.1, e)) <$> a.2.

Lemma run_requests_app l1 l2 c :
  run_requests (l1 ++ l2) c =
  let '(a1, c) := run_requests l1 c in
  let '(a2, c) := run_requests l2 c in (a1 ++ a2, c).
Proof.
  revert c. induction l1 as [|r l1 IH]; intros c; cbn [run_requests app].
  - by destruct (run_requests l2 c).
  - destruct (client_Add _ _ _ c) as [err c']. rewrite IH.
    destruct (run_requests l1 c') as [a1 c'']. by destruct (run_requests l2 c'').
Qed.

Lemma run_requests_requests l c : (run_requests l c).1.*1 = l.
Proof.
  revert c. induction l as [|r l IH]; intros c; [done|]. cbn [run_requests].
  destruct (client_Add _ _ _ c) as [err c']. specialize (IH c').
  destruct (run_requests l c') as [a c'']. cbn in *. by rewrite IH.
Qed.

Lemma run_requests_foldl l c :
  (run_requests l c).2
  = foldl (λ c '(set, ip, ttl), (client_Add set ip ttl c).2) c ((λ q, (req_set q, req_ip q, req_ttl q)) <$> l).
Proof.
  revert c. induction l as [|r l IH]; intros c; [done|]. rewrite fmap_cons. cbn [run_requests foldl].
  destruct (client_Add _ _ _ c) as [err c']. cbn. rewrite <-IH. by destruct (run_requests l c').
Qed.

End spec.

(** A store filled by [Replace] with loaded rule sets. *)
Definition store_ok (s : Store) : Prop :=
  ∀ snap, s = Some snap → loaded (snap_rs snap) ∧ BuildTrie (snap_rs snap) = Some (snap_trie snap).

Lemma store_ok_New : store_ok NewStore.
Proof. by intros snap. Qed.

Lemma store_ok_Replace rs s :
  loaded rs → store_ok s → ∃ s', Replace (Some rs) s = Some s' ∧ store_ok s'.
Proof.
  intros Hl Hs. destruct (Replace_loaded rs s Hl) as (t & Ht & Hr). eexists. split; [exact Hr|].
  by intros snap [= <-].
Qed.

(** A store of loaded rule sets holds no nil rule in its trie. *)
Lemma store_ok_trie s tr name : store_ok s → StoreTrie s = Some tr → Lookup tr name ≠ (None, true).
Proof.
  intros Hs Htr. destruct s as [snap|]; [|done]. injection Htr as <-.
  destruct (Hs snap eq_refl) as [Hl Hb].
  assert (∃ rl, Rules (snap_rs snap) = Some <$> rl) as [rl Hrl].
  { unfold loaded in Hl. induction Hl as [|r rs [x ->] _ [rl ->]]; [by exists []|by exists (x :: rl)]. }
  rewrite (BuildTrie_build _ _ Hrl) in Hb. injection Hb as <-.
  intros (k & _ & (i & r & ? & _)%inserted_rules & _)%build_found. done.
Qed.

#[export] Hint Resolve store_ok_New store_ok_trie : dns.

(** ** [uniqueNames] *)

Lemma uniqueNames_fold recs seen out :
  (∀ n, n ∈ seen ↔ n ∈ out) → NoDup out →
  let out' := (foldl uniqueNames_step (seen, out) recs).2 in
  NoDup out' ∧ out `prefix_of` out' ∧ ∀ n, n ∈ out' ↔ n ∈ out ∨ n ∈ rec_Name <$> recs.
Proof.
  revert seen out. induction recs as [|rec recs IH]; intros seen out Hseen Hnd; cbn [foldl].
  { split; [done|]. split; [done|]. intros n. cbn. rewrite elem_of_nil. tauto. }
  unfold uniqueNames_step at 2 4 6. case_decide as Hin.
  - destruct (IH seen out Hseen Hnd) as (H1 & H2 & H3). split; [done|]. split; [done|].
    intros n. rewrite H3, fmap_cons, elem_of_cons. rewrite Hseen in Hin. naive_solver.
  - rewrite Hseen in Hin.
    destruct (IH ({[rec_Name rec]} ∪ seen) (out ++ [rec_Name rec])) as (H1 & H2 & H3).
    + intros n. rewrite elem_of_union, elem_of_singleton, elem_of_app, list_elem_of_singleton, Hseen. tauto.
    + apply NoDup_app. split; [done|]. split; [|apply NoDup_singleton].
      intros n Hn ->%list_elem_of_singleton. done.
    + split; [done|]. split; [by eapply prefix_app_l|].
      intros n. rewrite H3, fmap_cons, elem_of_cons, elem_of_app, list_elem_of_singleton. tauto.
Qed.

Lemma uniqueNames_spec r :
  NoDup (uniqueNames r) ∧ head (uniqueNames r) = Some (QName r) ∧
  ∀ n, n ∈ uniqueNames r ↔ n = QName r ∨ n ∈ rec_Name <$> Records r.
Proof.
  destruct (uniqueNames_fold (Records r) {[QName r]} [QName r]) as (Hnd & [k Hk] & Hin).
  - intros n. by rewrite elem_of_singleton, list_elem_of_singleton.
  - apply NoDup_singleton.
  - fold (uniqueNames r) in *. split; [done|]. split; [by rewrite Hk|].
    intros n. by rewrite Hin, list_elem_of_singleton.
Qed.

(** The list without repetitions, each element where it first appears. *)
Definition first_appearances (l : list string) : list string := reverse (remove_dups (reverse l)).

Lemma first_appearances_snoc l n :
  first_appearances (l ++ [n]) = if decide (n ∈ l) then first_appearances l else first_appearances l ++ [n].
Proof.
  unfold first_appearances. rewrite reverse_snoc. cbn [remove_dups].
  destruct (decide_rel _ n (reverse l)) as [Hn|Hn]; rewrite elem_of_reverse in Hn.
  - by rewrite decide_True.
  - by rewrite decide_False, reverse_cons.
Qed.

Lemma uniqueNames_first r : uniqueNames r = first_appearances (QName r :: (rec_Name <$> Records r)).
Proof.
  unfold uniqueNames. change (QName r :: (rec_Name <$> Records r)) with ([QName r] ++ (rec_Name <$> Records r)).
  change [QName r] with (first_appearances [QName r]) at 1.
  assert (∀ n, n ∈ ({[QName r]} : gset string) ↔ n ∈ [QName r]) as Hseen by set_solver.
  revert Hseen. generalize ({[QName r]} : gset string) [QName r]. 
  induction (Records r) as [|rec recs IH]; intros seen l Hseen; [by rewrite app_nil_r|].
  rewrite fmap_cons, cons_middle, app_assoc. cbn [foldl]. unfold uniqueNames_step at 2.
  case_decide as Hin; rewrite Hseen in Hin.
  - rewrite <-(IH seen); [|set_solver]. by rewrite first_appearances_snoc, decide_True.
  - rewrite <-(IH ({[rec_Name rec]} ∪ seen)); [|set_solver]. by rewrite first_appearances_snoc, decide_False.
Qed.

(** ** What the loops do *)

Section loops.
Context {C D : Type} {client : Client C} {lru : LRU D} {dns : DNS}.
Context (cfg : Config).
Implicit Types (s : state C D).

(** A state with another client and more metrics and debug lines. *)
Definition advance s (c : C) (ops : list metric_op) (lines : list (string * IP * string)) : state C D :=
  mkState (st_store s) c (st_dedup s)
    (if has_Metrics cfg then st_metrics s ++ ops else st_metrics s) (st_debug s ++ lines).

Lemma advance_advance s c ops lines c' ops' lines' :
  advance (advance s c ops lines) c' ops' lines' = advance s c' (ops ++ ops') (lines ++ lines').
Proof. unfold advance. cbn. destruct (has_Metrics cfg); by rewrite ?app_assoc. Qed.

Lemma advance_nil s : advance s (st_ipset s) [] [] = s.
Proof. unfold advance. rewrite !app_nil_r. destruct s. cbn. by destruct (has_Metrics cfg). Qed.

Lemma observe_advance op s : observe cfg op s = advance s (st_ipset s) [op] [].
Proof.
  unfold observe, advance. rewrite app_nil_r. destruct (has_Metrics cfg), s; done.
Qed.

(** A state after the answered writes of a list of requests. *)
Definition after s (reqs : list request) : state C D :=
  advance s (run_requests reqs (st_ipset s)).2 (answer_op <$> (run_requests reqs (st_ipset s)).1)
    (omap answer_line (run_requests reqs (st_ipset s)).1).

Lemma after_app s l1 l2 : after (after s l1) l2 = after s (l1 ++ l2).
Proof.
  unfold after. rewrite run_requests_app. cbn [st_ipset advance].
  destruct (run_requests l1 (st_ipset s)) as [a1 c1]. cbn [fst snd].
  destruct (run_requests l2 c1) as [a2 c2]. cbn [fst snd].
  by rewrite advance_advance, fmap_app, omap_app.
Qed.

Lemma handle_record_after rule s rec :
  handle_record cfg rule s rec = after s (option_list (request_of cfg rule rec)).
Proof.
  unfold handle_record, request_of, after. rewrite record_set.
  destruct (String.eqb_spec (set_of rule rec) "") as [Hset|Hset].
  { rewrite decide_True by done. cbn. by rewrite advance_nil. }
  rewrite decide_False by done. unfold advance, observe. cbn.
  destruct (client_Add _ _ _ (st_ipset s)) as [[e|] c]; cbn;
    by destruct (has_Metrics cfg); cbn; rewrite ?app_nil_r.
Qed.

Lemma handle_records_after rule s recs :
  foldl (handle_record cfg rule) s recs = after s (omap (request_of cfg rule) recs).
Proof.
  revert s. induction recs as [|rec recs IH]; intros s.
  { cbn. unfold after. cbn. by rewrite advance_nil. }
  cbn [foldl]. rewrite IH, handle_record_after, after_app. f_equal. cbn.
  by destruct (request_of cfg rule rec).
Qed.

(** One matched rule: the match is counted, then the writes follow. *)
Definition after_rule (resp : Response) s (rule : Rule) : state C D :=
  after (advance s (st_ipset s) [Inc Matches [Domain rule]] []) (omap (request_of cfg rule) (Records resp)).

Lemma handle_names_after tr resp names s :
  (∀ name, Lookup tr name ≠ (None, true)) →
  foldl (λ o name, s ← o; handle_name cfg tr resp s name) (Some s) names
  = Some (foldl (after_rule resp) s
      (omap (λ name, match Lookup tr name with (Some rule, true) => Some rule | _ => None end) names)).
Proof.
  intros Htr. revert s. induction names as [|name names IH]; intros s; [done|].
  cbn [foldl mbind option_bind]. unfold handle_name at 2. specialize (Htr name).
  destruct (Lookup tr name) as [[rule|] []] eqn:Hl; [|rewrite IH; cbn; by rewrite Hl|done|rewrite IH; cbn; by rewrite Hl].
  rewrite IH. cbn. rewrite Hl. cbn [foldl]. f_equal. f_equal.
  by rewrite handle_records_after, observe_advance.
Qed.

(** All of them: the answers of the writes in order, and the metrics up to the
    order in which matches and writes alternate. *)
Lemma after_rules resp rules s :
  let '(answers, c) :=
    run_requests (rule ← rules; omap (request_of cfg rule) (Records resp)) (st_ipset s) in
  ∃ ops, foldl (after_rule resp) s rules = advance s c ops (omap answer_line answers) ∧
    ops ≡ₚ ((λ rule, Inc Matches [Domain rule]) <$> rules) ++ (answer_op <$> answers).
Proof.
  revert s. induction rules as [|rule rules IH]; intros s.
  { cbn. exists []. by rewrite advance_nil. }
  rewrite bind_cons, run_requests_app. cbn [foldl].
  set (reqs := omap (request_of cfg rule) (Records resp)).
  set (s1 := after (advance s (st_ipset s) [Inc Matches [Domain rule]] []) reqs).
  change (after_rule resp s rule) with s1. specialize (IH s1).
  assert (st_ipset s1 = (run_requests reqs (st_ipset s)).2) as Hc by done.
  rewrite Hc in IH. unfold s1, after in IH |- *. cbn [st_ipset advance] in IH |- *.
  destruct (run_requests reqs (st_ipset s)) as [a1 c1]. cbn [fst snd] in *.
  destruct (run_requests _ c1) as [a2 c2]. destruct IH as (ops & -> & Hops).
  eexists. rewrite !advance_advance, omap_app. split; [done|].
  rewrite Hops, fmap_app, fmap_cons. cbn. constructor.
  rewrite !app_assoc. apply Permutation_app_tail. apply Permutation_app_comm.
Qed.

(** The state after the direction and the cache: [handle] up to the parser. *)
Definition admitted (now : Z) (ev : Event) s : bool * state C D :=
  let s :=
    if ev_Direction ev =? DirSend then observe cfg (Inc EventsTotal ["send"]) s
    else if ev_Direction ev =? DirRecv then observe cfg (Inc EventsTotal ["recv"]) s
    else s in
  let '(seen, d) := Seen (Payload ev) now (st_dedup s) in
  (seen, mkState (st_store s) (st_ipset s) d (st_metrics s) (st_debug s)).

(** The increment an event's direction makes. *)
Definition direction_ops (ev : Event) : list metric_op :=
  if decide (ev_Direction ev = DirSend) then [Inc EventsTotal ["send"]]
  else if decide (ev_Direction ev = DirRecv) then [Inc EventsTotal ["recv"]] else [].

Lemma admitted_spec now ev s :
  admitted now ev s =
  ((Seen (Payload ev) now (st_dedup s)).1,
   let s' := advance s (st_ipset s) (direction_ops ev) [] in
   mkState (st_store s') (st_ipset s') (Seen (Payload ev) now (st_dedup s)).2 (st_metrics s') (st_debug s')).
Proof.
  unfold admitted, direction_ops, advance. rewrite app_nil_r. unfold observe.
  destruct (Seen (Payload ev) now (st_dedup s)) as [b d] eqn:Hd.
  destruct (Z.eqb_spec (ev_Direction ev) DirSend) as [E|E];
    [rewrite decide_True by done|rewrite decide_False by done;
     destruct (Z.eqb_spec (ev_Direction ev) DirRecv) as [E'|E'];
     [rewrite decide_True by done|rewrite decide_False by done]];
    destruct (has_Metrics cfg); cbn; rewrite ?app_nil_r, Hd; done.
Qed.

Lemma handle_admitted order now ev s :
  handle cfg order now ev s =
  let '(seen, s) := admitted now ev s in
  if seen then Some (observe cfg (Inc DedupHits []) s)
  else
    match Parse order (Payload ev) with
    | Err _ => Some (observe cfg (Inc ParseErrors []) s)
    | Ok resp =>
      match StoreTrie (st_store s) with
      | None => Some s
      | Some tr => foldl (λ o name, s ← o; handle_name cfg tr resp s name) (Some s) (uniqueNames resp)
      end
    end.
Proof. unfold handle, admitted. by destruct (Seen _ now _). Qed.

End loops.

(** ** Properties *)

Section properties.
Context {C D : Type} {client : Client C} {lru : LRU D} {dns : DNS}.
Context (cfg : Config).
Implicit Types (s : state C D).

(** What an event asks for, given whether its payload was seen and the rules that
    are current: nothing when it was seen, does not parse or finds no rules, else
    the writes of its response. *)
Definition work order ev (seen : bool) (rules : option (Trie Rule)) : list request :=
  if seen then []
  else match Parse order (Payload ev), rules with
       | Ok resp, Some tr => requests cfg tr resp
       | _, _ => []
       end.

(** The increments of an event besides those of the writes. *)
Definition work_ops order ev (seen : bool) (rules : option (Trie Rule)) : list metric_op :=
  direction_ops ev ++
  if seen then [Inc DedupHits []]
  else match Parse order (Payload ev), rules with
       | Err _, _ => [Inc ParseErrors []]
       | Ok resp, Some tr => (λ rule, Inc Matches [Domain rule]) <$> matched tr resp
       | Ok resp, None => []
       end.

(** Both for an event that is handled alone. *)
Definition event_requests order now ev s : list request :=
  work order ev (Seen (Payload ev) now (st_dedup s)).1 (StoreTrie (st_store s)).
Definition event_ops order now ev s : list metric_op :=
  work_ops order ev (Seen (Payload ev) now (st_dedup s)).1 (StoreTrie (st_store s)).

Lemma handle_run order now ev s :
  store_ok (st_store s) →
  let '(answers, c) := run_requests (event_requests order now ev s) (st_ipset s) in
  ∃ s' ops, handle cfg order now ev s = Some s' ∧
    st_store s' = st_store s ∧ st_ipset s' = c ∧
    st_dedup s' = (Seen (Payload ev) now (st_dedup s)).2 ∧
    st_debug s' = st_debug s ++ omap answer_line answers ∧
    st_metrics s' = (if has_Metrics cfg then st_metrics s ++ ops else st_metrics s) ∧
    ops ≡ₚ event_ops order now ev s ++ (answer_op <$> answers).
Proof.
  intros Hstore. rewrite handle_admitted, admitted_spec. unfold event_requests, event_ops, work, work_ops.
  destruct (Seen (Payload ev) now (st_dedup s)) as [[] d]; cbn [fst snd].
  { cbn. eexists _, (direction_ops ev ++ [Inc DedupHits []]). split; [done|].
    rewrite observe_advance. unfold advance. cbn. rewrite !app_nil_r.
    repeat split; try done. destruct (has_Metrics cfg); by rewrite ?app_assoc. }
  destruct (Parse order (Payload ev)) as [resp|e].
  2:{ cbn. eexists _, (direction_ops ev ++ [Inc ParseErrors []]). split; [done|].
      rewrite observe_advance. unfold advance. cbn. rewrite !app_nil_r.
      repeat split; try done. destruct (has_Metrics cfg); by rewrite ?app_assoc. }
  cbn [st_store advance]. destruct (StoreTrie (st_store s)) as [tr|] eqn:Htr.
  2:{ cbn. eexists _, (direction_ops ev). split; [done|]. cbn. rewrite !app_nil_r. by repeat split. }
  rewrite handle_names_after by eauto with dns.
  match goal with |- context [foldl _ ?s0 _] => pose proof (after_rules cfg resp (matched tr resp) s0) as Hrules end.
  cbn [st_ipset advance] in Hrules. fold (requests cfg tr resp) in Hrules.
  destruct (run_requests (requests cfg tr resp) (st_ipset s)) as [answers c].
  destruct Hrules as (ops & Hs' & Hops).
  eexists _, (direction_ops ev ++ ops). split; [exact (f_equal Some Hs')|]. cbn. rewrite !app_nil_r.
  repeat split; try done; [destruct (has_Metrics cfg); by rewrite ?app_assoc|].
  by rewrite Hops, app_assoc.
Qed.

(** C4: handling an event with a store of loaded rules never panics. The client
    sees exactly the writes the event asks for, in order, and every one of them
    although earlier ones fail; the store is only read, the cache has seen the
    payload, and each failed write leaves one debug line. An event that was seen,
    does not parse or finds no rules writes nothing. *)
Theorem handle_effects order now ev s :
  store_ok (st_store s) →
  ∃ s', handle cfg order now ev s = Some s' ∧
    let run := run_requests (event_requests order now ev s) (st_ipset s) in
    st_ipset s' = run.2 ∧ run.1.*1 = event_requests order now ev s ∧
    st_store s' = st_store s ∧
    st_dedup s' = (Seen (Payload ev) now (st_dedup s)).2 ∧
    st_debug s' = st_debug s ++ omap answer_line run.1.
Proof.
  intros Hstore. pose proof (handle_run order now ev s Hstore) as Hrun.
  pose proof (run_requests_requests (event_requests order now ev s) (st_ipset s)) as Hreq.
  destruct (run_requests (event_requests order now ev s) (st_ipset s)) as [answers c].
  destruct Hrun as (s' & ops & Hh & Hst & Hc & Hd & Hl & _). by exists s'.
Qed.

(** ** What the metrics count *)

Definition handle_collectors : list collector :=
  [EventsTotal; DedupHits; ParseErrors; Matches; IPSetWrites; IPSetErrors].

(** An increment, with the labels it needs, of one of these collectors. *)
Definition counted (op : metric_op) : Prop :=
  match op with
  | Inc c labels => c ∈ handle_collectors ∧ length labels = length (descriptor c).2
  | Set_ _ _ => False
  end.

Ltac solve_counted := cbn; split; [set_solver|done].

Lemma answers_counted answers : Forall counted (answer_op <$> answers).
Proof. apply Forall_fmap, Forall_true. intros [r [e|]]; solve_counted. Qed.

Lemma event_ops_counted order now ev s : Forall counted (event_ops order now ev s).
Proof.
  unfold event_ops, work_ops, direction_ops. apply Forall_app. split.
  - repeat case_decide; repeat constructor; set_solver.
  - destruct (Seen _ _ _).1; [repeat constructor; set_solver|].
    destruct (Parse _ _) as [resp|e]; [|repeat constructor; set_solver].
    destruct (StoreTrie _) as [tr|]; [|done]. apply Forall_fmap, Forall_true. intros rule; solve_counted.
Qed.

(** Of the answered writes only the two last collectors count anything. *)
Lemma answers_writes answers set fam :
  counter IPSetWrites [set; fam] (answer_op <$> answers)
  = length (filter (λ a, a.2 = None ∧ req_set a.1 = set ∧ req_family a.1 = fam) answers).
Proof. apply counter_fmap. intros [r [e|]]; cbn; naive_solver. Qed.

Lemma answers_errors answers reason :
  counter IPSetErrors [reason] (answer_op <$> answers)
  = length (filter (λ a, a.2 ≠ None ∧ reason = if isMissingErr a.2 then "missing" else "other") answers).
Proof. apply counter_fmap. intros [r [e|]]; cbn; naive_solver. Qed.

Lemma answers_other c labels answers :
  c ∉ [IPSetWrites; IPSetErrors] → counter c labels (answer_op <$> answers) = 0%nat.
Proof.
  intros Hc. apply counter_none. intros op ([r [e|]] & -> & _)%list_elem_of_fmap; cbn; set_solver.
Qed.

(** The direction of an event counts for its own label only. *)
Lemma direction_counter ev c labels :
  counter c labels (direction_ops ev)
  = if decide (c = EventsTotal ∧
      (ev_Direction ev = DirSend ∧ labels = ["send"] ∨ ev_Direction ev = DirRecv ∧ labels = ["recv"]))
    then 1%nat else 0%nat.
Proof.
  unfold direction_ops. assert (DirSend ≠ DirRecv) by done.
  repeat case_decide; rewrite ?counter_cons; repeat case_decide; naive_solver congruence.
Qed.

(** The rest of an event: each other collector has its own case. *)
Lemma matched_counter tr resp d :
  counter Matches [d] ((λ rule, Inc Matches [Domain rule]) <$> matched tr resp)
  = length (filter (λ name, (Lookup tr name).2 = true ∧ Domain <$> (Lookup tr name).1 = Some d)
      (uniqueNames resp)).
Proof.
  unfold matched. induction (uniqueNames resp) as [|name names IH]; [done|].
  rewrite filter_cons. cbn [omap list_omap]. destruct (Lookup tr name) as [[rule|] []] eqn:Hl; cbn [fst snd].
  - rewrite fmap_cons, counter_cons, IH. repeat case_decide; naive_solver.
  - rewrite IH, decide_False by naive_solver. done.
  - rewrite IH, decide_False by naive_solver. done.
  - rewrite IH, decide_False by naive_solver. done.
Qed.

(** A request is for the set of the record's family. *)
Lemma event_request_family order now ev s q :
  q ∈ event_requests order now ev s → ∃ resp tr name rule rec,
    Parse order (Payload ev) = Ok resp ∧ StoreTrie (st_store s) = Some tr ∧
    name ∈ uniqueNames resp ∧ Lookup tr name = (Some rule, true) ∧
    rec ∈ Records resp ∧ req_ip q = rec_IP rec ∧
    (rec_Family rec = 4 ∧ req_set q = IPSetV4 rule ∧ req_family q = "v4" ∨
     rec_Family rec = 6 ∧ req_set q = IPSetV6 rule ∧ req_family q = "v6").
Proof.
  unfold event_requests, work. destruct (Seen _ now _).1; [by intros ?%not_elem_of_nil|].
  destruct (Parse _ _) as [resp|e]; [|by intros ?%not_elem_of_nil].
  destruct (StoreTrie _) as [tr|]; [|by intros ?%not_elem_of_nil].
  intros (rule & (rec & Hrec & Hq)%list_elem_of_omap
    & (name & Hname & Hl)%list_elem_of_omap)%list_elem_of_bind.
  exists resp, tr, name, rule, rec. do 3 (split; [done|]).
  split; [destruct (Lookup tr name) as [[?|] []]; by simplify_eq|]. split; [done|]. revert Hq.
  unfold request_of, set_of, family_label. repeat case_decide; naive_solver.
Qed.

(** The call a name and a record of a response ask for. *)
Definition call_for (tr : Trie Rule) (name : string) (rec : Record_) : option (string * IP * Z) :=
  match Lookup tr name with
  | (Some rule, true) => (λ q, (req_set q, req_ip q, req_ttl q)) <$> request_of cfg rule rec
  | _ => None
  end.

Lemma call_for_spec tr name rec set ip ttl :
  call_for tr name rec = Some (set, ip, ttl) ↔
  (∃ rule, Lookup tr name = (Some rule, true) ∧
    (rec_Family rec = 4 ∧ set = IPSetV4 rule ∨ rec_Family rec = 6 ∧ set = IPSetV6 rule)) ∧
  set ≠ "" ∧ ip = rec_IP rec ∧
  ttl = (let d := rec_TTL rec * Second in
         if decide (d ≤ 0 ∨ d < TTLMin cfg) then TTLMin cfg
         else if decide (TTLMax cfg < d) then TTLMax cfg else d).
Proof.
  assert (∀ d, ClampTTL d (TTLMin cfg) (TTLMax cfg) =
    if decide (d ≤ 0 ∨ d < TTLMin cfg) then TTLMin cfg
    else if decide (TTLMax cfg < d) then TTLMax cfg else d) as Hclamp.
  { intros d. unfold ClampTTL. repeat case_decide; solve_cmp. }
  cbv zeta. rewrite <-Hclamp. unfold call_for, request_of, set_of.
  destruct (Lookup tr name) as [[rule|] []]; [|naive_solver..].
  repeat case_decide; cbn; (split; [intros [= <- <- <-]|intros ((rule' & [= <-] & [[? ->]|[? ->]]) & ? & -> & ->)]); try done; try congruence; naive_solver.
Qed.

Lemma requests_calls tr resp :
  (λ q, (req_set q, req_ip q, req_ttl q)) <$> requests cfg tr resp
  = (name ← uniqueNames resp; omap (call_for tr name) (Records resp)).
Proof.
  unfold requests, matched. induction (uniqueNames resp) as [|name names IH]; [done|].
  rewrite bind_cons, <-IH. cbn [omap list_omap]. unfold call_for at 1.
  destruct (Lookup tr name) as [[rule|] []]; [|by rewrite (omap_none (Records resp))..].
  rewrite bind_cons, fmap_app. f_equal. apply fmap_omap.
Qed.

Lemma event_ops_counters order now ev s :
  let seen := (Seen (Payload ev) now (st_dedup s)).1 in
  let ops := event_ops order now ev s in
  (∀ labels, counter EventsTotal labels ops =
    if decide (ev_Direction ev = DirSend ∧ labels = ["send"] ∨ ev_Direction ev = DirRecv ∧ labels = ["recv"])
    then 1%nat else 0%nat) ∧
  counter DedupHits [] ops = (if seen then 1 else 0)%nat ∧
  counter ParseErrors [] ops = (if seen || is_ok (Parse order (Payload ev)) then 0 else 1)%nat ∧
  (∀ d, counter Matches [d] ops =
    match seen, Parse order (Payload ev), StoreTrie (st_store s) with
    | false, Ok resp, Some tr =>
      length (filter (λ name, (Lookup tr name).2 = true ∧ Domain <$> (Lookup tr name).1 = Some d)
        (uniqueNames resp))
    | _, _, _ => 0%nat
    end) ∧
  ∀ c labels, c ∈ [IPSetWrites; IPSetErrors] → counter c labels ops = 0%nat.
Proof.
  cbv zeta. unfold event_ops, work_ops. setoid_rewrite counter_app. setoid_rewrite direction_counter.
  assert (∀ c labels (rules : list Rule), c ≠ Matches →
    counter c labels ((λ rule, Inc Matches [Domain rule]) <$> rules) = 0%nat) as Hm.
  { intros c labels rules Hc. apply counter_none. intros op (rule & -> & _)%list_elem_of_fmap. congruence. }
  destruct (Seen _ now _).1; [|destruct (Parse _ _) as [resp|e]; [destruct (StoreTrie _) as [tr|]|]]; cbn [orb is_ok];
    (split; [|split; [|split; [|split]]]); intros;
    rewrite ?matched_counter, ?Hm, ?counter_cons by set_solver; cbn; repeat case_decide; set_solver || lia.
Qed.

(** C32: the metrics account for every event, label by label. Its direction is
    counted under its own label, a payload seen before as a dedup hit, one that
    was not and does not parse as a parse error; each rule's domain counts the
    names of the response that find it, each set and family the writes that
    succeeded and each reason those that failed, the family being that of the
    address. Nothing else is counted, and nothing at all without metrics. *)
Theorem handle_metrics order now ev s :
  store_ok (st_store s) →
  let seen := (Seen (Payload ev) now (st_dedup s)).1 in
  let answers := (run_requests (event_requests order now ev s) (st_ipset s)).1 in
  ∃ s' ops, handle cfg order now ev s = Some s' ∧
    st_metrics s' = (if has_Metrics cfg then st_metrics s ++ ops else st_metrics s) ∧
    Forall counted ops ∧
    (∀ labels, counter EventsTotal labels ops =
      if decide (ev_Direction ev = DirSend ∧ labels = ["send"] ∨ ev_Direction ev = DirRecv ∧ labels = ["recv"])
      then 1%nat else 0%nat) ∧
    counter DedupHits [] ops = (if seen then 1 else 0)%nat ∧
    counter ParseErrors [] ops = (if seen || is_ok (Parse order (Payload ev)) then 0 else 1)%nat ∧
    (∀ d, counter Matches [d] ops =
      match seen, Parse order (Payload ev), StoreTrie (st_store s) with
      | false, Ok resp, Some tr =>
        length (filter (λ name, (Lookup tr name).2 = true ∧ Domain <$> (Lookup tr name).1 = Some d)
          (uniqueNames resp))
      | _, _, _ => 0%nat
      end) ∧
    (∀ set fam, counter IPSetWrites [set; fam] ops
      = length (filter (λ a, a.2 = None ∧ req_set a.1 = set ∧ req_family a.1 = fam) answers)) ∧
    (∀ reason, counter IPSetErrors [reason] ops
      = length (filter (λ a, a.2 ≠ None ∧ reason = if isMissingErr a.2 then "missing" else "other") answers)) ∧
    ∀ a, a ∈ answers → ∃ resp tr name rule rec,
      Parse order (Payload ev) = Ok resp ∧ StoreTrie (st_store s) = Some tr ∧
      name ∈ uniqueNames resp ∧ Lookup tr name = (Some rule, true) ∧
      rec ∈ Records resp ∧ req_ip a.1 = rec_IP rec ∧
      (rec_Family rec = 4 ∧ req_set a.1 = IPSetV4 rule ∧ req_family a.1 = "v4" ∨
       rec_Family rec = 6 ∧ req_set a.1 = IPSetV6 rule ∧ req_family a.1 = "v6").
Proof.
  intros Hstore. cbv zeta. pose proof (handle_run order now ev s Hstore) as Hrun.
  pose proof (run_requests_requests (event_requests order now ev s) (st_ipset s)) as Hreq.
  destruct (run_requests (event_requests order now ev s) (st_ipset s)) as [answers c]. cbn [fst] in *.
  destruct Hrun as (s' & ops & Hh & _ & _ & _ & _ & Hm & Hops). exists s', ops.
  split; [done|]. split; [done|].
  split; [rewrite Hops; apply Forall_app; split; [apply event_ops_counted|apply answers_counted]|].
  setoid_rewrite Hops. setoid_rewrite counter_app.
  destruct (event_ops_counters order now ev s) as (He & Hd & Hp & Hma & Hw).
  setoid_rewrite He. setoid_rewrite Hd. setoid_rewrite Hp. setoid_rewrite Hma.
  rewrite !answers_other by set_solver.
  split; [intros; by rewrite answers_other, Nat.add_0_r by set_solver|].
  split; [by rewrite Nat.add_0_r|]. split; [by rewrite Nat.add_0_r|].
  split; [intros; by rewrite answers_other, Nat.add_0_r by set_solver|].
  split; [intros; by rewrite Hw, answers_writes by set_solver|].
  split; [intros; by rewrite Hw, answers_errors by set_solver|].
  intros a Ha. apply (event_request_family order now ev s). rewrite <-Hreq. by apply list_elem_of_fmap_2.
Qed.

(** C12: for a response that is not a duplicate, parses and meets rules, the
    client is called for the question's name and each owner name, once per name
    in the order of first appearance, and for each of them once per record of the
    response, in order: when the name finds a rule and the rule has a set for the
    record's family, the record's address goes into that set for its TTL, which
    the bounds cut and zero takes to the lower one. Nothing else is called, so a
    match by one name writes the addresses of all names, and neither a missing
    rule nor a failed call skips what follows. *)
Theorem handle_writes order now ev s resp tr :
  store_ok (st_store s) → (Seen (Payload ev) now (st_dedup s)).1 = false →
  Parse order (Payload ev) = Ok resp → StoreTrie (st_store s) = Some tr →
  ∃ s' (asked : string → Record_ → option (string * IP * Z)),
    handle cfg order now ev s = Some s' ∧
    st_ipset s' = foldl (λ c '(set, ip, ttl), (client_Add set ip ttl c).2) (st_ipset s)
      (name ← reverse (remove_dups (reverse (QName resp :: (rec_Name <$> Records resp))));
       omap (asked name) (Records resp)) ∧
    ∀ name rec set ip ttl, asked name rec = Some (set, ip, ttl) ↔
      (∃ rule, Lookup tr name = (Some rule, true) ∧
        (rec_Family rec = 4 ∧ set = IPSetV4 rule ∨ rec_Family rec = 6 ∧ set = IPSetV6 rule)) ∧
      set ≠ "" ∧ ip = rec_IP rec ∧
      ttl = (let d := rec_TTL rec * Second in
             if decide (d ≤ 0 ∨ d < TTLMin cfg) then TTLMin cfg
             else if decide (TTLMax cfg < d) then TTLMax cfg else d).
Proof.
  intros Hstore Hseen Hparse Htr. pose proof (handle_run order now ev s Hstore) as Hrun.
  unfold event_requests, work in Hrun. rewrite Hseen, Hparse, Htr in Hrun.
  pose proof (run_requests_foldl (requests cfg tr resp) (st_ipset s)) as Hfold.
  destruct (run_requests (requests cfg tr resp) (st_ipset s)) as [answers c]. cbn [snd] in Hfold.
  destruct Hrun as (s' & ops & Hh & _ & Hc & _).
  exists s', (call_for tr). split; [done|]. split; [by rewrite Hc, Hfold, requests_calls, uniqueNames_first|].
  intros. apply call_for_spec.
Qed.

End properties.

(** ** The reason label, with the netlink client *)

Section reason.
Context {W : Type} {kernel : Kernel W} {overflow : Uint32Overflow} {print : PrintTable}.

Lemma Contains_app_r a b sub : Contains b sub = true → Contains (a +:+ b) sub = true.
Proof. rewrite !Contains_spec. intros (x & y & ->). exists (a +:+ x), y. by rewrite string_app_assoc. Qed.
Lemma Contains_app_l a b sub : Contains a sub = true → Contains (a +:+ b) sub = true.
Proof. rewrite !Contains_spec. intros (x & y & ->). exists x, (y +:+ b). by rewrite !string_app_assoc. Qed.

(** The blank-separated words of the text of a failed add. *)
Lemma add_text_words set ip :
  " "%char ∉ String.list_ascii_of_string set → " "%char ∉ String.list_ascii_of_string ip →
  Split ("ipset add " +:+ set +:+ " " +:+ ip) " " = ["ipset"; "add"; set; ip].
Proof.
  intros Hs Hi.
  change ("ipset add " +:+ set +:+ " " +:+ ip) with ("ipset" +:+ String " " ("add" +:+ String " " (set +:+ String " " ip))).
  by rewrite !Split_app_sep, (Split_no_sep set), (Split_no_sep ip) by done.
Qed.

(** None of them makes up the phrase the label looks for. *)
Lemma add_text_phrase set ip :
  " "%char ∉ String.list_ascii_of_string set → " "%char ∉ String.list_ascii_of_string ip →
  Contains ("ipset add " +:+ set +:+ " " +:+ ip) "does not exist" = false.
Proof.
  intros Hs Hi. apply not_true_iff_false. intros (x & y & Hxy)%Contains_spec.
  pose proof (add_text_words set ip Hs Hi) as Hw. rewrite Hxy in Hw.
  replace (x +:+ "does not exist" +:+ y)
    with ((x +:+ "does") +:+ String " " ("not" +:+ String " " ("exist" +:+ y))) in Hw
    by (by rewrite string_app_assoc).
  rewrite !Split_app_sep in Hw. change (Split "not" " ") with ["not"] in Hw.
  pose proof (Split_nonempty (x +:+ "does") " ") as Hx. pose proof (Split_nonempty ("exist" +:+ y) " ") as Hy.
  destruct (Split (x +:+ "does") " ") as [|w1 [|w2 [|w3 ws]]] eqn:Hx'; cbn in Hw; simplify_eq.
  - assert (Join ["ipset"; "add"] " " = x +:+ "does") as Hj by (by rewrite <-Hx', Join_Split).
    cbn in Hj. repeat (destruct x as [|? x]; cbn in Hj; try discriminate; injection Hj as _ Hj).
  - destruct ws as [|w4 ws]; cbn in *; [|destruct ws]; simplify_eq.
Qed.

(** C33: the reason counted for a failed netlink write is "missing" whenever the
    kernel reports a missing set. For the other failures it is "other", unless
    the text of the error happens to say otherwise: it is "missing" exactly when
    the name of the set or the kernel's text contains the word, so that a set
    named for missing hosts turns every failure into a missing set. *)
Theorem reason_label set ip ttl (n : Netlink W) (w : W) cause :
  set ≠ "" → ip ≠ None →
  (IpsetAdd set (mkEntry ip (f64_uint32 (Seconds ttl)) true) w).1 = Some cause →
  " "%char ∉ String.list_ascii_of_string set → " "%char ∉ String.list_ascii_of_string (IP_String ip) →
  Contains (IP_String ip) "missing" = false →
  isMissingErr (client_Add set ip ttl (n, w)).1
  = isMissingSet (Some cause) || Contains set "missing" || Contains cause "missing".
Proof.
  intros Hset Hip Hcall Hbs Hbi Him. cbn [client_Add Netlink_Client]. unfold Add.
  rewrite (bool_decide_eq_false_2 _ Hset), (bool_decide_eq_false_2 _ Hip). cbn [orb].
  destruct (IpsetAdd set _ w) as [err w']. cbn in Hcall. subst err.
  destruct (isMissingSet (Some cause)) eqn:Hmiss; cbn [fst fmap option_fmap option_map isMissingErr orb].
  - apply orb_true_iff. left. unfold add_error_string.
    do 2 apply Contains_app_r. by apply Contains_app_l.
  - unfold add_error_string.
    replace ("ipset add " +:+ set +:+ " " +:+ IP_String ip +:+ ": " +:+ cause)
      with (("ipset add " +:+ set +:+ " " +:+ IP_String ip) +:+ String ":" (String " " cause))
      by (by rewrite !string_app_assoc).
    rewrite !(Contains_app_sep _ _ _ ":") by (done || by apply (bool_decide_unpack _)).
    rewrite add_text_phrase by done. apply orb_false_iff in Hmiss as [Hdne _].
    change (Contains (String " " cause) "missing") with (Contains cause "missing").
    change (Contains (String " " cause) "does not exist") with (Contains cause "does not exist").
    rewrite Hdne, !orb_false_r. f_equal.
    change ("ipset add " +:+ set +:+ " " +:+ IP_String ip)
      with ("ipset" +:+ String " " ("add" +:+ String " " (set +:+ String " " (IP_String ip)))).
    rewrite !(Contains_app_sep _ _ _ " ") by (done || by apply (bool_decide_unpack _)).
    by rewrite Him, orb_false_r.
Qed.

End reason.

(** ** Instances of the properties *)

(** A client that records its calls and refuses one set. *)
Definition recording : Type := list (string * IP * Z).
#[local] Instance recording_Client : Client recording := {
  client_Add set ip ttl c :=
    if decide (set = "full") then (Some "Hash is full", c ++ [(set, ip, ttl)])
    else (None, c ++ [(set, ip, ttl)]);
  client_Close c := (None, c);
}.
#[local] Existing Instance sample_dns.

Definition sample_cfg : Config := New (mkConfig 0 (60 * Second) (604800 * Second) true).

Definition sample_rules : RuleSet :=
  mkRuleSet 1 [Some (mkRule "z.example" "full" ""); Some (mkRule "example" "allow" "allow6")] [].

Definition sample_state : state recording list_lru :=
  mkState (default NewStore (Replace (Some sample_rules) NewStore)) [] sample_dedup [] [].

Definition sample_event : Event := mkEvent 1 DirSend 4 53 4242 [Byte.x01].

Lemma sample_store_ok : store_ok (st_store sample_state).
Proof.
  destruct (store_ok_Replace sample_rules NewStore) as (s & Hs & Hok).
  - repeat constructor; eauto.
  - apply store_ok_New.
  - unfold sample_state. cbn [st_store]. rewrite Hs. exact Hok.
Qed.

(** Both rules match; the failing set does not stop the other one. *)
Example handle_ex :
  ((λ s, (st_ipset s, st_metrics s)) <$> handle sample_cfg sample_order 0 sample_event sample_state)
  = Some ([("allow", Some (byte_of_Z <$> [192; 0; 2; 1]), 60 * Second);
           ("allow", Some (byte_of_Z <$> [192; 0; 2; 1]), 60 * Second);
           ("allow", Some (byte_of_Z <$> [192; 0; 2; 1]), 60 * Second);
           ("allow", Some (byte_of_Z <$> [192; 0; 2; 1]), 60 * Second);
           ("allow", Some (byte_of_Z <$> [192; 0; 2; 1]), 60 * Second);
           ("allow", Some (byte_of_Z <$> [192; 0; 2; 1]), 60 * Second)],
          [Inc EventsTotal ["send"]; Inc Matches ["example"];
           Inc IPSetWrites ["allow"; "v4"]; Inc IPSetWrites ["allow"; "v4"];
           Inc Matches ["example"]; Inc IPSetWrites ["allow"; "v4"]; Inc IPSetWrites ["allow"; "v4"];
           Inc Matches ["example"]; Inc IPSetWrites ["allow"; "v4"]; Inc IPSetWrites ["allow"; "v4"]]).
Proof. vm_compute. reflexivity. Qed.

Lemma handle_effects_witness :
  ∃ s', handle sample_cfg sample_order 0 sample_event sample_state = Some s' ∧
    st_ipset s' = (run_requests (event_requests sample_cfg sample_order 0 sample_event sample_state) []).2.
Proof.
  destruct (handle_effects sample_cfg sample_order 0 sample_event sample_state sample_store_ok)
    as (s' & Hs' & Hc & _).
  exists s'. split; [exact Hs'|exact Hc].
Defined.

Lemma handle_metrics_witness :
  ∃ s' ops, handle sample_cfg sample_order 0 sample_event sample_state = Some s' ∧
    st_metrics s' = st_metrics sample_state ++ ops ∧
    counter Metrics.EventsTotal ["send"] ops = 1%nat ∧ counter Matches ["example"] ops = 3%nat ∧
    counter IPSetWrites ["allow"; "v4"] ops = 6%nat ∧ counter IPSetErrors ["other"] ops = 0%nat.
Proof.
  destruct (handle_metrics sample_cfg sample_order 0 sample_event sample_state sample_store_ok)
    as (s' & ops & Hs' & Hm & _ & He & _ & _ & Hma & Hw & Hr & _).
  exists s', ops. split; [exact Hs'|]. split; [exact Hm|]. rewrite He, Hma, Hw, Hr.
  vm_compute. repeat split.
Defined.

Lemma handle_writes_witness :
  ∃ resp tr s' asked, Parse sample_order (Payload sample_event) = Ok resp ∧
    StoreTrie (st_store sample_state) = Some tr ∧
    handle sample_cfg sample_order 0 sample_event sample_state = Some s' ∧
    st_ipset s' = foldl (λ c '(set, ip, ttl), (client_Add set ip ttl c).2) (st_ipset sample_state)
      (name ← reverse (remove_dups (reverse (QName resp :: (rec_Name <$> Records resp))));
       omap (asked name) (Records resp)) ∧
    length (st_ipset s') = 6%nat.
Proof.
  destruct (Parse sample_order (Payload sample_event)) as [resp|e] eqn:Hparse; [|by vm_compute in Hparse].
  destruct (StoreTrie (st_store sample_state)) as [tr|] eqn:Htr; [|by vm_compute in Htr].
  assert ((Seen (Payload sample_event) 0 (st_dedup sample_state)).1 = false) as Hseen
    by (vm_compute; reflexivity).
  destruct (handle_writes sample_cfg sample_order 0 sample_event sample_state resp tr sample_store_ok
    Hseen Hparse Htr) as (s' & asked & Hs' & Hc & _).
  exists resp, tr, s', asked. split; [reflexivity|]. split; [reflexivity|]. split; [exact Hs'|].
  split; [exact Hc|]. vm_compute in Hs'. injection Hs' as <-. reflexivity.
Defined.

Lemma reason_label_witness :
  isMissingErr (client_Add (C := Netlink sample_world * sample_world)
    (Client := Netlink_Client (kernel := {| IpsetAdd _ _ w := (Some "Hash is full", w); Now w := (0, w) |})
                 (overflow := sample_overflow) (print := sample_print))
    "missing_v4" (IPv4 192 0 2 1) (60 * Second) sample_client).1 = true.
Proof.
  refine (eq_trans (reason_label (kernel := {| IpsetAdd _ _ w := (Some "Hash is full", w); Now w := (0, w) |})
    (overflow := sample_overflow) (print := sample_print)
    "missing_v4" (IPv4 192 0 2 1) (60 * Second) sample_client.1 sample_client.2 "Hash is full"
    _ _ _ _ _ _) _).
  - done.
  - done.
  - reflexivity.
  - apply (bool_decide_unpack _). vm_compute. exact I.
  - apply (bool_decide_unpack _). vm_compute. exact I.
  - reflexivity.
  - reflexivity.
Defined.
