(* ===== verification/PipelineRun.v ===== *)
(** * The goroutines of the pipeline ([internal/pipeline/pipeline.go], [Run])

    [Run] starts one source goroutine and [Workers] worker goroutines around a
    buffered channel, waits for the source, closes the channel and waits for the
    workers. The model is a step relation on the state of these goroutines and
    channels; the source is any instance of the interface [Source], handling an
    event is any relation [process] on a shared state. A call of [handle] is one
    step: overlapping calls are in [Workers], what they do to the dedup cache also
    in [Dedup]. *)

From S2P Require Import Prelude GoBytes Source.

(** ** State *)

(** [make(chan source.Event, 1024)] *)
Definition chan_cap : nat := 1024.

Inductive worker := Idle | Busy (ev : Event) | Leaving | Gone.
#[global] Instance worker_eq_dec : EqDecision worker.
Proof. solve_decision. Defined.

(** The body of [Run] after the goroutines are started. *)
Inductive main_phase :=
| WaitSource
| Draining (i : nat) (err : option string)
| Returned (err : option string).

Inductive reg_op := Register | Unregister.

(** The history of a run, for its properties: the events sent on the channel,
    received from it and handled, and the calls on the metrics registry. *)
Record history := mkHistory {
  h_sent : list Event;
  h_taken : list Event;
  h_handled : list Event;
  h_registry : list reg_op;
}.

(** The dependencies [Run] checks, and whether the gauge could be registered
    ([None] without metrics). *)
Record deps := mkDeps {
  has_Source : bool;
  has_IPSet : bool;
  has_Store : bool;
  has_Dedup : bool;
  gauge_registers : option bool;
}.

Section run.
Context {S T : Type} {source : Source S}.
Context (process : Event → T → T → Prop) (env : T → T → Prop).

(** The goroutine of the source: inside [Run], or past its send on [srcDone]. *)
Inductive src_goroutine := SrcRunning (s : S) | SrcFinished (s : S).

Record run := mkRun {
  ctx : bool;
  src : src_goroutine;
  srcDone : option (option string);
  buf : list Event;
  closed : bool;
  workers : list worker;
  workerDone : nat;
  main : main_phase;
  registered : bool;
  world : T;
  panicked : bool;
  hist : history;
}.

(** [Run] up to the point where all goroutines run. *)
Definition Run_start (d : deps) (W : nat) (s : S) (t : T) : result string run :=
  if negb (has_Source d) || negb (has_IPSet d) || negb (has_Store d) || negb (has_Dedup d)
  then Err "pipeline: missing dependency"
  else
    let registry := match gauge_registers d with Some _ => [Register] | None => [] end in
    Ok (mkRun false (SrcRunning s) None [] false (replicate W Idle) 0 WaitSource
          (default false (gauge_registers d)) t false (mkHistory [] [] [] registry)).

Definition set_src (r : run) src srcDone :=
  mkRun (ctx r) src srcDone (buf r) (closed r) (workers r) (workerDone r) (main r) (registered r)
    (world r) (panicked r) (hist r).
Definition set_chan (r : run) buf closed :=
  mkRun (ctx r) (src r) (srcDone r) buf closed (workers r) (workerDone r) (main r) (registered r)
    (world r) (panicked r) (hist r).
Definition set_workers (r : run) workers workerDone :=
  mkRun (ctx r) (src r) (srcDone r) (buf r) (closed r) workers workerDone (main r) (registered r)
    (world r) (panicked r) (hist r).
Definition set_main (r : run) main srcDone :=
  mkRun (ctx r) (src r) srcDone (buf r) (closed r) (workers r) (workerDone r) main (registered r)
    (world r) (panicked r) (hist r).
Definition set_world (r : run) ctx world :=
  mkRun ctx (src r) (srcDone r) (buf r) (closed r) (workers r) (workerDone r) (main r) (registered r)
    world (panicked r) (hist r).
Definition set_panicked (r : run) :=
  mkRun (ctx r) (src r) (srcDone r) (buf r) (closed r) (workers r) (workerDone r) (main r) (registered r)
    (world r) true (hist r).
Definition set_hist (r : run) hist :=
  mkRun (ctx r) (src r) (srcDone r) (buf r) (closed r) (workers r) (workerDone r) (main r) (registered r)
    (world r) (panicked r) hist.

Definition note_sent (r : run) e :=
  set_hist r (mkHistory (h_sent (hist r) ++ [e]) (h_taken (hist r)) (h_handled (hist r)) (h_registry (hist r))).
Definition note_taken (r : run) e :=
  set_hist r (mkHistory (h_sent (hist r)) (h_taken (hist r) ++ [e]) (h_handled (hist r)) (h_registry (hist r))).
Definition note_handled (r : run) e :=
  set_hist r (mkHistory (h_sent (hist r)) (h_taken (hist r)) (h_handled (hist r) ++ [e]) (h_registry (hist r))).
Definition note_registry (r : run) ops :=
  set_hist r (mkHistory (h_sent (hist r)) (h_taken (hist r)) (h_handled (hist r)) (h_registry (hist r) ++ ops)).

(** ** Steps *)

(** The goroutines of [Run]. *)
Inductive sys_step : run → run → Prop :=
(** The source works, sends, or returns; a send needs room in the channel, and
    on a closed channel it panics. *)
| source_tau r s s' :
  src r = SrcRunning s → src_step (ctx r) s SrcTau s' →
  sys_step r (set_src r (SrcRunning s') (srcDone r))
| source_send r s s' e :
  src r = SrcRunning s → src_step (ctx r) s (SrcSend e) s' → closed r = false →
  (length (buf r) < chan_cap)%nat →
  sys_step r (note_sent (set_chan (set_src r (SrcRunning s') (srcDone r)) (buf r ++ [e]) false) e)
| source_send_closed r s s' e :
  src r = SrcRunning s → src_step (ctx r) s (SrcSend e) s' → closed r = true →
  sys_step r (set_panicked r)
| source_return r s s' err :
  src r = SrcRunning s → src_step (ctx r) s (SrcReturn err) s' → srcDone r = None →
  sys_step r (set_src r (SrcFinished s') (Some err))
(** A worker receives an event, handles it, or leaves its loop once the channel
    is closed and empty; its deferred send needs room in [workerDone]. *)
| worker_receive r i e es :
  workers r !! i = Some Idle → buf r = e :: es →
  sys_step r (note_taken (set_workers (set_chan r es (closed r)) (<[i := Busy e]> (workers r)) (workerDone r)) e)
| worker_handle r i e t :
  workers r !! i = Some (Busy e) → process e (world r) t →
  sys_step r (note_handled (set_world (set_workers r (<[i := Idle]> (workers r)) (workerDone r)) (ctx r) t) e)
| worker_leave r i :
  workers r !! i = Some Idle → buf r = [] → closed r = true →
  sys_step r (set_workers r (<[i := Leaving]> (workers r)) (workerDone r))
| worker_done r i :
  workers r !! i = Some Leaving → (workerDone r < length (workers r))%nat →
  sys_step r (set_workers r (<[i := Gone]> (workers r)) (workerDone r + 1))
(** [Run] itself. *)
| main_close r err :
  main r = WaitSource → srcDone r = Some err →
  sys_step r (set_chan (set_main r (Draining 0 err) None) (buf r) true)
| main_drain r i err n :
  main r = Draining i err → (i < length (workers r))%nat → workerDone r = (n + 1)%nat →
  sys_step r (set_workers (set_main r (Draining (i + 1) err) (srcDone r)) (workers r) n)
| main_return r err :
  main r = Draining (length (workers r)) err →
  sys_step r (note_registry (set_main r (Returned err) (srcDone r))
                (if registered r then [Unregister] else [])).

(** What goes on around it: the context is canceled, the rules are reloaded. *)
Inductive env_step : run → run → Prop :=
| env_cancel r : env_step r (set_world r true (world r))
| env_world r t : env (world r) t → env_step r (set_world r (ctx r) t).

Definition step (r r' : run) : Prop := sys_step r r' ∨ env_step r r'.

End run.
Arguments run : clear implicits.
Arguments src_goroutine : clear implicits.

(** ** Sums over the workers *)

Definition weight (f : worker → nat) (ws : list worker) : nat := sum_list_with f ws.
#[local] Arguments weight : simpl never.

Lemma weight_insert f ws i w w' :
  ws !! i = Some w → (weight f (<[i := w']> ws) + f w = weight f ws + f w')%nat.
Proof.
  unfold weight. revert i. induction ws as [|v ws IH]; intros [|i] Hi; simplify_eq/=; [lia|].
  specialize (IH i Hi). lia.
Qed.

Lemma weight_ge f ws n : (∀ w, (n ≤ f w)%nat) → (n * length ws ≤ weight f ws)%nat.
Proof.
  intros Hf. unfold weight. induction ws as [|w ws IH]; [cbn; lia|].
  cbn. pose proof (Hf w). lia.
Qed.

Definition is_gone (w : worker) : nat := match w with Gone => 1 | _ => 0 end.

(** The event a worker holds. *)
Definition held (w : worker) : option Event := match w with Busy e => Some e | _ => None end.
Definition in_hand (ws : list worker) : list Event := omap held ws.

Lemma in_hand_insert ws i w w' :
  ws !! i = Some w →
  option_list (held w) ++ in_hand (<[i := w']> ws) ≡ₚ option_list (held w') ++ in_hand ws.
Proof.
  intros Hi. rewrite insert_take_drop by (by eapply lookup_lt_Some).
  rewrite <-(take_drop_middle ws i w Hi) at 3. unfold in_hand. rewrite !omap_app. cbn.
  destruct (held w), (held w'); cbn; rewrite <-?Permutation_middle; done || apply perm_swap.
Qed.

Lemma in_hand_replicate n : in_hand (replicate n Idle) = [].
Proof. by induction n. Qed.

Lemma weight_replicate f n : f Idle = 0%nat → weight f (replicate n Idle) = 0%nat.
Proof. intros Hf. unfold weight. induction n as [|n IH]; [done|]. cbn. by rewrite Hf, IH. Qed.

Lemma weight_gone_le ws : (weight is_gone ws ≤ length ws)%nat.
Proof.
  unfold weight. induction ws as [|w ws IH]; [done|]. cbn. destruct w; cbn; lia.
Qed.

(** All workers gone: none holds an event. *)
Lemma weight_gone_all ws : (length ws ≤ weight is_gone ws)%nat → Forall (λ w, w = Gone) ws.
Proof.
  induction ws as [|w ws IH]; intros Hlen; [done|]. cbn in Hlen.
  pose proof (weight_gone_le ws). unfold weight in *. cbn in Hlen.
  destruct w; cbn in Hlen; try lia. constructor; [done|]. apply IH. lia.
Qed.

(** Some worker is not gone yet. *)
Lemma weight_gone_some ws : (weight is_gone ws < length ws)%nat → ∃ i w, ws !! i = Some w ∧ w ≠ Gone.
Proof.
  unfold weight. induction ws as [|w ws IH]; cbn; [lia|]. intros Hlt.
  destruct (decide (w = Gone)) as [->|Hw]; [|by exists 0%nat, w].
  destruct IH as (i & w & Hi & Hw); [cbn in Hlt; lia|]. by exists (Datatypes.S i), w.
Qed.

(** ** The invariant *)

Section invariant.
Context {S T : Type} {source : Source S} {laws : SourceLaws S}.
Context (process : Event → T → T → Prop) (env : T → T → Prop) (ok : T → Prop).
Context (ok_process : ∀ e t t', ok t → process e t t' → ok t') (ok_env : ∀ t t', ok t → env t t' → ok t').
Context (W : nat) (s0 : S) (t0 : T) (d : deps).
Implicit Types (r : run S T).

(** The world after handling events, with changes from outside in between. *)
Inductive handled_from : T → list Event → T → Prop :=
| handled_nil t : handled_from t [] t
| handled_event t es t' e t'' :
  handled_from t es t' → process e t' t'' → handled_from t (es ++ [e]) t''
| handled_env t es t' t'' : handled_from t es t' → env t' t'' → handled_from t es t''.

Definition drained (m : main_phase) : nat :=
  match m with WaitSource => 0 | Draining i _ => i | Returned _ => W end.

(** Where the error of the source is, once it has returned. *)
Definition result_of r : option (option string) :=
  match main r with
  | WaitSource => srcDone r
  | Draining _ err | Returned err => Some err
  end.

Definition src_state r : S := match src r with SrcRunning s | SrcFinished s => s end.

(** The goroutine of the source and the body of [Run] are in step. *)
Definition phases_ok r : Prop :=
  match main r, src r with
  | WaitSource, SrcRunning s => closed r = false ∧ srcDone r = None ∧ ¬ src_returned s
  | WaitSource, SrcFinished _ => closed r = false ∧ is_Some (srcDone r)
  | Draining i _, SrcFinished _ => closed r = true ∧ (i ≤ W)%nat
  | Returned _, SrcFinished _ => closed r = true
  | _, SrcRunning _ => False
  end.

(** What the source has done is a run of it, with its events and its error. *)
Definition source_ok r : Prop :=
  ∃ ls, src_run s0 ls (src_state r) ∧ sent ls = h_sent (hist r) ∧
    ∀ err, result_of r = Some err → ∃ ls' c, ls = ls' ++ [(c, SrcReturn err)].

Record inv r : Prop := {
  inv_panic : panicked r = false;
  inv_workers : length (workers r) = W;
  inv_cap : (length (buf r) ≤ chan_cap)%nat;
  inv_phases : phases_ok r;
  inv_count : weight is_gone (workers r) = (drained (main r) + workerDone r)%nat;
  inv_left : ∀ i w, workers r !! i = Some w → w = Leaving ∨ w = Gone → closed r = true ∧ buf r = [];
  inv_fifo : h_sent (hist r) = h_taken (hist r) ++ buf r;
  inv_hand : h_taken (hist r) ≡ₚ h_handled (hist r) ++ in_hand (workers r);
  inv_source : source_ok r;
  inv_world : ok (world r) ∧ handled_from t0 (h_handled (hist r)) (world r);
  inv_registry : registered r = default false (gauge_registers d) ∧
    h_registry (hist r)
    = match gauge_registers d with Some _ => [Register] | None => [] end
      ++ match main r with Returned _ => if registered r then [Unregister] else [] | _ => [] end;
}.

Lemma inv_start r :
  ¬ src_returned s0 → ok t0 → Run_start d W s0 t0 = Ok r → inv r.
Proof.
  unfold Run_start. case_match; [done|]. intros Hs Ht [= <-]. split; cbn; try done.
  - apply length_replicate.
  - unfold chan_cap. lia.
  - by rewrite weight_replicate.
  - intros i w Hi%lookup_replicate_1 [-> | ->]; by destruct Hi.
  - by rewrite in_hand_replicate.
  - exists []. split; [constructor|]. split; [done|]. done.
  - split; [done|constructor].
  - split; [done|]. by rewrite app_nil_r.
Qed.

(** A step of the source extends its run. *)
Lemma source_ok_extend r s ls l s' :
  src_state r = s → src_run s0 ls s → sent ls = h_sent (hist r) → src_step (ctx r) s l s' →
  src_run s0 (ls ++ [(ctx r, l)]) s' ∧
  sent (ls ++ [(ctx r, l)]) = h_sent (hist r) ++ match l with SrcSend e => [e] | _ => [] end.
Proof.
  intros <- Hrun Hsent Hstep. split; [by eapply run_snoc|]. by rewrite sent_snoc, Hsent.
Qed.

(** While the source runs, [Run] waits for it and there is no result yet. *)
Lemma running_waits r s :
  inv r → src r = SrcRunning s →
  main r = WaitSource ∧ closed r = false ∧ srcDone r = None ∧ ¬ src_returned s ∧ src_state r = s.
Proof.
  intros Hi Hs. pose proof (inv_phases r Hi) as Hp. unfold phases_ok, src_state in *. rewrite Hs in *.
  destruct (main r); [tauto|done|done].
Qed.

Lemma source_step_inv r r' s l s' :
  inv r → src r = SrcRunning s → src_step (ctx r) s l s' →
  r' = match l with
       | SrcTau => set_src r (SrcRunning s') (srcDone r)
       | SrcSend e => note_sent (set_chan (set_src r (SrcRunning s') (srcDone r)) (buf r ++ [e]) false) e
       | SrcReturn err => set_src r (SrcFinished s') (Some err)
       end →
  (∀ e, l = SrcSend e → (length (buf r) < chan_cap)%nat) → inv r'.
Proof.
  intros Hi Hs Hstep Hr' Hroom.
  destruct (running_waits r s Hi Hs) as (Hm & Hcl & Hd & Hnr & Hst).
  destruct Hi as [Hp Hw Hc Hph Hcnt Hleft Hfifo Hhand (ls & Hrun & Hsent & _) Hwd Hreg].
  rewrite Hst in Hrun.
  destruct (source_ok_extend r s ls l s' Hst Hrun Hsent Hstep) as [Hrun' Hsent'].
  pose proof (src_step_returned _ _ _ _ Hstep) as Hret.
  destruct l as [|e|err]; subst r'; split; cbn; try done;
    unfold phases_ok, source_ok, src_state, result_of; cbn; rewrite ?Hm, ?Hcl in *; try done.
  - split; [done|]. split; [done|]. rewrite Hret. by intros [].
  - exists (ls ++ [(ctx r, SrcTau)]). rewrite app_nil_r in Hsent'. split; [done|]. split; [done|].
    by rewrite Hd.
  - rewrite length_app. cbn. specialize (Hroom e eq_refl). lia.
  - split; [done|]. split; [done|]. rewrite Hret. by intros [].
  - intros i w Hi Hg. by destruct (Hleft i w Hi Hg).
  - by rewrite Hfifo, app_assoc.
  - exists (ls ++ [(ctx r, SrcSend e)]). split; [done|]. split; [done|]. by rewrite Hd.
  - exists (ls ++ [(ctx r, SrcReturn err)]). rewrite app_nil_r in Hsent'. split; [done|]. split; [done|].
    intros err' [= <-]. by exists ls, (ctx r).
Qed.

(** A worker's step: what its place and the channel become. *)
Lemma worker_step_inv r r' i w w' :
  inv r → workers r !! i = Some w → workers r' = <[i := w']> (workers r) →
  panicked r' = panicked r → src r' = src r → srcDone r' = srcDone r → closed r' = closed r →
  main r' = main r → registered r' = registered r →
  h_sent (hist r') = h_sent (hist r) → h_registry (hist r') = h_registry (hist r) →
  (length (buf r') ≤ length (buf r))%nat →
  (workerDone r' + is_gone w = workerDone r + is_gone w')%nat →
  (closed r = true → buf r = [] → buf r' = []) →
  (w' = Leaving ∨ w' = Gone → closed r = true ∧ buf r' = []) →
  h_taken (hist r') ++ buf r' = h_taken (hist r) ++ buf r →
  h_taken (hist r') ++ option_list (held w) ++ h_handled (hist r)
    ≡ₚ h_taken (hist r) ++ option_list (held w') ++ h_handled (hist r') →
  ok (world r') ∧ handled_from t0 (h_handled (hist r')) (world r') → inv r'.
Proof.
  intros Hi Hw Hws Hpan Hsrc Hsd Hcl Hm Hrg Hsent Hreg Hbuf Hgone Hempty Hleaves Hf Hh Hworld.
  destruct Hi as [Hp HW Hc Hph Hcnt Hleft Hfifo Hhand Hsrcok _ Hr].
  split.
  - by rewrite Hpan.
  - by rewrite Hws, length_insert.
  - lia.
  - unfold phases_ok in *. by rewrite Hm, Hsrc, Hcl, Hsd.
  - rewrite Hm, Hws. pose proof (weight_insert is_gone (workers r) i w w' Hw). lia.
  - intros j v. rewrite Hws, Hcl. intros [(-> & <- & _)|[_ Hj]]%list_lookup_insert_Some Hv.
    + by apply Hleaves.
    + destruct (Hleft j v Hj Hv) as [? ?]. auto.
  - by rewrite Hsent, Hf.
  - pose proof (in_hand_insert (workers r) i w w' Hw) as Hin. rewrite Hws.
    clear -Hin Hh Hhand. solve_perm.
  - unfold source_ok, src_state, result_of in *. by rewrite Hsrc, Hsent, Hm, Hsd.
  - done.
  - by rewrite Hrg, Hreg, Hm.
Qed.

Lemma main_close_inv r err :
  inv r → main r = WaitSource → srcDone r = Some err →
  inv (set_chan (set_main r (Draining 0 err) None) (buf r) true).
Proof.
  intros [Hp HW Hc Hph Hcnt Hleft Hfifo Hhand (ls & Hrun & Hsent & Herr) Hwd Hr] Hm Hd.
  unfold phases_ok, source_ok, src_state, result_of in *. rewrite Hm in *.
  split; cbn; try done.
  - unfold phases_ok. cbn. destruct (src r); [destruct Hph as (_ & ? & _); congruence|lia].
  - intros i w Hi Hg. by destruct (Hleft i w Hi Hg).
  - exists ls. split; [done|]. split; [done|]. unfold result_of. cbn. intros err' [= <-]. by apply Herr.
Qed.

Lemma main_drain_inv r i err n :
  inv r → main r = Draining i err → (i < length (workers r))%nat → workerDone r = (n + 1)%nat →
  inv (set_workers (set_main r (Draining (i + 1) err) (srcDone r)) (workers r) n).
Proof.
  intros [Hp HW Hc Hph Hcnt Hleft Hfifo Hhand (ls & Hrun & Hsent & Herr) Hwd Hr] Hm Hi Hn.
  unfold phases_ok, source_ok, src_state, result_of in *. rewrite Hm in *.
  split; cbn in *; try done.
  - unfold phases_ok. cbn. destruct (src r); [done|]. split; [tauto|lia].
  - lia.
  - exists ls. split; [done|]. split; [done|]. unfold result_of. cbn. intros err' [= <-]. by apply Herr.
Qed.

Lemma main_return_inv r err :
  inv r → main r = Draining (length (workers r)) err →
  inv (note_registry (set_main r (Returned err) (srcDone r)) (if registered r then [Unregister] else [])).
Proof.
  intros [Hp HW Hc Hph Hcnt Hleft Hfifo Hhand (ls & Hrun & Hsent & Herr) Hwd [Hrg Hr]] Hm.
  unfold phases_ok, source_ok, src_state, result_of in *. rewrite Hm in *.
  split; cbn in *; try done.
  - unfold phases_ok. cbn. destruct (src r); tauto.
  - lia.
  - exists ls. split; [done|]. split; [done|]. unfold result_of. cbn. intros err' [= <-]. by apply Herr.
  - split; [done|]. rewrite Hr, app_nil_r. done.
Qed.

Lemma sys_step_inv r r' : inv r → sys_step process r r' → inv r'.
Proof.
  intros Hi Hstep.
  destruct Hstep as [r s s' Hs Hst|r s s' e Hs Hst Hcl Hroom|r s s' e Hs Hst Hcl|r s s' err Hs Hst Hd
    |r i e es Hw Hb|r i e t Hw Hp|r i Hw Hb Hcl|r i Hw Hn|r err Hm Hd|r i err n Hm Hlt Hn|r err Hm].
  - eapply (source_step_inv r _ s SrcTau); done.
  - eapply (source_step_inv r _ s (SrcSend e)); [done..|]. by intros e' [= <-].
  - destruct (running_waits r s Hi Hs) as (_ & ? & _). congruence.
  - eapply (source_step_inv r _ s (SrcReturn err)); done.
  - eapply (worker_step_inv r _ i Idle (Busy e)); cbn; try done.
    + rewrite Hb. cbn. lia.
    + intros _ Hb'. congruence.
    + by intros [?|?].
    + by rewrite Hb, <-app_assoc.
    + rewrite <-app_assoc. done.
    + apply Hi.
  - pose proof (inv_world r Hi) as [Hok Hfrom].
    eapply (worker_step_inv r _ i (Busy e) Idle); cbn; try done.
    + by intros [?|?].
    + apply Permutation_app_head. rewrite Permutation_app_comm. done.
    + split; [by eapply ok_process|]. by eapply handled_event.
  - eapply (worker_step_inv r _ i Idle Leaving); cbn; try done. apply Hi.
  - destruct (inv_left r Hi i Leaving Hw (or_introl eq_refl)) as [Hcl Hb].
    eapply (worker_step_inv r _ i Leaving Gone); cbn; try done. apply Hi.
  - by apply main_close_inv.
  - by apply main_drain_inv.
  - by apply main_return_inv.
Qed.

Lemma env_step_inv r r' : inv r → env_step env r r' → inv r'.
Proof.
  intros [Hp HW Hc Hph Hcnt Hleft Hfifo Hhand Hsrc [Hok Hfrom] Hr] Hstep.
  destruct Hstep as [r|r t Henv]; split; cbn; try done.
  split; [by eapply ok_env|]. by eapply handled_env.
Qed.

Lemma reachable_inv r r' : inv r → rtc (step process env) r r' → inv r'.
Proof.
  intros Hi Hr. eapply (rtc_preserves (step process env) inv); [|done..].
  intros a b Ha [?|?]; [by eapply sys_step_inv|by eapply env_step_inv].
Qed.

(** ** Progress and termination *)

Definition worker_cost (w : worker) : nat :=
  match w with Busy _ => 3 | Idle => 2 | Leaving => 1 | Gone => 0 end.
Definition main_cost (m : main_phase) : nat :=
  match m with WaitSource => W + 2 | Draining i _ => W - i + 1 | Returned _ => 0 end.
Definition src_cost (g : src_goroutine S) : nat :=
  match g with SrcRunning s => 3 * src_measure s | SrcFinished _ => 0 end.

(** What is left to do at most. *)
Definition run_cost r : nat :=
  src_cost (src r) + 2 * length (buf r) + weight worker_cost (workers r) + main_cost (main r).

Lemma sys_step_cost r r' : inv r → sys_step process r r' → (run_cost r' < run_cost r)%nat.
Proof.
  intros Hi Hstep. unfold run_cost. pose proof (inv_workers r Hi) as HW.
  destruct Hstep as [r s s' Hs Hst|r s s' e Hs Hst Hcl Hroom|r s s' e Hs Hst Hcl|r s s' err Hs Hst Hd
    |r i e es Hw Hb|r i e t Hw Hp|r i Hw Hb Hcl|r i Hw Hn|r err Hm Hd|r i err n Hm Hlt Hn|r err Hm];
    cbn [src buf workers main set_src set_chan set_workers set_main set_world note_sent note_taken
         note_handled note_registry set_hist set_panicked src_cost];
    try (apply src_step_decreases in Hst); rewrite ?Hs, ?Hm; cbn [src_cost main_cost].
  - lia.
  - rewrite length_app. cbn. lia.
  - destruct (running_waits r s Hi Hs) as (_ & ? & _). congruence.
  - lia.
  - pose proof (weight_insert worker_cost _ i _ (Busy e) Hw). rewrite Hb. cbn in *. lia.
  - pose proof (weight_insert worker_cost _ i _ Idle Hw). cbn in *. lia.
  - pose proof (weight_insert worker_cost _ i _ Leaving Hw). cbn in *. lia.
  - pose proof (weight_insert worker_cost _ i _ Gone Hw). cbn in *. lia.
  - lia.
  - lia.
  - lia.
Qed.

(** A run whose source is told to stop, or has stopped, never gets stuck. *)
Lemma sys_progress r :
  (∀ e t, ok t → ∃ t', process e t t') → inv r → ctx r = true ∨ (∃ s, src r = SrcFinished s) →
  (∃ err, main r = Returned err) ∨ ∃ r', sys_step process r r'.
Proof.
  intros Htotal Hi Hstop. destruct (src r) as [s|s] eqn:Hs.
  - right. destruct (running_waits r s Hi Hs) as (_ & _ & Hd & Hnr & _).
    destruct Hstop as [Hctx|[? ?]]; [|done].
    destruct (src_canceled_progress s Hnr) as (l & s' & Hst & Hl). rewrite <-Hctx in Hst.
    destruct l as [|e|err]; [eexists; by eapply source_tau|by destruct (Hl e)|eexists; by eapply source_return].
  - pose proof (inv_phases r Hi) as Hph. unfold phases_ok in Hph. rewrite Hs in Hph.
    destruct (main r) as [|i err|err] eqn:Hm; [| |by left; exists err].
    { right. destruct Hph as [_ [err Hd]]. eexists. by eapply main_close. }
    right. destruct Hph as [Hcl HiW]. pose proof (inv_workers r Hi) as HW.
    destruct (decide (i = length (workers r))) as [->|Hne]; [eexists; by eapply main_return|].
    destruct (workerDone r) as [|n] eqn:Hn.
    2:{ eexists. eapply (main_drain _ r i err n); [done|lia|]. rewrite Hn. lia. }
    pose proof (inv_count r Hi) as Hcnt. rewrite Hm, Hn in Hcnt. cbn in Hcnt.
    destruct (weight_gone_some (workers r)) as (j & w & Hj & Hw); [lia|].
    destruct w as [|e| |]; [| | |done].
    + destruct (buf r) as [|e es] eqn:Hb; eexists; [by eapply worker_leave|by eapply worker_receive].
    + destruct (inv_world r Hi) as [Hok _]. destruct (Htotal e _ Hok) as [t' Ht'].
      eexists. by eapply worker_handle.
    + eexists. eapply worker_done; [done|]. rewrite Hn. lia.
Qed.

(** Told to stop, or stopped. *)
Definition stopping r : Prop := ctx r = true ∨ ∃ s, src r = SrcFinished s.

Lemma stopping_step r r' : inv r → stopping r → sys_step process r r' → stopping r'.
Proof.
  unfold stopping. intros Hi Hs Hstep.
  destruct Hstep; cbn; try done; try (destruct Hs as [?|[? ?]]; [by left|congruence]); right; eauto.
Qed.

Lemma stopping_rtc r r' :
  inv r → stopping r → rtc (sys_step process) r r' → inv r' ∧ stopping r'.
Proof.
  intros Hi Hs Hr. eapply (rtc_preserves (sys_step process) (λ r, inv r ∧ stopping r)); [|by split|done].
  intros a b [Ha Hsa] Hab. split; [by eapply sys_step_inv|by eapply stopping_step].
Qed.

(** After the return of [Run] nothing is left in the channel or with a worker. *)
Lemma returned_empty r err :
  (0 < W)%nat → inv r → main r = Returned err →
  Forall (λ w, w = Gone) (workers r) ∧ workerDone r = 0%nat ∧ in_hand (workers r) = [] ∧ buf r = [] ∧
  h_handled (hist r) ≡ₚ h_sent (hist r).
Proof.
  intros HWpos Hi Hm. pose proof Hi as [_ HW _ _ Hcnt Hleft Hf Hh _ _ _].
  rewrite Hm in Hcnt. cbn in Hcnt. pose proof (weight_gone_le (workers r)) as Hle.
  assert (Forall (λ w, w = Gone) (workers r)) as Hgone by (apply weight_gone_all; lia).
  assert (in_hand (workers r) = []) as Hin.
  { clear -Hgone. induction Hgone as [|w ws -> _ IH]; done. }
  assert (buf r = []) as Hbuf.
  { destruct (workers r) as [|w ws] eqn:Hws; [cbn in HW; lia|].
    apply Forall_cons in Hgone as [-> _].
    eapply (inv_left _ Hi 0 Gone); [by rewrite Hws|by right]. }
  split; [done|]. split; [lia|]. split; [done|]. split; [done|].
  by rewrite Hf, Hh, Hin, Hbuf, !app_nil_r.
Qed.

(** The source has returned the error [Run] returns. *)
Lemma returned_source r err :
  inv r → main r = Returned err →
  ∃ ls c s, src_run s0 (ls ++ [(c, SrcReturn err)]) s ∧
    sent (ls ++ [(c, SrcReturn err)]) = h_sent (hist r).
Proof.
  intros Hi Hm. destruct (inv_source r Hi) as (ls & Hrun & Hsent & Herr).
  unfold result_of in Herr. rewrite Hm in Herr. destruct (Herr err eq_refl) as (ls' & c & ->).
  by exists ls', c, (src_state r).
Qed.

(** ** Properties *)

Context (idle0 : ¬ src_returned s0) (ok0 : ok t0) (r0 : run S T).
Context (start : Run_start d W s0 t0 = Ok r0).

Lemma run_inv r : rtc (step process env) r0 r → inv r.
Proof. intros Hr. eapply reachable_inv; [by apply inv_start|done]. Qed.

(** C11: at any moment of any run nothing has panicked (no send on the closed
    channel), the channel holds at most 1024 events, the workers receive the
    events in the order the source sent them, and every event sent is either
    handled, held by one worker or still in the channel: none is lost and none
    is handled twice, although rules are reloaded and the context is canceled. *)
Theorem Run_safe r :
  rtc (step process env) r0 r →
  panicked r = false ∧ (length (buf r) ≤ 1024)%nat ∧
  h_sent (hist r) = h_taken (hist r) ++ buf r ∧
  h_sent (hist r) ≡ₚ h_handled (hist r) ++ in_hand (workers r) ++ buf r ∧
  ok (world r) ∧ handled_from t0 (h_handled (hist r)) (world r) ∧
  ∃ ls, src_run s0 ls (src_state r) ∧ sent ls = h_sent (hist r).
Proof.
  intros Hr. destruct (run_inv r Hr) as [Hp _ Hc _ _ _ Hf Hh (ls & Hrun & Hsent & _) [? ?] _].
  split; [done|]. split; [done|]. split; [done|]. split.
  - by rewrite Hf, Hh, app_assoc.
  - split; [done|]. split; [done|]. by exists ls.
Qed.

(** C6: when [Run] returns, every event the source sent has been handled exactly
    once, the channel is empty, all workers have ended and been waited for, the
    error is the one the source returned with, and the gauge is unregistered if
    it had been registered. *)
Theorem Run_returns r err :
  (0 < W)%nat → rtc (step process env) r0 r → main r = Returned err →
  h_handled (hist r) ≡ₚ h_sent (hist r) ∧ buf r = [] ∧
  Forall (λ w, w = Gone) (workers r) ∧ workerDone r = 0%nat ∧
  (∃ ls c s, src_run s0 (ls ++ [(c, SrcReturn err)]) s ∧
     sent (ls ++ [(c, SrcReturn err)]) = h_sent (hist r)) ∧
  h_registry (hist r)
  = match gauge_registers d with
    | None => []
    | Some ok => Register :: if ok then [Unregister] else []
    end.
Proof.
  intros HWpos Hr Hm. pose proof (run_inv r Hr) as Hi.
  destruct (returned_empty r err HWpos Hi Hm) as (Hgone & Hdone & _ & Hbuf & Hall).
  split; [done|]. split; [done|]. split; [done|]. split; [done|].
  split; [by eapply returned_source|].
  destruct (inv_registry r Hi) as [Hrg Hreg]. rewrite Hreg, Hrg, Hm.
  by destruct (gauge_registers d) as [[]|].
Qed.

(** C9: [Run] ends: once the context is done, or the source has returned by
    itself, every continuation of the goroutines has a bounded number of steps,
    and it can only stop after [Run] has returned. No wait of [Run] or of a
    worker is for ever, whatever was in the channel. *)
Theorem Run_terminates r :
  (∀ e t, ok t → ∃ t', process e t t') →
  rtc (step process env) r0 r → stopping r →
  (∃ r' err, rtc (sys_step process) r r' ∧ main r' = Returned err) ∧
  (∀ n r', nsteps (sys_step process) n r r' → (n ≤ run_cost r)%nat) ∧
  (∀ r', rtc (sys_step process) r r' → (∀ r'', ¬ sys_step process r' r'') →
    ∃ err, main r' = Returned err).
Proof.
  intros Htotal Hr Hs. pose proof (run_inv r Hr) as Hi.
  set (P r := inv r ∧ stopping r).
  assert (∀ a b, P a → sys_step process a b → P b ∧ (run_cost b < run_cost a)%nat) as Hdec.
  { intros a b [Ha Hsa] Hab. split; [split; [by eapply sys_step_inv|by eapply stopping_step]|].
    by apply sys_step_cost. }
  split; [|split].
  - destruct (measure_reaches_nf (sys_step process) P (λ r, ∃ err, main r = Returned err) run_cost r)
      as (r' & Hr' & err & Herr); [done| |done|by exists r', err].
    intros a [Ha Hsa]. by apply sys_progress.
  - intros n r' Hn. pose proof (nsteps_measure _ P run_cost n r r' Hdec (conj Hi Hs) Hn). lia.
  - intros r' Hr' Hnf. destruct (stopping_rtc r r' Hi Hs Hr') as [Hi' Hs'].
    destruct (sys_progress r' Htotal Hi' Hs') as [?|[r'' Hr'']]; [done|]. by destruct (Hnf r'').
Qed.

End invariant.

(** ** Instances of the properties *)

Definition sample_ev : Event := mkEvent 1 DirSend 4 53 4242 [Byte.x01].
Definition sample_deps : deps := mkDeps true true true true (Some true).
Definition sample_process (e : Event) (t t' : nat) : Prop := t' = Datatypes.S t.
Definition sample_start : run Fake.Source_ nat :=
  mkRun false (SrcRunning (Some [sample_ev])) None [] false [Idle] 0 WaitSource true 0 false
    (mkHistory [] [] [] [Register]).
Definition sample_end : run Fake.Source_ nat :=
  mkRun true (SrcFinished None) None [] true [Gone] 0 (Returned None) true 1 false
    (mkHistory [sample_ev] [sample_ev] [sample_ev] [Register; Unregister]).

Lemma sample_idle : ¬ src_returned (Some [sample_ev] : Fake.Source_).
Proof. by cbn. Qed.

(** One event is sent, received and handled, then the run is canceled. *)
Lemma sample_run : rtc (step sample_process (λ _ _, False)) sample_start sample_end.
Proof.
  eapply rtc_l; [left; eapply source_send; [reflexivity|apply Fake.step_send|reflexivity|cbn; unfold chan_cap; lia]|].
  eapply rtc_l; [left; apply (worker_receive _ _ 0 sample_ev []); reflexivity|].
  eapply rtc_l; [left; apply (worker_handle _ _ 0 sample_ev 1); reflexivity|].
  eapply rtc_l; [right; apply env_cancel|].
  eapply rtc_l; [left; eapply source_return; [reflexivity|apply Fake.step_end|reflexivity]|].
  eapply rtc_l; [left; eapply main_close; reflexivity|].
  eapply rtc_l; [left; apply (worker_leave _ _ 0); reflexivity|].
  eapply rtc_l; [left; apply (worker_done _ _ 0); [reflexivity|cbn; lia]|].
  eapply rtc_l; [left; apply (main_drain _ _ 0 None 0); [reflexivity|cbn; lia|reflexivity]|].
  eapply rtc_l; [left; apply (main_return _ _ None); reflexivity|].
  apply rtc_refl.
Qed.

Lemma Run_safe_witness :
  Run_start sample_deps 1 (Some [sample_ev]) 0 = Ok sample_start ∧
  h_sent (hist sample_end) ≡ₚ h_handled (hist sample_end) ++ in_hand (workers sample_end) ++ buf sample_end.
Proof.
  split; [reflexivity|].
  destruct (Run_safe sample_process (λ _ _, False) (λ _, True) (λ _ _ _ _ _, I) (λ _ _ _ _, I) 1
    (Some [sample_ev] : Fake.Source_) 0 sample_deps sample_idle I sample_start eq_refl
    sample_end sample_run) as (_ & _ & _ & Hall & _).
  exact Hall.
Defined.

Lemma Run_returns_witness :
  h_handled (hist sample_end) ≡ₚ h_sent (hist sample_end) ∧
  h_registry (hist sample_end) = [Register; Unregister].
Proof.
  destruct (Run_returns sample_process (λ _ _, False) (λ _, True) (λ _ _ _ _ _, I) (λ _ _ _ _, I) 1
    (Some [sample_ev] : Fake.Source_) 0 sample_deps sample_idle I sample_start eq_refl
    sample_end None ltac:(lia) sample_run eq_refl) as (Hall & _ & _ & _ & _ & Hreg).
  split; [exact Hall|exact Hreg].
Defined.

Lemma Run_terminates_witness :
  let r := set_world sample_start true 0 in
  ∃ r' err, rtc (sys_step sample_process) r r' ∧ main r' = Returned err.
Proof.
  intros r.
  refine (proj1 (Run_terminates sample_process (λ _ _, False) (λ _, True) (λ _ _ _ _ _, I) (λ _ _ _ _, I) 1
    (Some [sample_ev] : Fake.Source_) 0 sample_deps _ I sample_start eq_refl r _ _ _)).
  - exact sample_idle.
  - intros e t _. by exists (Datatypes.S t).
  - eapply rtc_once. right. apply env_cancel.
  - by left.
Defined.
