(* ===== verification/HandleProg.v ===== *)
(** * [handle] as a program over shared operations ([internal/pipeline/pipeline.go], [handle])

    [Pipeline.handle] is one function of the state. In the program several
    workers are inside [handle] at once, and a reload can replace the rules while
    they are. Here [handle] is a program over the operations the workers share,
    each of them atomic (a method of the cache, the store's atomic load, a call
    of the client, a collector, the logger). Run alone it is [Pipeline.handle];
    whatever the operations answer, what it does is fixed by the answers
    ([handle_wp]). The pool of workers is in [Workers]. *)

From S2P Require Import Prelude GoBytes GoUnicode GoStrings GoNet Trie Rules Store Source Metrics.
From S2P Require Import Dedup DnsParse Ipset Pipeline.
#[local] Open Scope Z_scope.

(** ** Programs over shared operations *)

(** The operations and what they answer. [OTime] is [time.Now]; [ORange] asks
    for the order in which [range] visits the map of CNAMEs. *)
Inductive op : Type → Type :=
| OTime : op Z
| OGet (k : Z) : op (option Z)
| OPut (k now : Z) : op unit
| ORange : op (gmap string string → list (string * string))
| OTrie : op (option (Trie Rule))
| OAdd (set : string) (ip : IP) (ttl : Z) : op (option string)
| OInc (m : metric_op) : op unit
| ODebug (line : string * IP * string) : op unit.

(** A program ends, panics or performs an operation and goes on with its answer. *)
Inductive prog (R : Type) : Type :=
| Done (r : R)
| Crash
| Do {A : Type} (o : op A) (k : A → prog R).
Arguments Done {R} r.
Arguments Crash {R}.
Arguments Do {R A} o k.

#[global] Instance prog_ret : MRet prog := λ R r, Done r.
#[global] Instance prog_bind : MBind prog := λ R S f,
  fix bind p :=
    match p with
    | Done r => f r
    | Crash => Crash
    | Do o k => Do o (λ a, bind (k a))
    end.

Definition perform {A} (o : op A) : prog A := Do o Done.

(** [for _, a := range l { f(a) }] *)
Fixpoint for_each {A} (f : A → prog unit) (l : list A) : prog unit :=
  match l with
  | [] => mret tt
  | a :: l => f a ;; for_each f l
  end.

(** ** [handle] as a program *)

Section handle.
Context {dns : DNS}.
Context (cfg : Config).

Definition observe_prog (m : metric_op) : prog unit :=
  if has_Metrics cfg then perform (OInc m) else mret tt.

(** [Dedup.Seen]; [window] is the cache's [ttl]. *)
Definition seen_by (window now : Z) (hit : option Z) : bool :=
  match hit with
  | Some t => Sub now t <? window
  | None => false
  end.

Definition Seen_prog (window : Z) (payload : list Byte.byte) : prog bool :=
  let k := Sum64a payload in
  now ← perform OTime;
  hit ← perform (OGet k);
  if seen_by window now hit
  then perform (OPut k now) ;; mret true
  else perform (OPut k now) ;; mret false.

(** The body of the loop over the records. *)
Definition record_prog (rule : Rule) (rec : Record_) : prog unit :=
  let '(set, fam) :=
    if rec_Family rec =? 4 then (IPSetV4 rule, "v4")
    else if rec_Family rec =? 6 then (IPSetV6 rule, "v6") else ("", "") in
  if String.eqb set "" then mret tt
  else
    err ← perform (OAdd set (rec_IP rec) (ClampTTL (rec_TTL rec * Second) (TTLMin cfg) (TTLMax cfg)));
    match err with
    | Some e =>
      observe_prog (Inc IPSetErrors [if isMissingErr (Some e) then "missing" else "other"]) ;;
      perform (ODebug (set, rec_IP rec, e))
    | None => observe_prog (Inc IPSetWrites [set; fam])
    end.

(** The body of the loop over the names. *)
Definition name_prog (tr : Trie Rule) (resp : Response) (name : string) : prog unit :=
  match Lookup tr name with
  | (_, false) => mret tt
  | (None, true) => Crash
  | (Some rule, true) =>
    observe_prog (Inc Matches [Domain rule]) ;;
    for_each (record_prog rule) (Records resp)
  end.

Definition handle_prog (window : Z) (ev : Event) : prog unit :=
  (if ev_Direction ev =? DirSend then observe_prog (Inc EventsTotal ["send"])
   else if ev_Direction ev =? DirRecv then observe_prog (Inc EventsTotal ["recv"])
   else mret tt) ;;
  seen ← Seen_prog window (Payload ev);
  if (seen : bool) then observe_prog (Inc DedupHits [])
  else
    order ← perform ORange;
    match Parse order (Payload ev) with
    | Err _ => observe_prog (Inc ParseErrors [])
    | Ok resp =>
      rules ← perform OTrie;
      match rules with
      | None => mret tt
      | Some tr => for_each (name_prog tr resp) (uniqueNames resp)
      end
    end.

End handle.

(** ** The shared state under the operations *)

(** What an outside observer sees of an operation. *)
Inductive obs :=
| SawTime (now : Z)
| SawGet (k : Z) (hit : option Z)
| SawPut (k now : Z)
| SawRange (order : gmap string string → list (string * string))
| SawTrie (rules : option (Trie Rule))
| SawAdd (set : string) (ip : IP) (ttl : Z) (err : option string)
| SawInc (m : metric_op)
| SawDebug (line : string * IP * string).

Definition obs_of {A} (o : op A) : A → obs :=
  match o with
  | OTime => SawTime
  | OGet k => SawGet k
  | OPut k now => λ _, SawPut k now
  | ORange => SawRange
  | OTrie => SawTrie
  | OAdd set ip ttl => SawAdd set ip ttl
  | OInc m => λ _, SawInc m
  | ODebug line => λ _, SawDebug line
  end.

Section shared.
Context {C D : Type} {client : Client C} {lru : LRU D}.
Implicit Types (s : state C D).

Definition set_cache (s : state C D) (d : D) : state C D :=
  mkState (st_store s) (st_ipset s) (mkDedup d (ttl (st_dedup s))) (st_metrics s) (st_debug s).
Definition set_client (s : state C D) (c : C) : state C D :=
  mkState (st_store s) c (st_dedup s) (st_metrics s) (st_debug s).
Definition set_store (s : state C D) (st : Store) : state C D :=
  mkState st (st_ipset s) (st_dedup s) (st_metrics s) (st_debug s).
Definition add_metric (s : state C D) (m : metric_op) : state C D :=
  mkState (st_store s) (st_ipset s) (st_dedup s) (st_metrics s ++ [m]) (st_debug s).
Definition add_line (s : state C D) (line : string * IP * string) : state C D :=
  mkState (st_store s) (st_ipset s) (st_dedup s) (st_metrics s) (st_debug s ++ [line]).

(** An operation at a state: a possible answer and the state after it. *)
Definition does {A} (o : op A) : state C D → A → state C D → Prop :=
  match o with
  | OTime => λ s _ s', s' = s
  | OGet k => λ s hit s', let '(h, d) := lru_Get k (cache (st_dedup s)) in hit = h ∧ s' = set_cache s d
  | OPut k now => λ s _ s', s' = set_cache s (lru_Add k now (cache (st_dedup s)))
  | ORange => λ s order s', range_order order ∧ s' = s
  | OTrie => λ s rules s', rules = StoreTrie (st_store s) ∧ s' = s
  | OAdd set ip ttl => λ s err s',
    let '(e, c) := client_Add set ip ttl (st_ipset s) in err = e ∧ s' = set_client s c
  | OInc m => λ s _ s', s' = add_metric s m
  | ODebug line => λ s _ s', s' = add_line s line
  end.

(** ** A program alone *)

(** With the clock at [now] and one map order throughout. *)
Definition answer_alone {A} (now : Z) (order : gmap string string → list (string * string))
    (o : op A) : state C D → A * state C D :=
  match o with
  | OTime => λ s, (now, s)
  | OGet k => λ s, let '(h, d) := lru_Get k (cache (st_dedup s)) in (h, set_cache s d)
  | OPut k now => λ s, (tt, set_cache s (lru_Add k now (cache (st_dedup s))))
  | ORange => λ s, (order, s)
  | OTrie => λ s, (StoreTrie (st_store s), s)
  | OAdd set ip ttl => λ s, let '(e, c) := client_Add set ip ttl (st_ipset s) in (e, set_client s c)
  | OInc m => λ s, (tt, add_metric s m)
  | ODebug line => λ s, (tt, add_line s line)
  end.

Fixpoint run_alone {R} now order (p : prog R) (s : state C D) : option (R * state C D) :=
  match p with
  | Done r => Some (r, s)
  | Crash => None
  | Do o k => let '(a, s) := answer_alone now order o s in run_alone now order (k a) s
  end.

End shared.

(** ** Run alone, the program is [handle] *)

Lemma bind_Done {R S} (r : R) (f : R → prog S) : Done r ≫= f = f r.
Proof. done. Qed.
Lemma bind_Do {R S A} (o : op A) k (f : R → prog S) : Do o k ≫= f = Do o (λ a, k a ≫= f).
Proof. done. Qed.

Section alone.
Context {C D : Type} {client : Client C} {lru : LRU D} {dns : DNS}.
Context (cfg : Config) (now : Z) (order : gmap string string → list (string * string)).
Implicit Types (s : state C D).

Lemma run_alone_bind {R S} (p : prog R) (f : R → prog S) s :
  run_alone now order (p ≫= f) s = '(r, s) ← run_alone now order p s; run_alone now order (f r) s.
Proof.
  revert s. induction p as [r| |A o k IH]; intros s; [done|done|].
  rewrite bind_Do. cbn [run_alone]. destruct (answer_alone now order o s) as [a s']. apply IH.
Qed.

(** A loop, when each of its bodies is a function of the state. *)
Lemma for_each_alone {A} (f : A → prog unit) (g : state C D → A → state C D) l s :
  (∀ a s, run_alone now order (f a) s = Some (tt, g s a)) →
  run_alone now order (for_each f l) s = Some (tt, foldl g s l).
Proof.
  intros Hf. revert s. induction l as [|a l IH]; intros s; [done|]. cbn [for_each].
  rewrite run_alone_bind, Hf. apply IH.
Qed.

Lemma observe_alone m s : run_alone now order (observe_prog cfg m) s = Some (tt, observe cfg m s).
Proof. unfold observe_prog, observe. by destruct (has_Metrics cfg). Qed.

Lemma record_alone rule rec s :
  run_alone now order (record_prog cfg rule rec) s = Some (tt, handle_record cfg rule s rec).
Proof.
  unfold record_prog, handle_record. destruct (if rec_Family rec =? 4 then _ else _) as [set fam].
  destruct (String.eqb set ""); [done|]. unfold perform. rewrite bind_Do. cbn [run_alone answer_alone].
  destruct (client_Add _ _ _ (st_ipset s)) as [[e|] c]; rewrite bind_Done; [|by rewrite observe_alone].
  by rewrite run_alone_bind, observe_alone.
Qed.

Lemma name_alone tr resp name s :
  run_alone now order (name_prog cfg tr resp name) s = (λ s, (tt, s)) <$> handle_name cfg tr resp s name.
Proof.
  unfold name_prog, handle_name. destruct (Lookup tr name) as [[rule|] []]; try done.
  rewrite run_alone_bind, observe_alone. cbn [mbind option_bind].
  rewrite (for_each_alone _ (handle_record cfg rule)); [done|]. intros; apply record_alone.
Qed.

Lemma names_alone tr resp names s :
  run_alone now order (for_each (name_prog cfg tr resp) names) s
  = (λ s, (tt, s)) <$> foldl (λ o name, s ← o; handle_name cfg tr resp s name) (Some s) names.
Proof.
  revert s. induction names as [|name names IH]; intros s; [done|]. cbn [for_each foldl].
  rewrite run_alone_bind, name_alone. cbn [mbind option_bind].
  destruct (handle_name cfg tr resp s name) as [s'|]; cbn [fmap option_fmap option_map mbind option_bind]; [apply IH|].
  clear IH. by induction names.
Qed.

Lemma Seen_alone payload s :
  run_alone now order (Seen_prog (ttl (st_dedup s)) payload) s
  = Some ((Seen payload now (st_dedup s)).1,
          mkState (st_store s) (st_ipset s) (Seen payload now (st_dedup s)).2 (st_metrics s) (st_debug s)).
Proof.
  unfold Seen_prog, Seen, seen_by, perform. rewrite bind_Do. cbn [run_alone answer_alone].
  rewrite bind_Done, bind_Do. cbn [run_alone answer_alone].
  destruct (lru_Get _ _) as [[t|] d]; rewrite bind_Done; [destruct (Sub now t <? _)|]; done.
Qed.

End alone.

Section alone_theorem.
Context {C D : Type} {client : Client C} {lru : LRU D} {dns : DNS}.
Context (cfg : Config) (now : Z) (order : gmap string string → list (string * string)).

(** C19: the program over shared operations is [handle]: run alone, with one
    reading of the clock and one map order, from any state, it ends in the state
    [handle] computes, and panics exactly when [handle] does. *)
Theorem handle_prog_alone ev (s : state C D) :
  run_alone now order (handle_prog cfg (ttl (st_dedup s)) ev) s
  = (λ s, (tt, s)) <$> handle cfg order now ev s.
Proof.
  unfold handle_prog, handle. rewrite run_alone_bind.
  set (s1 := if ev_Direction ev =? DirSend then observe cfg _ s else _).
  assert (run_alone now order (if ev_Direction ev =? DirSend then observe_prog cfg (Inc EventsTotal ["send"])
    else if ev_Direction ev =? DirRecv then observe_prog cfg (Inc EventsTotal ["recv"]) else mret tt) s
    = Some (tt, s1)) as ->.
  { unfold s1. destruct (ev_Direction ev =? DirSend); [|destruct (ev_Direction ev =? DirRecv); [|done]];
      apply observe_alone. }
  assert (ttl (st_dedup s) = ttl (st_dedup s1)) as ->.
  { unfold s1, observe. by repeat case_match. }
  clearbody s1. cbn [mbind option_bind]. fold (@mbind prog _). rewrite run_alone_bind, Seen_alone.
  cbn [mbind option_bind]. destruct (Seen (Payload ev) now (st_dedup s1)) as [[] d]; cbn [fst snd].
  { apply observe_alone. }
  unfold perform. rewrite bind_Do. cbn [run_alone answer_alone]. rewrite bind_Done.
  destruct (Parse order (Payload ev)) as [resp|e]; [|apply observe_alone].
  rewrite bind_Do. cbn [run_alone answer_alone]. rewrite bind_Done. cbn [st_store].
  destruct (StoreTrie (st_store s1)) as [tr|]; [apply names_alone|done].
Qed.

End alone_theorem.

(** ** What one thread sees *)

(** Answers a program may rely on: [range] visits every entry, and the rules of
    the store hold no nil rule. *)
Definition admissible {A} (o : op A) : A → Prop :=
  match o with
  | ORange => range_order
  | OTrie => λ rules, ∀ tr name, rules = Some tr → Lookup tr name ≠ (None, true)
  | _ => λ _, True
  end.

(** [emits p tr p']: [p] has seen [tr] and has [p'] ahead of it. *)
Fixpoint emits {R} (p : prog R) (tr : list obs) (p' : prog R) {struct tr} : Prop :=
  match tr with
  | [] => p' = p
  | e :: tr =>
    match p with
    | Do o k => ∃ a, admissible o a ∧ e = obs_of o a ∧ emits (k a) tr p'
    | _ => False
    end
  end.

(** The program does not panic, and what it sees on its way to any end, with the
    result there, satisfies [Φ]. *)
Fixpoint wp {R} (p : prog R) (Φ : list obs → R → Prop) : Prop :=
  match p with
  | Done r => Φ [] r
  | Crash => False
  | Do o k => ∀ a, admissible o a → wp (k a) (λ tr, Φ (obs_of o a :: tr))
  end.

Lemma emits_snoc {R A} (p : prog R) tr (o : op A) k a :
  emits p tr (Do o k) → admissible o a → emits p (tr ++ [obs_of o a]) (k a).
Proof.
  revert p. induction tr as [|e tr IH]; intros p.
  - cbn. intros <- Ha. by exists a.
  - destruct p as [r| |B o' k']; cbn; [done..|]. intros (b & Hb & -> & Hk) Ha. exists b. eauto.
Qed.

Lemma wp_mono {R} (p : prog R) (Φ Ψ : list obs → R → Prop) :
  (∀ tr r, Φ tr r → Ψ tr r) → wp p Φ → wp p Ψ.
Proof.
  revert Φ Ψ. induction p as [r| |A o k IH]; intros Φ Ψ H; cbn; [auto..|].
  intros Hp a Ha. eapply IH; [|by apply Hp]. eauto.
Qed.

Lemma wp_bind {R S} (p : prog R) (f : R → prog S) Φ :
  wp p (λ tr r, wp (f r) (λ tr', Φ (tr ++ tr'))) → wp (p ≫= f) Φ.
Proof.
  revert Φ. induction p as [r| |A o k IH]; intros Φ; [done..|].
  rewrite bind_Do. cbn. intros Hp a Ha. by apply IH, Hp.
Qed.

Lemma wp_perform {A} (o : op A) Φ : (∀ a, admissible o a → Φ [obs_of o a] a) → wp (perform o) Φ.
Proof. done. Qed.

(** Part of the way, the rest of it still satisfies [Φ]. *)
Lemma wp_emits {R} (p : prog R) tr p' Φ : wp p Φ → emits p tr p' → wp p' (λ tr', Φ (tr ++ tr')).
Proof.
  revert p Φ. induction tr as [|e tr IH]; intros p Φ Hp; cbn; [by intros ->|].
  destruct p as [r| |A o k]; [done..|]. intros (a & Ha & -> & Hk).
  apply (IH _ _ (Hp a Ha) Hk).
Qed.

Lemma admissible_some {A} (o : op A) : ∃ a, admissible o a.
Proof.
  destruct o; try (by exists tt).
  - by exists 0.
  - by exists None.
  - exists (λ m, map_to_list m). by intros m.
  - by exists None.
  - by exists None.
Qed.

(** Every program ends. *)
Lemma wp_total {R} (p : prog R) Φ : wp p Φ → ∃ tr r, emits p tr (Done r) ∧ Φ tr r.
Proof.
  revert Φ. induction p as [r| |A o k IH]; intros Φ; cbn.
  - intros Hr. by exists [], r.
  - done.
  - intros Hp. destruct (admissible_some o) as [a Ha].
    destruct (IH a _ (Hp a Ha)) as (tr & r & Hk & Hr). exists (obs_of o a :: tr), r.
    split; [by exists a|done].
Qed.

Lemma emits_app {R} (p : prog R) tr p' tr' p'' :
  emits p tr p' → emits p' tr' p'' → emits p (tr ++ tr') p''.
Proof.
  revert p. induction tr as [|e tr IH]; intros p; cbn; [by intros ->|].
  destruct p as [r| |A o k]; [done..|]. intros (a & Ha & -> & Hk) H'. exists a. eauto.
Qed.

(** ** Summaries of what was seen *)

Definition call : Type := string * IP * Z * option string.

(** The calls of the client with their answers, the increments, the lines, the
    calls of the cache. *)
Definition adds : list obs → list call :=
  omap (λ e, match e with SawAdd set ip ttl err => Some (set, ip, ttl, err) | _ => None end).
Definition incs : list obs → list metric_op :=
  omap (λ e, match e with SawInc m => Some m | _ => None end).
Definition lines : list obs → list (string * IP * string) :=
  omap (λ e, match e with SawDebug l => Some l | _ => None end).
Definition is_cache (e : obs) : bool := match e with SawGet _ _ | SawPut _ _ => true | _ => false end.
Definition cache_obs : list obs → list obs := filter (λ e, is_cache e = true).

(** An answered request as a call. *)
Definition call_of (a : request * option string) : call :=
  (req_set a.1, req_ip a.1, req_ttl a.1, a.2).

Section summaries.
Context (cfg : Config).

(** The metrics, when there are any. *)
Definition metered (ops : list metric_op) : list metric_op := if has_Metrics cfg then ops else [].

(** [tr] shows the answered writes [answers], the increments [ops] besides, and
    no call of the cache. *)
Definition wrote (ops : list metric_op) (answers : list (request * option string)) (tr : list obs) : Prop :=
  adds tr = call_of <$> answers ∧ incs tr ≡ₚ metered (ops ++ (answer_op <$> answers)) ∧
  lines tr = omap answer_line answers ∧ cache_obs tr = [].

Definition does_work (ops : list metric_op) (reqs : list request) (tr : list obs) (_ : unit) : Prop :=
  ∃ answers, answers.*1 = reqs ∧ wrote ops answers tr.

Lemma metered_app l1 l2 : metered (l1 ++ l2) = metered l1 ++ metered l2.
Proof. unfold metered. by destruct (has_Metrics cfg). Qed.

#[local] Instance metered_Permutation : Proper ((≡ₚ) ==> (≡ₚ)) metered.
Proof. intros l1 l2 Hl. unfold metered. by destruct (has_Metrics cfg). Qed.

Lemma wrote_app ops1 ops2 a1 a2 tr1 tr2 :
  wrote ops1 a1 tr1 → wrote ops2 a2 tr2 → wrote (ops1 ++ ops2) (a1 ++ a2) (tr1 ++ tr2).
Proof.
  intros (H1 & H2 & H3 & H4) (H5 & H6 & H7 & H8). unfold wrote, adds, incs, lines, cache_obs in *.
  rewrite filter_app, !omap_app, !fmap_app, H1, H3, H4, H5, H7, H8. split_and!; [done| |done..].
  rewrite H2, H6, <-metered_app. f_equiv. solve_Permutation.
Qed.

Lemma does_work_app ops1 ops2 reqs1 reqs2 tr1 tr2 :
  does_work ops1 reqs1 tr1 tt → does_work ops2 reqs2 tr2 tt →
  does_work (ops1 ++ ops2) (reqs1 ++ reqs2) (tr1 ++ tr2) tt.
Proof.
  intros (a1 & <- & H1) (a2 & <- & H2). exists (a1 ++ a2). rewrite fmap_app. eauto using wrote_app.
Qed.

Lemma does_work_nil : does_work [] [] [] tt.
Proof. exists []. split; [done|]. unfold wrote, metered. by destruct (has_Metrics cfg). Qed.

Lemma observe_wp m : wp (observe_prog cfg m) (does_work [m] []).
Proof.
  unfold observe_prog. destruct (has_Metrics cfg) eqn:Hm; [intros ? _|]; exists []; (split; [done|]);
    unfold wrote, metered; by rewrite Hm.
Qed.

(** The spec of a loop from those of its bodies. *)
Lemma for_each_wp {A} (f : A → prog unit) (ops : A → list metric_op) (reqs : A → list request) l :
  (∀ a, wp (f a) (does_work (ops a) (reqs a))) →
  wp (for_each f l) (does_work (a ← l; ops a) (a ← l; reqs a)).
Proof.
  intros Hf. induction l as [|a l IH]; [apply does_work_nil|]. cbn [for_each].
  apply wp_bind. eapply wp_mono; [|apply Hf]. intros tr [] Htr. cbn in *.
  eapply wp_mono; [|apply IH]. intros tr' [] Htr'. by apply does_work_app.
Qed.

Lemma record_wp rule rec :
  wp (record_prog cfg rule rec) (does_work [] (option_list (request_of cfg rule rec))).
Proof.
  unfold record_prog, request_of. rewrite record_set.
  destruct (String.eqb_spec (set_of rule rec) "") as [Hset|Hset].
  { rewrite decide_True by done. apply does_work_nil. }
  rewrite decide_False by done. cbn [option_list].
  set (r := mkRequest _ _ _ _). apply wp_bind, wp_perform. intros err _.
  assert (∀ m tr, m = answer_op (r, err) → does_work [m] [] tr tt →
    does_work [] [r] ([SawAdd (req_set r) (req_ip r) (req_ttl r) err] ++ tr
                      ++ (SawDebug <$> option_list (answer_line (r, err)))) tt) as Hans.
  { intros m tr -> (a & Ha%fmap_nil_inv & Hw). subst a. destruct Hw as (H1 & H2 & H3 & H4).
    exists [(r, err)]. split; [done|]. unfold wrote, adds, incs, lines, cache_obs in *.
    rewrite !filter_app, !omap_app, H1, H2, H3, H4. destruct err as [e|]; cbn.
    - split_and!; try done. by rewrite app_nil_r.
    - split_and!; try done. by rewrite app_nil_r. }
  destruct err as [e|]; cbn [answer_line option_list fmap list_fmap option_fmap option_map] in *.
  - apply wp_bind. eapply wp_mono; [|apply observe_wp]. intros tr [] Htr. intros [] _.
    by apply (Hans _ tr eq_refl Htr).
  - eapply wp_mono; [|apply observe_wp]. intros tr [] Htr.
    specialize (Hans _ tr eq_refl Htr). by rewrite app_nil_r in Hans.
Qed.

End summaries.

(** ** What one call of [handle] does *)

Section one_call.
Context {dns : DNS}.
Context (cfg : Config).

(** What a name's body asks for. *)
Definition name_rule (tr : Trie Rule) (name : string) : list Rule :=
  match Lookup tr name with (Some rule, true) => [rule] | _ => [] end.

Lemma matched_bind tr resp : matched tr resp = name ← uniqueNames resp; name_rule tr name.
Proof.
  unfold matched, name_rule. induction (uniqueNames resp) as [|name names IH]; [done|]. cbn.
  rewrite IH. by destruct (Lookup tr name) as [[rule|] []].
Qed.

Lemma name_wp tr resp name :
  Lookup tr name ≠ (None, true) →
  wp (name_prog cfg tr resp name)
    (does_work cfg (rule ← name_rule tr name; [Inc Matches [Domain rule]])
       (rule ← name_rule tr name; omap (request_of cfg rule) (Records resp))).
Proof.
  intros Hn. unfold name_prog, name_rule.
  destruct (Lookup tr name) as [[rule|] []]; try apply does_work_nil; [|done].
  cbn [mbind list_bind]. rewrite !app_nil_r. apply wp_bind. eapply wp_mono; [|apply observe_wp].
  intros tr1 [] H1. cbn. eapply wp_mono; [|apply for_each_wp, record_wp]. intros tr2 [] H2. cbn.
  pose proof (does_work_app cfg _ _ _ _ _ _ H1 H2) as H. clear H1 H2. revert H. cbn [app].
  replace (_ ← Records resp; @nil metric_op) with (@nil metric_op)
    by (by induction (Records resp)).
  replace (rec ← Records resp; option_list (request_of cfg rule rec))
    with (omap (request_of cfg rule) (Records resp)); [done|].
  induction (Records resp) as [|rec recs IH]; [done|]. cbn. rewrite IH. by destruct (request_of cfg rule rec).
Qed.

Lemma bind_name_rule {A} (f : Rule → list A) tr names :
  (name ← names; rule ← name_rule tr name; f rule) = rule ← (name ← names; name_rule tr name); f rule.
Proof. induction names as [|name names IH]; [done|]. cbn. by rewrite bind_app, <-IH. Qed.

Lemma names_wp tr resp :
  (∀ name, Lookup tr name ≠ (None, true)) →
  wp (for_each (name_prog cfg tr resp) (uniqueNames resp))
    (does_work cfg (rule ← matched tr resp; [Inc Matches [Domain rule]]) (requests cfg tr resp)).
Proof.
  intros Htr. unfold requests. rewrite matched_bind, <-!bind_name_rule.
  apply for_each_wp. intros name. by apply name_wp.
Qed.

(** The event was handled with these answers: the reading of the clock, the
    cache's, the map order, the rules of the store, and those of the client. *)
Record handled_as (window : Z) (ev : Event) (tr : list obs) (now : Z) (hit : option Z)
    (order : gmap string string → list (string * string)) (rules : option (Trie Rule))
    (answers : list (request * option string)) : Prop := {
  ha_order : range_order order;
  ha_cache : cache_obs tr = [SawGet (Sum64a (Payload ev)) hit; SawPut (Sum64a (Payload ev)) now];
  ha_work : answers.*1 = work cfg order ev (seen_by window now hit) rules;
  ha_adds : adds tr = call_of <$> answers;
  ha_incs : incs tr ≡ₚ
    metered cfg (work_ops order ev (seen_by window now hit) rules ++ (answer_op <$> answers));
  ha_lines : lines tr = omap answer_line answers;
  ha_rules : seen_by window now hit = false → is_ok (Parse order (Payload ev)) = true → SawTrie rules ∈ tr;
}.

Definition handled (window : Z) (ev : Event) (tr : list obs) (_ : unit) : Prop :=
  ∃ now hit order rules answers, handled_as window ev tr now hit order rules answers.

Lemma work_asked order ev seen rules :
  work cfg order ev seen rules ≠ [] → seen = false ∧ is_ok (Parse order (Payload ev)) = true.
Proof. unfold work. destruct seen; [done|]. by destruct (Parse order (Payload ev)). Qed.

(** A prefix that only increments, a lookup and an insertion, and the rest. *)
Lemma handled_parts window ev tr1 tr2 now hit order rules pre ops reqs :
  range_order order → does_work cfg (direction_ops ev) [] tr1 tt →
  adds pre = [] → incs pre = [] → lines pre = [] → cache_obs pre = [] →
  does_work cfg ops reqs tr2 tt →
  work cfg order ev (seen_by window now hit) rules = reqs →
  work_ops order ev (seen_by window now hit) rules = direction_ops ev ++ ops →
  (seen_by window now hit = false → is_ok (Parse order (Payload ev)) = true → SawTrie rules ∈ pre) →
  handled window ev
    (tr1 ++ [SawTime now; SawGet (Sum64a (Payload ev)) hit; SawPut (Sum64a (Payload ev)) now]
         ++ pre ++ tr2) tt.
Proof.
  intros Ho (a1 & Ha1%fmap_nil_inv & H1) P1 P2 P3 P4 (a2 & <- & H2) Hwork Hops Hrules. subst a1.
  destruct H1 as (A1 & A2 & A3 & A4), H2 as (B1 & B2 & B3 & B4).
  exists now, hit, order, rules, a2. unfold adds, incs, lines, cache_obs in *. split; try done.
  - unfold cache_obs. rewrite !filter_app, A4, P4, B4. done.
  - unfold adds. rewrite !omap_app, A1, P1, B1. done.
  - unfold incs. rewrite !omap_app, A2, P2, B2, Hops. cbn [omap list_omap app fmap list_fmap].
    by rewrite app_nil_r, <-metered_app, app_assoc.
  - unfold lines. rewrite !omap_app, A3, P3, B3. done.
  - intros Hseen Hok. specialize (Hrules Hseen Hok). rewrite !elem_of_app. tauto.
Qed.

Lemma direction_wp ev :
  wp (if ev_Direction ev =? DirSend then observe_prog cfg (Inc EventsTotal ["send"])
      else if ev_Direction ev =? DirRecv then observe_prog cfg (Inc EventsTotal ["recv"]) else mret tt)
    (does_work cfg (direction_ops ev) []).
Proof.
  unfold direction_ops. destruct (Z.eqb_spec (ev_Direction ev) DirSend) as [E|E];
    [rewrite decide_True by done; apply observe_wp|rewrite decide_False by done].
  destruct (Z.eqb_spec (ev_Direction ev) DirRecv) as [E'|E'];
    [rewrite decide_True by done; apply observe_wp|rewrite decide_False by done; apply does_work_nil].
Qed.

Lemma Seen_wp window payload Φ :
  (∀ now hit, Φ [SawTime now; SawGet (Sum64a payload) hit; SawPut (Sum64a payload) now]
                (seen_by window now hit)) →
  wp (Seen_prog window payload) Φ.
Proof.
  intros H. unfold Seen_prog. apply wp_bind, wp_perform. intros now _.
  apply wp_bind, wp_perform. intros hit _. specialize (H now hit).
  destruct (seen_by window now hit); apply wp_bind, wp_perform; intros [] _; exact H.
Qed.

Lemma handle_wp window ev : wp (handle_prog cfg window ev) (handled window ev).
Proof.
  unfold handle_prog. apply wp_bind. eapply wp_mono; [|apply direction_wp]. intros tr1 [] H1.
  apply wp_bind, Seen_wp. intros now hit. destruct (seen_by window now hit) eqn:Hseen.
  { eapply wp_mono; [|apply observe_wp]. intros tr2 [] H2.
    eapply (handled_parts _ _ _ _ now hit (λ m, map_to_list m) None []); try done; [by intros m|..];
      unfold work, work_ops; by rewrite Hseen. }
  apply wp_bind, wp_perform. intros order Ho. cbn in Ho.
  destruct (Parse order (Payload ev)) as [resp|e] eqn:Hparse.
  2:{ eapply wp_mono; [|apply observe_wp]. intros tr2 [] H2.
      eapply (handled_parts _ _ _ _ now hit order None [SawRange order]); try done;
        unfold work, work_ops; by rewrite Hseen, Hparse. }
  apply wp_bind, wp_perform. intros rules Hr. cbn in Hr.
  assert (SawTrie rules ∈ [SawRange order; SawTrie rules]) as Hin by (right; left).
  destruct rules as [tr|].
  - eapply wp_mono; [|apply names_wp; eauto]. intros tr2 [] H2.
    eapply (handled_parts _ _ _ _ now hit order (Some tr) [SawRange order; SawTrie (Some tr)]); try done;
      unfold work, work_ops; by rewrite Hseen, Hparse.
  - apply (handled_parts window ev tr1 [] now hit order None [SawRange order; SawTrie None] [] []); try done;
      [apply does_work_nil|..]; unfold work, work_ops; by rewrite Hseen, Hparse.
Qed.

End one_call.
