(* ===== verification/Workers.v ===== *)
(** * The workers, step by step ([internal/pipeline/pipeline.go], [worker], [handle])

    A pool of threads, each handling an event with the program of [HandleProg],
    under an arbitrary scheduler that may also reload the rules between any two
    operations. [PipelineRun] gives each worker one event after the other and
    bounds their number; a thread per event allows every such schedule. *)

From S2P Require Import Prelude GoBytes GoUnicode GoStrings GoNet Trie Rules Store Source Metrics.
From S2P Require Import Dedup DnsParse Ipset Pipeline HandleProg.
#[local] Open Scope Z_scope.

Section pool.
Context {C D : Type} {client : Client C} {lru : LRU D}.

(** ** Pools *)

Record pool := mkPool {
  threads : list (prog unit);
  shared : state C D;
}.

Inductive label :=
| Did (i : nat) (e : obs)
| Reloaded (rs : RuleSet).

(** Some thread performs its next operation, or a reload replaces the rules. *)
Inductive pool_step : pool → label → pool → Prop :=
| thread_does ths s i A (o : op A) k a s' :
  ths !! i = Some (Do o k) → does o s a s' →
  pool_step (mkPool ths s) (Did i (obs_of o a)) (mkPool (<[i := k a]> ths) s')
| rules_replaced ths s rs st :
  loaded rs → Replace (Some rs) (st_store s) = Some st →
  pool_step (mkPool ths s) (Reloaded rs) (mkPool ths (set_store s st)).

Inductive pool_run (p : pool) : list label → pool → Prop :=
| run_start : pool_run p [] p
| run_step tr p' l p'' : pool_run p tr p' → pool_step p' l p'' → pool_run p (tr ++ [l]) p''.

End pool.
Arguments pool : clear implicits.

(** ** What a pool does *)

(** The operations of one thread in a trace, and of all. *)
Definition mine (i : nat) : list label → list obs :=
  omap (λ l, match l with Did j e => if decide (j = i) then Some e else None | Reloaded _ => None end).
Definition all_obs : list label → list obs :=
  omap (λ l, match l with Did _ e => Some e | Reloaded _ => None end).

(** The store after the reloads of a trace. *)
Definition store_after (tr : list label) (st : Store) : Store :=
  foldl (λ st l, match l with
    | Reloaded rs => default st (Replace (Some rs) st)
    | Did _ _ => st
    end) st tr.

Lemma store_after_ok tr st :
  (∀ rs, Reloaded rs ∈ tr → loaded rs) → store_ok st → store_ok (store_after tr st).
Proof.
  intros Hl Hst. unfold store_after. apply (foldl_inv store_ok); [done|].
  intros st' [i e|rs] Hin Hst'; [done|].
  destruct (store_ok_Replace rs st' (Hl rs Hin) Hst') as (st'' & -> & ?). done.
Qed.

Lemma mine_snoc i tr l : mine i (tr ++ [l]) = mine i tr ++ mine i [l].
Proof. apply omap_app. Qed.

Lemma mine_reloaded i rs : mine i [Reloaded rs] = [].
Proof. done. Qed.

Lemma mine_did i j e : mine i [Did j e] = if decide (j = i) then [e] else [].
Proof. unfold mine. cbn. by case_decide. Qed.

Section pools.
Context {C D : Type} {client : Client C} {lru : LRU D}.
Implicit Types (s : state C D) (p : pool C D).

(** The client after calls that answered as recorded. *)
Fixpoint client_run (c : C) (calls : list call) (c' : C) : Prop :=
  match calls with
  | [] => c' = c
  | (set, ip, ttl, err) :: calls =>
    (client_Add set ip ttl c).1 = err ∧ client_run (client_Add set ip ttl c).2 calls c'
  end.

Lemma client_run_snoc c calls c' set ip ttl :
  client_run c calls c' →
  client_run c (calls ++ [(set, ip, ttl, (client_Add set ip ttl c').1)]) (client_Add set ip ttl c').2.
Proof.
  revert c. induction calls as [|[[[set' ip'] ttl'] err] calls IH]; intros c; cbn; [by intros ->|].
  intros [? ?]. eauto.
Qed.

(** What the pool has done to the shared state is what the trace shows. *)
Record traced (s0 : state C D) (tr : list label) s : Prop := {
  tr_loaded : ∀ rs, Reloaded rs ∈ tr → loaded rs;
  tr_store : st_store s = store_after tr (st_store s0);
  tr_client : client_run (st_ipset s0) (adds (all_obs tr)) (st_ipset s);
  tr_metrics : st_metrics s = st_metrics s0 ++ incs (all_obs tr);
  tr_lines : st_debug s = st_debug s0 ++ lines (all_obs tr);
  tr_window : ttl (st_dedup s) = ttl (st_dedup s0);
}.

Lemma traced_start s : traced s [] s.
Proof. split; try done; cbn; [by intros ? ?%not_elem_of_nil|by rewrite app_nil_r..]. Qed.

Lemma all_obs_snoc tr i e : all_obs (tr ++ [Did i e]) = all_obs tr ++ [e].
Proof. unfold all_obs. by rewrite omap_app. Qed.

Lemma store_after_snoc tr l st :
  store_after (tr ++ [l]) st = store_after [l] (store_after tr st).
Proof. apply foldl_app. Qed.

Lemma traced_does s0 tr s i A (o : op A) a s' :
  traced s0 tr s → does o s a s' → traced s0 (tr ++ [Did i (obs_of o a)]) s'.
Proof.
  intros [Hl Hst Hc Hm Hd Hw] Hdo.
  assert (∀ rs, Reloaded rs ∈ tr ++ [Did i (obs_of o a)] → loaded rs) as Hl'.
  { intros rs [?|[=]%list_elem_of_singleton]%elem_of_app. by apply Hl. }
  destruct o; cbn in Hdo;
    repeat match type of Hdo with
    | (let '(_, _) := ?x in _) => destruct x as [? ?] eqn:Hx; destruct Hdo as [-> ->]
    | _ ∧ _ => destruct Hdo as [? ->]
    | _ = _ => subst
    end;
    split; rewrite ?all_obs_snoc, ?store_after_snoc; unfold adds, incs, lines; rewrite ?omap_app;
    cbn [obs_of omap list_omap app]; rewrite ?app_nil_r; try done; cbn.
  - pose proof (client_run_snoc _ _ _ set ip ttl Hc) as Hc'. by rewrite Hx in Hc'.
  - by rewrite Hm, app_assoc.
  - by rewrite Hd, app_assoc.
Qed.

Lemma traced_reload s0 tr s rs st :
  traced s0 tr s → loaded rs → Replace (Some rs) (st_store s) = Some st →
  traced s0 (tr ++ [Reloaded rs]) (set_store s st).
Proof.
  intros [Hl Hst Hc Hm Hd Hw] Hrs Hr.
  assert (all_obs (tr ++ [Reloaded rs]) = all_obs tr) as Hall
    by (unfold all_obs; by rewrite omap_app, app_nil_r).
  split; rewrite ?Hall; try done.
  - intros rs' [?|[= ->]%list_elem_of_singleton]%elem_of_app; [by apply Hl|done].
  - rewrite store_after_snoc, <-Hst. unfold store_after. cbn [foldl st_store set_store]. by rewrite Hr.
Qed.

(** Every answer is one the program may rely on. *)
Lemma does_admissible {A} (o : op A) s a s' : store_ok (st_store s) → does o s a s' → admissible o a.
Proof.
  intros Hs. destruct o; cbn; try done; [by intros [? _]|].
  intros [-> _] tr name Htr. by eapply store_ok_trie.
Qed.

(** A pool after a run: the shared state is traced, each thread is on its way. *)
Lemma pool_run_spec ps s0 tr p :
  store_ok (st_store s0) → pool_run (mkPool ps s0) tr p →
  traced s0 tr (shared p) ∧ store_ok (st_store (shared p)) ∧
  ∀ i q, ps !! i = Some q → ∃ q', threads p !! i = Some q' ∧ emits q (mine i tr) q'.
Proof.
  intros Hs0 Hrun. induction Hrun as [|tr p l p' Hrun (Ht & Hok & IH) Hstep].
  { split; [apply traced_start|]. split; [done|]. intros i q Hq. by exists q. }
  assert (traced s0 (tr ++ [l]) (shared p')) as Ht'.
  { destruct Hstep; cbn in *; [by eapply traced_does|by eapply traced_reload]. }
  split; [done|]. split.
  { rewrite (tr_store _ _ _ Ht'). by apply store_after_ok; [apply Ht'|]. }
  intros i q Hq. destruct (IH i q Hq) as (q' & Hq' & Hem). rewrite mine_snoc.
  destruct Hstep as [ths s j A o k a s' Hj Hdo|ths s rs st Hl Hr]; cbn [threads shared] in *.
  - rewrite mine_did. case_decide as Hij.
    + subst j. rewrite Hq' in Hj. injection Hj as ->. exists (k a).
      split; [by rewrite list_lookup_insert_eq by (by eapply lookup_lt_Some)|].
      apply emits_snoc; [done|]. by eapply does_admissible.
    + exists q'. rewrite list_lookup_insert_ne, app_nil_r by done. done.
  - rewrite mine_reloaded, app_nil_r. by exists q'.
Qed.

Lemma pool_run_length p0 tr p : pool_run p0 tr p → length (threads p) = length (threads p0).
Proof.
  induction 1 as [|tr p l p' _ IH Hstep]; [done|]. rewrite <-IH.
  destruct Hstep; [apply length_insert|done].
Qed.

(** Where a thread saw something. *)
Lemma elem_of_mine e i tr : e ∈ mine i tr ↔ Did i e ∈ tr.
Proof.
  unfold mine. rewrite list_elem_of_omap. split.
  - intros ([j e'|rs] & Hin & H); [|done]. case_decide; by simplify_eq.
  - intros Hin. exists (Did i e). split; [done|]. by rewrite decide_True.
Qed.

Lemma pool_step_did p i e p' :
  pool_step p (Did i e) p' →
  ∃ A (o : op A) a, e = obs_of o a ∧ does o (shared p) a (shared p').
Proof. inversion 1; subst. by eexists _, _, _. Qed.

Lemma pool_run_single p l p' : pool_run p [l] p' → pool_step p l p'.
Proof.
  remember [l] as tr eqn:Htr. destruct 1 as [|tr p1 l' p' Hrun Hstep]; [done|].
  apply (app_inj_tail tr []) in Htr as [-> ->].
  remember [] as tr eqn:Htr. destruct Hrun as [|tr p2 l' p1 _ _]; [done|]. by apply app_nil in Htr as [_ ?].
Qed.

Lemma run_thread_index p0 tr p i e :
  pool_run p0 tr p → Did i e ∈ tr → (i < length (threads p0))%nat.
Proof.
  induction 1 as [|tr p l p' Hrun IH Hstep]; [by intros ?%not_elem_of_nil|].
  intros [|<-%list_elem_of_singleton]%elem_of_app; [by apply IH|].
  rewrite <-(pool_run_length _ _ _ Hrun). inversion Hstep; subst. by eapply lookup_lt_Some.
Qed.

(** The rules a thread loads are those of the store at that time. *)
Lemma run_trie ps s0 tr p i rules :
  pool_run (mkPool ps s0) tr p → store_ok (st_store s0) → Did i (SawTrie rules) ∈ tr →
  ∃ pre post, tr = pre ++ Did i (SawTrie rules) :: post ∧
    rules = StoreTrie (store_after pre (st_store s0)).
Proof.
  intros Hrun Hs0. induction Hrun as [|tr p l p' Hrun IH Hstep]; [by intros ?%not_elem_of_nil|].
  intros [Hin|<-%list_elem_of_singleton]%elem_of_app.
  - destruct (IH Hin) as (pre & post & -> & ->). exists pre, (post ++ [l]). by rewrite <-app_assoc.
  - exists tr, []. split; [done|].
    destruct (pool_run_spec _ _ _ _ Hs0 Hrun) as (Ht & _ & _).
    rewrite <-(tr_store _ _ _ Ht). destruct (pool_step_did _ _ _ _ Hstep) as (A & o & a & He & Hdo).
    destruct o; try discriminate. injection He as ->. by destruct Hdo.
Qed.

End pools.

(** ** Every pool can finish *)

Section finish.
Context {C D : Type} {client : Client C} {lru : LRU D}.
Implicit Types (s : state C D) (p : pool C D).

Lemma pool_run_app p0 tr1 p1 tr2 p2 :
  pool_run p0 tr1 p1 → pool_run p1 tr2 p2 → pool_run p0 (tr1 ++ tr2) p2.
Proof.
  intros H1. induction 1 as [|tr p l p' Hrun IH Hstep]; [by rewrite app_nil_r|].
  rewrite app_assoc. by eapply run_step.
Qed.

Lemma pool_run_split p0 tr1 tr2 p2 :
  pool_run p0 (tr1 ++ tr2) p2 → ∃ p1, pool_run p0 tr1 p1 ∧ pool_run p1 tr2 p2.
Proof.
  remember (tr1 ++ tr2) as tr eqn:Htr. intros Hrun. revert tr2 Htr.
  induction Hrun as [|tr p l p' Hrun IH Hstep]; intros tr2 Htr.
  { symmetry in Htr. apply app_nil in Htr as [-> ->]. eexists. split; constructor. }
  destruct tr2 as [|l' tr2 _] using rev_ind.
  { rewrite app_nil_r in Htr. subst. exists p'. split; [by eapply run_step|constructor]. }
  rewrite app_assoc in Htr. apply app_inj_tail in Htr as [-> ->].
  destruct (IH tr2 eq_refl) as (p1 & H1 & H2). exists p1. split; [done|by eapply run_step].
Qed.

(** No operation blocks. *)
Lemma does_total {A} (o : op A) s : ∃ a s', does o s a s' ∧ st_store s' = st_store s.
Proof.
  destruct o; cbn.
  - by exists 0, s.
  - destruct (lru_Get k (cache (st_dedup s))) as [h d]. eexists _, _. split; [split; done|done].
  - by eexists tt, _.
  - exists (λ m, map_to_list m), s. split; [|done]. split; [|done]. by intros m.
  - by eexists _, _.
  - destruct (client_Add set ip ttl (st_ipset s)) as [e c]. by eexists _, _.
  - by eexists tt, _.
  - by eexists tt, _.
Qed.

Definition no_reload (tr : list label) : Prop := ∀ rs, Reloaded rs ∉ tr.

Lemma no_reload_nil : no_reload [].
Proof. intros rs. apply not_elem_of_nil. Qed.

Lemma no_reload_app tr1 tr2 : no_reload tr1 → no_reload tr2 → no_reload (tr1 ++ tr2).
Proof. intros H1 H2 rs [?|?]%elem_of_app; [by apply (H1 rs)|by apply (H2 rs)]. Qed.

Lemma no_reload_did i e : no_reload [Did i e].
Proof. by intros rs [=]%list_elem_of_singleton. Qed.

(** One thread can run to its end, from any state, without the others. *)
Lemma thread_finish i q ths s Φ :
  store_ok (st_store s) → ths !! i = Some q → wp q Φ →
  ∃ tr s', pool_run (mkPool ths s) tr (mkPool (<[i := Done tt]> ths) s') ∧ store_ok (st_store s') ∧
    no_reload tr.
Proof.
  revert ths s Φ. induction q as [[]| |A o k IH]; intros ths s Φ Hs Hi Hwp.
  - exists [], s. rewrite list_insert_id by done. split; [constructor|].
    split; [done|apply no_reload_nil].
  - done.
  - destruct (does_total o s) as (a & s1 & Hdo & Hst).
    assert (store_ok (st_store s1)) as Hs1 by (by rewrite Hst).
    pose proof (lookup_lt_Some _ _ _ Hi) as Hlt.
    destruct (IH a (<[i := k a]> ths) s1 (λ tr, Φ (obs_of o a :: tr)) Hs1) as (tr & s2 & Hrun & Hs2 & Hnr).
    { by apply list_lookup_insert_eq. }
    { exact (Hwp a (does_admissible o s a s1 Hs Hdo)). }
    rewrite list_insert_insert_eq in Hrun.
    exists ([Did i (obs_of o a)] ++ tr), s2.
    split; [|split; [done|apply no_reload_app; [apply no_reload_did|done]]].
    eapply pool_run_app; [|done]. eapply (run_step _ []); [constructor|]. by econstructor.
Qed.

Definition finished p : Prop := ∀ i q, threads p !! i = Some q → q = Done tt.

Lemma pool_finish p :
  store_ok (st_store (shared p)) → (∀ i q, threads p !! i = Some q → ∃ Φ, wp q Φ) →
  ∃ tr p', pool_run p tr p' ∧ finished p' ∧ no_reload tr.
Proof.
  destruct p as [ths s]. cbn [threads shared]. intros Hs Hth.
  assert (∀ n, (n ≤ length ths)%nat → ∃ tr ths' s',
    pool_run (mkPool ths s) tr (mkPool ths' s') ∧ store_ok (st_store s') ∧ no_reload tr ∧ length ths' = length ths ∧
    (∀ i q, ths' !! i = Some q → if decide (i < n)%nat then q = Done tt else ∃ Φ, wp q Φ)) as H.
  { intros n. induction n as [|n IH]; intros Hn.
    - exists [], ths, s. split; [constructor|]. split; [done|]. split; [apply no_reload_nil|]. split; [done|].
      intros i q Hq. rewrite decide_False by lia. by apply (Hth i).
    - destruct IH as (tr & ths' & s' & Hrun & Hs' & Hnr & Hlen & Hq); [lia|].
      destruct (lookup_lt_is_Some_2 ths' n) as [q Hn']; [lia|].
      pose proof (Hq n q Hn') as HΦ. rewrite decide_False in HΦ by lia. destruct HΦ as [Φ HΦ].
      destruct (thread_finish n q ths' s' Φ Hs' Hn' HΦ) as (tr' & s'' & Hrun' & Hs'' & Hnr').
      exists (tr ++ tr'), (<[n := Done tt]> ths'), s''. split; [by eapply pool_run_app|].
      split; [done|]. split; [by apply no_reload_app|]. split; [by rewrite length_insert|]. intros i q' Hi.
      destruct (decide (i = n)) as [->|Hne].
      + rewrite list_lookup_insert_eq in Hi by lia. injection Hi as <-. by rewrite decide_True by lia.
      + rewrite list_lookup_insert_ne in Hi by done. specialize (Hq i q' Hi).
        destruct (decide (i < n)%nat); [by rewrite decide_True by lia|by rewrite decide_False by lia]. }
  destruct (H (length ths)) as (tr & ths' & s' & Hrun & _ & Hnr & Hlen & Hq); [done|].
  exists tr, (mkPool ths' s'). split; [done|]. split; [|done]. intros i q Hi. cbn in Hi.
  specialize (Hq i q Hi). apply lookup_lt_Some in Hi. by rewrite decide_True in Hq by lia.
Qed.

End finish.

(** ** The cache under a pool *)

Section cache.
Context {C D : Type} {client : Client C} {lru : LRU D} {laws : LRULaws D}.
Implicit Types (s : state C D) (p : pool C D).

Definition resident s : list Z := (lru_view (cache (st_dedup s))).*1.

Lemma does_resident {A} (o : op A) s a s' k :
  does o s a s' → k ∈ resident s' → k ∈ resident s ∨ ∃ now, obs_of o a = SawPut k now.
Proof.
  unfold resident. destruct o; cbn [does].
  - intros -> ?. by left.
  - pose proof (lru_Get_view k0 (cache (st_dedup s))) as Hv.
    destruct (lru_Get k0 (cache (st_dedup s))) as [h d]. intros [-> ->]. cbn in *. rewrite Hv.
    unfold promote. destruct (assoc k0 _) as [v|] eqn:Ha; [|by left].
    intros [->|[? _]%remove_key_keys]%elem_of_cons; [|by left]. left.
    destruct (decide (k0 ∈ (lru_view (cache (st_dedup s))).*1)) as [|Hn]; [done|].
    apply assoc_None in Hn. congruence.
  - intros ->. cbn. rewrite lru_Add_view, fmap_take. intros Hin%subseteq_take. cbn in Hin.
    apply elem_of_cons in Hin as [->|[? _]%remove_key_keys]; [right; eauto|by left].
  - intros [_ ->]. by left.
  - intros [_ ->]. by left.
  - destruct (client_Add _ _ _ _). intros [_ ->]. by left.
  - intros ->. by left.
  - intros ->. by left.
Qed.

Lemma run_resident p0 tr p k :
  pool_run p0 tr p → k ∈ resident (shared p) →
  k ∈ resident (shared p0) ∨ ∃ j now, Did j (SawPut k now) ∈ tr.
Proof.
  induction 1 as [|tr p l p' Hrun IH Hstep]; [by left|]. intros Hk.
  assert (k ∈ resident (shared p) ∨ ∃ j now, l = Did j (SawPut k now)) as [Hk'|(j & now & ->)].
  { destruct Hstep as [ths s i A o k' a s' Hi Hdo|]; cbn in *; [|by left].
    destruct (does_resident _ _ _ _ _ Hdo Hk) as [|[now Ho]]; [by left|right]. exists i, now. by rewrite Ho. }
  - destruct (IH Hk') as [|(j & now & ?)]; [by left|right]. exists j, now. apply elem_of_app. by left.
  - right. exists j, now. apply elem_of_app. right. by left.
Qed.

End cache.

(** ** Properties *)

Section properties.
Context {C D : Type} {client : Client C} {lru : LRU D} {dns : DNS}.
Context (cfg : Config).
Implicit Types (s : state C D) (p : pool C D).

(** The workers at a state: one thread per event. *)
Definition workers_at (evs : list Event) s : pool C D :=
  mkPool (handle_prog cfg (ttl (st_dedup s)) <$> evs) s.

(** A thread of the pool: where it is, and that it can go on to its end. *)
Lemma worker_thread evs s0 tr p i ev :
  store_ok (st_store s0) → pool_run (workers_at evs s0) tr p → evs !! i = Some ev →
  ∃ q, threads p !! i = Some q ∧
    wp q (λ tr' r, handled cfg (ttl (st_dedup s0)) ev (mine i tr ++ tr') r).
Proof.
  intros Hs0 Hrun Hi. destruct (pool_run_spec _ _ _ _ Hs0 Hrun) as (_ & _ & Hth).
  destruct (Hth i (handle_prog cfg (ttl (st_dedup s0)) ev)) as (q & Hq & Hem).
  { by rewrite list_lookup_fmap, Hi. }
  exists q. split; [done|]. by apply (wp_emits _ _ _ _ (handle_wp cfg (ttl (st_dedup s0)) ev)).
Qed.

(** From wherever they are, the workers can finish. *)
Lemma workers_finish evs s0 tr p :
  store_ok (st_store s0) → pool_run (workers_at evs s0) tr p →
  ∃ tr' p', pool_run p tr' p' ∧ finished p' ∧ no_reload tr'.
Proof.
  intros Hs0 Hrun. apply pool_finish; [by apply (pool_run_spec _ _ _ _ Hs0 Hrun)|].
  intros i q Hq. assert (i < length evs)%nat as Hlt.
  { apply lookup_lt_Some in Hq. rewrite (pool_run_length _ _ _ Hrun) in Hq. cbn in Hq.
    by rewrite length_fmap in Hq. }
  destruct (lookup_lt_is_Some_2 evs i Hlt) as [ev Hev].
  destruct (worker_thread _ _ _ _ _ _ Hs0 Hrun Hev) as (q' & Hq' & Hwp).
  rewrite Hq in Hq'. injection Hq' as <-. by eexists.
Qed.

(** C3: workers handle events side by side. However their operations and reloads
    of the rules interleave, no worker panics, the store stays valid, and the
    client, the metrics and the debug log have exactly what the operations gave
    them. A worker that has finished its event has made, in order, exactly the
    writes that event asks for under its own answer from the cache and one
    snapshot of the rules, which was the store's when it read it, with the
    increments and lines that go with them: no interleaving loses a write, adds
    one, or mixes two rule sets within an event. *)
Theorem workers_effects evs s0 tr p :
  store_ok (st_store s0) → pool_run (workers_at evs s0) tr p →
  store_ok (st_store (shared p)) ∧ st_store (shared p) = store_after tr (st_store s0) ∧
  (∀ i, threads p !! i ≠ Some Crash) ∧
  client_run (st_ipset s0) (adds (all_obs tr)) (st_ipset (shared p)) ∧
  st_metrics (shared p) = st_metrics s0 ++ incs (all_obs tr) ∧
  st_debug (shared p) = st_debug s0 ++ lines (all_obs tr) ∧
  (∃ tr' p', pool_run p tr' p' ∧ finished p') ∧
  ∀ i ev, evs !! i = Some ev → threads p !! i = Some (Done tt) →
    ∃ now hit order rules answers,
      handled_as cfg (ttl (st_dedup s0)) ev (mine i tr) now hit order rules answers ∧
      (answers ≠ [] → ∃ pre post, tr = pre ++ Did i (SawTrie rules) :: post ∧
        rules = StoreTrie (store_after pre (st_store s0))).
Proof.
  intros Hs0 Hrun. destruct (pool_run_spec _ _ _ _ Hs0 Hrun) as (Ht & Hok & Hth).
  split; [done|]. split; [by apply Ht|]. split.
  { intros i Hi. assert (i < length (threads p))%nat as Hlt by (by eapply lookup_lt_Some).
    destruct (evs !! i) as [ev|] eqn:Hev.
    - destruct (worker_thread _ _ _ _ _ _ Hs0 Hrun Hev) as (q & Hq & Hwp). rewrite Hi in Hq.
      by injection Hq as <-.
    - apply lookup_ge_None in Hev. rewrite (pool_run_length _ _ _ Hrun) in Hlt. cbn in Hlt.
      rewrite length_fmap in Hlt. lia. }
  do 3 (split; [by apply Ht|]). split.
  { destruct (workers_finish _ _ _ _ Hs0 Hrun) as (tr' & p' & ? & ? & _). by exists tr', p'. }
  intros i ev Hev Hd.
  destruct (worker_thread _ _ _ _ _ _ Hs0 Hrun Hev) as (q & Hq & Hwp). rewrite Hd in Hq.
  injection Hq as <-. cbn in Hwp. rewrite app_nil_r in Hwp.
  destruct Hwp as (now & hit & order & rules & answers & Hha).
  exists now, hit, order, rules, answers. split; [done|]. intros Hne.
  eapply run_trie; [done..|]. apply elem_of_mine.
  destruct (work_asked cfg order ev (seen_by (ttl (st_dedup s0)) now hit) rules) as [? ?].
  { rewrite <-(ha_work _ _ _ _ _ _ _ _ _ Hha). by intros ?%fmap_nil_inv. }
  by apply (ha_rules _ _ _ _ _ _ _ _ _ Hha).
Qed.

End properties.

Section copies.
Context {C D : Type} {client : Client C} {lru : LRU D} {laws : LRULaws D} {dns : DNS}.
Context (cfg : Config).
Implicit Types (s : state C D) (p : pool C D).

(** A worker that has put its key has asked for it before, and only that key. *)
Lemma worker_cache evs s0 tr p i e :
  store_ok (st_store s0) → pool_run (workers_at cfg evs s0) tr p →
  Did i e ∈ tr → is_cache e = true →
  ∃ ev hit now, evs !! i = Some ev ∧ Did i (SawGet (Sum64a (Payload ev)) hit) ∈ tr ∧
    (e = SawGet (Sum64a (Payload ev)) hit ∨ e = SawPut (Sum64a (Payload ev)) now).
Proof.
  intros Hs0 Hrun Hin Hcache.
  assert (i < length evs)%nat as Hlt.
  { pose proof (run_thread_index _ _ _ _ _ Hrun Hin) as H. cbn in H. by rewrite length_fmap in H. }
  destruct (lookup_lt_is_Some_2 evs i Hlt) as [ev Hev].
  destruct (worker_thread cfg _ _ _ _ _ _ Hs0 Hrun Hev) as (q & Hq & Hwp).
  destruct (wp_total _ _ Hwp) as (tr' & r & _ & (now & hit & order & rules & answers & Hha)).
  pose proof (ha_cache _ _ _ _ _ _ _ _ _ Hha) as Hc. unfold cache_obs in Hc. rewrite filter_app in Hc.
  assert (e ∈ filter (λ e, is_cache e = true) (mine i tr)) as He.
  { apply list_elem_of_filter. split; [done|]. by apply elem_of_mine. }
  exists ev, hit, now. split; [done|]. rewrite <-elem_of_mine.
  destruct (filter _ (mine i tr)) as [|e1 l1] eqn:Hf; [by apply not_elem_of_nil in He|].
  injection Hc as -> Hc. split.
  - assert (SawGet (Sum64a (Payload ev)) hit ∈ filter (λ e, is_cache e = true) (mine i tr)) as H
      by (rewrite Hf; left). by apply list_elem_of_filter in H as [_ ?].
  - apply elem_of_cons in He as [->|He]; [by left|right].
    assert (e ∈ [SawPut (Sum64a (Payload ev)) now]) as He' by (rewrite <-Hc; apply elem_of_app; by left).
    by apply list_elem_of_singleton in He'.
Qed.

Definition asks_for (k : Z) (l : label) : Prop := ∃ i hit, l = Did i (SawGet k hit).

#[local] Instance asks_for_dec k l : Decision (asks_for k l).
Proof.
  destruct l as [i [|k' hit| | | | | |]|]; try (right; intros (? & ? & [=]); done).
  destruct (decide (k' = k)) as [->|]; [left; by exists i, hit|right; intros (? & ? & [=]); done].
Defined.

(** The first worker to ask for a key that is not resident finds nothing. *)
Lemma first_ask evs s0 tr p k :
  store_ok (st_store s0) → pool_run (workers_at cfg evs s0) tr p → k ∉ resident s0 →
  Exists (asks_for k) tr →
  ∃ pre j post, tr = pre ++ Did j (SawGet k None) :: post ∧ Forall (λ l, ¬ asks_for k l) pre.
Proof.
  intros Hs0 Hrun Hk Hex.
  destruct (list_exist_first _ (asks_for_dec k) _ Hex) as (pre & l & post & -> & (j & hit & ->) & Hpre).
  exists pre, j, post. split; [|done].
  assert (hit = None) as ->; [|done].
  rewrite cons_middle, app_assoc in Hrun.
  apply pool_run_split in Hrun as (p2 & Hrun & _).
  apply pool_run_split in Hrun as (p1 & Hrun & Hlast).
  assert (k ∉ resident (shared p1)) as Hk1.
  { intros Hin. destruct (run_resident _ _ _ _ Hrun Hin) as [|(i & now & Hput)]; [done|].
    destruct (worker_cache _ _ _ _ _ _ Hs0 Hrun Hput eq_refl) as (ev & hit' & now' & _ & Hget & [|[= Hk' _]]); [done|].
    rewrite Forall_forall in Hpre. apply (Hpre _ Hget). rewrite <-Hk'. by exists i, hit'. }
  apply pool_run_single in Hlast. destruct (pool_step_did _ _ _ _ Hlast) as (A & o & a & He & Hdo).
  destruct o; try discriminate. injection He as <- <-. cbn in Hdo.
  pose proof (lru_Get_val k (cache (st_dedup (shared p1)))) as Hv. apply assoc_None in Hk1.
  destruct (lru_Get k _) as [h d]. destruct Hdo as [-> _]. cbn in Hv. congruence.
Qed.

(** A finished worker has handled its event, with its own answer from the cache. *)
Lemma finished_worker evs s0 tr p i ev :
  store_ok (st_store s0) → pool_run (workers_at cfg evs s0) tr p → finished p → evs !! i = Some ev →
  handled cfg (ttl (st_dedup s0)) ev (mine i tr) tt.
Proof.
  intros Hs0 Hrun Hfin Hev. destruct (worker_thread cfg _ _ _ _ _ _ Hs0 Hrun Hev) as (q & Hq & Hwp).
  rewrite (Hfin i q Hq) in Hwp. cbn in Hwp. by rewrite app_nil_r in Hwp.
Qed.

Lemma handled_hit window ev tr i now hit order rules answers hit' k :
  handled_as cfg window ev (mine i tr) now hit order rules answers →
  Did i (SawGet k hit') ∈ tr → hit' = hit ∧ k = Sum64a (Payload ev).
Proof.
  intros Hha Hin. apply elem_of_mine in Hin.
  assert (SawGet k hit' ∈ cache_obs (mine i tr)) as H by (by apply list_elem_of_filter).
  rewrite (ha_cache _ _ _ _ _ _ _ _ _ Hha), !elem_of_cons, elem_of_nil in H. naive_solver.
Qed.

(** The first worker to ask for a new key does all the work. *)
Lemma first_copy evs s0 tr p i ev :
  store_ok (st_store s0) → pool_run (workers_at cfg evs s0) tr p → finished p →
  evs !! i = Some ev → Sum64a (Payload ev) ∉ resident s0 →
  ∃ j ev' now order rules answers,
    evs !! j = Some ev' ∧ Sum64a (Payload ev') = Sum64a (Payload ev) ∧
    handled_as cfg (ttl (st_dedup s0)) ev' (mine j tr) now None order rules answers ∧
    answers.*1 = work cfg order ev' false rules.
Proof.
  intros Hs0 Hrun Hfin Hev Hk.
  destruct (finished_worker _ _ _ _ _ _ Hs0 Hrun Hfin Hev) as (now & hit & order & rules & answers & Hha).
  assert (Exists (asks_for (Sum64a (Payload ev))) tr) as Hex.
  { apply Exists_exists. exists (Did i (SawGet (Sum64a (Payload ev)) hit)). split; [|by exists i, hit].
    apply elem_of_mine. assert (SawGet (Sum64a (Payload ev)) hit ∈ cache_obs (mine i tr)) as H
      by (rewrite (ha_cache _ _ _ _ _ _ _ _ _ Hha); left). by apply list_elem_of_filter in H as [_ ?]. }
  destruct (first_ask _ _ _ _ _ Hs0 Hrun Hk Hex) as (pre & j & post & Htr & _).
  assert (Did j (SawGet (Sum64a (Payload ev)) None) ∈ tr) as Hj.
  { rewrite Htr. apply elem_of_app. right. left. }
  destruct (worker_cache _ _ _ _ _ _ Hs0 Hrun Hj eq_refl) as (ev' & _ & _ & Hev' & _).
  destruct (finished_worker _ _ _ _ _ _ Hs0 Hrun Hfin Hev') as (now' & hit' & order' & rules' & answers' & Hha').
  destruct (handled_hit _ _ _ _ _ _ _ _ _ _ _ Hha' Hj) as [<- Hkey].
  exists j, ev', now', order', rules', answers'. split_and!; try done. apply (ha_work _ _ _ _ _ _ _ _ _ Hha').
Qed.

Lemma mine_other tr x l :
  (∀ i, i ∈ l → mine i [x] = []) → (i ← l; mine i (tr ++ [x])) = i ← l; mine i tr.
Proof.
  intros Hl. induction l as [|i l IHl]; [done|]. cbn. rewrite mine_snoc, Hl, app_nil_r by left.
  f_equal. apply IHl. intros. apply Hl. by right.
Qed.

(** The calls of all threads are those of each. *)
Lemma all_obs_mine tr n :
  (∀ i e, Did i e ∈ tr → (i < n)%nat) → all_obs tr ≡ₚ i ← seq 0 n; mine i tr.
Proof.
  induction tr as [|l tr IH] using rev_ind; intros Hn.
  { induction (seq 0 n) as [|? ? IH]; done. }
  assert (all_obs tr ≡ₚ i ← seq 0 n; mine i tr) as IH'.
  { apply IH. intros i e Hi. apply (Hn i e). apply elem_of_app. by left. }
  unfold all_obs. rewrite omap_app. fold all_obs. rewrite IH'. clear IH IH'.
  destruct l as [j e|rs].
  - specialize (Hn j e). assert (j < n)%nat as Hj by (apply Hn, elem_of_app; right; left).
    cbn [omap list_omap].
    replace n with (j + S (n - S j))%nat by lia. rewrite seq_app. cbn [seq Nat.add].
    rewrite !bind_app. cbn [mbind list_bind].
    rewrite !mine_other by (intros i Hi%elem_of_seq; by rewrite mine_did, decide_False by lia).
    rewrite mine_snoc, mine_did, decide_True by done. solve_Permutation.
  - cbn. rewrite app_nil_r. by rewrite mine_other.
Qed.

Lemma all_obs_mine_adds tr n :
  (∀ i e, Did i e ∈ tr → (i < n)%nat) → adds (all_obs tr) ≡ₚ i ← seq 0 n; adds (mine i tr).
Proof.
  intros Hn. unfold adds at 1. rewrite (all_obs_mine tr n Hn).
  induction (seq 0 n) as [|i l IH]; [done|]. cbn. by rewrite omap_app, IH.
Qed.

(** Alone among its kind, an event is new and gets the rules of the start. *)
Lemma lone_worker evs s0 tr p i ev :
  store_ok (st_store s0) → pool_run (workers_at cfg evs s0) tr p → finished p →
  NoDup ((λ ev, Sum64a (Payload ev)) <$> evs) → Sum64a (Payload ev) ∉ resident s0 →
  no_reload tr → evs !! i = Some ev →
  ∃ order, range_order order ∧ ∀ now,
    (adds (mine i tr)).*1
    = (λ q, (req_set q, req_ip q, req_ttl q)) <$> event_requests cfg order now ev s0.
Proof.
  intros Hs0 Hrun Hfin Hnd Hk Hnr Hev.
  destruct (first_copy evs s0 tr p i ev Hs0 Hrun Hfin Hev Hk)
    as (j & ev' & now & order & rules & answers & Hev' & Hkey & Hha & Hw).
  assert (j = i) as ->.
  { eapply (NoDup_lookup _ j i (Sum64a (Payload ev)) Hnd); rewrite list_lookup_fmap.
    - by rewrite Hev', <-Hkey.
    - by rewrite Hev. }
  rewrite Hev in Hev'. injection Hev' as <-.
  exists order. split; [apply Hha|]. intros now'. rewrite (ha_adds _ _ _ _ _ _ _ _ _ Hha).
  assert (event_requests cfg order now' ev s0 = answers.*1) as ->.
  2:{ by rewrite <-!list_fmap_compose. }
  rewrite Hw. unfold event_requests. rewrite Seen_result. apply assoc_None in Hk. rewrite Hk.
  unfold work. destruct (Parse order (Payload ev)) as [resp|] eqn:Hparse; [|done].
  assert (SawTrie rules ∈ mine i tr) as Hin by (apply Hha; [done|by rewrite Hparse]).
  apply elem_of_mine in Hin. destruct (run_trie _ _ _ _ _ _ Hrun Hs0 Hin) as (pre & post & Htr & ->).
  assert (store_after pre (st_store s0) = st_store s0) as ->; [|done].
  assert (∀ l, l ∈ pre → ∀ rs, l ≠ Reloaded rs) as Hpre.
  { intros l Hl rs ->. apply (Hnr rs). rewrite Htr. apply elem_of_app. by left. }
  clear -Hpre. unfold store_after. generalize (st_store s0). induction pre as [|l pre IH]; intros st; [done|].
  cbn. destruct l as [|rs]; [|exfalso; by eapply (Hpre (Reloaded rs)); [left|]]. apply IH.
  intros; apply Hpre. by right.
Qed.

(** C7: a duplicate never makes a response disappear: when workers handle events
    side by side and have finished, then for every event whose payload's key was
    not in the cache at the start some event with the same key was answered "not
    seen" and made all the writes its response asks for. (With several copies
    more than one may be, see [Seen_interleaved].) *)
Theorem workers_first_copy evs s0 tr p i ev :
  store_ok (st_store s0) → pool_run (workers_at cfg evs s0) tr p → finished p →
  evs !! i = Some ev → Sum64a (Payload ev) ∉ resident s0 →
  ∃ j ev' now order rules answers,
    evs !! j = Some ev' ∧ Sum64a (Payload ev') = Sum64a (Payload ev) ∧
    handled_as cfg (ttl (st_dedup s0)) ev' (mine j tr) now None order rules answers ∧
    answers.*1 = work cfg order ev' false rules.
Proof. apply first_copy. Qed.

(** C18: events with different keys do not disturb each other: when none of their
    keys is in the cache at the start and the rules are not reloaded meanwhile,
    the writes that workers make in any interleaving are, as a multiset, those
    that [handle] makes for each event alone in the starting state. *)
Theorem workers_independent evs s0 tr p :
  store_ok (st_store s0) → pool_run (workers_at cfg evs s0) tr p → finished p →
  NoDup ((λ ev, Sum64a (Payload ev)) <$> evs) →
  (∀ ev, ev ∈ evs → Sum64a (Payload ev) ∉ resident s0) → no_reload tr →
  ∃ orders, length orders = length evs ∧ Forall range_order orders ∧ ∀ now,
    (adds (all_obs tr)).*1 ≡ₚ
    e ← zip evs orders;
    (λ q, (req_set q, req_ip q, req_ttl q)) <$> event_requests cfg e.2 now e.1 s0.
Proof.
  intros Hs0 Hrun Hfin Hnd Hk Hnr.
  assert (∀ n, (n ≤ length evs)%nat → ∃ orders, length orders = n ∧ Forall range_order orders ∧ ∀ now,
    (i ← seq 0 n; (adds (mine i tr)).*1) = e ← zip (take n evs) orders;
      (λ q, (req_set q, req_ip q, req_ttl q)) <$> event_requests cfg e.2 now e.1 s0) as H.
  { intros n. induction n as [|n IH]; intros Hn; [by exists []|].
    destruct IH as (orders & Hlen & Hord & Heq); [lia|].
    destruct (lookup_lt_is_Some_2 evs n) as [ev Hev]; [lia|].
    destruct (lone_worker _ _ _ _ _ _ Hs0 Hrun Hfin Hnd (Hk ev (list_elem_of_lookup_2 _ _ _ Hev)) Hnr Hev)
      as (order & Ho & Hev').
    exists (orders ++ [order]). rewrite length_app, Hlen. split; [cbn; lia|].
    split; [apply Forall_app; by split; [|constructor]|]. intros now.
    rewrite seq_S, (take_S_r _ _ _ Hev), zip_with_app by (rewrite length_take; lia).
    rewrite !bind_app, (Heq now).
    cbn. by rewrite !app_nil_r, (Hev' now). }
  destruct (H (length evs)) as (orders & Hlen & Hord & Heq); [done|].
  exists orders. split; [done|]. split; [done|]. intros now. rewrite firstn_all in Heq. rewrite <-(Heq now).
  rewrite (all_obs_mine_adds tr (length evs)).
  2:{ intros i e Hin. pose proof (run_thread_index _ _ _ _ _ Hrun Hin) as Hi. cbn in Hi.
      by rewrite length_fmap in Hi. }
  clear. induction (seq 0 (length evs)) as [|i l IH]; [done|]. cbn. by rewrite fmap_app, IH.
Qed.

End copies.

(** ** Instances of the properties *)

#[local] Existing Instances recording_Client sample_dns.

(** Two copies of a response, and a response to another transaction. *)
Definition sample_copies : list Event := [sample_event; sample_event].
Definition sample_pair : list Event := [sample_event; mkEvent 1 DirRecv 4 53 4242 [Byte.x02]].

Lemma workers_effects_witness :
  ∃ tr p, pool_run (workers_at sample_cfg sample_copies sample_state) tr p ∧
    store_ok (st_store (shared p)) ∧ (∀ i, threads p !! i ≠ Some Crash).
Proof.
  destruct (workers_finish sample_cfg sample_copies sample_state [] _ sample_store_ok (run_start _))
    as (tr & p & Hrun & Hfin & _).
  exists tr, p. split; [exact Hrun|].
  destruct (workers_effects sample_cfg sample_copies sample_state tr p sample_store_ok Hrun)
    as (Hok & _ & Hc & _).
  split; [exact Hok|exact Hc].
Defined.

Lemma workers_first_copy_witness :
  ∃ tr p, pool_run (workers_at sample_cfg sample_copies sample_state) tr p ∧ finished p ∧
    ∃ j order rules answers,
      adds (mine j tr) = call_of <$> answers ∧ answers.*1 = work sample_cfg order sample_event false rules.
Proof.
  destruct (workers_finish sample_cfg sample_copies sample_state [] _ sample_store_ok (run_start _))
    as (tr & p & Hrun & Hfin & _).
  exists tr, p. split; [exact Hrun|]. split; [exact Hfin|].
  destruct (workers_first_copy sample_cfg sample_copies sample_state tr p 0 sample_event
    sample_store_ok Hrun Hfin eq_refl)
    as (j & ev & now & order & rules & answers & Hj & _ & Hha & Hw); [apply not_elem_of_nil|].
  exists j, order, rules, answers. split; [exact (ha_adds _ _ _ _ _ _ _ _ _ Hha)|].
  destruct j as [|[|j]]; [injection Hj as <-; exact Hw..|discriminate].
Defined.

Lemma workers_independent_witness :
  ∃ tr p orders, pool_run (workers_at sample_cfg sample_pair sample_state) tr p ∧ finished p ∧
    length orders = 2%nat ∧
    (adds (all_obs tr)).*1 ≡ₚ
    e ← zip sample_pair orders;
    (λ q, (req_set q, req_ip q, req_ttl q)) <$> event_requests sample_cfg e.2 0 e.1 sample_state.
Proof.
  destruct (workers_finish sample_cfg sample_pair sample_state [] _ sample_store_ok (run_start _))
    as (tr & p & Hrun & Hfin & Hnr).
  destruct (workers_independent sample_cfg sample_pair sample_state tr p sample_store_ok Hrun Hfin)
    as (orders & Hlen & _ & Hperm).
  - apply (bool_decide_unpack _). vm_compute. exact I.
  - intros ev _. apply not_elem_of_nil.
  - exact Hnr.
  - exists tr, p, orders. split; [exact Hrun|]. split; [exact Hfin|]. split; [exact Hlen|apply (Hperm 0)].
Defined.
