(* ===== verification/KernelSpec.v ===== *)
(** * The kernel's sets ([internal/ipset/client.go] against its contract)

    What the ipset client is for: an address written to a set is in the set
    until its timeout has passed. The contract is an abstract machine over the
    kernel's sets with expiry times ([ipset_step]); the kernel is third-party
    code, known by the documented effect of one addition ([KernelLaws]); the
    client refines the machine, and the writes of the pipeline, in any
    interleaving of the workers, are runs of it. *)

From S2P Require Import Prelude GoBytes GoFloat GoUnicode GoStrings GoNet Trie Rules Store Source Metrics.
From S2P Require Import Dedup DnsParse Ipset Pipeline HandleProg Workers.
#[local] Open Scope Z_scope.

#[local] Instance byte_countable : Countable Byte.byte.
Proof. apply (inj_countable Byte.to_N Byte.of_N). intros b. apply Byte.of_to_N. Defined.

(** ** The abstract machine *)

(** The kernel's clock, in nanoseconds, and for every set its elements with the
    time they expire; [None] is an entry without end. *)
Record ksets := mkKsets {
  k_now : Z;
  k_sets : gmap string (gmap (list Byte.byte) (option Z));
}.

(** ipset(8): a zero timeout value means the entry is added permanently. *)
Definition expiry (now timeout : Z) : option Z :=
  if decide (timeout = 0) then None else Some (now + timeout * Second).

(** The entry of an address in a set. *)
Definition entry_of (ks : ksets) (set : string) (a : list Byte.byte) : option (option Z) :=
  m ← k_sets ks !! set; m !! a.

(** The address is in the set at time [t]. *)
Definition live (ks : ksets) (set : string) (a : list Byte.byte) (t : Z) : Prop :=
  match entry_of ks set a with
  | Some (Some e) => t < e
  | Some None => True
  | None => False
  end.

(** Writing an address, with a timeout in seconds: time passes, and an accepted
    write sets the entry's expiry, whatever it was. *)
Inductive ipset_step (elem : list Byte.byte → list Byte.byte) (ks : ksets) :
    string * IP * Z * bool → ksets → Prop :=
| ipset_accept set a timeout now m :
  k_now ks ≤ now → k_sets ks !! set = Some m →
  ipset_step elem ks (set, Some a, timeout, true)
    (mkKsets now (<[set := <[elem a := expiry now timeout]> m]> (k_sets ks)))
| ipset_refuse set ip timeout now :
  k_now ks ≤ now →
  ipset_step elem ks (set, ip, timeout, false) (mkKsets now (k_sets ks)).

Inductive ipset_run (elem : list Byte.byte → list Byte.byte) (ks : ksets) :
    list (string * IP * Z * bool) → ksets → Prop :=
| ipset_run_nil : ipset_run elem ks [] ks
| ipset_run_snoc ws w ks' ks'' :
  ipset_run elem ks ws ks' → ipset_step elem ks' w ks'' → ipset_run elem ks (ws ++ [w]) ks''.

(** ** The kernel *)

(** ipset(8): the largest timeout of an entry, in seconds. *)
Definition max_timeout : Z := 2147483.

(** The documented effect of adding with [IPSET_FLAG_EXIST]: on success the set
    was there and the element has the timeout, new or refreshed; on an error the
    sets are as before. An element is what the library makes of an address. *)
Class KernelLaws (W : Type) {kernel : Kernel W} := {
  k_view : W → ksets;
  k_elem : list Byte.byte → list Byte.byte;
  IpsetAdd_law set ip timeout w :
    0 ≤ timeout ≤ max_timeout →
    ipset_step k_elem (k_view w)
      (set, ip, timeout, bool_decide ((IpsetAdd set (mkEntry ip timeout true) w).1 = None))
      (k_view (IpsetAdd set (mkEntry ip timeout true) w).2);
  Now_law w : k_now (k_view w) ≤ k_now (k_view (Now w).2) ∧ k_sets (k_view (Now w).2) = k_sets (k_view w);
}.

(** ** What a run of the machine leaves *)

Section machine.
Context (elem : list Byte.byte → list Byte.byte).
Implicit Types (ks : ksets) (ws : list (string * IP * Z * bool)).

Lemma ipset_step_now ks w ks' : ipset_step elem ks w ks' → k_now ks ≤ k_now ks'.
Proof. by destruct 1. Qed.

Lemma ipset_run_now ks ws ks' : ipset_run elem ks ws ks' → k_now ks ≤ k_now ks'.
Proof. induction 1 as [|ws w ks' ks'' _ IH Hstep]; [done|]. etrans; [done|by eapply ipset_step_now]. Qed.

Lemma ipset_run_app ks ws ks' ws' ks'' :
  ipset_run elem ks ws ks' → ipset_run elem ks' ws' ks'' → ipset_run elem ks (ws ++ ws') ks''.
Proof.
  intros H1. induction 1 as [|ws' w ks1 ks2 _ IH Hstep]; [by rewrite app_nil_r|].
  rewrite app_assoc. by eapply ipset_run_snoc.
Qed.

(** What a step does to one entry. *)
Lemma entry_step ks set ip timeout ok ks' set' a :
  ipset_step elem ks (set, ip, timeout, ok) ks' →
  entry_of ks' set' a
  = if decide (ok = true ∧ set' = set ∧ (elem <$> ip) = Some a)
    then Some (expiry (k_now ks') timeout) else entry_of ks set' a.
Proof.
  inversion 1 as [s b t now m Hnow Hm|]; subst; unfold entry_of; cbn [k_sets k_now].
  2:{ by rewrite decide_False by naive_solver. }
  destruct (decide (set' = set)) as [->|Hs].
  - rewrite lookup_insert_eq, Hm. cbn. destruct (decide (elem b = a)) as [<-|Ha].
    + by rewrite lookup_insert_eq, decide_True.
    + rewrite lookup_insert_ne, decide_False by naive_solver. done.
  - rewrite lookup_insert_ne, decide_False by naive_solver. done.
Qed.

(** An accepted write is still there after the run, with the expiry of the last
    accepted write to its entry. *)
Lemma ipset_run_written ks ws ks' lo hi set a timeout :
  ipset_run elem ks ws ks' → 0 < lo → Forall (λ w, lo ≤ w.1.2 ≤ hi) ws → (set, Some a, timeout, true) ∈ ws →
  ∃ e, entry_of ks' set (elem a) = Some (Some e) ∧ k_now ks + lo * Second ≤ e ≤ k_now ks' + hi * Second.
Proof.
  intros Hrun Hlo. induction Hrun as [|ws [[[s ip] t] ok] ks' ks'' Hrun IH Hstep].
  { by intros _ ?%not_elem_of_nil. }
  intros [Hws [Ht _]%Forall_cons]%Forall_app Hin. cbn in Ht.
  pose proof (ipset_run_now _ _ _ Hrun). pose proof (ipset_step_now _ _ _ Hstep).
  rewrite (entry_step _ _ _ _ _ _ _ _ Hstep). unfold Second in *. case_decide as Hw.
  - eexists. unfold expiry. rewrite decide_False by lia. split; [done|]. unfold Second. lia.
  - apply elem_of_app in Hin as [Hin|[= <- <- <- <-]%list_elem_of_singleton]; [|naive_solver].
    destruct (IH Hws Hin) as (e & -> & ?). exists e. split; [done|]. lia.
Qed.

(** Every entry expires within [hi] seconds. *)
Definition bounded (hi : Z) ks : Prop :=
  ∀ set a x, entry_of ks set a = Some x → ∃ e, x = Some e ∧ (e ≤ k_now ks + hi * Second).

Lemma ipset_run_bounded ks ws ks' hi :
  ipset_run elem ks ws ks' → Forall (λ w, 0 < w.1.2 ≤ hi) ws → bounded hi ks → bounded hi ks'.
Proof.
  intros Hrun. induction Hrun as [|ws [[[s ip] t] ok] ks' ks'' Hrun IH Hstep]; [done|].
  intros [Hws [Ht _]%Forall_cons]%Forall_app Hb. cbn in Ht. specialize (IH Hws Hb).
  intros set a x. rewrite (entry_step _ _ _ _ _ _ _ _ Hstep). case_decide.
  - intros [= <-]. unfold expiry. rewrite decide_False by lia. eexists. split; [done|].
    unfold Second. lia.
  - intros Hx. destruct (IH set a x Hx) as (e & -> & ?). exists e. split; [done|].
    pose proof (ipset_step_now _ _ _ Hstep). lia.
Qed.

(** Entries nobody writes stay, sets neither come nor go. *)
Lemma ipset_run_frame ks ws ks' set a :
  ipset_run elem ks ws ks' → (∀ ip t ok, (set, ip, t, ok) ∈ ws → (elem <$> ip) ≠ Some a) →
  entry_of ks' set a = entry_of ks set a.
Proof.
  intros Hrun. induction Hrun as [|ws [[[s ip] t] ok] ks' ks'' Hrun IH Hstep]; [done|]. intros Hn.
  rewrite (entry_step _ _ _ _ _ _ _ _ Hstep), decide_False.
  - apply IH. intros ip' t' ok' Hin. apply (Hn ip' t' ok'). apply elem_of_app. by left.
  - intros (-> & -> & Hip). apply (Hn ip t true); [|done]. apply elem_of_app. right. by left.
Qed.

Lemma ipset_run_dom ks ws ks' : ipset_run elem ks ws ks' → dom (k_sets ks') = dom (k_sets ks).
Proof.
  induction 1 as [|ws w ks' ks'' _ IH Hstep]; [done|]. rewrite <-IH.
  destruct Hstep as [set a timeout now m _ Hm|]; [|done]. cbn. apply dom_insert_lookup_L. by rewrite Hm.
Qed.

End machine.

(** ** The client refines the machine *)

(** A call of the client as a write of the machine. *)
Definition written (c : call) : string * IP * Z * bool :=
  (c.1.1.1, c.1.1.2, c.1.2 / Second, bool_decide (c.2 = None)).

(** A TTL the kernel takes as it is. *)
Definition in_range (ttl : Z) : Prop := 0 ≤ ttl < (max_timeout + 1) * Second.

Section refines.
Context {W : Type} {kernel : Kernel W} {laws : KernelLaws W}.
Context {overflow : Uint32Overflow} {print : PrintTable}.
Implicit Types (n : Netlink W) (w : W).

(** The log function takes time but leaves the sets alone. *)
Definition quiet n : Prop :=
  ∀ f set w, logMissFn n = Some f →
    k_now (k_view w) ≤ k_now (k_view (f set w)) ∧ k_sets (k_view (f set w)) = k_sets (k_view w).

Lemma in_range_seconds ttl :
  in_range ttl → f64_uint32 (Seconds ttl) = ttl / Second ∧ 0 ≤ ttl / Second ≤ max_timeout.
Proof.
  unfold in_range, max_timeout, Second. intros Hr. split.
  - apply timeout_floor. unfold Second. lia.
  - split; [apply Z.div_pos; lia|]. apply Z.lt_succ_r, Z.div_lt_upper_bound; lia.
Qed.

Lemma quiet_log set n w :
  quiet n →
  let r := rateLimitedMissLog set (n, w) in
  quiet r.1 ∧ k_now (k_view w) ≤ k_now (k_view r.2) ∧ k_sets (k_view r.2) = k_sets (k_view w).
Proof.
  intros Hq. unfold rateLimitedMissLog. destruct (logMissFn n) as [f|] eqn:Hf; [|by split].
  pose proof (Now_law w) as [Hn Hs]. destruct (Now w) as [now w1]. cbn [snd] in *.
  destruct (Hq f set w1 Hf) as [Hn' Hs']. unfold miss_log_at.
  assert (quiet (mkNetlink (<[set := now]> (missLog n)) (logMissFn n))) as Hq'.
  { intros g set' w' Hg. by apply (Hq g). }
  assert (k_now (k_view w) ≤ k_now (k_view (f set w1)) ∧ k_sets (k_view (f set w1)) = k_sets (k_view w)).
  { split; [lia|congruence]. }
  destruct (missLog n !! set) as [last|]; [destruct (Sub now last <? Minute)|]; done.
Qed.

Lemma refuse_later elem ks set ip timeout ks1 ks2 :
  ipset_step elem ks (set, ip, timeout, false) ks1 → k_now ks1 ≤ k_now ks2 → k_sets ks2 = k_sets ks1 →
  ipset_step elem ks (set, ip, timeout, false) ks2.
Proof.
  inversion 1; subst. cbn. intros Hn Hs. destruct ks2 as [now2 sets2]. cbn in *. subst.
  apply ipset_refuse. lia.
Qed.

Lemma Add_refines set ip ttl n w :
  quiet n → in_range ttl →
  let r := client_Add set ip ttl (n, w) in
  quiet r.2.1 ∧ ipset_step k_elem (k_view w) (written (set, ip, ttl, r.1)) (k_view r.2.2).
Proof.
  intros Hq Hr. cbn [client_Add Netlink_Client]. unfold Add, written. cbn [fst snd].
  destruct (_ || _).
  { split; [done|]. cbn. destruct (k_view w) as [now sets] eqn:Hv.
    by apply (ipset_refuse _ (mkKsets now sets)). }
  destruct (in_range_seconds ttl Hr) as [-> Ht].
  pose proof (IpsetAdd_law set ip (ttl / Second) w Ht) as Hlaw.
  destruct (IpsetAdd set _ w) as [[err|] w1]; cbn [fst snd] in *; [|done].
  rewrite bool_decide_eq_false_2 in Hlaw by done.
  destruct (isMissingSet (Some err)); cbn [fst snd fmap option_fmap option_map];
    rewrite bool_decide_eq_false_2 by done; [|done].
  destruct (quiet_log set n w1 Hq) as (Hq' & Hn & Hs). split; [done|]. by eapply refuse_later.
Qed.

Lemma client_refines n w calls s :
  quiet n → Forall (λ c, in_range c.1.2) calls → client_run (n, w) calls s →
  quiet s.1 ∧ ipset_run k_elem (k_view w) (written <$> calls) (k_view s.2).
Proof.
  intros Hq Hc. revert n w Hq. induction Hc as [|[[[set ip] ttl] err] calls Hr Hc IH]; intros n w Hq.
  { intros ->. split; [done|constructor]. }
  cbn [client_run]. intros [Herr Hrun]. destruct (Add_refines set ip ttl n w Hq Hr) as [Hq1 Hstep].
  rewrite Herr in Hstep. destruct (client_Add set ip ttl (n, w)).2 as [n1 w1]. cbn [fst snd] in *.
  destruct (IH n1 w1 Hq1 Hrun) as [Hq2 Hrun']. split; [done|].
  change (ipset_run k_elem (k_view w) ([written (set, ip, ttl, err)] ++ (written <$> calls)) (k_view s.2)).
  eapply ipset_run_app; [|done]. eapply (ipset_run_snoc _ _ []); [constructor|done].
Qed.

End refines.

(** ** The writes of the pipeline *)

(** Bounds the kernel can represent, from one second up. *)
Record ttl_bounds (cfg : Config) : Prop := {
  tb_min : Second ≤ TTLMin cfg;
  tb_order : TTLMin cfg ≤ TTLMax cfg;
  tb_max : TTLMax cfg < (max_timeout + 1) * Second;
}.

Section writes.
Context {dns : DNS}.
Context (cfg : Config).

Definition clamped (ttl : Z) : Prop := TTLMin cfg ≤ ttl ≤ TTLMax cfg.

Lemma clamped_range ttl : ttl_bounds cfg → clamped ttl → in_range ttl.
Proof. intros [? ? ?] [? ?]. unfold in_range, Second in *. lia. Qed.

Lemma clamped_seconds ttl :
  ttl_bounds cfg → clamped ttl →
  0 < TTLMin cfg / Second ∧ TTLMin cfg / Second ≤ ttl / Second ≤ TTLMax cfg / Second.
Proof.
  intros [? ? ?] [? ?]. assert (0 < Second) by done. split.
  - apply Z.div_str_pos. lia.
  - split; apply Z.div_le_mono; lia.
Qed.

(** Every write of an event has a clamped TTL. *)
Lemma work_clamped order ev seen rules :
  ttl_bounds cfg → Forall (λ r, clamped (req_ttl r)) (work cfg order ev seen rules).
Proof.
  intros [? ? ?]. unfold work. destruct seen; [done|]. destruct (Parse order (Payload ev)) as [resp|]; [|done].
  destruct rules as [tr|]; [|done]. apply Forall_forall. intros r. unfold requests.
  intros (rule & (rec & _ & Hr)%list_elem_of_omap & _)%list_elem_of_bind. unfold request_of in Hr.
  case_decide; [done|]. injection Hr as <-. cbn. unfold clamped. rewrite ClampTTL_clamp; unfold Second in *; lia.
Qed.

(** So has every write of workers, finished or not. *)
Lemma workers_clamped {C D} {client : Client C} {lru : LRU D} evs (s0 : state C D) tr p :
  ttl_bounds cfg → store_ok (st_store s0) → pool_run (workers_at cfg evs s0) tr p →
  Forall (λ c, clamped c.1.2) (adds (all_obs tr)).
Proof.
  intros Hb Hs0 Hrun. apply Forall_forall. intros c (e & He & Hc)%list_elem_of_omap.
  apply list_elem_of_omap in He as ([i e'|] & Hin & He); [|done]. injection He as ->.
  assert (i < length evs)%nat as Hlt.
  { pose proof (run_thread_index _ _ _ _ _ Hrun Hin) as H. cbn in H. by rewrite length_fmap in H. }
  destruct (lookup_lt_is_Some_2 evs i Hlt) as [ev Hev].
  destruct (worker_thread cfg _ _ _ _ _ _ Hs0 Hrun Hev) as (q & Hq & Hwp).
  destruct (wp_total _ _ Hwp) as (tr' & r & _ & (now & hit & order & rules & answers & Hha)).
  assert (c ∈ adds (mine i tr ++ tr')) as Hadd.
  { apply list_elem_of_omap. exists e. split; [|done]. apply elem_of_app. left. by apply elem_of_mine. }
  rewrite (ha_adds _ _ _ _ _ _ _ _ _ Hha) in Hadd. apply list_elem_of_fmap in Hadd as (a & -> & Ha).
  pose proof (work_clamped order ev (seen_by (ttl (st_dedup s0)) now hit) rules Hb) as Hw.
  rewrite <-(ha_work _ _ _ _ _ _ _ _ _ Hha), Forall_fmap, Forall_forall in Hw. by apply Hw.
Qed.

End writes.

(** ** Properties *)

Section properties.
Context {W : Type} {kernel : Kernel W} {laws : KernelLaws W}.
Context {overflow : Uint32Overflow} {print : PrintTable}.

(** C14: the netlink client refines the abstract ipset: any sequence of its calls,
    for TTLs the kernel can represent, moves the kernel's sets exactly as the
    abstract machine does for the same writes with the TTLs in whole seconds,
    accepted when the call returned no error and refused when it did; the log
    of missing sets does not show in the sets. *)
Theorem Netlink_refines_ipset (n : Netlink W) w calls s :
  quiet n → Forall (λ c, in_range c.1.2) calls → client_run (n, w) calls s →
  ipset_run k_elem (k_view w) (written <$> calls) (k_view s.2).
Proof. intros. by eapply client_refines. Qed.

Context {D : Type} {lru : LRU D} {dns : DNS}.
Context (cfg : Config).

(** C5: what the workers leave in the kernel, in any interleaving with each other
    and with reloads. An address that a worker has written without an error is
    in its set, and stays there for at least the minimum TTL from the start of
    the run, whatever else was written meanwhile; no entry is permanent and none
    outlives the maximum TTL, if that was so before; entries that no worker wrote
    are untouched, and no set is made or removed. *)
Theorem workers_allow evs (s0 : state (Netlink W * W) D) tr p :
  store_ok (st_store s0) → ttl_bounds cfg → quiet (st_ipset s0).1 →
  pool_run (workers_at cfg evs s0) tr p →
  let ks := k_view (st_ipset s0).2 in
  let ks' := k_view (st_ipset (shared p)).2 in
  (∀ i set a ttl, Did i (SawAdd set (Some a) ttl None) ∈ tr →
    ∀ t, t < k_now ks + (TTLMin cfg / Second) * Second → live ks' set (k_elem a) t) ∧
  (bounded (TTLMax cfg / Second) ks → bounded (TTLMax cfg / Second) ks') ∧
  (∀ set a, (∀ i b ttl err, Did i (SawAdd set (Some b) ttl err) ∈ tr → k_elem b ≠ a) →
    entry_of ks' set a = entry_of ks set a) ∧
  dom (k_sets ks') = dom (k_sets ks).
Proof.
  intros Hs0 Hb Hq Hrun ks ks'.
  pose proof (workers_clamped cfg evs s0 tr p Hb Hs0 Hrun) as Hcl.
  destruct (pool_run_spec _ _ _ _ Hs0 Hrun) as (Ht & _ & _).
  pose proof (tr_client _ _ _ Ht) as Hclient. destruct (st_ipset s0) as [n w] eqn:Hn. cbn [fst snd] in *.
  assert (Forall (λ c : call, in_range c.1.2) (adds (all_obs tr))) as Hrange.
  { eapply Forall_impl; [exact Hcl|]. intros c Hc. by eapply clamped_range. }
  destruct (client_refines n w _ _ Hq Hrange Hclient) as [_ Hkr].
  fold ks ks' in Hkr.
  assert (Forall (λ x, TTLMin cfg / Second ≤ x.1.2 ≤ TTLMax cfg / Second) (written <$> adds (all_obs tr))) as Hsec.
  { apply Forall_fmap. eapply Forall_impl; [exact Hcl|]. intros c Hc. apply (clamped_seconds cfg _ Hb Hc). }
  assert (0 < TTLMin cfg / Second) as Hlo.
  { destruct Hb. apply Z.div_str_pos. unfold Second in *. lia. }
  assert (∀ i e c, Did i e ∈ tr → e = SawAdd c.1.1.1 c.1.1.2 c.1.2 c.2 → c ∈ adds (all_obs tr)) as Hadd.
  { intros i e [[[set ip] ttl] err] Hin ->. apply list_elem_of_omap.
    exists (SawAdd set ip ttl err). split; [|done]. apply list_elem_of_omap. by eexists. }
  split; [|split; [|split]].
  - intros i set a ttl Hin t Hlt.
    destruct (ipset_run_written _ _ _ _ _ _ set a (ttl / Second) Hkr Hlo Hsec) as (e & He & Hbd).
    { apply list_elem_of_fmap. exists (set, Some a, ttl, None). split; [done|]. by eapply Hadd. }
    unfold live. rewrite He. lia.
  - apply ipset_run_bounded with (1 := Hkr). eapply Forall_impl; [exact Hsec|]. cbn. intros x Hx. lia.
  - intros set a Hno. eapply ipset_run_frame; [exact Hkr|].
    intros ip t ok ([[[set' ip'] ttl] err] & Hw & Hin)%list_elem_of_fmap Hip. injection Hw as -> -> -> ->.
    destruct ip' as [b|]; [|done]. injection Hip as Hb'.
    apply list_elem_of_omap in Hin as (e & He & Hc). destruct e; try done. injection Hc as -> -> -> ->.
    apply list_elem_of_omap in He as ([i e'|] & Hin & He); [|done]. injection He as ->. by eapply Hno.
  - by eapply ipset_run_dom.
Qed.

End properties.

(** ** Instances of the properties *)

(** A kernel that is the abstract machine, a nanosecond per call, with the lines
    logged. *)
Record model_kernel := mkModel { mk_view : ksets; mk_lines : list string }.

Definition model_add (set : string) (e : IPSetEntry) (w : model_kernel) : option string * model_kernel :=
  let ks := mk_view w in
  match entry_IP e, k_sets ks !! set with
  | Some a, Some m =>
    (None, mkModel (mkKsets (k_now ks + 1)
      (<[set := <[a := expiry (k_now ks + 1) (entry_Timeout e)]> m]> (k_sets ks))) (mk_lines w))
  | _, _ => (Some "The set with the given name does not exist", w)
  end.

#[local] Instance model_ops : Kernel model_kernel := {
  IpsetAdd := model_add;
  Now w := (k_now (mk_view w), mkModel (mkKsets (k_now (mk_view w) + 1) (k_sets (mk_view w))) (mk_lines w));
}.

#[local] Program Instance model_laws : KernelLaws model_kernel := {
  k_view := mk_view;
  k_elem := id;
}.
Next Obligation.
  intros set ip timeout w _. cbn. unfold model_add. cbn [entry_IP entry_Timeout].
  destruct ip as [a|].
  - destruct (k_sets (mk_view w) !! set) as [m|] eqn:Hm; cbn.
    + apply ipset_accept; [lia|done].
    + destruct (mk_view w) as [now sets]. by apply (ipset_refuse _ (mkKsets now sets)).
  - cbn. destruct (mk_view w) as [now sets]. by apply (ipset_refuse _ (mkKsets now sets)).
Qed.
Next Obligation. intros w. cbn. split; [lia|done]. Qed.

#[local] Existing Instances sample_overflow sample_print.

Definition model_log (set : string) (w : model_kernel) : model_kernel :=
  mkModel (mk_view w) (mk_lines w ++ [set]).

(** Two empty sets. *)
Definition model_world : model_kernel := mkModel (mkKsets 0 {["allow" := ∅; "full" := ∅]}) [].
Definition model_client : Netlink model_kernel := NewNetlink (Some model_log).

Lemma model_quiet : quiet model_client.
Proof. intros f set w [= <-]. done. Qed.

(** A later answer with a short TTL takes an entry's time away: the refresh sets
    the timeout, it does not only extend it. *)
Example refresh_shortens :
  let add ttl s := (client_Add "allow" (IPv4 192 0 2 1) (ttl * Second) s).2 in
  let entry s := entry_of (k_view s.2) "allow" (default [] (IPv4 192 0 2 1)) in
  let s1 := add 604800 (model_client, model_world) in
  let s2 := add 60 s1 in
  (entry s1, entry s2) = (Some (Some (1 + 604800 * Second)), Some (Some (2 + 60 * Second))).
Proof. vm_compute. reflexivity. Qed.

Lemma Netlink_refines_ipset_witness :
  let s := (model_client, model_world) in
  let r1 := client_Add "allow" (IPv4 192 0 2 1) (90 * Second) s in
  let r2 := client_Add "gone" (IPv4 192 0 2 1) (90 * Second) r1.2 in
  r1.1 = None ∧ r2.1 ≠ None ∧
  ipset_run k_elem (k_view model_world)
    (written <$> [("allow", IPv4 192 0 2 1, 90 * Second, r1.1); ("gone", IPv4 192 0 2 1, 90 * Second, r2.1)])
    (k_view r2.2.2).
Proof.
  intros s r1 r2. split; [vm_compute; reflexivity|]. split; [vm_compute; discriminate|].
  apply (Netlink_refines_ipset model_client model_world _ r2.2 model_quiet).
  - repeat constructor; vm_compute; (discriminate || reflexivity).
  - split; [reflexivity|]. split; reflexivity.
Defined.

Definition model_cfg : Config := mkConfig 2 (60 * Second) (604800 * Second) true.

Lemma model_bounds : ttl_bounds model_cfg.
Proof. split; vm_compute; (discriminate || reflexivity). Qed.

Definition model_state : state (Netlink model_kernel * model_kernel) list_lru :=
  mkState (st_store sample_state) (model_client, model_world) sample_dedup [] [].

#[local] Existing Instance sample_dns.

Lemma workers_allow_witness :
  ∃ tr p, pool_run (workers_at model_cfg sample_copies model_state) tr p ∧ finished p ∧
    let ks' := k_view (st_ipset (shared p)).2 in
    (∀ i set a ttl, Did i (SawAdd set (Some a) ttl None) ∈ tr →
      ∀ t, t < 60 * Second → live ks' set (k_elem a) t) ∧
    bounded 604800 ks' ∧ dom (k_sets ks') = {["allow"; "full"]}.
Proof.
  destruct (workers_finish model_cfg sample_copies model_state [] _ sample_store_ok (run_start _))
    as (tr & p & Hrun & Hfin & _).
  exists tr, p. split; [exact Hrun|]. split; [exact Hfin|].
  destruct (workers_allow model_cfg sample_copies model_state tr p sample_store_ok model_bounds
    model_quiet Hrun) as (Hlive & Hbound & _ & Hdom).
  split; [|split].
  - intros i set a ttl Hin t Ht. apply (Hlive i set a ttl Hin). exact Ht.
  - apply Hbound. intros set a x. unfold entry_of. cbn.
    destruct (decide (set = "allow")) as [->|]; [|destruct (decide (set = "full")) as [->|]];
      simplify_map_eq; try done.
  - etransitivity; [exact Hdom|]. vm_compute. reflexivity.
Defined.
