(* ===== verification/EndToEnd.v ===== *)
(** * From the wire to the kernel

    The parts put in a row, for one DNS response: the BPF hook that observes the
    datagram, the decoder of the ring buffer, [handle] with the rules of a file,
    and the netlink client. The theorem is what the daemon is for: the addresses
    a response gives for a configured domain are in the domain's ipset. *)

From S2P Require Import Prelude GoBytes GoFloat GoUnicode GoStrings GoNet Trie Rules Store Source Metrics.
From S2P Require Import BpfEvent Dedup DnsParse Ipset Pipeline HandleProg Workers KernelSpec.
#[local] Open Scope Z_scope.

(** ** One event with the netlink client *)

Section client.
Context {C : Type} {client : Client C}.

Lemma run_requests_client reqs c :
  client_run c (call_of <$> (run_requests reqs c).1) (run_requests reqs c).2.
Proof.
  revert c. induction reqs as [|r reqs IH]; intros c; [done|]. cbn [run_requests].
  destruct (client_Add _ _ _ c) as [err c1] eqn:Hadd. specialize (IH c1).
  destruct (run_requests reqs c1) as [answers c2]. cbn in *. rewrite Hadd. by split.
Qed.

End client.

Section kernel.
Context {W : Type} {kernel : Kernel W} {laws : KernelLaws W}.
Context {overflow : Uint32Overflow} {print : PrintTable}.

(** While it exists, the set takes the address. *)
Definition accepts (set : string) (ip : IP) : Prop :=
  ∀ timeout w, 0 ≤ timeout ≤ max_timeout → is_Some (k_sets (k_view w) !! set) →
    (IpsetAdd set (mkEntry ip timeout true) w).1 = None.

Lemma Add_accepted set ip ttl n w :
  set ≠ "" → ip ≠ None → in_range ttl → accepts set ip → is_Some (k_sets (k_view w) !! set) →
  (client_Add set ip ttl (n, w)).1 = None.
Proof.
  intros Hset Hip Hr Hacc Hw. cbn [client_Add Netlink_Client]. unfold Add.
  rewrite !bool_decide_eq_false_2 by done. cbn [orb].
  destruct (in_range_seconds ttl Hr) as [-> Ht].
  specialize (Hacc (ttl / Second) w Ht Hw). destruct (IpsetAdd set _ w) as [[e|] w']; [done|]. done.
Qed.

(** A request of a list to a set that takes it is answered without an error. *)
Lemma run_requests_accepted reqs n w r :
  quiet n → Forall (λ r, in_range (req_ttl r)) reqs → r ∈ reqs →
  req_set r ≠ "" → req_ip r ≠ None → accepts (req_set r) (req_ip r) →
  is_Some (k_sets (k_view w) !! req_set r) →
  (r, None) ∈ (run_requests reqs (n, w)).1.
Proof.
  intros Hq Hr Hin Hset Hip Hacc. revert n w Hq. induction Hr as [|r' reqs Hr' Hr IH]; intros n w Hq Hw.
  { by apply not_elem_of_nil in Hin. }
  cbn [run_requests].
  destruct (Add_refines (req_set r') (req_ip r') (req_ttl r') n w Hq Hr') as [Hq1 Hstep].
  pose proof (Add_accepted (req_set r') (req_ip r') (req_ttl r') n w) as Hok.
  destruct (client_Add _ _ _ (n, w)) as [err [n1 w1]] eqn:Hadd. cbn [fst snd] in *.
  assert (is_Some (k_sets (k_view w1) !! req_set r)) as Hw1.
  { rewrite <-elem_of_dom in *. inversion Hstep as [s b t now m _ Hm|]; subst; cbn; [set_solver|done]. }
  destruct (run_requests reqs (n1, w1)) as [answers c] eqn:Hrun. cbn [fst].
  apply elem_of_cons in Hin as [<-|Hin].
  - rewrite Hok by done. left.
  - right. specialize (IH Hin n1 w1 Hq1 Hw1). by rewrite Hrun in IH.
Qed.

End kernel.

(** ** The theorem *)

Section end_to_end.
Context {W : Type} {kernel : Kernel W} {laws : KernelLaws W}.
Context {overflow : Uint32Overflow} {print : PrintTable}.
Context {D : Type} {lru : LRU D} {dns : DNS} {yaml : YAML}.
Context (cfg : Config).
Implicit Types (s : state (Netlink W * W) D).

(** The store shows the rules of a file. *)
Definition shows (file : list Byte.byte) (rl : list Rule) (st : Store) : Prop :=
  ∃ rs st0, loadFromBytes file = Ok rs ∧ Rules rs = Some <$> rl ∧ Replace (Some rs) st0 = Some st.

Lemma shows_trie file rl st :
  shows file rl st →
  store_ok st ∧ StoreTrie st = Some (build ((λ r, (Domain r, Some r)) <$> rl)).
Proof.
  intros (rs & st0 & Hload & Hrl & Hrep). cbn in Hrep. rewrite (BuildTrie_build _ _ Hrl) in Hrep.
  injection Hrep as <-. split; [|done]. intros snap [= <-]. cbn.
  split; [by eapply loadFromBytes_loaded|by apply BuildTrie_build].
Qed.

(** The codec finds a successful response in the payload, to a question for this
    name and with this address. *)
Record responds (payload : list Byte.byte) (m : Msg) (qname : string) (rec : Record_)
    (a : list Byte.byte) : Prop := {
  rp_unpack : dns_Unpack payload = Ok m;
  rp_response : m_Response m = true;
  rp_rcode : m_Rcode m = RcodeSuccess;
  rp_question : (question m).1 = qname;
  rp_answer : rec ∈ addresses (m_Answer m);
  rp_address : rec_IP rec = Some a;
}.

Lemma responds_Parse order payload m qname rec a :
  responds payload m qname rec a →
  ∃ resp, Parse order payload = Ok resp ∧ QName resp = qname ∧ rec ∈ Records resp.
Proof.
  intros [Hun Hres Hrc Hq Hin Ha]. eexists. split; [apply Parse_Ok|].
  - exists m. do 3 (split; [done|]). split; [|done]. intros Hnil. rewrite Hnil in Hin. by apply not_elem_of_nil in Hin.
  - split; [done|]. cbn. apply elem_of_app. by left.
Qed.

(** The write for an address under the question's rule. *)
Lemma request_asked tr resp rule rec :
  Lookup tr (QName resp) = (Some rule, true) → rec ∈ Records resp → set_of rule rec ≠ "" →
  ∃ r, r ∈ requests cfg tr resp ∧ req_set r = set_of rule rec ∧ req_ip r = rec_IP rec.
Proof.
  intros Hl Hrec Hset. eexists (mkRequest _ _ _ _). split; [|done]. unfold requests.
  apply list_elem_of_bind. exists rule. split.
  - apply list_elem_of_omap. exists rec. split; [done|]. unfold request_of. by rewrite decide_False.
  - apply list_elem_of_omap. exists (QName resp). split; [|by rewrite Hl].
    apply uniqueNames_spec. by left.
Qed.

(** Handling an event that asks for a write the set takes: the address is in. *)
Lemma handled_live order now ev s set a :
  store_ok (st_store s) → ttl_bounds cfg → quiet (st_ipset s).1 →
  accepts set (Some a) → is_Some (k_sets (k_view (st_ipset s).2) !! set) → set ≠ "" →
  (∃ r, r ∈ event_requests cfg order now ev s ∧ req_set r = set ∧ req_ip r = Some a) →
  ∃ s', handle cfg order now ev s = Some s' ∧
    ∀ t, t < k_now (k_view (st_ipset s).2) + (TTLMin cfg / Second) * Second →
      live (k_view (st_ipset s').2) set (k_elem a) t.
Proof.
  intros Hst Hb Hq Hacc Hset Hne (r & Hr & Hrs & Hrip).
  pose proof (handle_run cfg order now ev s Hst) as Hrun.
  set (reqs := event_requests cfg order now ev s) in *.
  pose proof (work_clamped cfg order ev (Seen (Payload ev) now (st_dedup s)).1 (StoreTrie (st_store s)) Hb) as Hcl.
  fold (event_requests cfg order now ev s) in Hcl. fold reqs in Hcl.
  pose proof (run_requests_client reqs (st_ipset s)) as Hclient.
  pose proof (run_requests_requests reqs (st_ipset s)) as Hans.
  destruct (st_ipset s) as [n w] eqn:Hnw. cbn [fst snd] in *.
  assert (Forall (λ r, in_range (req_ttl r)) reqs) as Hrange.
  { eapply Forall_impl; [exact Hcl|]. intros x Hx. by eapply clamped_range. }
  assert ((r, None) ∈ (run_requests reqs (n, w)).1) as Hok.
  { apply run_requests_accepted; rewrite ?Hrs, ?Hrip; done. }
  destruct (run_requests reqs (n, w)) as [answers c]. cbn [fst snd] in *.
  destruct Hrun as (s' & ops & Hs' & _ & Hc & _). exists s'. split; [done|]. intros t Ht.
  assert (Forall (λ c : call, clamped cfg c.1.2) (call_of <$> answers)) as Hcl'.
  { apply Forall_fmap. rewrite <-Hans, Forall_fmap in Hcl. exact Hcl. }
  assert (Forall (λ c : call, in_range c.1.2) (call_of <$> answers)) as Hrange'.
  { eapply Forall_impl; [exact Hcl'|]. intros x Hx. by eapply clamped_range. }
  destruct (client_refines n w _ c Hq Hrange' Hclient) as [_ Hkr].
  destruct (ipset_run_written k_elem _ _ _ (TTLMin cfg / Second) (TTLMax cfg / Second) set a
    (req_ttl r / Second) Hkr) as (e & He & Hlo & _).
  - destruct Hb. apply Z.div_str_pos. unfold Second in *. lia.
  - apply Forall_fmap. eapply Forall_impl; [exact Hcl'|]. intros x Hx. apply (clamped_seconds cfg _ Hb Hx).
  - apply list_elem_of_fmap. exists (call_of (r, None)). split; [by rewrite <-Hrs, <-Hrip|].
    by apply list_elem_of_fmap_2.
  - rewrite Hc. unfold live. rewrite He. lia.
Qed.

(** C1: from the wire to the kernel. When the hook observes a DNS response that
    answers, for a name that a rule of the file governs, with an address of a
    family the rule has a set for, and the payload was not just seen: the sample
    the hook outputs decodes to the event, handling it does not panic, and if the
    set exists and takes the address, the address is in it afterwards and stays
    for at least the minimum TTL from then on, whatever the other writes of the
    response. *)
Theorem answer_reaches_kernel user kern h dir scratch beyond file rl order now ev rule rec a s :
  hook_ok user kern h → 0 ≤ dir < 2 ^ 8 → length (payload scratch) = Z.to_nat MAX_PAYLOAD →
  observed user kern h dir = Some ev →
  (∃ m qname, responds (Payload ev) m qname rec a ∧ governs rl qname rule) →
  set_of rule rec ≠ "" → shows file rl (st_store s) →
  (Seen (Payload ev) now (st_dedup s)).1 = false →
  ttl_bounds cfg → quiet (st_ipset s).1 →
  accepts (set_of rule rec) (Some a) → is_Some (k_sets (k_view (st_ipset s).2) !! set_of rule rec) →
  ∃ b s', (BpfEvent.handle h dir scratch).2 = Some b ∧ decode beyond b = Some ev ∧
    handle cfg order now ev s = Some s' ∧
    ∀ t, t < k_now (k_view (st_ipset s).2) + (TTLMin cfg / Second) * Second →
      live (k_view (st_ipset s').2) (set_of rule rec) (k_elem a) t.
Proof.
  intros Hhook Hdir Hscratch Hobs (m & qname & Hresp & Hgov) Hset Hshows Hseen Hb Hq Hacc Hex.
  destruct (handle_agrees user kern h dir scratch beyond Hhook Hdir Hscratch) as (Hdec & Hnone & _).
  rewrite Hobs in Hdec, Hnone.
  destruct (BpfEvent.handle h dir scratch).2 as [b|] eqn:Hout; [|by destruct Hnone as [Hn _]; specialize (Hn eq_refl)].
  destruct (shows_trie _ _ _ Hshows) as [Hst Htr].
  destruct (responds_Parse order _ _ _ _ _ Hresp) as (resp & Hparse & Hqn & Hin).
  destruct (handled_live order now ev s (set_of rule rec) a) as (s' & Hs' & Hlive); try done.
  { unfold event_requests, work. rewrite Hseen, Hparse, Htr.
    rewrite <-(rp_address _ _ _ _ _ Hresp). apply request_asked; [|done|done].
    rewrite Hqn. apply Lookup_governs. by exists rule. }
  by exists b, s'.
Qed.

End end_to_end.

(** ** An instance *)

#[local] Existing Instances sample_overflow sample_print model_ops model_laws sample_dns.

(** A file with one rule, for the zone of the sample's question. *)
#[local] Instance one_rule_yaml : YAML := λ _, Ok (1, [Some (mkRule "Example." "allow" "")]).

Definition one_rule : Rule := mkRule "example" "allow" "".
Definition wire_state : state (Netlink model_kernel * model_kernel) list_lru :=
  mkState (default NewStore (Replace (Some (mkRuleSet 1 [Some one_rule] [])) NewStore))
    (model_client, model_world) sample_dedup [] [].
Definition wire_record : Record_ := sample_record "z.example".

Lemma wire_governs : governs [one_rule] "x.example" one_rule.
Proof.
  exists 1%nat, 0%nat. split; [vm_compute; lia|]. split; [done|]. split; [vm_compute; reflexivity|].
  split; [intros [|j] r' Hj Hr'; [lia|discriminate]|lia].
Qed.

(** The question's name reaches the address over two CNAMEs. *)
Lemma wire_responds payload :
  responds payload sample_msg "x.example" wire_record (byte_of_Z <$> [192; 0; 2; 1]).
Proof. split; try reflexivity. left. Qed.

Lemma wire_accepts : accepts "allow" (Some (byte_of_Z <$> [192; 0; 2; 1])).
Proof. intros timeout w _ [m Hm]. cbn. unfold model_add. cbn in *. by rewrite Hm. Qed.

Lemma answer_reaches_kernel_witness :
  let scratch := mkevent 0 0 0 0 0 0 (repeat Byte.xff 4096) in
  let ev := mkEvent 99 DirSend 4 53 0x1234 [Byte.x2a; Byte.x2a; Byte.x2a] in
  ∃ b s', (BpfEvent.handle sample_hook DIR_SEND scratch).2 = Some b ∧ decode [] b = Some ev ∧
    handle model_cfg sample_order 0 ev wire_state = Some s' ∧
    ∀ t, t < 60 * Second →
      live (k_view (st_ipset s').2) "allow" (byte_of_Z <$> [192; 0; 2; 1]) t.
Proof.
  intros scratch ev.
  destruct (answer_reaches_kernel model_cfg (λ _ _, None) sample_kern sample_hook DIR_SEND scratch [] []
    [one_rule] sample_order 0 ev one_rule wire_record (byte_of_Z <$> [192; 0; 2; 1]) wire_state
    sample_hook_ok) as (b & s' & Hout & Hdec & Hs' & Hlive).
  - done.
  - reflexivity.
  - reflexivity.
  - exists sample_msg, "x.example". split; [apply wire_responds|apply wire_governs].
  - vm_compute. discriminate.
  - exists (mkRuleSet 1 [Some one_rule] []), NewStore. split; [vm_compute; reflexivity|]. split; reflexivity.
  - vm_compute. reflexivity.
  - apply model_bounds.
  - apply model_quiet.
  - apply wire_accepts.
  - eexists. reflexivity.
  - exists b, s'. split; [exact Hout|]. split; [exact Hdec|]. split; [exact Hs'|]. exact Hlive.
Defined.
