(* ===== verification/Daemon.v ===== *)
(** * The daemon at work ([cmd/dns2ipset/main.go])

    The closure [reload] replaces the rules; it is called from two goroutines
    (SIGHUP and the file watcher). The model is [reload] as a state function and
    as a sequence of atomic steps that two threads may interleave, and the
    pipeline of [PipelineRun] put together with the loader, [handle] and reloads.
    Start-up and shutdown are in [Main], the goroutines that reload in
    [Reloaders]. *)

From S2P Require Import Prelude GoBytes GoUnicode GoStrings Trie Rules Store Watcher Source Metrics.
From S2P Require Import BpfEvent Loader Dedup DnsParse Ipset Pipeline PipelineRun.
#[local] Open Scope Z_scope.

(** The levels of [slog]. *)
Inductive level := LevelDebug | LevelInfo | LevelWarn | LevelError.

(** ** Reloading *)

(** What [reload] changes: the store, the metrics and the log. *)
Record daemon := mkDaemon {
  dm_store : Store;
  dm_metrics : list metric_op;
  dm_log : list (level * string);
}.

Section reload.
Context {yaml : YAML} {print : PrintTable}.

Definition reload (ReadFile : string → result string (list Byte.byte)) (p : string) (s : daemon)
    : option daemon :=
  match Load ReadFile p with
  | Err _ =>
    Some (mkDaemon (dm_store s) (dm_metrics s ++ [Inc RulesReloadTotal ["error"]])
            (dm_log s ++ [(LevelWarn, "rules reload failed; keeping previous")]))
  | Ok nrs =>
    st ← Replace (Some nrs) (dm_store s);
    let n := Z.of_nat (length (Rules nrs)) in
    Some (mkDaemon st (dm_metrics s ++ [Inc RulesReloadTotal ["ok"]; Set_ RulesActive n])
            (dm_log s ++ [(LevelInfo, "rules reloaded")]))
  end.

(** [reload] in the steps other goroutines can see: reading the file, the store,
    the counter and the gauge. [answer] is what [os.ReadFile] returns now. *)
Inductive reload_pc :=
| RLoad
| RError
| RReplace (nrs : RuleSet)
| RCount (nrs : RuleSet)
| RGauge (nrs : RuleSet)
| RDone.

Record shared := mkShared {
  answer : result string (list Byte.byte);
  sh_store : Store;
  sh_metrics : list metric_op;
}.

Definition reload_step (pc : reload_pc) (s : shared) : option (reload_pc * shared) :=
  match pc with
  | RLoad =>
    match Load (λ _, answer s) "" with
    | Err _ => Some (RError, s)
    | Ok nrs => Some (RReplace nrs, s)
    end
  | RError =>
    Some (RDone, mkShared (answer s) (sh_store s) (sh_metrics s ++ [Inc RulesReloadTotal ["error"]]))
  | RReplace nrs =>
    st ← Replace (Some nrs) (sh_store s); Some (RCount nrs, mkShared (answer s) st (sh_metrics s))
  | RCount nrs =>
    Some (RGauge nrs, mkShared (answer s) (sh_store s) (sh_metrics s ++ [Inc RulesReloadTotal ["ok"]]))
  | RGauge nrs =>
    Some (RDone, mkShared (answer s) (sh_store s)
                   (sh_metrics s ++ [Set_ RulesActive (Z.of_nat (length (Rules nrs)))]))
  | RDone => Some (RDone, s)
  end.

(** A schedule: a step of a thread, or the file changes. *)
Inductive action := Step (i : nat) | Change (a : result string (list Byte.byte)).

Definition exec_action (st : option (list reload_pc * shared)) (a : action)
    : option (list reload_pc * shared) :=
  '(pcs, s) ← st;
  match a with
  | Change ans => Some (pcs, mkShared ans (sh_store s) (sh_metrics s))
  | Step i =>
    match pcs !! i with
    | None => Some (pcs, s)
    | Some pc => '(pc, s) ← reload_step pc s; Some (<[i := pc]> pcs, s)
    end
  end.

Definition exec (sched : list action) (st : list reload_pc * shared) :
    option (list reload_pc * shared) :=
  foldl exec_action (Some st) sched.

End reload.

(** ** Lemmas on reloads *)

Section reload_lemmas.
Context {yaml : YAML} {print : PrintTable}.

Lemma Load_loaded ReadFile p rs : Load ReadFile p = Ok rs → loaded rs.
Proof. unfold Load. destruct (ReadFile p); [|done]. apply loadFromBytes_loaded. Qed.

Lemma Replace_ok rs s :
  loaded rs → ∃ st, Replace (Some rs) s = Some st ∧ store_ok st ∧ Get st = Some rs.
Proof.
  intros Hl. destruct (Replace_loaded rs s Hl) as (t & Ht & Hr). eexists. split; [exact Hr|].
  split; [by intros snap [= <-]|done].
Qed.

(** The rule set a file content loads to. *)
Definition loads (p : string) (a : result string (list Byte.byte)) : option RuleSet :=
  match Load (λ _, a) p with Ok rs => Some rs | Err _ => None end.

Lemma loads_loaded p a rs : loads p a = Some rs → loaded rs.
Proof.
  unfold loads. destruct (Load (λ _, a) p) eqn:E; [|done]. intros [= <-]. by eapply Load_loaded.
Qed.

(** The path only says which file is read. *)
Lemma loads_path p p' a : loads p a = loads p' a.
Proof. done. Qed.

(** The steps of [reload], one after the other, are [reload]. *)
Fixpoint run_thread (n : nat) (pc : reload_pc) (s : shared) : option (reload_pc * shared) :=
  match n with
  | O => Some (pc, s)
  | S n => '(pc, s) ← reload_step pc s; run_thread n pc s
  end.

Lemma run_thread_reload a st ms log :
  (λ r, (r.1, sh_store r.2, sh_metrics r.2)) <$> run_thread 4 RLoad (mkShared a st ms)
  = (λ s, (RDone, dm_store s, dm_metrics s)) <$> reload (λ _, a) "" (mkDaemon st ms log).
Proof.
  unfold reload. cbn. destruct (Load (λ _, a) "") as [nrs|e]; [|done]. cbn.
  destruct (BuildTrie nrs); [|done]. cbn. by rewrite <-app_assoc.
Qed.

Definition reload_all (p : string) (l : list (result string (list Byte.byte))) (s : daemon) : option daemon :=
  foldl (λ o a, s ← o; reload (λ _, a) p s) (Some s) l.

End reload_lemmas.

#[export] Hint Resolve Load_loaded loads_loaded : dns.

(** ** Properties *)

Section properties.
Context {yaml : YAML} {print : PrintTable}.

(** C22: after any sequence of reloads, whatever the file held each time, nothing
    has panicked; the rules are those of the last content that loaded, or the
    previous ones when none did; the gauge shows the number of these rules; and
    the counters have counted every reload once, by its result. *)
Theorem reload_keeps_last p l s :
  store_ok (dm_store s) →
  ∃ s', reload_all p l s = Some s' ∧ store_ok (dm_store s') ∧
    let ok := omap (loads p) l in
    Get (dm_store s') = match last ok with Some rs => Some rs | None => Get (dm_store s) end ∧
    gauge RulesActive (dm_metrics s')
      = match last ok with
        | Some rs => Some (Z.of_nat (length (Rules rs)))
        | None => gauge RulesActive (dm_metrics s)
        end ∧
    counter RulesReloadTotal ["ok"] (dm_metrics s')
      = (counter RulesReloadTotal ["ok"] (dm_metrics s) + length ok)%nat ∧
    (counter RulesReloadTotal ["error"] (dm_metrics s') + length ok
      = counter RulesReloadTotal ["error"] (dm_metrics s) + length l)%nat.
Proof.
  intros Hs. unfold reload_all.
  induction l as [|a l IH] using rev_ind.
  { exists s. do 2 (split; [done|]). cbn. repeat split; lia. }
  destruct IH as (s1 & Hs1 & Hok1 & Hget & Hgauge & Hoks & Herrs).
  rewrite foldl_snoc, Hs1, omap_app. cbn [mbind option_bind].
  set (oks := omap (loads p) l) in *. unfold reload. destruct (Load (λ _, a) p) as [rs|e] eqn:Hload.
  - assert (omap (loads p) [a] = [rs]) as -> by (cbn; unfold loads; by rewrite Hload).
    destruct (Replace_ok rs (dm_store s1) ltac:(eauto with dns)) as (st & Hst & Hok & Hg).
    rewrite Hst. cbn [mbind option_bind]. eexists. split; [done|]. split; [done|].
    cbn [dm_store dm_metrics]. rewrite last_snoc, gauge_app, !counter_app, !length_app.
    change (counter RulesReloadTotal ["ok"] [_; _]) with 1%nat.
    change (counter RulesReloadTotal ["error"] [_; _]) with 0%nat. cbn [length].
    split; [done|]. split; [done|]. split; lia.
  - assert (omap (loads p) [a] = []) as -> by (cbn; unfold loads; by rewrite Hload).
    eexists. split; [done|]. split; [done|].
    cbn [dm_store dm_metrics]. rewrite app_nil_r, gauge_app, !counter_app, ?length_app.
    change (counter RulesReloadTotal ["ok"] [_]) with 0%nat.
    change (counter RulesReloadTotal ["error"] [_]) with 1%nat. cbn [length].
    split; [done|]. split; [done|]. split; lia.
Qed.

(** What two or more concurrent reloads preserve: a thread past the load carries
    a rule set of some content the file has had. *)
Definition pc_ok (contents : list (result string (list Byte.byte))) (pc : reload_pc) : Prop :=
  match pc with
  | RLoad | RError | RDone => True
  | RReplace nrs | RCount nrs | RGauge nrs => ∃ a, a ∈ contents ∧ loads "" a = Some nrs
  end.

Definition contents_of (a0 : result string (list Byte.byte)) (sched : list action) :
    list (result string (list Byte.byte)) :=
  a0 :: omap (λ x, match x with Change a => Some a | Step _ => None end) sched.

Definition reloads_ok (old : option RuleSet) contents (st : list reload_pc * shared) : Prop :=
  Forall (pc_ok contents) st.1 ∧ answer st.2 ∈ contents ∧ store_ok (sh_store st.2) ∧
  (Get (sh_store st.2) = old ∨ ∃ a rs, a ∈ contents ∧ loads "" a = Some rs ∧ Get (sh_store st.2) = Some rs).

Lemma reload_step_ok old contents pc s :
  pc_ok contents pc → answer s ∈ contents → store_ok (sh_store s) →
  (Get (sh_store s) = old ∨ ∃ a rs, a ∈ contents ∧ loads "" a = Some rs ∧ Get (sh_store s) = Some rs) →
  ∃ pc' s', reload_step pc s = Some (pc', s') ∧ pc_ok contents pc' ∧ answer s' = answer s ∧
    store_ok (sh_store s') ∧
    (Get (sh_store s') = old ∨ ∃ a rs, a ∈ contents ∧ loads "" a = Some rs ∧ Get (sh_store s') = Some rs).
Proof.
  intros Hpc Ha Hs Hg. destruct pc as [| |nrs|nrs|nrs|]; cbn [reload_step].
  - destruct (Load (λ _, answer s) "") as [nrs|e] eqn:Hl; eexists _, s; (split; [done|]); [|done].
    split; [|done]. exists (answer s). split; [done|]. unfold loads. by rewrite Hl.
  - by eexists _, _.
  - destruct Hpc as (a & Ha' & Hl).
    destruct (Replace_ok nrs (sh_store s) (loads_loaded _ _ _ Hl)) as (st & -> & Hok & Hget).
    eexists _, _. split; [done|]. split; [by exists a|]. split; [done|]. split; [done|].
    right. by exists a, nrs.
  - by eexists _, _.
  - by eexists _, _.
  - by eexists _, _.
Qed.

Lemma pc_ok_mono contents a pc : pc_ok contents pc → pc_ok (contents ++ [a]) pc.
Proof. destruct pc; cbn; try done; intros (x & ? & ?); exists x; (split; [apply elem_of_app; by left|done]). Qed.

Lemma contents_of_snoc a0 sched x :
  contents_of a0 (sched ++ [x])
  = contents_of a0 sched ++ match x with Change a => [a] | Step _ => [] end.
Proof. unfold contents_of. rewrite omap_app. by destruct x. Qed.

Lemma exec_ok a0 old sched pcs s :
  answer s = a0 → Forall (λ pc, pc = RLoad) pcs → store_ok (sh_store s) → Get (sh_store s) = old →
  ∃ st, exec sched (pcs, s) = Some st ∧ reloads_ok old (contents_of a0 sched) st.
Proof.
  intros <- Hpcs Hs Hold. unfold exec. induction sched as [|x sched IH] using rev_ind.
  { exists (pcs, s). split; [done|]. split; [|split; [by left|split; [done|by left]]].
    eapply Forall_impl; [done|]. by intros pc ->. }
  destruct IH as ([pcs1 s1] & Hst & Hp & Ha & Hok & Hg). cbn [fst snd] in *.
  rewrite foldl_snoc, Hst, contents_of_snoc. cbn [exec_action mbind option_bind].
  set (cs := contents_of (answer s) sched) in *. clearbody cs.
  destruct x as [i|a].
  - rewrite app_nil_r.
    destruct (pcs1 !! i) as [pc|] eqn:Hi; [|by exists (pcs1, s1)].
    pose proof (Forall_lookup_1 _ _ _ _ Hp Hi) as Hpc.
    destruct (reload_step_ok old _ pc s1 Hpc Ha Hok Hg) as (pc' & s' & -> & Hpc' & Ha' & Hok' & Hg').
    cbn. eexists. split; [done|]. split; [by apply Forall_insert|]. cbn. rewrite Ha'. done.
  - eexists. split; [done|]. split; cbn; [eapply Forall_impl; [done|]; intros; by apply pc_ok_mono|].
    split; [apply elem_of_app; right; by left|]. split; [done|].
    destruct Hg as [?|(x & rs & Hx & ?)]; [by left|right]. exists x, rs. split; [|done].
    apply elem_of_app. by left.
Qed.

Lemma exec_cons x sched st :
  exec (x :: sched) st = exec_action (Some st) x ≫= exec sched.
Proof.
  unfold exec. cbn [foldl]. destruct (exec_action (Some st) x) as [st'|]; [done|]. cbn.
  induction sched as [|y sched IH]; [done|]. exact IH.
Qed.

(** One action of a concrete schedule. *)
#[local] Ltac reduce := cbn [exec_action mbind option_bind lookup list_lookup reload_step answer
  sh_store sh_metrics insert list_insert].
#[local] Ltac next := reduce; rewrite exec_cons; reduce.

(** C23: reloads from SIGHUP and from the watcher can overlap. However their steps
    interleave with changes of the file, nothing panics and the store always
    holds a whole, valid rule set: the one it started with or one that some
    content of the file loads to. But the last content does not always win: when
    two contents load to different rules, there is a schedule of two reloads
    after which both have ended, the file holds the second content, the store
    the rules of the first, and the gauge the number of rules of the second. *)
Theorem reload_interleaved a0 :
  (∀ sched pcs s, answer s = a0 → Forall (λ pc, pc = RLoad) pcs → store_ok (sh_store s) →
    ∃ pcs' s', exec sched (pcs, s) = Some (pcs', s') ∧ store_ok (sh_store s') ∧
      (Get (sh_store s') = Get (sh_store s) ∨
       ∃ a rs, a ∈ contents_of a0 sched ∧ loads "" a = Some rs ∧ Get (sh_store s') = Some rs)) ∧
  (∀ a1 rs0 rs1 st ms, loads "" a0 = Some rs0 → loads "" a1 = Some rs1 →
    ∃ sched s', exec sched ([RLoad; RLoad], mkShared a0 st ms) = Some ([RDone; RDone], s') ∧
      answer s' = a1 ∧ Get (sh_store s') = Some rs0 ∧
      gauge RulesActive (sh_metrics s') = Some (Z.of_nat (length (Rules rs1)))).
Proof.
  split.
  - intros sched pcs s Ha Hpcs Hs.
    destruct (exec_ok a0 (Get (sh_store s)) sched pcs s Ha Hpcs Hs eq_refl) as ([pcs' s'] & He & _ & _ & Hok & Hg).
    by exists pcs', s'.
  - intros a1 rs0 rs1 st ms H0 H1.
    exists [Step 0; Change a1; Step 1; Step 1; Step 0; Step 0; Step 0; Step 1; Step 1].
    pose proof (loads_loaded _ _ _ H0) as Hl0. pose proof (loads_loaded _ _ _ H1) as Hl1.
    unfold loads in H0, H1.
    destruct (Load (λ _, a0) "") as [r0|] eqn:E0; [|done]. injection H0 as ->.
    destruct (Load (λ _, a1) "") as [r1|] eqn:E1; [|done]. injection H1 as ->.
    destruct (Replace_ok rs1 st Hl1) as (st1 & Hst1 & _).
    destruct (Replace_ok rs0 st1 Hl0) as (st0 & Hst0 & _ & Hget).
    next. rewrite E0. next. next. rewrite E1. next. rewrite Hst1. next. rewrite Hst0.
    do 4 next. eexists. split; [reflexivity|]. split; [done|]. split; [done|].
    cbn [sh_metrics]. rewrite !gauge_app. done.
Qed.

End properties.

(** ** The pipeline put together *)

Section daemon.
Context {C D : Type} {client : Client C} {lru : LRU D} {dns : DNS}.
Context (cfg : Config).

(** A worker handles an event, at some time and with some map order. *)
Definition process (e : Event) (t t' : state C D) : Prop :=
  ∃ now order, range_order order ∧ handle (New cfg) order now e t = Some t'.

(** A reload replaces the rules under the workers. *)
Definition replace_rules (t t' : state C D) : Prop :=
  ∃ rs st, loaded rs ∧ Replace (Some rs) (st_store t) = Some st ∧
    t' = mkState st (st_ipset t) (st_dedup t) (st_metrics t) (st_debug t).

(** The number of worker goroutines. *)
Definition worker_count : nat := Z.to_nat (Workers (New cfg)).

Lemma worker_count_pos : (0 < worker_count)%nat.
Proof. unfold worker_count, New. case_match eqn:H; cbn; bool_to_prop; lia. Qed.

Lemma process_total e t : store_ok (st_store t) → ∃ t', process e t t'.
Proof.
  intros Ht. pose proof (handle_run (New cfg) (λ m, map_to_list m) 0 e t Ht) as Hrun.
  destruct (run_requests _ (st_ipset t)) as [answers c].
  destruct Hrun as (t' & _ & Ht' & _). exists t', 0, (λ m, map_to_list m). by split; [intros m|].
Qed.

Lemma process_ok e t t' : store_ok (st_store t) → process e t t' → store_ok (st_store t').
Proof.
  intros Ht (now & order & _ & Hh).
  pose proof (handle_run (New cfg) order now e t Ht) as Hrun.
  destruct (run_requests _ (st_ipset t)) as [answers c].
  destruct Hrun as (t'' & _ & Ht'' & Hst & _). rewrite Hh in Ht''. injection Ht'' as <-. by rewrite Hst.
Qed.

Lemma replace_ok t t' : store_ok (st_store t) → replace_rules t t' → store_ok (st_store t').
Proof.
  intros _ (rs & st & Hl & Hst & ->). destruct (Replace_ok rs (st_store t) Hl) as (st' & Hst' & Hok & _).
  rewrite Hst in Hst'. by injection Hst' as <-.
Qed.

(** C2: the assembled daemon shuts down cleanly. From any point of any run of the
    pipeline over the BPF read loop, with reloads in between, once the context is
    done or the loop has failed: no worker can be stuck in [handle], [Run] comes
    to its return in a bounded number of steps, and then every event sent has
    been handled exactly once by [handle], the events are in order a prefix of
    what the ring buffer's samples decode to, and the error is that of the first
    failing read, all events before it included. *)
Theorem daemon_shutdown (d : deps) reads t0 r0 r :
  Run_start d worker_count ((reads, Reading) : loop) t0 = Ok r0 → store_ok (st_store t0) →
  rtc (step process replace_rules) r0 r → stopping r →
  ∃ r' err, rtc (sys_step process) r r' ∧ PipelineRun.main r' = Returned err ∧ panicked r' = false ∧
    (∀ n r'', nsteps (sys_step process) n r r'' → (n ≤ run_cost worker_count r)%nat) ∧
    h_handled (hist r') ≡ₚ h_sent (hist r') ∧
    handled_from process replace_rules t0 (h_handled (hist r')) (world r') ∧
    h_sent (hist r') `prefix_of` deliverable reads ∧
    (∀ e, err = Some e → first_error reads = Some e ∧ h_sent (hist r') = deliverable reads).
Proof.
  intros Hstart Ht0 Hr Hs.
  set (I := inv process replace_rules (λ t, store_ok (st_store t)) worker_count ((reads, Reading) : loop) t0 d).
  assert (I r0) as Hi0 by (apply inv_start; done).
  assert (I r) as Hi.
  { eapply reachable_inv; [exact process_ok|exact replace_ok|exact Hi0|exact Hr]. }
  set (P r := I r ∧ stopping r).
  assert (∀ a b, P a → sys_step process a b → P b ∧ (run_cost worker_count b < run_cost worker_count a)%nat) as Hdec.
  { intros a b [Ha Hsa] Hab. split; [split|].
    - eapply sys_step_inv; [exact process_ok|exact Ha|exact Hab].
    - eapply stopping_step; [exact Ha|exact Hsa|exact Hab].
    - eapply sys_step_cost; [exact Ha|exact Hab]. }
  destruct (measure_reaches_nf (sys_step process) P (λ r, ∃ err, PipelineRun.main r = Returned err)
    (run_cost worker_count) r) as (r' & Hr' & err & Herr); [exact Hdec| |by split|].
  { intros a [Ha Hsa]. eapply sys_progress; [|exact Ha|exact Hsa]. intros e t. apply process_total. }
  assert (I r') as Hi'.
  { eapply (rtc_preserves (sys_step process) I); [|exact Hi|exact Hr'].
    intros a b Ha Hab. eapply sys_step_inv; [exact process_ok|exact Ha|exact Hab]. }
  destruct (returned_empty _ _ _ _ _ _ _ r' err worker_count_pos Hi' Herr) as (_ & _ & _ & _ & Hall).
  destruct (returned_source _ _ _ _ _ _ _ r' err Hi' Herr) as (ls & c & s & Hrun & Hsent).
  destruct (run_sent _ _ _ Hrun) as [Hpre Hfail]. rewrite Hsent in Hpre, Hfail.
  exists r', err. split; [done|]. split; [done|]. split; [apply Hi'|]. split.
  { intros n r'' Hn.
    pose proof (nsteps_measure _ P (run_cost worker_count) n r r'' Hdec (conj Hi Hs) Hn). lia. }
  split; [done|]. split; [apply (inv_world _ _ _ _ _ _ _ _ Hi')|]. split; [done|].
  intros e ->. by apply (Hfail ls c e).
Qed.

End daemon.

(** ** Instances of the properties *)

#[local] Existing Instances sample_yaml no_table list_lru_ops list_lru_laws.

Lemma reload_keeps_last_witness :
  ∃ s', reload_all "rules.yaml" [Err "gone"; Ok [Byte.x01]; Err "gone"] (mkDaemon NewStore [] []) = Some s' ∧
    counter RulesReloadTotal ["ok"] (dm_metrics s') = length (omap (loads "rules.yaml") [Err "gone"; Ok [Byte.x01]; Err "gone"]).
Proof.
  destruct (reload_keeps_last "rules.yaml" [Err "gone"; Ok [Byte.x01]; Err "gone"] (mkDaemon NewStore [] [])
    store_ok_New) as (s' & Hs' & _ & _ & _ & Hok & _).
  exists s'. split; [exact Hs'|exact Hok].
Defined.

Definition daemon_cfg : Config := mkConfig 2 (60 * Second) (604800 * Second) true.
Definition daemon_deps : deps := mkDeps true true true true (Some true).
Definition daemon_start : run loop (state recording list_lru) :=
  mkRun false (SrcRunning ([ReadErr "read"], Reading)) None [] false [Idle; Idle] 0 WaitSource true
    sample_state false (mkHistory [] [] [] [Register]).

Lemma daemon_shutdown_witness :
  let p := process (client := recording_Client) (dns := sample_dns) daemon_cfg in
  let r := set_world daemon_start true sample_state in
  ∃ r' err, rtc (sys_step p) r r' ∧ PipelineRun.main r' = Returned err ∧
    h_handled (hist r') ≡ₚ h_sent (hist r').
Proof.
  intros p r.
  destruct (daemon_shutdown (client := recording_Client) (dns := sample_dns) daemon_cfg daemon_deps
    [ReadErr "read"] sample_state daemon_start r eq_refl sample_store_ok)
    as (r' & err & Hr & Hm & _ & _ & Hall & _).
  - eapply rtc_once. right. apply env_cancel.
  - by left.
  - exists r', err. split; [exact Hr|]. split; [exact Hm|exact Hall].
Defined.
