(* ===== verification/Reloaders.v ===== *)
(** * The goroutines that reload ([cmd/dns2ipset/main.go], [rules/watcher.go])

    Two goroutines call [reload]: one ranges over the SIGHUP channel, which holds
    one signal, the other is the watcher's loop over the notifications of the
    file system. They share the store, the metrics and the file, which others
    write at any time. The model is a machine of their atomic steps, with the
    steps of [reload] from [Daemon] and the event case of [Watcher]. *)

From stdpp Require Import functions.
From S2P Require Import Prelude GoBytes GoUnicode GoStrings GoPath Trie Rules Store Watcher Source Metrics.
From S2P Require Import Dedup DnsParse Ipset Pipeline Daemon.

(** ** State *)

Inductive who := Hup | Watch.
#[global] Instance who_eq_dec : EqDecision who.
Proof. solve_decision. Defined.

(** The one-slot channel [hup], the notifications not yet received, where each
    goroutine is in [reload] ([RDone]: waiting for the next reason), whether the
    watcher still runs, the context, and what they share. *)
Record machine := mkMachine {
  hup_slot : bool;
  fs_queue : list fs_event;
  pc_of : who → reload_pc;
  watching : bool;
  ctx_done : bool;
  common : shared;
}.

Section machine.
Context {yaml : YAML} {print : PrintTable}.
Context (w : Watcher).
Implicit Types (m : machine).

(** ** Steps *)

(** The goroutines: a step inside [reload], the next signal, the next
    notification, and the watcher's return once the context is done. *)
Inductive go_step : machine → machine → Prop :=
| reload_works m i pc s :
  pc_of m i ≠ RDone → reload_step (pc_of m i) (common m) = Some (pc, s) →
  go_step m (mkMachine (hup_slot m) (fs_queue m) (<[i := pc]> (pc_of m)) (watching m) (ctx_done m) s)
| hup_receive m :
  pc_of m Hup = RDone → hup_slot m = true →
  go_step m (mkMachine false (fs_queue m) (<[Hup := RLoad]> (pc_of m)) (watching m) (ctx_done m) (common m))
| watch_receive m ev evs :
  pc_of m Watch = RDone → watching m = true → fs_queue m = ev :: evs →
  go_step m (mkMachine (hup_slot m) evs (<[Watch := on_event w (λ _ _, RLoad) ev RDone]> (pc_of m)) true
               (ctx_done m) (common m))
| watch_return m :
  pc_of m Watch = RDone → watching m = true → ctx_done m = true →
  go_step m (mkMachine (hup_slot m) (fs_queue m) (pc_of m) false true (common m)).

(** Around them: a SIGHUP, dropped when one is pending; a notification, about
    this file or another of its directory. *)
Inductive calm_step : machine → machine → Prop :=
| signal_arrives m :
  calm_step m (mkMachine true (fs_queue m) (pc_of m) (watching m) (ctx_done m) (common m))
| notification m ev :
  calm_step m (mkMachine (hup_slot m) (fs_queue m ++ [ev]) (pc_of m) (watching m) (ctx_done m) (common m)).

(** ... and what ends the calm: the file changes, the daemon is told to stop. *)
Inductive env_step : machine → machine → Prop :=
| file_changes m a :
  env_step m (mkMachine (hup_slot m) (fs_queue m) (pc_of m) (watching m) (ctx_done m)
    (mkShared a (sh_store (common m)) (sh_metrics (common m))))
| canceled m :
  env_step m (mkMachine (hup_slot m) (fs_queue m) (pc_of m) (watching m) true (common m)).

Definition still_step m m' : Prop := go_step m m' ∨ calm_step m m'.
Definition any_step m m' : Prop := still_step m m' ∨ env_step m m'.

(** A store with rules at start, nothing pending. *)
Definition machine_start (a : result string (list Byte.byte)) (st : Store) (ms : list metric_op) : machine :=
  mkMachine false [] (λ _, RDone) true false (mkShared a st ms).

(** ** Specification *)

(** Some goroutine will read the file from now on. *)
Definition due m : Prop :=
  hup_slot m = true ∨ pc_of m Hup = RLoad ∨ pc_of m Watch = RLoad ∨
  (watching m = true ∧ ∃ ev, ev ∈ fs_queue m ∧ reloads w (EventRecv ev) = true).

(** Rules that a goroutine has read and not yet stored. *)
Definition in_flight m (nrs : RuleSet) : Prop := ∃ i, pc_of m i = RReplace nrs.

(** Nothing left to do: both goroutines wait. *)
Definition settled m : Prop :=
  (∀ i, pc_of m i = RDone) ∧ hup_slot m = false ∧ (watching m = true → fs_queue m = [] ∧ ctx_done m = false).

(** The rules a goroutine carries are loaded, and so are the store's. *)
Definition pc_loaded (pc : reload_pc) : Prop :=
  match pc with RReplace nrs | RCount nrs | RGauge nrs => loaded nrs | _ => True end.
Definition wf_machine m : Prop := store_ok (sh_store (common m)) ∧ ∀ i, pc_loaded (pc_of m i).

(** ** The steps of a reload *)

Lemma reload_step_spec pc s :
  pc_loaded pc → store_ok (sh_store s) →
  ∃ pc' s', reload_step pc s = Some (pc', s') ∧ pc_loaded pc' ∧ store_ok (sh_store s') ∧
    answer s' = answer s ∧
    match pc with
    | RLoad => sh_store s' = sh_store s ∧
        pc' = match loads "" (answer s) with Some rs => RReplace rs | None => RError end
    | RReplace nrs => Get (sh_store s') = Some nrs ∧ pc' = RCount nrs
    | RCount nrs => sh_store s' = sh_store s ∧ pc' = RGauge nrs
    | _ => sh_store s' = sh_store s ∧ pc' = RDone
    end.
Proof.
  intros Hpc Hs. destruct pc as [| |nrs|nrs|nrs|]; cbn [reload_step]; try by eexists _, _.
  - unfold loads. destruct (Load (λ _, answer s) "") as [nrs|e] eqn:Hl; eexists _, s; (split; [done|]).
    + split; [by eapply Load_loaded|done].
    + done.
  - destruct (Replace_ok nrs (sh_store s) Hpc) as (st & -> & Hok & Hget). by eexists _, _.
Qed.

Lemma wf_start a st ms : store_ok st → wf_machine (machine_start a st ms).
Proof. done. Qed.

Lemma pc_insert m i pc (P : reload_pc → Prop) :
  P pc → (∀ j, P (pc_of m j)) → ∀ j, P ((<[i := pc]> (pc_of m) : who → reload_pc) j).
Proof.
  intros Hpc Hall j. destruct (decide (i = j)) as [->|Hij].
  - by rewrite fn_lookup_insert.
  - by rewrite fn_lookup_insert_ne.
Qed.

Lemma on_event_pc ev : on_event w (λ _ _, RLoad) ev RDone = if reloads w (EventRecv ev) then RLoad else RDone.
Proof.
  unfold on_event. cbn. destruct (String.eqb _ _); [|done]. cbn. by destruct (_ || _).
Qed.

Lemma wf_step m m' : any_step m m' → wf_machine m → wf_machine m'.
Proof.
  intros [[Hgo|Hcalm]|Henv] [Hst Hpc].
  - destruct Hgo as [m i pc s Hi Hs|m Hi Hslot|m ev evs Hi Hw Hq|m Hi Hw Hc]; (split; [|]); cbn; try done.
    + destruct (reload_step_spec _ _ (Hpc i) Hst) as (pc' & s' & Hs' & _ & Hok & _). by simplify_eq.
    + destruct (reload_step_spec _ _ (Hpc i) Hst) as (pc' & s' & Hs' & Hl & _). simplify_eq.
      by apply pc_insert.
    + by apply pc_insert.
    + apply pc_insert; [|done]. rewrite on_event_pc. by case_match.
  - by destruct Hcalm.
  - by destruct Henv.
Qed.

(** ** Settling *)

(** Steps a goroutine has ahead of it, and the machine. *)
Definition pc_cost (pc : reload_pc) : nat :=
  match pc with
  | RLoad => 4 | RReplace _ => 3 | RCount _ => 2 | RGauge _ | RError => 1 | RDone => 0
  end.
Definition cost m : nat :=
  (if hup_slot m then 5 else 0) + 5 * length (fs_queue m) + (if watching m then 1 else 0)
  + pc_cost (pc_of m Hup) + pc_cost (pc_of m Watch).

Lemma reload_step_cost pc s pc' s' :
  pc ≠ RDone → reload_step pc s = Some (pc', s') → (pc_cost pc' < pc_cost pc)%nat.
Proof.
  destruct pc; cbn; try done; intros _ H.
  - destruct (Load _ _); simplify_eq; cbn; lia.
  - simplify_eq. cbn. lia.
  - destruct (BuildTrie nrs); cbn in H; simplify_eq; cbn; lia.
  - simplify_eq. cbn. lia.
  - simplify_eq. cbn. lia.
Qed.

Lemma go_step_cost m m' : go_step m m' → (cost m' < cost m)%nat.
Proof.
  unfold cost. destruct 1 as [m i pc s Hi Hs|m Hi Hslot|m ev evs Hi Hw Hq|m Hi Hw Hc];
    cbn [hup_slot fs_queue pc_of watching].
  - pose proof (reload_step_cost _ _ _ _ Hi Hs) as Hlt.
    destruct i; rewrite fn_lookup_insert, fn_lookup_insert_ne by done; lia.
  - rewrite fn_lookup_insert, fn_lookup_insert_ne, Hi, Hslot by done. cbn [pc_cost]. lia.
  - rewrite fn_lookup_insert, fn_lookup_insert_ne, Hi, Hw, Hq by done. rewrite on_event_pc.
    destruct (reloads w (EventRecv ev)); cbn [pc_cost length]; lia.
  - rewrite Hw. lia.
Qed.

Lemma go_progress m : wf_machine m → settled m ∨ ∃ m', go_step m m'.
Proof.
  intros [Hst Hpc].
  assert ((∀ i, pc_of m i = RDone) ∨ ∃ i, pc_of m i ≠ RDone) as [Hdone|[i Hi]].
  { destruct (pc_of m Hup) eqn:E1; try (right; exists Hup; by rewrite E1);
      destruct (pc_of m Watch) eqn:E2; try (right; exists Watch; by rewrite E2). left. by intros []. }
  2:{ right. destruct (reload_step_spec _ _ (Hpc i) Hst) as (pc' & s' & Hs & _). eexists. by eapply reload_works. }
  destruct (hup_slot m) eqn:Hslot; [right; eexists; by apply hup_receive|].
  destruct (watching m) eqn:Hw; [|left; split_and!; [done|done|congruence]].
  destruct (fs_queue m) as [|ev evs] eqn:Hq; [|right; eexists; by eapply watch_receive].
  destruct (ctx_done m) eqn:Hc; [right; eexists; by apply watch_return|].
  left. by split_and!.
Qed.

(** ** What a calm leaves *)

Section calm.
Context (m0 : machine).

(** The rules of the file, or rules already read when the calm began. *)
Definition fresh (x : RuleSet) : Prop := loads "" (answer (common m0)) = Some x ∨ in_flight m0 x.

Record calm m : Prop := {
  cm_wf : wf_machine m;
  cm_answer : answer (common m) = answer (common m0);
  cm_watching : watching m = true ∧ ctx_done m = false;
  cm_flight x : in_flight m x → fresh x;
  cm_store : Get (sh_store (common m)) = Get (sh_store (common m0)) ∨
    ∃ x, Get (sh_store (common m)) = Some x ∧ fresh x;
  cm_due rs : due m0 → loads "" (answer (common m0)) = Some rs →
    due m ∨ (∃ x, in_flight m x) ∨ ∃ x, Get (sh_store (common m)) = Some x ∧ fresh x;
}.

Lemma calm_start : wf_machine m0 → watching m0 = true → ctx_done m0 = false → calm m0.
Proof. intros Hwf Hw Hc. split; try done; [by right|by left|by left]. Qed.

(** A goroutine moved, the rest as before. *)
Lemma in_flight_insert m q evs i pc b c s x :
  in_flight (mkMachine q evs (<[i := pc]> (pc_of m)) b c s) x →
  pc = RReplace x ∨ in_flight m x.
Proof.
  intros [j Hj]. cbn in Hj. destruct (decide (i = j)) as [->|Hij].
  - rewrite fn_lookup_insert in Hj. by left.
  - rewrite fn_lookup_insert_ne in Hj by done. right. by exists j.
Qed.

Lemma in_flight_other m q evs i pc b c s x :
  (∀ nrs, pc_of m i ≠ RReplace nrs) → in_flight m x →
  in_flight (mkMachine q evs (<[i := pc]> (pc_of m)) b c s) x.
Proof.
  intros Hi [j Hj]. exists j. cbn. rewrite fn_lookup_insert_ne; [done|]. intros ->. by apply (Hi x).
Qed.

Lemma due_other m i pc s :
  pc_of m i ≠ RLoad → due m →
  due (mkMachine (hup_slot m) (fs_queue m) (<[i := pc]> (pc_of m)) (watching m) (ctx_done m) s).
Proof.
  intros Hi. unfold due. cbn. intros [?|[Hj|[Hj|?]]]; [by left|right; left|right; right; left|by do 3 right];
    rewrite fn_lookup_insert_ne; (done || by intros ->).
Qed.

Lemma due_received m ev evs c :
  pc_of m Watch = RDone → fs_queue m = ev :: evs → due m →
  due (mkMachine (hup_slot m) evs (<[Watch := on_event w (λ _ _, RLoad) ev RDone]> (pc_of m)) true c (common m)).
Proof.
  intros Hi Hq. unfold due. cbn [hup_slot fs_queue pc_of watching].
  rewrite fn_lookup_insert, fn_lookup_insert_ne, Hi, Hq, on_event_pc by done.
  intros [?|[?|[?|(_ & ev' & [->|Hin]%elem_of_cons & Hr)]]]; [by left|by right; left|done|..].
  - right. right. left. by rewrite Hr.
  - right. right. right. split; [done|]. by exists ev'.
Qed.

Lemma calm_go m m' : calm m → go_step m m' → calm m'.
Proof.
  intros [Hwf Ha [Hw Hc] Hfl Hst Hdue] Hgo.
  assert (wf_machine m') as Hwf' by (eapply wf_step; [by left; left|done]).
  destruct Hgo as [m i pc s Hi Hs|m Hi Hslot|m ev evs Hi Hw' Hq|m Hi Hw' Hc']; [| | |congruence].
  - destruct Hwf as [Hst0 Hpc].
    destruct (reload_step_spec _ _ (Hpc i) Hst0) as (pc' & s' & Hs' & _ & _ & Ha' & Heff).
    rewrite Hs in Hs'. injection Hs' as <- <-.
    split; cbn [common watching ctx_done]; try done; [by rewrite Ha'|..].
    + intros x [->|Hx]%in_flight_insert; [|by apply Hfl].
      destruct (pc_of m i) as [| |nrs|nrs|nrs|] eqn:Hpci; try by destruct Heff.
      destruct Heff as [_ Heff]. rewrite Ha in Heff. left. by case_match; simplify_eq.
    + destruct (pc_of m i) as [| |nrs|nrs|nrs|] eqn:Hpci; destruct Heff as [Hs' _]; try by rewrite Hs'.
      right. exists nrs. split; [done|]. apply Hfl. by exists i.
    + intros rs Hd Hl. specialize (Hdue rs Hd Hl).
      destruct (pc_of m i) as [| |nrs|nrs|nrs|] eqn:Hpci; destruct Heff as [Hs' Heff].
      1: { right. left. exists rs, i. cbn. by rewrite fn_lookup_insert, Heff, Ha, Hl. }
      2: { right. right. exists nrs. split; [done|]. apply Hfl. by exists i. }
      all: rewrite Hs'; destruct Hdue as [?|[[x ?]|?]]; [left|right; left|by right; right].
      all: try (by apply due_other; [rewrite Hpci|]).
      all: exists x; apply in_flight_other; [by rewrite Hpci|done].
  - split; cbn [common watching ctx_done]; try done.
    + intros x [|Hx]%in_flight_insert; [done|by apply Hfl].
    + intros rs _ _. left. right. left. cbn. by rewrite fn_lookup_insert.
  - split; cbn [common watching ctx_done]; try done.
    + intros x [Hx|Hx]%in_flight_insert; [|by apply Hfl]. rewrite on_event_pc in Hx. by case_match.
    + intros rs Hd Hl. destruct (Hdue rs Hd Hl) as [Hdm|[[x Hx]|?]]; [|right; left|by right; right].
      * left. by eapply due_received.
      * exists x. apply in_flight_other; [by rewrite Hi|done].
Qed.

Lemma calm_calm m m' : calm m → calm_step m m' → calm m'.
Proof.
  intros [Hwf Ha Hw Hfl Hst Hdue] Hc. assert (wf_machine m') as Hwf' by (eapply wf_step; [by left; right|done]).
  destruct Hc as [m|m ev]; split; cbn [common watching ctx_done]; try done.
  - intros rs _ _. left. by left.
  - intros rs Hd Hl. destruct (Hdue rs Hd Hl) as [Hdm|?]; [left|by right].
    destruct Hdm as [?|[?|[?|(Hwa & ev' & Hin & Hr)]]]; [by left|by right; left|by right; right; left|].
    do 3 right. split; [done|]. exists ev'. split; [|done]. apply elem_of_app. by left.
Qed.

(** Everything that can happen without a change of the file or a stop. *)
Lemma calm_run m : calm m0 → rtc still_step m0 m → calm m.
Proof.
  intros Hc Hr. eapply rtc_preserves; [|exact Hc|exact Hr].
  intros a b Ha [Hgo|Hcalm]; [by eapply calm_go|by eapply calm_calm].
Qed.

(** At rest, the rules are those of the file, or were already read. *)
Lemma calm_settled m :
  calm m → settled m →
  (Get (sh_store (common m)) = Get (sh_store (common m0)) ∨
    ∃ x, Get (sh_store (common m)) = Some x ∧ fresh x) ∧
  (∀ rs, due m0 → loads "" (answer (common m0)) = Some rs →
    ∃ x, Get (sh_store (common m)) = Some x ∧ fresh x).
Proof.
  intros [Hwf Ha [Hw Hcd] Hfl Hst Hdue] (Hpc & Hslot & Hq). split; [done|]. intros rs Hd Hl.
  destruct (Hdue rs Hd Hl) as [Hdm|[[x [i Hx]]|?]]; [|by rewrite Hpc in Hx|done].
  destruct (Hq Hw) as [Hq' _]. destruct Hdm as [Hs|[Hs|[Hs|(_ & ev & Hin & _)]]].
  - congruence.
  - by rewrite Hpc in Hs.
  - by rewrite Hpc in Hs.
  - rewrite Hq' in Hin. by apply not_elem_of_nil in Hin.
Qed.

End calm.

End machine.

(** ** Properties *)

Section properties.
Context {yaml : YAML} {print : PrintTable}.

(** C10: reloads settle. From any state the two goroutines, the signals, the
    notifications and the writers of the file can reach: without new events both
    goroutines are back at waiting after a bounded number of steps, and neither
    is ever stuck. While the file does not change and the daemon is not stopped,
    signals coalesce in the one slot and notifications queue up; once all is
    quiet, if a reason to reload was pending and the file loads, the store has
    the file's rules, or rules that a goroutine had read from an earlier content
    and not yet stored: with none of those in flight, exactly the file's rules.
    If the file does not load, or nothing was pending, the rules stay. *)
Theorem reload_settles w a st ms m :
  store_ok st → rtc (any_step w) (machine_start a st ms) m →
  (∀ n m', nsteps (go_step w) n m m' → (n ≤ cost m)%nat) ∧
  (∃ m', rtc (go_step w) m m' ∧ settled m') ∧
  (watching m = true → ctx_done m = false → ∀ m', rtc (still_step w) m m' → settled m' →
    (Get (sh_store (common m')) = Get (sh_store (common m)) ∨
      ∃ x, Get (sh_store (common m')) = Some x ∧ fresh m x) ∧
    ∀ rs, due w m → loads "" (answer (common m)) = Some rs →
      (∃ x, Get (sh_store (common m')) = Some x ∧ (x = rs ∨ in_flight m x)) ∧
      ((∀ x, ¬ in_flight m x) → Get (sh_store (common m')) = Some rs)).
Proof.
  intros Hst Hr.
  assert (wf_machine m) as Hwf.
  { eapply rtc_preserves; [|by apply (wf_start a st ms)|exact Hr]. intros. by eapply wf_step. }
  assert (∀ m m', wf_machine m → go_step w m m' → wf_machine m' ∧ (cost m' < cost m)%nat) as Hdec.
  { intros m1 m2 H1 H2. split; [eapply wf_step; [left; left; exact H2|done]|by eapply go_step_cost]. }
  split; [|split].
  - intros n m' Hn. pose proof (nsteps_measure _ _ cost n m m' Hdec Hwf Hn). lia.
  - eapply (measure_reaches_nf _ wf_machine settled cost m Hdec); [|done]. intros. by apply go_progress.
  - intros Hw Hc m' Hm' Hset.
    destruct (calm_settled w m m' (calm_run w m m' (calm_start w m Hwf Hw Hc) Hm') Hset) as [Hold Hfresh].
    split; [done|]. intros rs Hd Hl. destruct (Hfresh rs Hd Hl) as (x & Hx & [Hf|Hf]); rewrite Hl in *; simplify_eq.
    + split; [exists x; split; [done|by left]|done].
    + split; [exists x; split; [done|by right]|]. intros Hno. by destruct (Hno x).
Qed.

End properties.

(** ** An instance *)

#[local] Existing Instances sample_yaml no_table.

(** Two signals while nothing runs: one reload, of the file as it is. *)
Lemma reload_settles_witness :
  let w := mkWatcher "/etc/r/rules.yaml" "/etc/r" "rules.yaml" in
  let m0 := machine_start (Ok [Byte.x01]) NewStore [] in
  let m := mkMachine true [] (λ _, RDone) true false (common m0) in
  ∃ rs, loads "" (Ok [Byte.x01]) = Some rs ∧ rtc (any_step w) m0 m ∧
    ∃ m', rtc (go_step w) m m' ∧ settled m' ∧ Get (sh_store (common m')) = Some rs.
Proof.
  intros w m0 m. eexists. split; [vm_compute; reflexivity|].
  assert (rtc (any_step w) m0 m) as Hr.
  { eapply rtc_l; [left; right; apply signal_arrives|]. eapply rtc_once. left. right.
    apply (signal_arrives m). }
  split; [exact Hr|].
  destruct (reload_settles w (Ok [Byte.x01]) NewStore [] m store_ok_New Hr) as (_ & (m' & Hm' & Hset) & Hcalm).
  exists m'. split; [exact Hm'|]. split; [exact Hset|].
  assert (rtc (still_step w) m m') as Hstill.
  { clear -Hm'. induction Hm' as [|x y z Hxy _ IH]; [constructor|]. eapply rtc_l; [left; exact Hxy|exact IH]. }
  destruct (Hcalm eq_refl eq_refl m' Hstill Hset) as [_ Hdue].
  refine (proj2 (Hdue _ (or_introl eq_refl) _) _); [vm_compute; reflexivity|].
  intros x [i Hi]. discriminate.
Defined.
