(* ===== verification/Main.v ===== *)
(** * Start-up and shutdown ([cmd/dns2ipset/main.go], [main], [newLogger])

    [main] is a sequence of fallible steps with deferred clean-up. The model is a
    function from the flags and the answers of the system to the exit code, the
    daemon's state when the pipeline starts, and the trace of what [main] did:
    resources, goroutines, routes of the metrics server, signals, log lines. The
    flags are those [flag.Parse] leaves. The pipeline itself, and the goroutines
    that reload, are modelled in [Daemon] and [Reloaders]; what the goroutines do,
    such as the loader's closing the reader when the context is done, is not part
    of this trace. *)

From S2P Require Import Prelude GoBytes GoUnicode GoStrings GoPath Trie Rules Store Watcher Source Metrics.
From S2P Require Import BpfEvent Loader Dedup DnsParse Ipset Pipeline Daemon.
#[local] Open Scope Z_scope.

(** ** Flags and logging *)

Record flags := mkFlags {
  rulesPath : string;
  ttlMin : Z;
  ttlMax : Z;
  metricsAddr : string;
  logLevel : string;
  dedupWindow : Z;
}.

Definition default_flags : flags :=
  mkFlags "/etc/dns2ipset/rules.yaml" (60 * Second) (168 * Hour) "" "info" (200 * Millisecond).

Definition newLogger (l : string) : level :=
  if String.eqb l "debug" then LevelDebug
  else if String.eqb l "warn" then LevelWarn
  else if String.eqb l "error" then LevelError
  else LevelInfo.

(** ** What [main] does *)

Inductive signal := SIGTERM | SIGINT | SIGHUP.
Inductive goroutine := HupLoop | WatchLoop | Serve (addr : string).

Inductive main_op :=
| SetLogger (l : level)
| FsOp (c : fs_call)
| BpfOp (o : res_op)
| Notify (sigs : list signal)
| Route (pattern : string)
| Go (g : goroutine)
| RunPipeline (cfg : Config)
| ShutdownServer
| CancelContext
| CloseClient
| LogLine (l : level) (msg : string).

(** What the system answers during start-up, the number of processors Go uses,
    and what [pl.Run] returns. *)
Record system := mkSystem {
  sys_ReadFile : string → result string (list Byte.byte);
  sys_Abs : string → result string string;
  sys_fsnotify : option string;
  sys_watch : string → option string;
  sys_bpf : library;
  sys_procs : Z;
  sys_run : option string;
}.

Inductive outcome := Exit (code : Z) | Panic.

(** The metrics server, when an address is given: the routes of its mux and the
    goroutine, and the deferred shutdown. *)
Definition metrics_routes : list string :=
  ["/metrics"; "/debug/pprof/"; "/debug/pprof/cmdline"; "/debug/pprof/profile";
   "/debug/pprof/symbol"; "/debug/pprof/trace"].

Definition serve_metrics (addr : string) : list main_op * list main_op :=
  if String.eqb addr "" then ([], [])
  else ((Route <$> metrics_routes) ++ [Go (Serve addr)], [ShutdownServer]).

(** The lines its goroutine logs; [err] is what [ListenAndServe] returns. *)
Definition ErrServerClosed : string := "http: Server closed".
Definition serve_log (err : option string) : list (level * string) :=
  (LevelInfo, "metrics listening") ::
  match err with
  | None => []
  | Some e => if String.eqb e ErrServerClosed then [] else [(LevelError, "metrics server")]
  end.

(** The configuration of the pipeline. *)
Definition pipeline_config (f : flags) (sys : system) : Config :=
  Pipeline.New (mkConfig (sys_procs sys) (ttlMin f) (ttlMax f) true).

Section main.
Context {yaml : YAML} {print : PrintTable} {D : Type} {lru : LRU D}.

(** [os.Exit] runs no deferred call; the normal return runs them last to first. *)
Definition main (f : flags) (sys : system) : outcome * option daemon * list main_op :=
  let t0 := [SetLogger (newLogger (logLevel f))] in
  match Load (sys_ReadFile sys) (rulesPath f) with
  | Err _ => (Exit 2, None, t0 ++ [LogLine LevelError "initial rules load"])
  | Ok rs =>
    match Replace (Some rs) NewStore with
    | None => (Panic, None, t0)
    | Some store =>
      let s := mkDaemon store [Set_ RulesActive (Z.of_nat (length (Rules rs)))] [] in
      let '(watcher, calls) :=
        NewWatcher (sys_Abs sys (rulesPath f)) (sys_fsnotify sys) (sys_watch sys) in
      let t1 := t0 ++ (FsOp <$> calls) in
      match watcher with
      | Err _ => (Exit 2, None, t1 ++ [LogLine LevelError "rules watcher"])
      | Ok watcher =>
        match Dedup.New (C := D) 4096 (dedupWindow f) with
        | Err _ => (Exit 2, None, t1 ++ [LogLine LevelError "dedup"])
        | Ok _ =>
          let '(loader, ops) := Loader.New (sys_bpf sys) (Some tt) in
          let t2 := t1 ++ (BpfOp <$> ops) in
          match loader with
          | Err _ => (Exit 2, None, t2 ++ [LogLine LevelError "bpf load"])
          | Ok loader =>
            let '(serving, shutdown) := serve_metrics (metricsAddr f) in
            let t3 := t2 ++ [Notify [SIGTERM; SIGINT]; Notify [SIGHUP]; Go HupLoop; Go WatchLoop]
                      ++ serving
                      ++ [LogLine LevelInfo "dns2ipset starting"; RunPipeline (pipeline_config f sys)] in
            match sys_run sys with
            | Some _ => (Exit 1, Some s, t3 ++ [LogLine LevelError "pipeline exited"])
            | None =>
              (Exit 0, Some s,
               t3 ++ [LogLine LevelInfo "dns2ipset stopped"] ++ shutdown ++ [CancelContext]
               ++ (BpfOp <$> Loader.Close loader) ++ [CloseClient] ++ (FsOp <$> Watcher.Close watcher))
            end
          end
        end
      end
    end
  end.

End main.

(** ** Specification *)

(** The BPF resources in a trace. *)
Definition bpf_ops : list main_op → list res_op :=
  omap (λ o, match o with BpfOp r => Some r | _ => None end).

(** The calls that give something back. *)
Definition releases (o : main_op) : bool :=
  match o with
  | FsOp FsClose | BpfOp (Closed _) | ShutdownServer | CancelContext | CloseClient => true
  | _ => false
  end.

Section startup.
Context {yaml : YAML} {print : PrintTable} {D : Type} {lru : LRU D} {laws : LRULaws D}.

(** Everything [main] needs before the pipeline can run. *)
Definition can_start (f : flags) (sys : system) : Prop :=
  is_ok (Load (sys_ReadFile sys) (rulesPath f)) = true ∧
  is_ok (NewWatcher (sys_Abs sys (rulesPath f)) (sys_fsnotify sys) (sys_watch sys)).1 = true ∧
  omap id (attempts (sys_bpf sys)) = [].

(** [Loader.New] succeeds exactly when none of its calls fails. *)
Lemma New_attempts {M} (lib : library) (m : option M) :
  match Loader.New lib m with
  | (Ok l, trace) => omap id (attempts lib) = [] ∧
      trace = [Opened BpfObjects; Opened SendLink; Opened RecvLink; Opened Reader] ∧
      Loader.Close l = [Closed Reader; Closed SendLink; Closed RecvLink; Closed BpfObjects]
  | (Err _, trace) => omap id (attempts lib) ≠ [] ∧ live trace = []
  end.
Proof. unfold Loader.New, attempts. destruct lib as [[] [] [] [] []]; by split_and!. Qed.

Lemma NewWatcher_calls abs open add :
  match NewWatcher abs open add with
  | (Ok w, calls) => calls = [FsOpen; FsAdd (w_dir w)]
  | (Err _, calls) => calls = [] ∨ ∃ dir, calls = [FsOpen; FsAdd dir; FsClose]
  end.
Proof.
  unfold NewWatcher. destruct abs as [p|]; [|by left]. destruct (PathSplit p) as [dir target].
  destruct open; [by left|]. destruct (add (Clean dir)); [right; eauto|done].
Qed.

(** The trace of [main] on each of its ways. *)
Definition started (f : flags) (sys : system) (dir : string) : list main_op :=
  [SetLogger (newLogger (logLevel f)); FsOp FsOpen; FsOp (FsAdd dir)]
  ++ (BpfOp <$> [Opened BpfObjects; Opened SendLink; Opened RecvLink; Opened Reader])
  ++ [Notify [SIGTERM; SIGINT]; Notify [SIGHUP]; Go HupLoop; Go WatchLoop]
  ++ (serve_metrics (metricsAddr f)).1
  ++ [LogLine LevelInfo "dns2ipset starting"; RunPipeline (pipeline_config f sys)].

Definition stopped (f : flags) : list main_op :=
  [LogLine LevelInfo "dns2ipset stopped"] ++ (serve_metrics (metricsAddr f)).2 ++ [CancelContext]
  ++ (BpfOp <$> [Closed Reader; Closed SendLink; Closed RecvLink; Closed BpfObjects])
  ++ [CloseClient; FsOp FsClose].

Definition failed_start (f : flags) (trace : list main_op) : Prop :=
  ∃ calls ops msg, trace = [SetLogger (newLogger (logLevel f))] ++ (FsOp <$> calls) ++ (BpfOp <$> ops)
    ++ [LogLine LevelError msg] ∧ live ops = [].

Lemma main_cases f sys :
  let '(out, s, trace) := main (D := D) f sys in
  (¬ can_start f sys ∧ out = Exit 2 ∧ s = None ∧ failed_start f trace ∧
    (is_ok (Load (sys_ReadFile sys) (rulesPath f)) = false → bpf_ops trace = [])) ∨
  (can_start f sys ∧
    (∃ rs d, Load (sys_ReadFile sys) (rulesPath f) = Ok rs ∧ s = Some d ∧ store_ok (dm_store d) ∧
      Get (dm_store d) = Some rs ∧
      gauge RulesActive (dm_metrics d) = Some (Z.of_nat (length (Rules rs)))) ∧
    ∃ dir, match sys_run sys with
      | Some _ => out = Exit 1 ∧ trace = started f sys dir ++ [LogLine LevelError "pipeline exited"]
      | None => out = Exit 0 ∧ trace = started f sys dir ++ stopped f
      end).
Proof.
  unfold main, can_start, failed_start. destruct (Load (sys_ReadFile sys) (rulesPath f)) as [rs|e] eqn:Hload.
  2:{ left. split; [by intros [? _]|]. do 2 (split; [done|]). split; [|done]. by exists [], [], "initial rules load". }
  destruct (Replace_ok rs NewStore (Load_loaded _ _ _ Hload)) as (st & -> & Hok & Hget).
  pose proof (NewWatcher_calls (sys_Abs sys (rulesPath f)) (sys_fsnotify sys) (sys_watch sys)) as Hcalls.
  destruct (NewWatcher _ _ _) as [[w|e] calls].
  2:{ left. split; [by intros (_ & ? & _)|]. do 2 (split; [done|]). split; [|done].
      exists calls, [], "rules watcher". by rewrite <-app_assoc. }
  destruct (lru_New_ok (C := D) 4096 eq_refl) as (c & Hc & _).
  unfold Dedup.New. rewrite Hc.
  pose proof (New_attempts (sys_bpf sys) (Some tt)) as Hnew.
  destruct (Loader.New (sys_bpf sys) (Some tt)) as [[l|e] ops].
  2:{ destruct Hnew as [Hatt Hlive]. left. split; [by intros (_ & _ & ?)|]. do 2 (split; [done|]). split; [|done].
      exists calls, ops, "bpf load". by rewrite <-!app_assoc. }
  destruct Hnew as (Hatt & -> & Hclose). unfold started, stopped.
  destruct (serve_metrics (metricsAddr f)) as [serving shutdown], (sys_run sys); right;
    (split; [done|]); (split; [by eexists rs, _; split_and!|]);
    exists (w_dir w); rewrite Hcalls; (split; [done|]); cbn [fst snd]; rewrite ?Hclose; by rewrite <-!app_assoc.
Qed.

End startup.

(** ** Properties *)

Lemma bpf_ops_app t1 t2 : bpf_ops (t1 ++ t2) = bpf_ops t1 ++ bpf_ops t2.
Proof. apply omap_app. Qed.

Lemma bpf_ops_of ops : bpf_ops (BpfOp <$> ops) = ops.
Proof. induction ops as [|o ops IH]; [done|]. cbn. by rewrite <-IH at 2. Qed.

Lemma bpf_ops_failed f trace : failed_start f trace → live (bpf_ops trace) = [].
Proof.
  intros (calls & ops & msg & -> & Hlive). rewrite !bpf_ops_app.
  assert (bpf_ops (FsOp <$> calls) = []) as -> by (by induction calls).
  rewrite bpf_ops_of.
  by rewrite app_nil_r.
Qed.

(** The pipelines run, the servers started and the routes of a trace. *)
Definition pipelines : list main_op → list Config :=
  omap (λ o, match o with RunPipeline c => Some c | _ => None end).
Definition servers : list main_op → list string :=
  omap (λ o, match o with Go (Serve a) => Some a | _ => None end).
Definition routes : list main_op → list string :=
  omap (λ o, match o with Route p => Some p | _ => None end).

Lemma elem_of_pipelines c t : RunPipeline c ∈ t ↔ c ∈ pipelines t.
Proof.
  unfold pipelines. rewrite list_elem_of_omap. split; [by exists (RunPipeline c)|].
  intros ([] & ? & [=]); by subst.
Qed.
Lemma elem_of_servers a t : Go (Serve a) ∈ t ↔ a ∈ servers t.
Proof.
  unfold servers. rewrite list_elem_of_omap. split; [by exists (Go (Serve a))|].
  intros ([| | | | |[]| | | | |] & ? & [=]); by subst.
Qed.

(** Every goroutine of a trace is started with all BPF resources open. *)
Fixpoint go_open (ops : list res_op) (t : list main_op) : bool :=
  match t with
  | [] => true
  | Go _ :: t => bool_decide (live ops = [BpfObjects; SendLink; RecvLink; Reader]) && go_open ops t
  | BpfOp o :: t => go_open (ops ++ [o]) t
  | _ :: t => go_open ops t
  end.

Lemma go_open_sound ops pre g post :
  go_open ops (pre ++ Go g :: post) = true → live (ops ++ bpf_ops pre) = [BpfObjects; SendLink; RecvLink; Reader].
Proof.
  revert ops. induction pre as [|o pre IH]; intros ops; cbn [go_open app].
  - intros [H _]%andb_prop. apply bool_decide_eq_true in H. by rewrite app_nil_r.
  - destruct o; try apply IH.
    + intros H. specialize (IH _ H). by rewrite <-app_assoc in IH.
    + intros [_ H]%andb_prop. by apply IH.
Qed.

Lemma failed_start_none f trace :
  failed_start f trace →
  pipelines trace = [] ∧ servers trace = [] ∧ routes trace = [] ∧ ∀ g, Go g ∉ trace.
Proof.
  intros (calls & ops & msg & -> & _). unfold pipelines, servers, routes.
  rewrite !omap_app, !omap_fmap.
  assert (∀ {A B} (l : list A), omap (λ _ : A, @None B) l = []) as Hnone by (intros A B l; by induction l).
  rewrite !Hnone. split_and!; try done. intros g.
  rewrite !elem_of_app, !list_elem_of_singleton, !list_elem_of_fmap. naive_solver.
Qed.

Section properties.
Context {yaml : YAML} {print : PrintTable} {D : Type} {lru : LRU D} {laws : LRULaws D}.

(** C25: [main] never panics. It exits with 2 exactly when the initial rules do not
    load, the watcher cannot be set up or a BPF resource cannot be acquired, and
    then the pipeline never started and no BPF resource is left open; otherwise
    the pipeline starts with the loaded rules in the store and their number on
    the gauge, and the exit code is 1 or 0 by what the pipeline returns; after a
    normal end every BPF resource is closed. BPF is not touched before the rules
    are known to be valid. *)
Theorem main_outcome f sys :
  let '(out, s, trace) := main (D := D) f sys in
  (¬ can_start f sys → out = Exit 2 ∧ s = None ∧ live (bpf_ops trace) = []) ∧
  (can_start f sys →
    out = Exit (if sys_run sys is Some _ then 1 else 0) ∧
    ∃ rs d, Load (sys_ReadFile sys) (rulesPath f) = Ok rs ∧ s = Some d ∧ store_ok (dm_store d) ∧
      Get (dm_store d) = Some rs ∧
      gauge RulesActive (dm_metrics d) = Some (Z.of_nat (length (Rules rs)))) ∧
  (out = Exit 0 → live (bpf_ops trace) = []) ∧
  (is_ok (Load (sys_ReadFile sys) (rulesPath f)) = false → bpf_ops trace = []).
Proof.
  pose proof (main_cases (D := D) f sys) as H. destruct (main f sys) as [[out s] trace].
  destruct H as [(Hn & -> & -> & Hf & Hl)|(Hc & Hs & dir & Hrun)].
  - split; [intros _; do 2 (split; [done|]); by apply bpf_ops_failed in Hf|]. done.
  - split; [done|]. split.
    { intros _. split; [|done]. by destruct (sys_run sys), Hrun as [-> _]. }
    split; [|destruct Hc as [Hc _]; by rewrite Hc].
    destruct (sys_run sys), Hrun as [-> ->]; [done|]. intros _.
    unfold started, stopped, serve_metrics. by destruct (String.eqb (metricsAddr f) "").
Qed.

(** C24: what [main] starts and gives back, and when. The pipeline runs exactly when
    everything could be acquired, with at least one worker and the bounds of the
    flags. A goroutine is started only while all BPF resources are open and never
    before the pipeline's start is certain; the metrics server runs exactly when
    an address is given, and its routes are distinct, so that the mux accepts
    them. A normal end gives everything back in the opposite order (the server,
    the signals, BPF, the client, the watcher), each once in [main]; an exit after the
    start gives nothing back, since [os.Exit] skips the deferred calls. *)
Theorem main_effects f sys :
  let '(out, s, trace) := main (D := D) f sys in
  (∀ cfg, RunPipeline cfg ∈ trace ↔ can_start f sys ∧ cfg = pipeline_config f sys) ∧
  1 ≤ Workers (pipeline_config f sys) ∧
  TTLMin (pipeline_config f sys) = ttlMin f ∧ TTLMax (pipeline_config f sys) = ttlMax f ∧
  (∀ pre g post, trace = pre ++ Go g :: post →
    can_start f sys ∧ live (bpf_ops pre) = [BpfObjects; SendLink; RecvLink; Reader]) ∧
  (∀ addr, Go (Serve addr) ∈ trace ↔ can_start f sys ∧ addr = metricsAddr f ∧ addr ≠ "") ∧
  NoDup (routes trace) ∧
  (can_start f sys → filter (λ o, releases o = true) trace =
    match sys_run sys with
    | Some _ => []
    | None => (if String.eqb (metricsAddr f) "" then [] else [ShutdownServer]) ++
        [CancelContext; BpfOp (Closed Reader); BpfOp (Closed SendLink); BpfOp (Closed RecvLink);
         BpfOp (Closed BpfObjects); CloseClient; FsOp FsClose]
    end).
Proof.
  pose proof (main_cases (D := D) f sys) as H. destruct (main f sys) as [[out s] trace].
  assert (1 ≤ Workers (pipeline_config f sys)) as Hw.
  { unfold pipeline_config, Pipeline.New. cbn [Workers].
    destruct (sys_procs sys <=? 0) eqn:Hle; cbn [Workers]; bool_to_prop; lia. }
  assert (TTLMin (pipeline_config f sys) = ttlMin f ∧ TTLMax (pipeline_config f sys) = ttlMax f) as [Hmin Hmax].
  { unfold pipeline_config, Pipeline.New. by destruct (Workers _ <=? 0). }
  setoid_rewrite elem_of_pipelines. setoid_rewrite elem_of_servers.
  destruct H as [(Hn & -> & -> & Hf & _)|(Hc & _ & dir & Hrun)].
  { destruct (failed_start_none _ _ Hf) as (-> & -> & -> & Hgo).
    split_and!; try done.
    - intros c. rewrite elem_of_nil. naive_solver.
    - intros pre g post ->. destruct (Hgo g). apply elem_of_app. right. left.
    - intros addr. rewrite elem_of_nil. naive_solver.
    - constructor. }
  assert (pipelines trace = [pipeline_config f sys] ∧
    servers trace = (if String.eqb (metricsAddr f) "" then [] else [metricsAddr f]) ∧
    routes trace = (if String.eqb (metricsAddr f) "" then [] else metrics_routes) ∧
    go_open [] trace = true) as (-> & -> & -> & Hgo).
  { unfold started, stopped, serve_metrics in Hrun.
    destruct (sys_run sys), Hrun as [_ ->], (String.eqb (metricsAddr f) ""); by split_and!. }
  split_and!; try done.
  - intros c. rewrite list_elem_of_singleton. tauto.
  - intros pre g post ->. split; [done|]. by apply (go_open_sound [] pre g post).
  - intros addr. destruct (String.eqb_spec (metricsAddr f) "") as [E|E].
    + rewrite elem_of_nil, E. naive_solver.
    + rewrite list_elem_of_singleton. naive_solver.
  - destruct (String.eqb (metricsAddr f) ""); [constructor|]. by apply (bool_decide_unpack _).
  - intros _. unfold started, stopped, serve_metrics in Hrun.
    by destruct (sys_run sys), Hrun as [_ ->], (String.eqb (metricsAddr f) "").
Qed.

End properties.
